(** * Warthog: hierarchical shortest-path search

    A shallow embedding of the parts of the warthog sources that the
    specification talks about:

    - [fch_down_dfs_expansion_policy.cpp]: the rank-biased expansion policy,
      its start/target generation, the 32-byte first-move bitset and the
      hook that maintains it during the Dijkstra search from the apex;
    - [flexible_astar.h]: the best-first search engine;
    - [down_dfs_labelling.cpp]: the DFS-interval label builder
      ([compute_labels]) and its refinement pass ([improve_labels]).

    Conventions.  Node ids and edge indices are [nat]; machine integers are
    [Z] with the truncation written out where the source truncates.  g- and
    f-values are [double] in the source; every value the engine stores is a
    sum of [uint32_t] edge weights and heuristic values, and the model keeps
    them as integers in [Z] (the comparisons [<] and [==] are the only
    operations the modelled code performs on them besides [+]).
    [std::vector::at] throws on a bad index and a raw [[]] or a null
    dereference is undefined: both are the outcome [Fault]. *)

From Stdlib Require Import ZArith Lia Bool.
From Stdlib Require Import Sorted.
From stdpp Require Import base tactics option list numbers gmap.

Local Open Scope Z_scope.

(** ** Outcomes of modelled code *)

Inductive outcome (A : Type) : Type :=
| Done (a : A)
| Fault
| OutOfFuel.

Arguments Done {A} a.
Arguments Fault {A}.
Arguments OutOfFuel {A}.

Definition obind {A B : Type} (m : outcome A) (k : A -> outcome B) : outcome B :=
  match m with
  | Done a => k a
  | Fault => Fault
  | OutOfFuel => OutOfFuel
  end.

Notation "'do' x <- m ; k" := (obind m (fun x => k))
  (at level 10, x pattern, m at level 100, k at level 200).

(** [v.at(i)]: a checked read. *)
Definition at_ {A : Type} (v : list A) (i : nat) : outcome A :=
  match v !! i with
  | Some a => Done a
  | None => Fault
  end.

(** [v.at(i) = x]: a checked write. *)
Definition set_at {A : Type} (v : list A) (i : nat) (x : A) : outcome (list A) :=
  if decide (i < length v)%nat then Done (<[i := x]> v) else Fault.

Definition INF : Z := 4294967295.          (* warthog::INF, UINT32_MAX *)
Definition INT32_MAX : Z := 2147483647.
Definition INT32_MIN : Z := -2147483648.

(** Conversion of a value to [uint8_t]. *)
Definition u8 (z : Z) : Z := Z.land z 255.

(** ** The first-move bitset ([fm_label], fch_down_dfs_expansion_policy.cpp) *)

Module FirstMove.

Definition FM_BYTES : nat := 32.

(** [uint8_t lab_[FM_BYTES]] *)
Abbreviation fm_label := (list Z) (only parsing).

Definition byte_at (l : fm_label) (i : nat) : Z := nth i l 0.

(** The constructor zeroes every byte. *)
Definition fm_zero : fm_label := replicate FM_BYTES 0.

(** [add]: [lab_[move_id / 8] |= (1 << (move_id % 8))].  The array has
    [FM_BYTES] cells; an index beyond them is an out-of-bounds write. *)
Definition add (l : fm_label) (move_id : nat) : outcome fm_label :=
  let fm_byte := (move_id / 8)%nat in
  let fm_bit := (move_id mod 8)%nat in
  if decide (fm_byte < FM_BYTES)%nat
  then Done (<[fm_byte := u8 (Z.lor (byte_at l fm_byte) (Z.shiftl 1 (Z.of_nat fm_bit)))]> l)
  else Fault.

(** [cup]: [for i < FM_BYTES: lab_[i] |= other.lab_[i]]. *)
Definition cup (l other : fm_label) : fm_label :=
  (fun i => u8 (Z.lor (byte_at l i) (byte_at other i))) <$> seq 0 FM_BYTES.

(** [intersect]: the bytewise conjunctions are accumulated into one
    [uint8_t], which is then converted to [bool]. *)
Definition intersect (l other : fm_label) : bool :=
  let retval :=
    foldl (fun r i => u8 (Z.lor r (Z.land (byte_at l i) (byte_at other i))))
          0 (seq 0 FM_BYTES) in
  negb (retval =? 0).

(** Lines 265-268: every byte of the apex's own bitset is set to 255. *)
Definition fm_full : fm_label := replicate FM_BYTES 255.

(** Bit [j] of a label, the way [add] addresses it. *)
Definition bit (l : fm_label) (j : nat) : bool :=
  Z.testbit (byte_at l (j / 8)) (Z.of_nat (j mod 8)).

End FirstMove.

(** ** The graph adapter (external: planar_graph.h is consumed, not modelled)

    Only what the modelled code reads: per-node outgoing edges in their
    stored order, coordinates, and the translation of external ids, which
    answers [warthog::INF] for an id it does not know. *)

Module Graph.

Record edge : Type := { node_id_ : nat; wt_ : Z }.

Record node : Type := { outgoing : list edge }.

Record planar_graph : Type := {
  nodes : list node;
  to_graph_id : Z -> Z;
  get_xy : Z -> Z * Z
}.

Definition get_num_nodes (g : planar_graph) : nat := length (nodes g).

(** [g->get_node(id)]: unchecked pointer arithmetic in the source. *)
Definition get_node (g : planar_graph) (id : nat) : outcome node := at_ (nodes g) id.

Definition out_degree (n : node) : nat := length (outgoing n).

End Graph.

(** ** Search nodes and query instances *)

(** Modelled from the spec: search_node.h and problem_instance.h are not
    among the sources.  A search node holds its id, g, f, a reference to its
    best-known predecessor (an id here, [None] for the null pointer), the
    expanded flag and the stamp of the episode that last touched it.
    [init] stamps the node and clears the flag; [relax] lowers g, keeps the
    heuristic part of f and redirects the predecessor. *)
Record search_node : Type := {
  id : nat;
  g : Z;
  f : Z;
  parent : option nat;
  expanded : bool;
  search_id : Z
}.

Definition init (n : search_node) (sid : Z) (p : option nat) (gv fv : Z) : search_node :=
  {| id := id n; g := gv; f := fv; parent := p; expanded := false; search_id := sid |}.

Definition relax (n : search_node) (gv : Z) (p : nat) : search_node :=
  {| id := id n; g := gv; f := (f n - g n) + gv; parent := Some p;
     expanded := expanded n; search_id := search_id n |}.

Definition set_expanded (n : search_node) (b : bool) : search_node :=
  {| id := id n; g := g n; f := f n; parent := parent n;
     expanded := b; search_id := search_id n |}.

Record problem_instance : Type := {
  start_id_ : Z;
  target_id_ : Z;
  instance_id_ : Z
}.

(** ** The rank-biased expansion policy (fch_down_dfs_expansion_policy.cpp) *)

Module DownDfs.
Import Graph.

Record policy : Type := {
  g_ : planar_graph;
  rank_ : list Z;
  down_heads_ : list nat;           (* uint8_t per node *)
  node_labels_ : list Z;
  s_label : Z;
  t_label : Z
}.

(** Modelled from the spec: [get_rank] is declared in the header, which is
    not among the sources.  A rank is an integer per node; it is read from
    the rank vector the constructor stores, as [rank_->at(id)]. *)
Definition get_rank (p : policy) (nid : nat) : outcome Z := at_ (rank_ p) nid.

Definition neighbour (e : edge) : nat * Z := (node_id_ e, wt_ e).

(** Line 57: [!pn || (current_rank > get_rank(pn->get_id()))]. *)
Definition up_travel (p : policy) (current : search_node) : outcome bool :=
  do current_rank <- get_rank p (id current);
  match parent current with
  | None => Done true
  | Some pn => do parent_rank <- get_rank p pn; Done (parent_rank <? current_rank)
  end.

(** Lines 60-65: every edge of the node becomes a neighbour. *)
Fixpoint up_loop (it : list edge) : list (nat * Z) :=
  match it with
  | [] => []
  | e :: it' => neighbour e :: up_loop it'
  end.

Section Expand.

(** [filter(node_id, edge_idx)] is a member declared in the header; the
    policy state is all it can read besides its two arguments. *)
Variable filter : policy -> nat -> nat -> bool.

(** Lines 69-78.  [idx] is [it - begin] after [begin] has been advanced by
    the node's split index, so it counts from the first down-edge. *)
Fixpoint down_loop (p : policy) (current_id : nat) (idx : nat) (it : list edge)
  : list (nat * Z) :=
  match it with
  | [] => []
  | e :: it' =>
      if filter p current_id idx
      then down_loop p current_id (S idx) it'
      else neighbour e :: down_loop p current_id (S idx) it'
  end.

(** [expand].  Advancing [begin] beyond [end] makes the loop run off the
    edge array; that is a [Fault]. *)
Definition expand (p : policy) (current : search_node) : outcome (list (nat * Z)) :=
  let current_id := id current in
  do up <- up_travel p current;
  do n <- get_node (g_ p) current_id;
  if (up : bool) then Done (up_loop (outgoing n))
  else
    do head <- at_ (down_heads_ p) current_id;
    if decide (head <= length (outgoing n))%nat
    then Done (down_loop p current_id 0 (drop head (outgoing n)))
    else Fault.

End Expand.

(** [generate_start_node] / [generate_target_node]: the null pointer is
    [None]; otherwise the node id and the policy with the endpoint's label
    recorded. *)
Definition generate_start_node (p : policy) (pi : problem_instance)
  : outcome (option nat * policy) :=
  let s_graph_id := to_graph_id (g_ p) (start_id_ pi) in
  if s_graph_id =? INF then Done (None, p)
  else
    do lab <- at_ (node_labels_ p) (Z.to_nat s_graph_id);
    Done (Some (Z.to_nat s_graph_id),
          {| g_ := g_ p; rank_ := rank_ p; down_heads_ := down_heads_ p;
             node_labels_ := node_labels_ p; s_label := lab; t_label := t_label p |}).

Definition generate_target_node (p : policy) (pi : problem_instance)
  : outcome (option nat * policy) :=
  let t_graph_id := to_graph_id (g_ p) (target_id_ pi) in
  if t_graph_id =? INF then Done (None, p)
  else
    do lab <- at_ (node_labels_ p) (Z.to_nat t_graph_id);
    Done (Some (Z.to_nat t_graph_id),
          {| g_ := g_ p; rank_ := rank_ p; down_heads_ := down_heads_ p;
             node_labels_ := node_labels_ p; s_label := s_label p; t_label := lab |}).

(** Lines 174-199: the hook that records optimal first moves while the
    Dijkstra search from the apex runs.  [first_move] is the vector the
    lambda captures by reference.  [from->get_id()] is evaluated without a
    test of [from]. *)
Definition on_generate_fn (internal_source_id : nat)
    (first_move : list FirstMove.fm_label)
    (succ : search_node) (from : option search_node) (edge_cost : Z) (edge_id : nat)
  : outcome (list FirstMove.fm_label) :=
  match from with
  | None => Fault
  | Some from =>
      let s_id := id succ in
      let f_id := id from in
      if decide (id from = internal_source_id)
      then
        do l <- at_ first_move s_id;
        do l' <- FirstMove.add l edge_id;
        set_at first_move s_id l'
      else
        let alt_g := g from + edge_cost in
        let g_val := if search_id succ =? search_id from then g succ else INF in
        do fm1 <- (if alt_g <? g_val
                   then do src <- at_ first_move f_id;
                        do _ <- at_ first_move s_id;
                        set_at first_move s_id src
                   else Done first_move);
        if alt_g =? g_val
        then do src <- at_ fm1 f_id;
             do dst <- at_ fm1 s_id;
             set_at fm1 s_id (FirstMove.cup dst src)
        else Done fm1
  end.

(** The calls the search engine makes to the hook during one search, in
    order.  The engine variant that offers [apply_on_generate] is not among
    the sources, so a run is given by its sequence of calls. *)
Record generate_call : Type := {
  gc_succ : search_node;
  gc_from : option search_node;
  gc_edge_cost : Z;
  gc_edge_id : nat
}.

Fixpoint stage_b (internal_source_id : nat) (first_move : list FirstMove.fm_label)
    (calls : list generate_call) : outcome (list FirstMove.fm_label) :=
  match calls with
  | [] => Done first_move
  | c :: calls' =>
      do fm' <- on_generate_fn internal_source_id first_move
                  (gc_succ c) (gc_from c) (gc_edge_cost c) (gc_edge_id c);
      stage_b internal_source_id fm' calls'
  end.

End DownDfs.

(** ** The best-first search engine (flexible_astar.h) *)

(** The template parameter [E]: what the engine asks of an expansion
    policy.  A policy value is the policy's own state; the successor list
    that [first]/[next] iterate over is the list [ep_expand] returns. *)
Class ExpansionPolicy (P : Type) : Type := {
  ep_generate_start_node : P -> problem_instance -> outcome (option nat * P);
  ep_generate_target_node : P -> problem_instance -> outcome (option nat * P);
  ep_expand : P -> search_node -> outcome (list (nat * Z));
  ep_get_xy : P -> Z -> Z * Z
}.

Module Astar.

(** How [search] came to return: the four ways out of the loop and the
    early return for a missing start id.  The source keeps no such value;
    it returns the pointer [target] only (see [returned]). *)
Inductive exit : Type :=
| Found (n : nat)
| CostCutoff
| ExpansionCutoff
| Exhausted
| NoStart.

(** The value [search] returns: [target] is null unless line 287 set it. *)
Definition returned (e : exit) : option nat :=
  match e with
  | Found n => Some n
  | _ => None
  end.

(** Modelled from the spec: the node pool with its generation stamps lives
    behind [expander_->generate] and is not among the sources.  The pool
    holds the nodes touched in the running episode; any other node reads as
    never seen: not expanded, not on the frontier, stale stamp. *)
Definition generate (pool : gmap nat search_node) (nid : nat) : search_node :=
  match pool !! nid with
  | Some n => n
  | None => {| id := nid; g := INF; f := INF; parent := None;
               expanded := false; search_id := 0 |}
  end.

(** Modelled from the spec: pqueue.h is not among the sources.  The
    frontier is the list of queued node ids in insertion order; [peek]
    yields a minimum-f element, the earliest inserted among equals. *)
Fixpoint min_f (pool : gmap nat search_node) (best : nat) (rest : list nat) : nat :=
  match rest with
  | [] => best
  | n :: rest' =>
      if f (generate pool n) <? f (generate pool best)
      then min_f pool n rest'
      else min_f pool best rest'
  end.

Definition peek (pool : gmap nat search_node) (open : list nat) : option nat :=
  match open with
  | [] => None
  | n :: rest => Some (min_f pool n rest)
  end.

Definition remove_id (n : nat) (open : list nat) : list nat :=
  filter (fun m => m <> n) open.

Definition u32 (z : Z) : Z := z mod 4294967296.

Section Engine.

Context {P : Type} {EP : ExpansionPolicy P}.
Variable heuristic_ : Z -> Z -> Z -> Z -> Z.
Variable filter_ : option (search_node -> bool).
Context {HS : Type}.
Variable on_relax_fn_ : search_node -> HS -> HS.
Variable on_norelax_fn_ : search_node -> search_node -> Z -> HS -> HS.

Record engine : Type := {
  expander_ : P;
  open_ : list nat;
  pool_ : gmap nat search_node;
  cost_cutoff_ : Z;
  exp_cutoff_ : Z;
  nodes_expanded_ : Z;
  searchid_ : Z;
  hooks_ : HS
}.

Definition with_frontier (st : engine) (open : list nat)
    (pool : gmap nat search_node) (hs : HS) : engine :=
  {| expander_ := expander_ st; open_ := open; pool_ := pool;
     cost_cutoff_ := cost_cutoff_ st; exp_cutoff_ := exp_cutoff_ st;
     nodes_expanded_ := nodes_expanded_ st; searchid_ := searchid_ st;
     hooks_ := hs |}.

(** The constructor: empty frontier, both cutoffs at [warthog::INF]. *)
Definition make (expander : P) (hs : HS) : engine :=
  {| expander_ := expander; open_ := []; pool_ := ∅;
     cost_cutoff_ := INF; exp_cutoff_ := INF;
     nodes_expanded_ := 0; searchid_ := 0; hooks_ := hs |}.

Definition set_cost_cutoff (st : engine) (cutoff : Z) : engine :=
  {| expander_ := expander_ st; open_ := open_ st; pool_ := pool_ st;
     cost_cutoff_ := cutoff; exp_cutoff_ := exp_cutoff_ st;
     nodes_expanded_ := nodes_expanded_ st; searchid_ := searchid_ st;
     hooks_ := hooks_ st |}.

Definition set_max_expansions_cutoff (st : engine) (cutoff : Z) : engine :=
  {| expander_ := expander_ st; open_ := open_ st; pool_ := pool_ st;
     cost_cutoff_ := cost_cutoff_ st; exp_cutoff_ := cutoff;
     nodes_expanded_ := nodes_expanded_ st; searchid_ := searchid_ st;
     hooks_ := hooks_ st |}.

(** Lines 320-422: the body of the successor loop for one neighbour. *)
Definition visit (instance : problem_instance) (gx gy : Z) (current : search_node)
    (st : engine) (nb : nat * Z) : engine :=
  let n := generate (pool_ st) nb.1 in
  let cost_to_n := nb.2 in
  if expanded n then st
  else if bool_decide (nb.1 ∈ open_ st) then
    let gval := g current + cost_to_n in
    if gval <? g n then
      let n' := relax n gval (id current) in
      with_frontier st (open_ st) (<[nb.1 := n']> (pool_ st)) (on_relax_fn_ n' (hooks_ st))
    else
      with_frontier st (open_ st) (pool_ st) (on_norelax_fn_ n current cost_to_n (hooks_ st))
  else
    let gval := g current + cost_to_n in
    let c := ep_get_xy (expander_ st) (Z.of_nat nb.1) in
    let n' := init n (instance_id_ instance) (Some (id current)) gval
                   (gval + heuristic_ c.1 c.2 gx gy) in
    let pool' := <[nb.1 := n']> (pool_ st) in
    if match filter_ with Some flt => flt n' | None => false end
    then with_frontier st (open_ st) pool' (hooks_ st)
    else with_frontier st (open_ st ++ [nb.1]) pool' (on_relax_fn_ n' (hooks_ st)).

(** Lines 271-424: one turn of the [while] loop; [inr] is a way out. *)
Definition iteration (instance : problem_instance) (gx gy : Z) (st : engine)
  : outcome (engine + exit) :=
  match peek (pool_ st) (open_ st) with
  | None => Done (inr Exhausted)
  | Some top =>
      if Z.of_nat top =? target_id_ instance then Done (inr (Found top))
      else if cost_cutoff_ st <? f (generate (pool_ st) top) then Done (inr CostCutoff)
      else if exp_cutoff_ st <=? nodes_expanded_ st then Done (inr ExpansionCutoff)
      else
        let current := set_expanded (generate (pool_ st) top) true in
        let st1 :=
          {| expander_ := expander_ st; open_ := remove_id top (open_ st);
             pool_ := <[top := current]> (pool_ st);
             cost_cutoff_ := cost_cutoff_ st; exp_cutoff_ := exp_cutoff_ st;
             nodes_expanded_ := u32 (nodes_expanded_ st + 1);
             searchid_ := searchid_ st; hooks_ := hooks_ st |} in
        do nbs <- ep_expand (expander_ st1) current;
        Done (inl (foldl (visit instance gx gy current) st1 nbs))
  end.

Fixpoint loop (fuel : nat) (instance : problem_instance) (gx gy : Z) (st : engine)
  : outcome (exit * engine) :=
  match fuel with
  | O => OutOfFuel
  | S fuel' =>
      do r <- iteration instance gx gy st;
      match r with
      | inl st' => loop fuel' instance gx gy st'
      | inr e => Done (e, st)
      end
  end.

(** Lines 225-269: everything [search] does before the loop.  [cleanup]
    empties the frontier and the pool, the counters restart and the episode
    counter is pre-incremented.  The result is the engine with, unless the
    start id is [warthog::INF], the translated instance and the target's
    coordinates.  [start->get_id()] and [target->get_id()] dereference what
    the policy returned without a test, so a null pointer from the policy
    is a [Fault]. *)
Definition prepare (st : engine) (instance : problem_instance)
  : outcome (engine * option (problem_instance * Z * Z)) :=
  let sid := u32 (searchid_ st + 1) in
  let clean (e : P) (open : list nat) (pool : gmap nat search_node) : engine :=
    {| expander_ := e; open_ := open; pool_ := pool;
       cost_cutoff_ := cost_cutoff_ st; exp_cutoff_ := exp_cutoff_ st;
       nodes_expanded_ := 0; searchid_ := sid; hooks_ := hooks_ st |} in
  let instance := {| start_id_ := start_id_ instance;
                     target_id_ := target_id_ instance;
                     instance_id_ := sid |} in
  if start_id_ instance =? INF then Done (clean (expander_ st) [] ∅, None)
  else
    do r <- ep_generate_start_node (expander_ st) instance;
    match r.1 with
    | None => Fault
    | Some start =>
        let instance := {| start_id_ := Z.of_nat start;
                           target_id_ := target_id_ instance;
                           instance_id_ := sid |} in
        do r' <- (if negb (target_id_ instance =? INF)
                  then do t <- ep_generate_target_node r.2 instance;
                       match t.1 with
                       | None => Fault
                       | Some target =>
                           Done ({| start_id_ := start_id_ instance;
                                    target_id_ := Z.of_nat target;
                                    instance_id_ := sid |}, t.2)
                       end
                  else Done (instance, r.2));
        let instance := r'.1 in
        let s := ep_get_xy r'.2 (start_id_ instance) in
        let t := ep_get_xy r'.2 (target_id_ instance) in
        let start_node := init (generate ∅ start) sid None 0
                               (heuristic_ s.1 s.2 t.1 t.2) in
        Done (clean r'.2 [start] {[ start := start_node ]},
              Some (instance, t.1, t.2))
    end.

(** [search], with the way out made visible. *)
Definition search_exit (fuel : nat) (st : engine) (instance : problem_instance)
  : outcome (exit * engine) :=
  do r <- prepare st instance;
  match r.2 with
  | None => Done (NoStart, r.1)
  | Some (instance', gx, gy) => loop fuel instance' gx gy r.1
  end.

(** [search]: the pointer handed back to the caller, and the engine. *)
Definition search (fuel : nat) (st : engine) (instance : problem_instance)
  : outcome (option nat * engine) :=
  do r <- search_exit fuel st instance;
  Done (returned r.1, r.2).

(** Lines 72-77 of [get_path]: follow the back-pointers from [cur]; each
    id is pushed, so the last one pushed is on top (the head). *)
Fixpoint follow (fuel : nat) (pool : gmap nat search_node) (cur : option nat)
    (path : list nat) : outcome (list nat) :=
  match cur with
  | None => Done path
  | Some c =>
      match fuel with
      | O => OutOfFuel
      | S fuel' => follow fuel' pool (parent (generate pool c)) (c :: path)
      end
  end.

Definition get_path (fuel : nat) (st : engine) (pi : problem_instance)
  : outcome (list nat * engine) :=
  do r <- search fuel st pi;
  match r.1 with
  | Some target => do path <- follow fuel (pool_ r.2) (Some target) []; Done (path, r.2)
  | None => Done ([], r.2)
  end.

(** Lines 122-157: [get_length], the g of the node [search] hands back, or
    [warthog::INF] when it hands back none. *)
Definition get_length (fuel : nat) (st : engine) (pi : problem_instance)
  : outcome (Z * engine) :=
  do r <- search fuel st pi;
  Done (match r.1 with
        | Some target => g (generate (pool_ r.2) target)
        | None => INF
        end, r.2).

(** The engines a search passes through: the one [prepare] leaves, and
    the one after each further turn of the loop. *)
Inductive reachable (instance : problem_instance) (gx gy : Z) (st0 : engine)
  : engine -> Prop :=
| reach_start : reachable instance gx gy st0 st0
| reach_turn (st st' : engine) :
    reachable instance gx gy st0 st ->
    iteration instance gx gy st = Done (inl st') ->
    reachable instance gx gy st0 st'.

End Engine.

End Astar.

(** ** The DFS-interval label builder (down_dfs_labelling.cpp) *)

Module Labelling.
Import Graph.

(** Modelled from the spec: down_dfs_labelling.h, which declares the label
    type, is not among the sources.  A label is an interval of postorder
    ids, an interval of ranks, a bounding box and a bit-vector of partition
    ids; [grow] widens a component to take one value in, [merge] is interval
    union, box union and bitwise or; a fresh label holds nothing. *)
Record interval : Type := { left : Z; right : Z }.

Definition interval_new : interval := {| left := INT32_MAX; right := INT32_MIN |}.

Definition interval_grow (i : interval) (v : Z) : interval :=
  {| left := Z.min (left i) v; right := Z.max (right i) v |}.

Definition interval_merge (i j : interval) : interval :=
  {| left := Z.min (left i) (left j); right := Z.max (right i) (right j) |}.

Definition interval_contains (i : interval) (v : Z) : bool :=
  (left i <=? v) && (v <=? right i).

Record rect : Type := { x1 : Z; y1 : Z; x2 : Z; y2 : Z }.

Definition rect_new : rect :=
  {| x1 := INT32_MAX; y1 := INT32_MAX; x2 := INT32_MIN; y2 := INT32_MIN |}.

Definition rect_grow (r : rect) (x y : Z) : rect :=
  {| x1 := Z.min (x1 r) x; y1 := Z.min (y1 r) y;
     x2 := Z.max (x2 r) x; y2 := Z.max (y2 r) y |}.

Definition rect_merge (r s : rect) : rect :=
  {| x1 := Z.min (x1 r) (x1 s); y1 := Z.min (y1 r) (y1 s);
     x2 := Z.max (x2 r) (x2 s); y2 := Z.max (y2 r) (y2 s) |}.

Definition rect_contains (r : rect) (x y : Z) : bool :=
  (x1 r <=? x) && (x <=? x2 r) && (y1 r <=? y) && (y <=? y2 r).

Record down_dfs_label : Type := {
  rank_ : interval;
  ids_ : interval;
  bbox_ : rect;
  flags_ : list Z
}.

(** [down_dfs_label(bytes_per_af_label)] *)
Definition label_new (bytes : nat) : down_dfs_label :=
  {| rank_ := interval_new; ids_ := interval_new; bbox_ := rect_new;
     flags_ := replicate bytes 0 |}.

Definition flags_merge (a b : list Z) : list Z :=
  (fun i => u8 (Z.lor (nth i a 0) (nth i b 0))) <$> seq 0 (length a).

Definition merge (a b : down_dfs_label) : down_dfs_label :=
  {| rank_ := interval_merge (rank_ a) (rank_ b);
     ids_ := interval_merge (ids_ a) (ids_ b);
     bbox_ := rect_merge (bbox_ a) (bbox_ b);
     flags_ := flags_merge (flags_ a) (flags_ b) |}.

Definition flag (l : down_dfs_label) (s_part : nat) : bool :=
  Z.testbit (nth (s_part / 8) (flags_ l) 0) (Z.of_nat (s_part mod 8)).

(** What it means for a label to hold a node with these attributes. *)
Definition contains (l : down_dfs_label) (dfs_id rank x y : Z) (s_part : nat) : bool :=
  interval_contains (ids_ l) dfs_id && interval_contains (rank_ l) rank
  && rect_contains (bbox_ l) x y && flag l s_part.

(** Lines 98-107 and 235-243, the same in both stages: grow the label by
    one node.  [flags_[s_part >> 3] |= (1 << (s_part & 7))] is an unchecked
    write. *)
Definition grow_by (l : down_dfs_label) (rank dfs_id x y : Z) (s_part : nat)
  : outcome down_dfs_label :=
  let byte := (s_part / 8)%nat in
  if decide (byte < length (flags_ l))%nat
  then Done {| rank_ := interval_grow (rank_ l) rank;
               ids_ := interval_grow (ids_ l) dfs_id;
               bbox_ := rect_grow (bbox_ l) x y;
               flags_ := <[byte := u8 (Z.lor (nth byte (flags_ l) 0)
                                             (Z.shiftl 1 (Z.of_nat (s_part mod 8))))]>
                           (flags_ l) |}
  else Fault.

Definition lab_at (lab : list (list down_dfs_label)) (s i : nat) : outcome down_dfs_label :=
  do row <- at_ lab s; at_ row i.

Definition lab_set (lab : list (list down_dfs_label)) (s i : nat) (l : down_dfs_label)
  : outcome (list (list down_dfs_label)) :=
  do row <- at_ lab s;
  do row' <- set_at row i l;
  set_at lab s row'.

(** [for (it = begin; it != end; it++)] with [idx = it - begin]. *)
Fixpoint edge_loop {St : Type} (body : St -> nat -> edge -> outcome St)
    (st : St) (idx : nat) (it : list edge) : outcome St :=
  match it with
  | [] => Done st
  | e :: it' => do st' <- body st idx e; edge_loop body st' (S idx) it'
  end.

(** The partition ids need [(max_id / 8) + !!(max_id % 8)] bytes
    (constructor, lines 24-25); the maximum of an empty vector is a
    dereference of [end()]. *)
Definition bytes_per_af_label (part : list nat) : outcome nat :=
  match part with
  | [] => Fault
  | p :: ps =>
      let max_id := foldl Nat.max p ps in
      Done (max_id / 8 + (if (max_id mod 8 =? 0)%nat then 0 else 1))%nat
  end.

(** The members [dfs_order_] and [lab_] and the locals of [compute_labels]
    that its two closures capture by reference. *)
Record store : Type := {
  dfs_order_ : list Z;
  lab_ : list (list down_dfs_label);
  node_labels : list down_dfs_label;
  dfs_id : Z;
  up_apex : list Z
}.

Definition THRESHOLD : nat := 100.

Section Builder.

Variable g_ : planar_graph.
Variable part_ : list nat.
Variable bytes_per_af_label_ : nat.
Variable rank : list Z.

(** Lines 44-48. *)
Fixpoint find_apex (apex_id : nat) (ids : list nat) : outcome nat :=
  match ids with
  | [] => Done apex_id
  | i :: is' =>
      do ri <- at_ rank i;
      do ra <- at_ rank apex_id;
      find_apex (if ra <? ri then i else apex_id) is'
  end.

(** Lines 56-60. *)
Fixpoint size_rows (lab : list (list down_dfs_label)) (n_ids : list nat)
  : outcome (list (list down_dfs_label)) :=
  match n_ids with
  | [] => Done lab
  | n_id :: n_ids' =>
      do n <- get_node g_ n_id;
      do row <- at_ lab n_id;
      do lab' <- set_at lab n_id (resize (out_degree n) (label_new bytes_per_af_label_) row);
      size_rows lab' n_ids'
  end.

(** Lines 77-92: the body of the loop of [label_fn]. *)
Definition label_edge (label_fn : nat -> store -> outcome store) (source_id : nat)
    (st : store) (idx : nat) (e : edge) : outcome store :=
  do rt <- at_ rank (node_id_ e);
  do rs <- at_ rank source_id;
  if rs <? rt then Done st
  else
    do d <- at_ (dfs_order_ st) (node_id_ e);
    do st1 <- (if d =? INT32_MAX then label_fn (node_id_ e) st else Done st);
    do t_lab <- at_ (node_labels st1) (node_id_ e);
    do lab' <- lab_set (lab_ st1) source_id idx t_lab;
    do s_lab <- at_ (node_labels st1) source_id;
    do nl' <- set_at (node_labels st1) source_id (merge s_lab t_lab);
    Done {| dfs_order_ := dfs_order_ st1; lab_ := lab'; node_labels := nl';
            dfs_id := dfs_id st1; up_apex := up_apex st1 |}.

(** Lines 65-109. *)
Fixpoint label_fn (fuel : nat) (source_id : nat) (st : store) : outcome store :=
  match fuel with
  | O => OutOfFuel
  | S fuel' =>
      do _ <- at_ (node_labels st) source_id;
      do source <- get_node g_ source_id;
      do st1 <- edge_loop (label_edge (label_fn fuel') source_id) st 0%nat (outgoing source);
      do d <- at_ (dfs_order_ st1) source_id;
      do order' <- (if d =? INT32_MAX
                    then set_at (dfs_order_ st1) source_id (dfs_id st1)
                    else Done (dfs_order_ st1));
      let dfs_id' := if d =? INT32_MAX then dfs_id st1 + 1 else dfs_id st1 in
      do r <- at_ rank source_id;
      do d' <- at_ order' source_id;
      let c := get_xy g_ (Z.of_nat source_id) in
      do s_part <- at_ part_ source_id;
      do s_lab <- at_ (node_labels st1) source_id;
      do s_lab' <- grow_by s_lab r d' c.1 c.2 s_part;
      do nl' <- set_at (node_labels st1) source_id s_lab';
      Done {| dfs_order_ := order'; lab_ := lab_ st1; node_labels := nl';
              dfs_id := dfs_id'; up_apex := up_apex st1 |}
  end.

(** Lines 124-138: the body of the first loop of [up_label_fn]; the second
    component is the local [apex_id]. *)
Definition apex_edge (up_label_fn : nat -> store -> outcome store) (source_id : nat)
    (acc : store * nat) (idx : nat) (e : edge) : outcome (store * nat) :=
  do rt <- at_ rank (node_id_ e);
  do rs <- at_ rank source_id;
  if rt <? rs then Done acc
  else
    do a <- at_ (up_apex acc.1) (node_id_ e);
    do st1 <- (if a =? INT32_MAX then up_label_fn (node_id_ e) acc.1 else Done acc.1);
    do succ_apex_id <- at_ (up_apex st1) (node_id_ e);
    do ra <- at_ rank (Z.to_nat succ_apex_id);
    do rc <- at_ rank acc.2;
    Done (st1, if rc <? ra then Z.to_nat succ_apex_id else acc.2).

(** Lines 144-153: the body of the second loop of [up_label_fn]. *)
Definition merge_edge (source_id apex_id : nat) (st : store) (idx : nat) (e : edge)
  : outcome store :=
  do rt <- at_ rank (node_id_ e);
  do rs <- at_ rank source_id;
  if rt <? rs then Done st
  else
    do e_lab <- lab_at (lab_ st) source_id idx;
    do a_lab <- at_ (node_labels st) apex_id;
    do lab' <- lab_set (lab_ st) source_id idx (merge e_lab a_lab);
    Done {| dfs_order_ := dfs_order_ st; lab_ := lab'; node_labels := node_labels st;
            dfs_id := dfs_id st; up_apex := up_apex st |}.

(** Lines 114-154. *)
Fixpoint up_label_fn (fuel : nat) (source_id : nat) (st : store) : outcome store :=
  match fuel with
  | O => OutOfFuel
  | S fuel' =>
      do source <- get_node g_ source_id;
      do r <- edge_loop (apex_edge (up_label_fn fuel') source_id)
                        (st, source_id) 0%nat (outgoing source);
      do ua' <- set_at (up_apex r.1) source_id (Z.of_nat r.2);
      let st1 := {| dfs_order_ := dfs_order_ r.1; lab_ := lab_ r.1;
                    node_labels := node_labels r.1; dfs_id := dfs_id r.1;
                    up_apex := ua' |} in
      edge_loop (merge_edge source_id r.2) st1 0%nat (outgoing source)
  end.

(** Lines 156-159. *)
Fixpoint up_label_all (fuel : nat) (n_ids : list nat) (st : store) : outcome store :=
  match n_ids with
  | [] => Done st
  | n_id :: n_ids' => do st' <- up_label_fn fuel n_id st; up_label_all fuel n_ids' st'
  end.

(** [compute_labels], from the members as they are on entry. *)
Definition compute_labels (fuel : nat) (dfs_order0 : list Z)
    (lab0 : list (list down_dfs_label)) : outcome store :=
  let n := get_num_nodes g_ in
  let dfs_order := resize n INT32_MAX dfs_order0 in
  let lab := resize n [] lab0 in
  do apex_id <- find_apex 0%nat (seq 0 (length rank));
  let labels := replicate n (label_new bytes_per_af_label_) in
  do lab' <- size_rows lab (seq 0 n);
  do st <- label_fn fuel apex_id
             {| dfs_order_ := dfs_order; lab_ := lab'; node_labels := labels;
                dfs_id := 0; up_apex := replicate n INT32_MAX |};
  up_label_all fuel (seq 0 n) st.

(** *** The refinement pass [improve_labels] *)

(** Lines 179-183: every label of the node's row is replaced by a fresh one. *)
Fixpoint reset_row (lab : list (list down_dfs_label)) (i : nat) (idxs : list nat)
  : outcome (list (list down_dfs_label)) :=
  match idxs with
  | [] => Done lab
  | idx :: idxs' =>
      do lab' <- lab_set lab i idx (label_new bytes_per_af_label_);
      reset_row lab' i idxs'
  end.

(** Lines 167-185: choose the sources and reset their labels. *)
Fixpoint select_sources (lab : list (list down_dfs_label)) (sources : list nat)
    (n_ids : list nat) : outcome (list (list down_dfs_label) * list nat) :=
  match n_ids with
  | [] => Done (lab, sources)
  | i :: n_ids' =>
      do n <- get_node g_ i;
      if decide (THRESHOLD <= out_degree n)%nat
      then do lab' <- reset_row lab i (seq 0 (out_degree n));
           select_sources lab' (sources ++ [i]) n_ids'
      else select_sources lab sources n_ids'
  end.

(** Lines 193-221: the hook that records, per generated node, the index of
    the source's edge its best path starts with.  [from] may be null. *)
Definition on_generate_fn (source_id : nat) (first_move : list nat)
    (succ : search_node) (from : option search_node) (edge_cost : Z) (edge_id : nat)
  : outcome (list nat) :=
  match from with
  | None => Done first_move
  | Some from =>
      if decide (id from = source_id)
      then set_at first_move (id succ) edge_id
      else
        let s_id := id succ in
        let f_id := id from in
        let alt_g := g from + edge_cost in
        let g_val := if search_id succ =? search_id from then g succ else INF in
        if alt_g <? g_val
        then do m <- at_ first_move f_id;
             do _ <- at_ first_move s_id;
             set_at first_move s_id m
        else Done first_move
  end.

(** Lines 224-245: the hook that grows, on every expansion, the label of
    the source's edge recorded for the expanded node. *)
Definition on_expand_fn (source_id : nat) (first_move : list nat) (dfs_order : list Z)
    (lab : list (list down_dfs_label)) (current : search_node)
  : outcome (list (list down_dfs_label)) :=
  if decide (id current = source_id) then Done lab
  else
    let node_id := id current in
    do edge_idx <- at_ first_move node_id;
    do s_lab <- lab_at lab source_id edge_idx;
    do r <- at_ rank node_id;
    do d <- at_ dfs_order node_id;
    let c := get_xy g_ (Z.of_nat node_id) in
    do s_part <- at_ part_ node_id;
    do s_lab' <- grow_by s_lab r d c.1 c.2 s_part;
    lab_set lab source_id edge_idx s_lab'.

(** The calls the search engine makes to the two hooks during one search,
    in order.  The engine variant that offers [apply_on_generate] and
    [apply_on_expand] is not among the sources, so a search is given by the
    sequence of hook calls it makes. *)
Inductive hook_call : Type :=
| Generate (succ : search_node) (from : option search_node) (edge_cost : Z) (edge_id : nat)
| Expand (current : search_node).

Definition hook (source_id : nat) (dfs_order : list Z)
    (st : list nat * list (list down_dfs_label)) (c : hook_call)
  : outcome (list nat * list (list down_dfs_label)) :=
  match c with
  | Generate succ from edge_cost edge_id =>
      do fm <- on_generate_fn source_id st.1 succ from edge_cost edge_id;
      Done (fm, st.2)
  | Expand current =>
      do lab <- on_expand_fn source_id st.1 dfs_order st.2 current;
      Done (st.1, lab)
  end.

(** One [dijk.get_path] of the refinement pass. *)
Fixpoint dijkstra_from (source_id : nat) (dfs_order : list Z) (calls : list hook_call)
    (st : list nat * list (list down_dfs_label))
  : outcome (list nat * list (list down_dfs_label)) :=
  match calls with
  | [] => Done st
  | c :: calls' =>
      do st' <- hook source_id dfs_order st c;
      dijkstra_from source_id dfs_order calls' st'
  end.

(** Lines 263-276: one search per source; [first_move] is shared by all. *)
Fixpoint refine (dijk : nat -> list hook_call) (dfs_order : list Z) (sources : list nat)
    (st : list nat * list (list down_dfs_label))
  : outcome (list nat * list (list down_dfs_label)) :=
  match sources with
  | [] => Done st
  | i :: sources' =>
      do st' <- dijkstra_from i dfs_order (dijk i) st;
      refine dijk dfs_order sources' st'
  end.

(** [improve_labels]; the result is [lab_] (with the local [first_move]). *)
Definition improve_labels (dijk : nat -> list hook_call) (dfs_order : list Z)
    (lab : list (list down_dfs_label))
  : outcome (list nat * list (list down_dfs_label)) :=
  do r <- select_sources lab [] (seq 0 (get_num_nodes g_));
  let first_move := replicate (get_num_nodes g_) 0%nat in
  refine dijk dfs_order r.2 (first_move, r.1).

End Builder.

End Labelling.

(** The rank-biased policy as an instance of the engine's parameter [E]. *)
Definition down_dfs_expansion_policy
    (filter : DownDfs.policy -> nat -> nat -> bool) : ExpansionPolicy DownDfs.policy :=
  {| ep_generate_start_node := DownDfs.generate_start_node;
     ep_generate_target_node := DownDfs.generate_target_node;
     ep_expand := DownDfs.expand filter;
     ep_get_xy := fun p nid => Graph.get_xy (DownDfs.g_ p) nid |}.

(** ** The claims' own words, as relations to compare the code with *)

Module Claims.

(** The two costs the hooks compare: the cost of reaching the successor
    through [from], and the successor's cost so far ([warthog::INF] when it
    was not touched in this episode). *)
Definition alt_g (from : search_node) (edge_cost : Z) : Z := g from + edge_cost.

Definition g_val (succ from : search_node) : Z :=
  if search_id succ =? search_id from then g succ else INF.

(** A first-move bitset as the type has it: 32 bytes. *)
Definition is_label (l : FirstMove.fm_label) : Prop :=
  length l = FirstMove.FM_BYTES /\ forall i, 0 <= FirstMove.byte_at l i < 256.

(** [l'] is [l] with the move [k] set: bit [k] is on, every other bit is
    as in [l]. *)
Definition with_move (l : FirstMove.fm_label) (k : nat) (l' : FirstMove.fm_label) : Prop :=
  is_label l' /\ FirstMove.bit l' k = true
  /\ forall j, j <> k -> FirstMove.bit l' j = FirstMove.bit l j.

(** [u] is the union of the two bitsets: a move is in [u] exactly when it
    is in one of them. *)
Definition union_of (dst src u : FirstMove.fm_label) : Prop :=
  is_label u
  /\ forall j, (j < 256)%nat ->
       FirstMove.bit u j = FirstMove.bit dst j || FirstMove.bit src j.

(** What one call of the apex search's hook may do to the first-move
    bitsets: set the bit of the originating edge (predecessor is the apex),
    replace the successor's set by the predecessor's (strict improvement),
    unite the predecessor's set into it (exact tie), or nothing. *)
Inductive fm_mutation (apex : nat) (fm : list FirstMove.fm_label)
    (c : DownDfs.generate_call) : list FirstMove.fm_label -> Prop :=
| fm_set_bit (from : search_node) (l l' : FirstMove.fm_label) :
    DownDfs.gc_from c = Some from ->
    id from = apex ->
    fm !! id (DownDfs.gc_succ c) = Some l ->
    with_move l (DownDfs.gc_edge_id c) l' ->
    fm_mutation apex fm c (<[id (DownDfs.gc_succ c) := l']> fm)
| fm_replace (from : search_node) (src : FirstMove.fm_label) :
    DownDfs.gc_from c = Some from ->
    id from <> apex ->
    alt_g from (DownDfs.gc_edge_cost c) < g_val (DownDfs.gc_succ c) from ->
    fm !! id from = Some src ->
    fm_mutation apex fm c (<[id (DownDfs.gc_succ c) := src]> fm)
| fm_union (from : search_node) (dst src u : FirstMove.fm_label) :
    DownDfs.gc_from c = Some from ->
    id from <> apex ->
    alt_g from (DownDfs.gc_edge_cost c) = g_val (DownDfs.gc_succ c) from ->
    fm !! id (DownDfs.gc_succ c) = Some dst ->
    fm !! id from = Some src ->
    union_of dst src u ->
    fm_mutation apex fm c (<[id (DownDfs.gc_succ c) := u]> fm)
| fm_untouched (from : search_node) :
    DownDfs.gc_from c = Some from ->
    id from <> apex ->
    g_val (DownDfs.gc_succ c) from < alt_g from (DownDfs.gc_edge_cost c) ->
    fm_mutation apex fm c fm.

(** A call the hook can serve: it names a predecessor, both nodes have a
    bitset among the [n], and an edge of the apex has an id below 256. *)
Definition call_fits (n apex : nat) (c : DownDfs.generate_call) : Prop :=
  exists from, DownDfs.gc_from c = Some from
    /\ (id (DownDfs.gc_succ c) < n)%nat /\ (id from < n)%nat
    /\ (id from = apex -> (DownDfs.gc_edge_id c < 256)%nat).

(** A whole search: one such step per call, nothing in between. *)
Inductive fm_history (apex : nat) :
    list FirstMove.fm_label -> list DownDfs.generate_call -> list FirstMove.fm_label -> Prop :=
| fm_history_nil (fm : list FirstMove.fm_label) : fm_history apex fm [] fm
| fm_history_cons (fm fm1 fm2 : list FirstMove.fm_label)
    (c : DownDfs.generate_call) (calls : list DownDfs.generate_call) :
    fm_mutation apex fm c fm1 ->
    fm_history apex fm1 calls fm2 ->
    fm_history apex fm (c :: calls) fm2.

(** What one hook call of the refinement search may do to the scalar
    first-edge index: take the originating edge (direct successor of the
    source), copy the predecessor's index (strict improvement), or nothing
    (no predecessor, an exact tie, a worse path, or an expansion). *)
Inductive first_edge_update (source_id : nat) (fm : list nat)
    : Labelling.hook_call -> list nat -> Prop :=
| fe_direct (succ from : search_node) (edge_cost : Z) (edge_id : nat) :
    id from = source_id ->
    first_edge_update source_id fm
      (Labelling.Generate succ (Some from) edge_cost edge_id)
      (<[id succ := edge_id]> fm)
| fe_copy (succ from : search_node) (edge_cost : Z) (edge_id : nat) (m : nat) :
    id from <> source_id ->
    alt_g from edge_cost < g_val succ from ->
    fm !! id from = Some m ->
    first_edge_update source_id fm
      (Labelling.Generate succ (Some from) edge_cost edge_id)
      (<[id succ := m]> fm)
| fe_tie (succ from : search_node) (edge_cost : Z) (edge_id : nat) :
    id from <> source_id ->
    alt_g from edge_cost = g_val succ from ->
    first_edge_update source_id fm
      (Labelling.Generate succ (Some from) edge_cost edge_id) fm
| fe_worse (succ from : search_node) (edge_cost : Z) (edge_id : nat) :
    id from <> source_id ->
    g_val succ from < alt_g from edge_cost ->
    first_edge_update source_id fm
      (Labelling.Generate succ (Some from) edge_cost edge_id) fm
| fe_start (succ : search_node) (edge_cost : Z) (edge_id : nat) :
    first_edge_update source_id fm (Labelling.Generate succ None edge_cost edge_id) fm
| fe_expand (current : search_node) :
    first_edge_update source_id fm (Labelling.Expand current) fm.

End Claims.

Module ExpandClaims.
Import Graph DownDfs.

(** A step travels up when the node has no parent or outranks it. *)
Definition travels_up (rank : list Z) (current : search_node) : Prop :=
  parent current = None \/
  exists pn rp rc, parent current = Some pn /\ rank !! pn = Some rp /\
                   rank !! id current = Some rc /\ rp < rc.

(** Every outgoing edge, in order. *)
Definition whole_adjacency (n : node) : list (nat * Z) := neighbour <$> outgoing n.

(** The edges from the split index on, numbered from 0, without those the
    filter rejects. *)
Definition down_suffix (rejects : nat -> bool) (head : nat) (n : node) : list (nat * Z) :=
  (fun ie => neighbour ie.2)
    <$> filter (fun ie => rejects ie.1 = false) (imap pair (drop head (outgoing n))).

End ExpandClaims.

(** The shape of the parent references of an episode.  [m] numbers the
    expanded nodes in the order of their expansion, [K] is the next number
    to give out, and [c0] bounds the edge costs from below. *)
Module TreeClaims.
Import Astar.

Record parent_tree (c0 : Z) (start : nat) (m : nat -> nat) (K : nat)
    (open : list nat) (pool : gmap nat search_node) : Prop := {
  pt_keys : forall k n, pool !! k = Some n -> id n = k;
  pt_open : forall k, k ∈ open -> exists n, pool !! k = Some n /\ expanded n = false;
  pt_root : exists s, pool !! start = Some s /\ parent s = None /\
                      (expanded s = true \/ open = [start]);
  pt_inner : forall k n, pool !! k = Some n -> k <> start -> is_Some (parent n);
  pt_parent : forall k n p, pool !! k = Some n -> parent n = Some p ->
                expanded (generate pool p) = true /\ g (generate pool p) + c0 <= g n;
  pt_order : forall k n p, pool !! k = Some n -> expanded n = true ->
                parent n = Some p -> (m p < m k)%nat;
  pt_bound : forall k, expanded (generate pool k) = true -> (m k < K)%nat
}.


End TreeClaims.

(** ** A two-node graph for the concrete runs

    Node 0 has one edge, to node 1, of weight 0; node 1 has none.  External
    ids 0 and 1 are the internal ones, every other id is unknown to the
    adapter.  No label filter rejects anything, the heuristic is zero and
    the hooks are the engine's empty defaults. *)
Module TwoNodes.
Import Graph.

Definition graph : planar_graph :=
  {| nodes := [ {| outgoing := [ {| node_id_ := 1; wt_ := 0 |} ] |};
                {| outgoing := [] |} ];
     to_graph_id := fun z => if (0 <=? z) && (z <? 2) then z else INF;
     get_xy := fun z => (z, 0) |}.

Definition policy : DownDfs.policy :=
  {| DownDfs.g_ := graph; DownDfs.rank_ := [0; 1]; DownDfs.down_heads_ := [1; 0]%nat;
     DownDfs.node_labels_ := [0; 1]; DownDfs.s_label := INT32_MAX;
     DownDfs.t_label := INT32_MAX |}.

Definition no_filter (_ : DownDfs.policy) (_ _ : nat) : bool := false.

Definition zero_heuristic (_ _ _ _ : Z) : Z := 0.

Definition on_relax (_ : search_node) (hs : unit) : unit := hs.

Definition on_norelax (_ _ : search_node) (_ : Z) (hs : unit) : unit := hs.

Definition engine : @Astar.engine DownDfs.policy unit := Astar.make policy tt.

Definition query (s t : Z) : problem_instance :=
  {| start_id_ := s; target_id_ := t; instance_id_ := 0 |}.

(** [search] and [get_path] of the engine over this policy. *)
Definition search_exit (fuel : nat) (st : @Astar.engine DownDfs.policy unit)
    (pi : problem_instance) : outcome (Astar.exit * @Astar.engine DownDfs.policy unit) :=
  @Astar.search_exit _ (down_dfs_expansion_policy no_filter)
    zero_heuristic None unit on_relax on_norelax fuel st pi.

Definition search (fuel : nat) (st : @Astar.engine DownDfs.policy unit)
    (pi : problem_instance) : outcome (option nat * @Astar.engine DownDfs.policy unit) :=
  @Astar.search _ (down_dfs_expansion_policy no_filter)
    zero_heuristic None unit on_relax on_norelax fuel st pi.

Definition get_path (fuel : nat) (st : @Astar.engine DownDfs.policy unit)
    (pi : problem_instance) : outcome (list nat * @Astar.engine DownDfs.policy unit) :=
  @Astar.get_path _ (down_dfs_expansion_policy no_filter)
    zero_heuristic None unit on_relax on_norelax fuel st pi.

(** What the caller is handed, without the engine. *)
Definition value {A B : Type} (r : outcome (A * B)) : outcome A :=
  do x <- r; Done x.1.

End TwoNodes.

(** A chain: node 0 goes up to node 1 at cost 2, node 1 up to node 2 at
    cost 3. *)
Module Chain.
Import Graph.

Definition graph : planar_graph :=
  {| nodes := [ {| outgoing := [ {| node_id_ := 1; wt_ := 2 |} ] |};
                {| outgoing := [ {| node_id_ := 2; wt_ := 3 |} ] |};
                {| outgoing := [] |} ];
     to_graph_id := fun z => if (0 <=? z) && (z <? 3) then z else INF;
     get_xy := fun z => (z, 0) |}.

Definition policy : DownDfs.policy :=
  {| DownDfs.g_ := graph; DownDfs.rank_ := [0; 1; 2];
     DownDfs.down_heads_ := [1; 1; 0]%nat;
     DownDfs.node_labels_ := [0; 1; 2]; DownDfs.s_label := INT32_MAX;
     DownDfs.t_label := INT32_MAX |}.

Definition engine : @Astar.engine DownDfs.policy unit := Astar.make policy tt.

Definition get_length (fuel : nat) (st : @Astar.engine DownDfs.policy unit)
    (pi : problem_instance) : outcome (Z * @Astar.engine DownDfs.policy unit) :=
  @Astar.get_length _ (down_dfs_expansion_policy TwoNodes.no_filter)
    TwoNodes.zero_heuristic None unit TwoNodes.on_relax TwoNodes.on_norelax fuel st pi.

End Chain.

(** A detour: node 0 reaches node 1 directly at cost 5, and through node 2
    at cost 1 + 1.  Node 3 is the target of the query; no edge leads to
    it. *)
Module Detour.
Import Graph.

Definition graph : planar_graph :=
  {| nodes := [ {| outgoing := [ {| node_id_ := 1; wt_ := 5 |};
                                 {| node_id_ := 2; wt_ := 1 |} ] |};
                {| outgoing := [] |};
                {| outgoing := [ {| node_id_ := 1; wt_ := 1 |} ] |};
                {| outgoing := [] |} ];
     to_graph_id := fun z => if (0 <=? z) && (z <? 4) then z else INF;
     get_xy := fun z => (z, 0) |}.

Definition policy : DownDfs.policy :=
  {| DownDfs.g_ := graph; DownDfs.rank_ := [0; 5; 1; 9];
     DownDfs.down_heads_ := [2; 0; 1; 0]%nat;
     DownDfs.node_labels_ := [0; 1; 2; 3]; DownDfs.s_label := INT32_MAX;
     DownDfs.t_label := INT32_MAX |}.

Definition engine : @Astar.engine DownDfs.policy unit := Astar.make policy tt.

End Detour.

(** ** Graphs for the concrete runs of the label builder *)

(** Four nodes ranked by id.  Node 0 has up-edges to nodes 1 and 2, node 1
    a down-edge to node 0, and the apex, node 3, down-edges to nodes 1
    and 2.  Node 3 is in partition 1, the others in partition 0. *)
Module FourNodes.
Import Graph.

Definition node_of (es : list (nat * Z)) : node :=
  {| outgoing := (fun e => {| node_id_ := e.1; wt_ := e.2 |}) <$> es |}.

Definition graph : planar_graph :=
  {| nodes := [ node_of [(1%nat, 1); (2%nat, 1)]; node_of [(0%nat, 1)];
                node_of []; node_of [(1%nat, 1); (2%nat, 1)] ];
     to_graph_id := fun z => z;
     get_xy := fun z => (z, 0) |}.

Definition part : list nat := [0; 0; 0; 1]%nat.

Definition rank : list Z := [0; 1; 2; 3].

Definition labels : outcome Labelling.store :=
  Labelling.compute_labels graph part 1 rank 10 [] [].

End FourNodes.

(** A hub.  Node 0 (rank 2) has 100 outgoing edges of weight 1: edge 0 up
    to the apex, node 1 (rank 3), and edge [i] down to node [i + 1] for
    [i] from 1 to 99 (rank 1).  The apex has a down-edge back to node 0.
    Node 101 (rank 0) is reached from node 2 at weight 5 and from node 3 at
    weight 1.  Node 0 is in partition 1, the others in partition 0. *)
Module Hub.
Import Graph.

Definition spoke (t : nat) : edge := {| node_id_ := t; wt_ := 1 |}.

Definition graph : planar_graph :=
  {| nodes := [ {| outgoing := spoke <$> seq 1 100 |};
                {| outgoing := [spoke 0] |};
                {| outgoing := [ {| node_id_ := 101; wt_ := 5 |} ] |};
                {| outgoing := [ {| node_id_ := 101; wt_ := 1 |} ] |} ]
              ++ replicate 98 {| outgoing := [] |};
     to_graph_id := fun z => z;
     get_xy := fun z => (z, 0) |}.

Definition part : list nat := 1%nat :: replicate 101 0%nat.

Definition rank : list Z := [2; 3] ++ replicate 99 1 ++ [0].

Definition labels : outcome Labelling.store :=
  Labelling.compute_labels graph part 1 rank 10 [] [].

(** A search node as a hook sees it during the refinement search. *)
Definition seen (i : nat) (gv : Z) (sid : Z) : search_node :=
  {| id := i; g := gv; f := gv; parent := None; expanded := false; search_id := sid |}.

(** The hook calls of the Dijkstra search from node 0, in the order of a
    search that takes equal costs first-in first-out: node 0 is expanded
    and its 100 successors are generated; the apex is expanded and
    generates node 0 again; node 2 is expanded and generates node 101 at
    cost 6; node 3 is expanded and generates it at cost 2; nodes 4 to 100
    are expanded; node 101 is expanded. *)
Definition dijkstra (source_id : nat) : list Labelling.hook_call :=
  [Labelling.Expand (seen 0 0 1)]
  ++ ((fun i => Labelling.Generate (seen (i + 1) INF 0) (Some (seen 0 0 1)) 1 i)
        <$> seq 0 100)
  ++ [ Labelling.Expand (seen 1 1 1);
       Labelling.Generate (seen 0 0 1) (Some (seen 1 1 1)) 1 0;
       Labelling.Expand (seen 2 1 1);
       Labelling.Generate (seen 101 INF 0) (Some (seen 2 1 1)) 5 0;
       Labelling.Expand (seen 3 1 1);
       Labelling.Generate (seen 101 6 1) (Some (seen 3 1 1)) 1 0 ]
  ++ ((fun i => Labelling.Expand (seen i 1 1)) <$> seq 4 97)
  ++ [Labelling.Expand (seen 101 2 1)].

Definition refined (st : Labelling.store)
  : outcome (list nat * list (list Labelling.down_dfs_label)) :=
  Labelling.improve_labels graph part 1 rank dijkstra
    (Labelling.dfs_order_ st) (Labelling.lab_ st).

End Hub.

Module LabelClaims.
Import Labelling.

(** Containment of labels: whatever the first holds, the second holds. *)
Definition label_le (l l' : down_dfs_label) : Prop :=
  forall (dfs_id rank x y : Z) (s_part : nat),
    contains l dfs_id rank x y s_part = true ->
    contains l' dfs_id rank x y s_part = true.

(** A label holds a node of the graph: its postorder id, rank, coordinates
    and partition. *)
Definition holds_node (g : Graph.planar_graph) (part : list nat) (rank dfs_order : list Z)
    (l : down_dfs_label) (node_id : nat) : Prop :=
  exists d r p, dfs_order !! node_id = Some d /\ rank !! node_id = Some r /\
    part !! node_id = Some p /\
    contains l d r (Graph.get_xy g (Z.of_nat node_id)).1
               (Graph.get_xy g (Z.of_nat node_id)).2 p = true.

End LabelClaims.

Module RowClaims.
Import Labelling LabelClaims.

(** The labels of one node's edges only grow. *)
Definition row_le (source_id : nat) (lab lab' : list (list down_dfs_label)) : Prop :=
  forall idx l, lab_at lab source_id idx = Done l ->
    exists l', lab_at lab' source_id idx = Done l' /\ label_le l l'.

End RowClaims.

(** The bookkeeping of an episode, without the costs: the frontier holds
    each node once, every node on it is in the pool and not expanded, the
    start node is the one node without a parent, a parent is an expanded
    node of the pool, and [m] numbers the expanded nodes in the order of
    their expansion, below [K]. *)
Module EpisodeClaims.
Import Astar.

Record episode (start : nat) (m : nat -> nat) (K : nat)
    (open : list nat) (pool : gmap nat search_node) : Prop := {
  es_keys : forall k n, pool !! k = Some n -> id n = k;
  es_nodup : NoDup open;
  es_open : forall k, k ∈ open -> exists n, pool !! k = Some n /\ expanded n = false;
  es_root : exists s, pool !! start = Some s /\ parent s = None /\
                      (expanded s = true \/ open = [start]);
  es_inner : forall k n, pool !! k = Some n -> k <> start -> is_Some (parent n);
  es_parent : forall k n p, pool !! k = Some n -> parent n = Some p ->
                exists np, pool !! p = Some np /\ expanded np = true;
  es_order : forall k n p, pool !! k = Some n -> expanded n = true ->
                parent n = Some p -> (m p < m k)%nat;
  es_bound : forall k n, pool !! k = Some n -> expanded n = true -> (m k < K)%nat
}.

(** A path as [get_path] stacks it: each node after the first has the node
    before it as its parent. *)
Definition linked (pool : gmap nat search_node) (path : list nat) : Prop :=
  forall i a b, path !! i = Some a -> path !! S i = Some b ->
    exists nb, pool !! b = Some nb /\ parent nb = Some a.

End EpisodeClaims.

Module LinkClaims.

(** Every parent reference follows an edge that the policy [e] enumerated
    when the parent was expanded, and g adds that edge's cost. *)
Definition edge_linked {P : Type} {EP : ExpansionPolicy P} (e : P)
    (pool : gmap nat search_node) : Prop :=
  forall k n p, pool !! k = Some n -> parent n = Some p ->
    exists np nbs w, pool !! p = Some np /\ expanded np = true /\
      ep_expand e np = Done nbs /\ (k, w) ∈ nbs /\ g n = g np + w.

(** [c] is the cost of walking along [path]: the sum, over each node of the
    path and the next, of the cost of an edge to the next that the policy
    [e] enumerates for the node as the pool has it. *)
Inductive steps {P : Type} {EP : ExpansionPolicy P} (e : P)
    (pool : gmap nat search_node) : list nat -> Z -> Prop :=
| steps_one (a : nat) : steps e pool [a] 0
| steps_more (path : list nat) (a b : nat) (c w : Z)
    (na : search_node) (nbs : list (nat * Z)) :
    steps e pool (path ++ [a]) c ->
    pool !! a = Some na -> ep_expand e na = Done nbs -> (b, w) ∈ nbs ->
    steps e pool (path ++ [a; b]) (c + w).

End LinkClaims.

(** What the up pass (Stage D) owes to the down pass (Stage C). *)
Module StageClaims.
Import Graph Labelling LabelClaims RowClaims.

(** Edge [idx] of node [s] goes strictly down the hierarchy. *)
Definition down_edge (g : planar_graph) (rank : list Z) (s idx : nat) : Prop :=
  exists n e rt rs,
    nodes g !! s = Some n /\ outgoing n !! idx = Some e /\
    rank !! node_id_ e = Some rt /\ rank !! s = Some rs /\ rt < rs.

(** The node labels and the postorder numbering are as they were, every
    edge label holds what it held, and the labels of down edges are as they
    were. *)
Record keeps_down_labels (g : planar_graph) (rank : list Z) (st st' : store) : Prop := {
  kd_node_labels : node_labels st' = node_labels st;
  kd_dfs_order : dfs_order_ st' = dfs_order_ st;
  kd_dfs_id : dfs_id st' = dfs_id st;
  kd_rows : forall s, row_le s (lab_ st) (lab_ st');
  kd_down : forall s idx, down_edge g rank s idx ->
              lab_at (lab_ st') s idx = lab_at (lab_ st) s idx
}.

End StageClaims.

(** What the down pass (Stage C) establishes: the label of a numbered node
    holds whatever lies below it. *)
Module ClosureClaims.
Import Graph Labelling LabelClaims.

Section Closure.

Variable g : planar_graph.
Variable part : list nat.
Variable rank : list Z.

(** No edge joins two nodes of the same rank. *)
Definition strict_ranks : Prop :=
  forall v n e rv rt,
    nodes g !! v = Some n -> e ∈ outgoing n ->
    rank !! v = Some rv -> rank !! node_id_ e = Some rt -> rv <> rt.

(** [t] is reached from [v] along edges that Stage C follows: those whose
    target does not rank above their source. *)
Inductive down_reach : nat -> nat -> Prop :=
| down_here (v : nat) : down_reach v v
| down_step (v t : nat) (n : node) (e : edge) (rv rt : Z) :
    nodes g !! v = Some n -> e ∈ outgoing n ->
    rank !! v = Some rv -> rank !! node_id_ e = Some rt -> rt <= rv ->
    down_reach (node_id_ e) t -> down_reach v t.

(** The node has its postorder id. *)
Definition numbered (st : store) (v : nat) : Prop :=
  exists d, dfs_order_ st !! v = Some d /\ d <> INT32_MAX.

(** How many nodes are still to be numbered. *)
Definition unnumbered (order : list Z) : nat :=
  length (filter (fun d => d = INT32_MAX) order).

(** The counter can number every node that is left without reaching
    [INT32_MAX], the mark of a node without a number. *)
Definition numbering_fits (st : store) : Prop :=
  0 <= dfs_id st /\ dfs_id st + Z.of_nat (unnumbered (dfs_order_ st)) <= INT32_MAX.

(** Every numbered node has a label that holds the node itself; each of its
    edges that does not go up leads to a numbered node with a smaller
    number, is labelled with that node's label, and the node's own label
    holds whatever that label holds. *)
Definition closed_at (st : store) (v : nat) : Prop :=
  exists l, node_labels st !! v = Some l
    /\ holds_node g part rank (dfs_order_ st) l v
    /\ forall n idx e rv rt,
         nodes g !! v = Some n -> outgoing n !! idx = Some e ->
         rank !! v = Some rv -> rank !! node_id_ e = Some rt -> rt <= rv ->
         numbered st (node_id_ e)
         /\ (exists d dt, dfs_order_ st !! v = Some d
                          /\ dfs_order_ st !! node_id_ e = Some dt /\ dt < d)
         /\ exists lt, node_labels st !! node_id_ e = Some lt /\ label_le lt l
                       /\ lab_at (lab_ st) v idx = Done lt.

Definition closed (st : store) : Prop :=
  forall v, numbered st v -> closed_at st v.

(** The numbers given out so far lie below the counter, and no two nodes
    share one. *)
Definition well_numbered (st : store) : Prop :=
  (forall v d, dfs_order_ st !! v = Some d -> d <> INT32_MAX -> 0 <= d < dfs_id st)
  /\ (forall v w d, dfs_order_ st !! v = Some d -> dfs_order_ st !! w = Some d ->
                    d <> INT32_MAX -> v = w).

(** Every node label has [bytes] bytes of flags. *)
Definition uniform (bytes : nat) (st : store) : Prop :=
  forall v l, node_labels st !! v = Some l -> length (flags_ l) = bytes.

(** [v] ranks strictly below [s]. *)
Definition below (s v : nat) : Prop :=
  exists rv rs, rank !! v = Some rv /\ rank !! s = Some rs /\ rv < rs.

(** Nothing that belongs to node [v] differs between the two stores. *)
Definition same_at (v : nat) (st st' : store) : Prop :=
  dfs_order_ st' !! v = dfs_order_ st !! v
  /\ node_labels st' !! v = node_labels st !! v
  /\ forall idx, lab_at (lab_ st') v idx = lab_at (lab_ st) v idx.

(** What a call of [label_fn] for [s] has done when it returns, or is about
    to go on with: the store is closed again, the node labels have their
    bytes, numbered nodes are as they were, and so is every node other than
    [s] that does not rank below [s]. *)
Record progress (bytes : nat) (s : nat) (st st' : store) : Prop := {
  pg_closed : closed st';
  pg_fits : numbering_fits st';
  pg_uniform : uniform bytes st';
  pg_numbering : well_numbered st';
  pg_stable : forall v, numbered st v -> same_at v st st';
  pg_frame : forall v, v <> s -> ~ below s v -> same_at v st st'
}.

(** The loop of [label_fn] for [s] before edge [k]: [s] is not numbered
    yet, and each edge before [k] that does not go up leads to a numbered
    node, carries that node's label, and the label of [s] holds whatever
    that label holds. *)
Record edges_done (bytes : nat) (s : nat) (source : node) (k : nat)
    (st0 st : store) : Prop := {
  ed_progress : progress bytes s st0 st;
  ed_pending : dfs_order_ st !! s = Some INT32_MAX;
  ed_edges : forall j e rs rt,
    (j < k)%nat -> outgoing source !! j = Some e ->
    rank !! s = Some rs -> rank !! node_id_ e = Some rt -> rt <= rs ->
    numbered st (node_id_ e)
    /\ exists lt ls, node_labels st !! node_id_ e = Some lt
                     /\ lab_at (lab_ st) s j = Done lt
                     /\ node_labels st !! s = Some ls /\ label_le lt ls
}.

End Closure.

End ClosureClaims.

(** ** The temporal safe-interval map (sipp_gridmap.cpp) *)

Module Sipp.

(** sipp/sipp_gridmap.h is not among the sources: a safe interval is taken
    with the three members that sipp_gridmap.cpp reads and writes, and the
    actions [warthog::cbs::move] as a type [move].  The [cost_t] times are
    integers here: the code compares and copies them and tests one
    difference for zero. *)
Record safe_interval (move : Type) : Type := {
  s_time_ : Z;
  e_time_ : Z;
  action_ : move
}.

Arguments s_time_ {move} _.
Arguments e_time_ {move} _.
Arguments action_ {move} _.

(** The members the two functions use: the safe intervals of every cell,
    and the labels of the temporal grid [t_gm_] by padded id. *)
Record sipp_gridmap (move : Type) : Type := {
  intervals_ : list (list (safe_interval move));
  t_gm_ : gmap nat bool
}.

Arguments intervals_ {move} _.
Arguments t_gm_ {move} _.

Section Map.

Context {move : Type}.

(** What the functions take from the grid [gm_] and from the constants:
    [gm_->header_width()], [gm_->get_label], [t_gm_->to_padded_id],
    [warthog::COST_MAX] and the action of a default-constructed
    interval. *)
Variable header_width : Z.
Variable gm_label : nat -> bool.
Variable to_padded_id : nat -> nat.
Variable COST_MAX : Z.
Variable no_action : move.

(** [uint32_t node_id = y * gm_->header_width() + x] *)
Definition node_id_of (x y : Z) : nat :=
  Z.to_nat (Astar.u32 (y * header_width + x)).

(** Lines 58-100: what the body of the loop pushes for one interval. *)
Definition carve (start_time end_time : Z) (action : move) (si : safe_interval move)
  : list (safe_interval move) :=
  if end_time <? s_time_ si then [si]
  else if e_time_ si <? start_time then [si]
  else if (start_time <=? s_time_ si) && (e_time_ si <=? end_time) then []
  else if (start_time <=? s_time_ si) && (end_time <? e_time_ si)
  then [ {| s_time_ := end_time; e_time_ := e_time_ si; action_ := action |} ]
  else if (s_time_ si <? start_time) && (e_time_ si <=? end_time)
  then [ {| s_time_ := s_time_ si; e_time_ := start_time; action_ := action_ si |} ]
  else if (s_time_ si <? start_time) && (end_time <? e_time_ si)
  then [ {| s_time_ := end_time; e_time_ := e_time_ si; action_ := action |};
         {| s_time_ := s_time_ si; e_time_ := start_time; action_ := action_ si |} ]
  else [].

(** Lines 103-109: [std::sort] by start time.  The order it leaves between
    intervals of equal start time is not specified; this sort keeps the
    later of two such intervals behind the earlier. *)
Fixpoint insert_by_start (si : safe_interval move) (l : list (safe_interval move))
  : list (safe_interval move) :=
  match l with
  | [] => [si]
  | x :: l' =>
      if s_time_ si <? s_time_ x then si :: x :: l' else x :: insert_by_start si l'
  end.

Definition sort_by_start (l : list (safe_interval move)) : list (safe_interval move) :=
  foldr insert_by_start [] l.

(** Lines 46-114. *)
Definition add_obstacle (st : sipp_gridmap move) (x y : Z) (start_time end_time : Z)
    (action : move) : outcome (sipp_gridmap move) :=
  if end_time - start_time =? 0 then Done st
  else
    let node_id := node_id_of x y in
    do cell <- at_ (intervals_ st) node_id;
    let temp := cell ≫= carve start_time end_time action in
    do ints <- set_at (intervals_ st) node_id (sort_by_start temp);
    Done {| intervals_ := ints;
            t_gm_ := <[to_padded_id node_id := true]> (t_gm_ st) |}.

(** Lines 116-133. *)
Definition clear_obstacles (st : sipp_gridmap move) (x y : Z)
  : outcome (sipp_gridmap move) :=
  let node_id := node_id_of x y in
  do _ <- at_ (intervals_ st) node_id;
  let si := {| s_time_ := if gm_label node_id then 0 else COST_MAX;
               e_time_ := COST_MAX; action_ := no_action |} in
  do ints <- set_at (intervals_ st) node_id [si];
  Done {| intervals_ := ints;
          t_gm_ := <[to_padded_id node_id := false]> (t_gm_ st) |}.

(** The time [t] lies in one of the intervals. *)
Definition covers (l : list (safe_interval move)) (t : Z) : Prop :=
  exists si, si ∈ l /\ s_time_ si <= t <= e_time_ si.

End Map.

End Sipp.

(** A map of two by two free cells, each safe from time 0 to time 1000;
    actions are numbers, and padded ids are the ids. *)
Module SippRun.
Import Sipp.

Definition free : safe_interval nat := {| s_time_ := 0; e_time_ := 1000; action_ := 0%nat |}.

Definition grid : sipp_gridmap nat :=
  {| intervals_ := replicate 4 [free]; t_gm_ := ∅ |}.

Definition add_obstacle (st : sipp_gridmap nat) (x y start_time end_time : Z) (action : nat)
  : outcome (sipp_gridmap nat) :=
  Sipp.add_obstacle 2 (fun i => i) st x y start_time end_time action.

Definition clear_obstacles (st : sipp_gridmap nat) (x y : Z) : outcome (sipp_gridmap nat) :=
  Sipp.clear_obstacles 2 (fun _ => true) (fun i => i) 1000 0%nat st x y.

End SippRun.

(** A cell's safe intervals as a time line. *)
Module TimelineClaims.
Import Sipp.

Section Timeline.

Context {move : Type}.

(** [a] ends before [b] starts. *)
Definition before (a b : safe_interval move) : Prop := e_time_ a <= s_time_ b.

(** Neither of the two reaches into the other. *)
Definition apart (a b : safe_interval move) : Prop := before a b \/ before b a.

(** The interval has a positive length. *)
Definition proper (a : safe_interval move) : Prop := s_time_ a < e_time_ a.

(** Intervals of positive length, each ending before the next one and all
    later ones start. *)
Definition timeline (l : list (safe_interval move)) : Prop :=
  StronglySorted before l /\ Forall proper l.

End Timeline.

End TimelineClaims.

(** What the up pass (Stage D) records as the up-apex of a node. *)
Module ApexClaims.
Import Graph Labelling.

Section Apex.

Variable g : planar_graph.
Variable rank : list Z.

(** [t] is reached from [v] along edges that Stage D follows: those whose
    target does not rank below their source. *)
Inductive up_reach : nat -> nat -> Prop :=
| up_here (v : nat) : up_reach v v
| up_step (v t : nat) (n : node) (e : edge) (rv rt : Z) :
    nodes g !! v = Some n -> e ∈ outgoing n ->
    rank !! v = Some rv -> rank !! node_id_ e = Some rt -> rv <= rt ->
    up_reach (node_id_ e) t -> up_reach v t.

(** [a] ranks at least as high as [u], if [u] has a rank. *)
Definition tops (a u : nat) : Prop :=
  forall ru, rank !! u = Some ru -> exists ra, rank !! a = Some ra /\ ru <= ra.

(** [a] is reached from [v] going up, and nothing reached from [v] going up
    ranks above it. *)
Definition highest (v a : nat) : Prop :=
  up_reach v a /\ forall u, up_reach v u -> tops a u.

(** The first loop of [up_label_fn] for [s] before edge [k]: the local
    [apex_id] is reached from [s] going up, and tops [s] and whatever is
    reached through an edge before [k]. *)
Definition apex_so_far (s : nat) (source : node) (k : nat) (apex : nat) : Prop :=
  up_reach s apex /\ tops apex s
  /\ forall j e rs rt u,
       (j < k)%nat -> outgoing source !! j = Some e ->
       rank !! s = Some rs -> rank !! node_id_ e = Some rt -> rs <= rt ->
       up_reach (node_id_ e) u -> tops apex u.

(** The up-apex recorded for [v] is such a node. *)
Definition apex_done (st : store) (v : nat) : Prop :=
  exists a, up_apex st !! v = Some (Z.of_nat a) /\ highest v a.

(** Every entry of [up_apex] is still [INT32_MAX] or such a node. *)
Definition settled (st : store) : Prop :=
  forall v a, up_apex st !! v = Some a ->
    a = INT32_MAX \/ exists apex, a = Z.of_nat apex /\ highest v apex.

(** What a call of [up_label_fn] keeps: the entries stay settled, and a
    node that has its up-apex keeps one. *)
Record apex_progress (st st' : store) : Prop := {
  ap_settled : settled st';
  ap_done : forall v, apex_done st v -> apex_done st' v
}.

End Apex.

End ApexClaims.

(** The labels of the two passes taken together. *)
Module ComposeClaims.
Import Labelling.

(** Every edge label has [bytes] bytes of flags. *)
Definition uniform_rows (bytes : nat) (lab : list (list down_dfs_label)) : Prop :=
  Forall (Forall (fun l => length (flags_ l) = bytes)) lab.

(** All labels of the store have [bytes] bytes of flags, and the up-apex
    entries are [ua]. *)
Definition sized (bytes : nat) (ua : list Z) (st : store) : Prop :=
  Forall (fun l => length (flags_ l) = bytes) (node_labels st)
  /\ uniform_rows bytes (lab_ st)
  /\ up_apex st = ua.

(** All labels of the store have [bytes] bytes of flags. *)
Definition all_sized (bytes : nat) (st : store) : Prop :=
  Forall (fun l => length (flags_ l) = bytes) (node_labels st)
  /\ uniform_rows bytes (lab_ st).

End ComposeClaims.

(** ** When the labelling returns *)

Module TotalClaims.
Import Graph Labelling ClosureClaims.

(** The computation returns, and its result satisfies [I]. *)
Definition returns {A : Type} (I : A -> Prop) (m : outcome A) : Prop :=
  exists a, m = Done a /\ I a.

Section Total.

Variable g : planar_graph.
Variable part : list nat.
Variable bytes : nat.
Variable rank : list Z.

(** The greatest rank. *)
Definition top : Z := foldr Z.max 0 rank.

(** The inputs of [compute_labels] fit together: one rank and one partition
    id per node, at least one node, edges that lead to nodes of the graph,
    flag bytes for every partition id, and no edge between nodes of equal
    rank. *)
Record well_formed : Prop := {
  wf_rank : length rank = get_num_nodes g;
  wf_part : length part = get_num_nodes g;
  wf_nodes : (0 < get_num_nodes g)%nat;
  wf_edges : forall v n e,
    nodes g !! v = Some n -> e ∈ outgoing n -> (node_id_ e < get_num_nodes g)%nat;
  wf_bytes : forall p, p ∈ part -> (p / 8 < bytes)%nat;
  wf_ranks : Forall (fun r => 0 <= r) rank;
  wf_strict : strict_ranks g rank
}.

(** The vectors of the store have one entry per node, a row of [lab_] one
    label per edge, node labels [bytes] bytes of flags, and an entry of
    [up_apex] that is set names a node. *)
Record shape (st : store) : Prop := {
  sh_order : length (dfs_order_ st) = get_num_nodes g;
  sh_labels : length (node_labels st) = get_num_nodes g;
  sh_apex : length (up_apex st) = get_num_nodes g;
  sh_lab : length (lab_ st) = get_num_nodes g;
  sh_rows : forall s source row,
    nodes g !! s = Some source -> lab_ st !! s = Some row ->
    length row = out_degree source;
  sh_flags : Forall (fun l => length (flags_ l) = bytes) (node_labels st);
  sh_known : forall v a,
    up_apex st !! v = Some a ->
    a = INT32_MAX \/ exists x, (x < get_num_nodes g)%nat /\ a = Z.of_nat x
}.

(** The node's entry of [up_apex] names a node. *)
Definition apex_known (s : nat) (st : store) : Prop :=
  exists x, (x < get_num_nodes g)%nat /\ up_apex st !! s = Some (Z.of_nat x).

(** Every node of [C] has an edge into [C] that the up pass follows: one
    whose target does not rank below its source. *)
Definition up_trap (C : nat -> Prop) : Prop :=
  forall v, C v ->
    exists source e rv rt,
      nodes g !! v = Some source /\ e ∈ outgoing source /\ C (node_id_ e)
      /\ rank !! v = Some rv /\ rank !! node_id_ e = Some rt /\ rv <= rt.

End Total.

End TotalClaims.

(** Two nodes of rank 5 with an edge each way, and a third node of rank 9
    without edges, the apex. *)
Module Knot.
Import Graph.

Definition graph : planar_graph :=
  {| nodes := [ {| outgoing := [ {| node_id_ := 1; wt_ := 1 |} ] |};
                {| outgoing := [ {| node_id_ := 0; wt_ := 1 |} ] |};
                {| outgoing := [] |} ];
     to_graph_id := fun z => z;
     get_xy := fun z => (z, 0) |}.

Definition part : list nat := [0; 0; 0]%nat.

Definition rank : list Z := [5; 5; 9].

(** The store that [compute_labels] hands to the down pass. *)
Definition store0 : Labelling.store :=
  {| Labelling.dfs_order_ := replicate 3 INT32_MAX;
     Labelling.lab_ := [ [Labelling.label_new 1]; [Labelling.label_new 1]; [] ];
     Labelling.node_labels := replicate 3 (Labelling.label_new 1);
     Labelling.dfs_id := 0;
     Labelling.up_apex := replicate 3 INT32_MAX |}.

End Knot.

(** ** The policy's own postorder labels
    (compute_down_dijkstra_postorder, fch_down_dfs_expansion_policy.cpp) *)

Module Postorder.
Import Graph FirstMove.

(** Modelled from the spec and from its use here: fch_interval is declared
    in a header that is not among the sources.  It is the interval of
    postorder ids of the labels above; a fresh one is empty, with [left] at
    [INT32_MAX], which is what line 244 tests for. *)
Abbreviation fch_interval := Labelling.interval (only parsing).

(** The members [node_labels_] and [edge_labels_] and the locals
    [node_range] and [next_label] that the closure captures by reference. *)
Record store : Type := {
  node_labels_ : list Z;
  edge_labels_ : list (list fch_interval);
  node_range : list fch_interval;
  next_label : Z
}.

Section Pass.

Variable g_ : planar_graph.
Variable rank_ : list Z.
Variable down_heads_ : list nat.

(** Lines 157-169: the scan for the apex, which also gives every node a
    row of one label per down edge.  [num_down] is a [uint32_t]. *)
Fixpoint size_rows (internal_source_id : nat) (edge_labels : list (list fch_interval))
    (cur_ids : list nat) : outcome (nat * list (list fch_interval)) :=
  match cur_ids with
  | [] => Done (internal_source_id, edge_labels)
  | cur_id :: cur_ids' =>
      do rc <- at_ rank_ cur_id;
      do rs <- at_ rank_ internal_source_id;
      let source_id := if rs <? rc then cur_id else internal_source_id in
      do cur <- get_node g_ cur_id;
      do head <- at_ down_heads_ cur_id;
      let num_down := Z.to_nat (Astar.u32 (Z.of_nat (out_degree cur) - Z.of_nat head)) in
      do row <- at_ edge_labels cur_id;
      do edge_labels' <- set_at edge_labels cur_id
                           (resize num_down Labelling.interval_new row);
      size_rows source_id edge_labels' cur_ids'
  end.

Variable first_move : list fm_label.

(** Lines 236-255: the body of the loop of [label_fn]; the second component
    is the local [dfs_range]. *)
Definition follow_edge (label_fn : nat -> store -> outcome (fch_interval * store))
    (current_id : nat) (move : fm_label) (acc : store * fch_interval)
    (edge_idx : nat) (e : edge) : outcome (store * fch_interval) :=
  do fm_t <- at_ first_move (node_id_ e);
  if intersect fm_t move
  then
    do subtree_range <- at_ (node_range acc.1) (node_id_ e);
    do r <- (if Labelling.left subtree_range =? INT32_MAX
             then do r <- label_fn (node_id_ e) acc.1;
                  do nr <- set_at (node_range r.2) (node_id_ e) r.1;
                  Done (r.1, {| node_labels_ := node_labels_ r.2;
                                edge_labels_ := edge_labels_ r.2;
                                node_range := nr; next_label := next_label r.2 |})
             else Done (subtree_range, acc.1));
    do row <- at_ (edge_labels_ r.2) current_id;
    do row' <- set_at row edge_idx r.1;
    do el <- set_at (edge_labels_ r.2) current_id row';
    Done ({| node_labels_ := node_labels_ r.2; edge_labels_ := el;
             node_range := node_range r.2; next_label := next_label r.2 |},
          Labelling.interval_merge acc.2 r.1)
  else Done acc.

(** Lines 218-263.  Advancing [begin] beyond [end] makes the loop run off
    the edge array; that is a [Fault]. *)
Fixpoint label_fn (fuel : nat) (current_id : nat) (st : store)
  : outcome (fch_interval * store) :=
  match fuel with
  | O => OutOfFuel
  | S fuel' =>
      do source <- get_node g_ current_id;
      do move <- at_ first_move current_id;
      do head <- at_ down_heads_ current_id;
      if decide (head <= length (outgoing source))%nat
      then
        do r <- Labelling.edge_loop (follow_edge (label_fn fuel') current_id move)
                  (st, Labelling.interval_new) 0%nat (drop head (outgoing source));
        do l <- at_ (node_labels_ r.1) current_id;
        do nl <- (if l =? INT32_MAX
                  then set_at (node_labels_ r.1) current_id (next_label r.1)
                  else Done (node_labels_ r.1));
        let next_label' := if l =? INT32_MAX then next_label r.1 + 1 else next_label r.1 in
        do l' <- at_ nl current_id;
        Done (Labelling.interval_grow r.2 l',
              {| node_labels_ := nl; edge_labels_ := edge_labels_ r.1;
                 node_range := node_range r.1; next_label := next_label' |})
      else Fault
  end.

End Pass.

(** Lines 152-155 and 216-217: no node has a label or a range, and the
    first label to give out is 0. *)
Definition initial (n : nat) (edge_labels : list (list fch_interval)) : store :=
  {| node_labels_ := replicate n INT32_MAX; edge_labels_ := edge_labels;
     node_range := replicate n Labelling.interval_new; next_label := 0 |}.

(** [compute_down_dijkstra_postorder]; [calls] are the calls the Dijkstra
    search from the apex makes to the generate hook. *)
Definition compute_down_dijkstra_postorder (g_ : planar_graph) (rank_ : list Z)
    (down_heads_ : list nat) (fuel : nat) (calls : list DownDfs.generate_call)
  : outcome store :=
  let n := get_num_nodes g_ in
  do r <- size_rows g_ rank_ down_heads_ 0%nat (replicate n []) (seq 0 (length rank_));
  do fm <- DownDfs.stage_b r.1 (replicate n fm_zero) calls;
  do fm' <- set_at fm r.1 fm_full;
  do res <- label_fn g_ down_heads_ fm' fuel r.1 (initial n r.2);
  Done res.2.

End Postorder.

(** The four-node graph as the policy sees it: both edges of node 0 go up,
    every other edge goes down.  From the apex, node 3, edge 0 is the first
    move to nodes 1 and 0, edge 1 the first move to node 2. *)
Module FourDown.

Definition down_heads : list nat := [2; 0; 0; 0]%nat.

Definition move (i : Z) : list Z := i :: replicate 31 0.

Definition first_move : list (list Z) :=
  [move 1; move 1; move 2; FirstMove.fm_full].

(** The same, but with node 0 reached by edge 1 of the apex: no first move
    of node 0 is one of node 1. *)
Definition first_move_apart : list (list Z) :=
  [move 2; move 1; move 2; FirstMove.fm_full].

Definition rows : list (list Labelling.interval) :=
  [ []; [Labelling.interval_new]; [];
    [Labelling.interval_new; Labelling.interval_new] ].

End FourDown.

(** What the policy's postorder pass establishes. *)
Module PostorderClaims.
Import Graph FirstMove Postorder ClosureClaims.

Section Follow.

Variable g : planar_graph.
Variable down_heads : list nat.
Variable first_move : list fm_label.

(** Down edge [idx] of [v] is [e], and the pass follows it: the first moves
    of its target meet those of [v]. *)
Definition follows (v idx : nat) (e : edge) : Prop :=
  exists source head mv mt,
    nodes g !! v = Some source /\ down_heads !! v = Some head
    /\ drop head (outgoing source) !! idx = Some e
    /\ first_move !! v = Some mv /\ first_move !! node_id_ e = Some mt
    /\ intersect mt mv = true.

(** [t] is reached from [v] along edges that the pass follows. *)
Inductive follow_reach : nat -> nat -> Prop :=
| follow_here (v : nat) : follow_reach v v
| follow_step (v idx : nat) (e : edge) (t : nat) :
    follows v idx e -> follow_reach (node_id_ e) t -> follow_reach v t.

(** The node has its postorder id. *)
Definition numbered (st : store) (v : nat) : Prop :=
  exists l, node_labels_ st !! v = Some l /\ l <> INT32_MAX.

(** The node has its range of postorder ids. *)
Definition ranged (st : store) (v : nat) : Prop :=
  exists r, node_range st !! v = Some r /\ Labelling.left r <> INT32_MAX.

(** Interval [a] lies within interval [b]. *)
Definition within (a b : Labelling.interval) : Prop :=
  Labelling.left b <= Labelling.left a /\ Labelling.right a <= Labelling.right b.

(** [edge_labels_->at(v).at(idx)], when there is one. *)
Definition edge_label (st : store) (v idx : nat) : option Labelling.interval :=
  edge_labels_ st !! v ≫= fun row => row !! idx.

(** The store after [node_range.at(s) = r]. *)
Definition with_range (st : store) (s : nat) (r : Labelling.interval) : store :=
  {| node_labels_ := node_labels_ st; edge_labels_ := edge_labels_ st;
     node_range := <[s := r]> (node_range st); next_label := next_label st |}.

(** The store after [edge_labels_->at(s).at(idx) = r]. *)
Definition with_edge (st : store) (s idx : nat) (row : list Labelling.interval)
    (r : Labelling.interval) : store :=
  {| node_labels_ := node_labels_ st;
     edge_labels_ := <[s := <[idx := r]> row]> (edge_labels_ st);
     node_range := node_range st; next_label := next_label st |}.

(** Node [v] with range [rv] is done: it is numbered, its range holds its
    number, and each edge the pass follows from it leads to a node with a
    range within [rv] and a smaller number, and is labelled with that
    range. *)
Definition closed_at (st : store) (v : nat) (rv : Labelling.interval) : Prop :=
  exists lv, node_labels_ st !! v = Some lv /\ lv <> INT32_MAX
    /\ Labelling.interval_contains rv lv = true
    /\ forall idx e, follows v idx e ->
         exists rt lt,
           node_range st !! node_id_ e = Some rt /\ Labelling.left rt <> INT32_MAX
           /\ within rt rv /\ edge_label st v idx = Some rt
           /\ node_labels_ st !! node_id_ e = Some lt /\ lt < lv.

Definition closed (st : store) : Prop :=
  forall v rv, node_range st !! v = Some rv -> Labelling.left rv <> INT32_MAX ->
               closed_at st v rv.

(** The state between two calls of [label_fn]: every node with a range is
    done, every numbered node has a range, and the numbers given out are
    the numbers below the counter, each given once. *)
Record good (st : store) : Prop := {
  gd_closed : closed st;
  gd_ranged : forall v, numbered st v -> ranged st v;
  gd_length : length (node_range st) = length (node_labels_ st);
  gd_room : Z.of_nat (length (node_labels_ st)) <= INT32_MAX;
  gd_count : next_label st + Z.of_nat (unnumbered (node_labels_ st))
             = Z.of_nat (length (node_labels_ st));
  gd_next : 0 <= next_label st;
  gd_below : forall v l,
    node_labels_ st !! v = Some l -> l <> INT32_MAX -> 0 <= l < next_label st;
  gd_distinct : forall v w l,
    node_labels_ st !! v = Some l -> node_labels_ st !! w = Some l ->
    l <> INT32_MAX -> v = w
}.

(** From [st] to [st']: ranges and numbers that were set stay, new numbers
    go to nodes in [N] only, and the rows of numbered nodes and of nodes
    outside [W] are not written. *)
Record ext (N W : nat -> Prop) (st st' : store) : Prop := {
  ex_ranges : forall v rv,
    node_range st !! v = Some rv -> Labelling.left rv <> INT32_MAX ->
    node_range st' !! v = Some rv;
  ex_labels : forall v l,
    node_labels_ st !! v = Some l -> l <> INT32_MAX -> node_labels_ st' !! v = Some l;
  ex_next : next_label st <= next_label st';
  ex_length : length (node_labels_ st') = length (node_labels_ st);
  ex_new : forall v, numbered st' v -> numbered st v \/ N v;
  ex_rows : forall v idx,
    numbered st v \/ ~ W v -> edge_label st' v idx = edge_label st v idx
}.

(** The loop of [label_fn] for [s] before edge [k]: [s] is not numbered
    yet, and each edge before [k] that the pass follows leads to a numbered
    node with a range within [dfs_range], and carries that range. *)
Record edges_done (rk : nat -> Z) (s k : nat) (st0 : store)
    (acc : store * Labelling.interval) : Prop := {
  ed_good : good acc.1;
  ed_pending : ~ numbered acc.1 s;
  ed_ext : ext (fun v => rk v < rk s) (fun v => rk v <= rk s) st0 acc.1;
  ed_edges : forall idx e,
    (idx < k)%nat -> follows s idx e ->
    exists rt lt,
      node_range acc.1 !! node_id_ e = Some rt /\ Labelling.left rt <> INT32_MAX
      /\ within rt acc.2 /\ edge_label acc.1 s idx = Some rt
      /\ node_labels_ acc.1 !! node_id_ e = Some lt /\ lt <> INT32_MAX
}.

(** What a call of [label_fn] for [s] that returned [r] has done, seen
    once the caller has stored [r] as the range of [s]. *)
Definition returned (rk : nat -> Z) (s : nat) (st : store) (r : Labelling.interval)
    (st' : store) : Prop :=
  good (with_range st' s r) /\ ranged (with_range st' s r) s
  /\ ext (fun v => rk v <= rk s) (fun v => rk v <= rk s) st (with_range st' s r).

(** The vectors fit the graph: a split index and a first-move label per
    node, split indices within the edges of their nodes, down edges that
    lead to nodes of the graph, and out-degrees that fit a [uint32_t]. *)
Record fits_graph : Prop := {
  fg_heads : length down_heads = get_num_nodes g;
  fg_moves : length first_move = get_num_nodes g;
  fg_split : forall v source head,
    nodes g !! v = Some source -> down_heads !! v = Some head ->
    (head <= length (outgoing source))%nat;
  fg_edges : forall v source head e,
    nodes g !! v = Some source -> down_heads !! v = Some head ->
    e ∈ drop head (outgoing source) -> (node_id_ e < get_num_nodes g)%nat;
  fg_degree : forall v source,
    nodes g !! v = Some source -> Z.of_nat (out_degree source) < 4294967296
}.

(** Every node has a row of one label per down edge. *)
Definition rows_fit (edge_labels : list (list Labelling.interval)) : Prop :=
  length edge_labels = get_num_nodes g
  /\ forall v source head row,
       nodes g !! v = Some source -> down_heads !! v = Some head ->
       edge_labels !! v = Some row ->
       length row = (length (outgoing source) - head)%nat.

(** The vectors of the store have one entry per node. *)
Definition shaped (st : store) : Prop :=
  length (node_labels_ st) = get_num_nodes g
  /\ length (node_range st) = get_num_nodes g
  /\ rows_fit (edge_labels_ st).

End Follow.

End PostorderClaims.

(** * Properties *)

(** ** Checked accesses *)

Lemma at_Done {A : Type} (v : list A) (i : nat) (a : A) :
  at_ v i = Done a <-> v !! i = Some a.
Proof.
  unfold at_. destruct (v !! i); split; intros H; inversion H; reflexivity.
Qed.

Lemma set_at_Done {A : Type} (v : list A) (i : nat) (x : A) (v' : list A) :
  set_at v i x = Done v' <-> (i < length v)%nat /\ v' = <[i := x]> v.
Proof.
  unfold set_at. destruct (decide (i < length v)%nat); split.
  - intros H; inversion H; auto.
  - intros [_ ->]; reflexivity.
  - intros H; inversion H.
  - intros [H _]; contradiction.
Qed.

Lemma obind_Done {A B : Type} (m : outcome A) (k : A -> outcome B) (b : B) :
  obind m k = Done b <-> exists a, m = Done a /\ k a = Done b.
Proof.
  destruct m; simpl; split.
  - intros H; eauto.
  - intros (a' & Ha & Hk); inversion Ha; subst; exact Hk.
  - intros H; inversion H.
  - intros (a' & Ha & _); inversion Ha.
  - intros H; inversion H.
  - intros (a' & Ha & _); inversion Ha.
Qed.

(** Take the hypotheses [do x <- m; k = Done b] apart. *)
Ltac unbind :=
  repeat match goal with
  | H : obind _ _ = Done _ |- _ =>
      let a := fresh "a" in
      let Ha := fresh "Ha" in
      apply obind_Done in H; destruct H as (a & Ha & H)
  end.

(** Turn the checked accesses among the hypotheses into list facts. *)
Ltac accesses :=
  repeat match goal with
  | H : at_ _ _ = Done _ |- _ => apply at_Done in H
  | H : set_at _ _ _ = Done _ |- _ =>
      let Hlt := fresh "Hlt" in apply set_at_Done in H; destruct H as [Hlt H]
  | H : Done _ = Done _ |- _ => inversion H; clear H
  end.

Lemma u8_testbit (z k : Z) : 0 <= k < 8 -> Z.testbit (u8 z) k = Z.testbit z k.
Proof.
  intros Hk. unfold u8. change 255 with (Z.ones 8).
  rewrite Z.land_spec, Z.ones_spec_low by lia. apply andb_true_r.
Qed.

Lemma u8_range (z : Z) : 0 <= u8 z < 256.
Proof.
  unfold u8. change 255 with (Z.ones 8). rewrite Z.land_ones by lia.
  change (2 ^ 8) with 256. apply Z.mod_pos_bound. lia.
Qed.

Lemma one_shl_testbit (m k : nat) :
  Z.testbit (Z.shiftl 1 (Z.of_nat m)) (Z.of_nat k) = bool_decide (m = k).
Proof.
  rewrite Z.shiftl_1_l, Z.pow2_bits_eqb by lia.
  case_bool_decide as E.
  - subst. apply Z.eqb_refl.
  - apply Z.eqb_neq. lia.
Qed.

(** A byte in [0, 256) is zero exactly when its eight low bits are. *)
Lemma byte_zero_bits (z : Z) :
  0 <= z < 256 -> (z = 0 <-> forall k : nat, (k < 8)%nat -> Z.testbit z (Z.of_nat k) = false).
Proof.
  intros Hz. split.
  - intros -> k _. apply Z.bits_0.
  - intros Hbits. apply Z.bits_inj'. intros n Hn. rewrite Z.bits_0.
    destruct (Z_lt_dec n 8) as [Hlt|Hge].
    + specialize (Hbits (Z.to_nat n)). rewrite Z2Nat.id in Hbits by lia.
      apply Hbits. lia.
    + destruct (Z.eq_dec z 0) as [->|Hnz]; [apply Z.bits_0|].
      apply Z.bits_above_log2; [lia|].
      assert (Z.log2 z < 8); [|lia].
      apply Z.log2_lt_pow2; [lia|]. change (2 ^ 8) with 256. lia.
Qed.

(** ** The first-move bitset *)

Module FirstMoveFacts.
Import FirstMove.

Lemma byte_at_insert (l : fm_label) (i j : nat) (x : Z) :
  (i < length l)%nat ->
  byte_at (<[i := x]> l) j = if decide (i = j) then x else byte_at l j.
Proof.
  intros Hi. unfold byte_at. rewrite !nth_lookup.
  destruct (decide (i = j)) as [->|Hne].
  - rewrite list_lookup_insert_eq by exact Hi. reflexivity.
  - rewrite list_lookup_insert_ne by exact Hne. reflexivity.
Qed.

Lemma byte_at_cup (l other : fm_label) (i : nat) :
  (i < FM_BYTES)%nat ->
  byte_at (cup l other) i = u8 (Z.lor (byte_at l i) (byte_at other i)).
Proof.
  intros Hi. unfold cup, byte_at at 1. rewrite nth_lookup, list_lookup_fmap.
  rewrite lookup_seq_lt by exact Hi. reflexivity.
Qed.

Lemma split_index (j : nat) : (j = 8 * (j / 8) + j mod 8)%nat /\ (j mod 8 < 8)%nat.
Proof.
  split; [apply Nat.div_mod_eq | apply Nat.mod_upper_bound; lia].
Qed.

Lemma add_Done (l : fm_label) (move_id : nat) :
  length l = FM_BYTES -> (move_id < 256)%nat ->
  exists l', add l move_id = Done l' /\ length l' = FM_BYTES /\
    forall j, bit l' j = if decide (j = move_id) then true else bit l j.
Proof.
  intros Hl Hm. unfold add.
  pose proof (split_index move_id) as [Em Hmb].
  assert (move_id / 8 < FM_BYTES)%nat as Hbyte by (unfold FM_BYTES; lia).
  destruct (decide (move_id / 8 < FM_BYTES)%nat) as [_|Hn]; [|contradiction].
  eexists; split; [reflexivity|]. split; [rewrite length_insert; exact Hl|].
  intros j. pose proof (split_index j) as [Ej Hjb]. unfold bit.
  rewrite byte_at_insert by (rewrite Hl; exact Hbyte).
  destruct (decide (move_id / 8 = j / 8)%nat) as [Eb|Nb].
  - rewrite u8_testbit by lia. rewrite Z.lor_spec, one_shl_testbit, <- Eb.
    destruct (decide (j = move_id)) as [->|Hne].
    + rewrite bool_decide_eq_true_2 by reflexivity. apply orb_true_r.
    + rewrite bool_decide_eq_false_2 by lia. apply orb_false_r.
  - destruct (decide (j = move_id)) as [->|Hne]; [contradiction Nb; reflexivity|].
    reflexivity.
Qed.

Lemma add_Fault (l : fm_label) (move_id : nat) :
  (256 <= move_id)%nat -> (FM_BYTES <= move_id / 8)%nat /\ add l move_id = Fault.
Proof.
  intros Hm.
  assert (FM_BYTES <= move_id / 8)%nat as Hb.
  { unfold FM_BYTES. change 32%nat with (256 / 8)%nat.
    apply Nat.Div0.div_le_mono, Hm. }
  split; [exact Hb|]. unfold add.
  destruct (decide (move_id / 8 < FM_BYTES)%nat); [lia|reflexivity].
Qed.

Lemma bit_cup (l other : fm_label) (j : nat) :
  (j < 256)%nat -> bit (cup l other) j = bit l j || bit other j.
Proof.
  intros Hj. pose proof (split_index j) as [Ej Hjb]. unfold bit.
  rewrite byte_at_cup by (unfold FM_BYTES; lia).
  rewrite u8_testbit by lia. apply Z.lor_spec.
Qed.

(** The accumulator of [intersect] after the bytes [is]. *)
Lemma intersect_fold (l other : fm_label) (ids : list nat) (r : Z) (k : nat) :
  (k < 8)%nat ->
  Z.testbit (foldl (fun r i => u8 (Z.lor r (Z.land (byte_at l i) (byte_at other i)))) r ids)
            (Z.of_nat k)
  = Z.testbit r (Z.of_nat k)
    || existsb (fun i => Z.testbit (byte_at l i) (Z.of_nat k)
                         && Z.testbit (byte_at other i) (Z.of_nat k)) ids.
Proof.
  intros Hk. revert r. induction ids as [|i ids IH]; intros r; simpl.
  - symmetry. apply orb_false_r.
  - rewrite IH, u8_testbit by lia. rewrite Z.lor_spec, Z.land_spec.
    symmetry. apply orb_assoc.
Qed.

Lemma intersect_fold_range (l other : fm_label) (ids : list nat) (r : Z) :
  0 <= r < 256 ->
  0 <= foldl (fun r i => u8 (Z.lor r (Z.land (byte_at l i) (byte_at other i)))) r ids < 256.
Proof.
  revert r. induction ids as [|i ids IH]; intros r Hr; simpl; [exact Hr|].
  apply IH, u8_range.
Qed.

Lemma intersect_true (l other : fm_label) :
  intersect l other = true <->
  exists j, (j < 256)%nat /\ bit l j = true /\ bit other j = true.
Proof.
  unfold intersect.
  set (retval := foldl _ 0 _).
  assert (0 <= retval < 256) as Hr by (apply intersect_fold_range; lia).
  rewrite negb_true_iff, Z.eqb_neq. split.
  - intros Hnz.
    destruct (existsb (fun k => Z.testbit retval (Z.of_nat k)) (seq 0 8)) eqn:Ex.
    + apply existsb_exists in Ex as (k & Hin & Hbit).
      apply in_seq in Hin.
      unfold retval in Hbit. rewrite intersect_fold in Hbit by lia.
      rewrite Z.bits_0, orb_false_l in Hbit.
      apply existsb_exists in Hbit as (i & Hi & Hboth).
      apply in_seq in Hi. apply andb_true_iff in Hboth as [Hlb Hob].
      exists (8 * i + k)%nat. unfold FM_BYTES in Hi.
      split; [lia|]. unfold bit.
      replace ((8 * i + k) / 8)%nat with i
        by (apply Nat.div_unique with k; lia).
      replace ((8 * i + k) mod 8)%nat with k
        by (apply Nat.mod_unique with i; lia).
      auto.
    + contradiction Hnz. apply byte_zero_bits; [exact Hr|].
      intros k Hk. destruct (Z.testbit retval (Z.of_nat k)) eqn:Hb; [|reflexivity].
      assert (existsb (fun k => Z.testbit retval (Z.of_nat k)) (seq 0 8) = true) as Ht.
      { apply existsb_exists. exists k. split; [apply in_seq; lia|exact Hb]. }
      congruence.
  - intros (j & Hj & Hlb & Hob) Hz.
    pose proof (split_index j) as [Ej Hjb].
    assert (Z.testbit retval (Z.of_nat (j mod 8)) = true) as Hbit.
    { unfold retval. rewrite intersect_fold by exact Hjb.
      apply orb_true_iff. right. apply existsb_exists.
      exists (j / 8)%nat. split.
      - apply in_seq. unfold FM_BYTES. lia.
      - unfold bit in Hlb, Hob. rewrite Hlb, Hob. reflexivity. }
    rewrite Hz, Z.bits_0 in Hbit. discriminate.
Qed.

(** The apex's own label, all bytes 255, has every bit set. *)
Lemma fm_full_bits (j : nat) : (j < 256)%nat -> bit fm_full j = true.
Proof.
  intros Hj. pose proof (split_index j) as [Ej Hjb]. unfold bit, byte_at, fm_full.
  rewrite nth_lookup, lookup_replicate_2 by (unfold FM_BYTES; lia).
  cbn [from_option Datatypes.id]. change 255 with (Z.ones 8).
  apply Z.ones_spec_low. lia.
Qed.

(** C10.  The first-move bitset has room for the move ids 0..255: [add]
    of such an id stays inside the 32 bytes, sets that bit and changes no
    other; [cup] is the bitwise union and [intersect] tells whether two
    labels share a bit; an id of 256 or more addresses a byte past the
    array (a fault), so every edge index handed to [add] is in range when
    the out-degree it is drawn from is at most 256. *)
Theorem fm_label_capacity (l other : fm_label) (Hl : length l = FM_BYTES) :
  (forall move_id, (move_id < 256)%nat ->
     exists l', add l move_id = Done l' /\ length l' = FM_BYTES /\
       bit l' move_id = true /\ forall j, j <> move_id -> bit l' j = bit l j)
  /\ (forall j, (j < 256)%nat -> bit (cup l other) j = bit l j || bit other j)
  /\ (intersect l other = true <->
      exists j, (j < 256)%nat /\ bit l j = true /\ bit other j = true)
  /\ (forall move_id, (256 <= move_id)%nat ->
        (FM_BYTES <= move_id / 8)%nat /\ add l move_id = Fault)
  /\ (forall out_degree edge_id, (out_degree <= 256)%nat -> (edge_id < out_degree)%nat ->
        exists l', add l edge_id = Done l').
Proof.
  repeat split.
  - intros move_id Hm.
    destruct (add_Done l move_id Hl Hm) as (l' & Hadd & Hlen & Hbits).
    exists l'. repeat split; [exact Hadd|exact Hlen| |].
    + rewrite Hbits. destruct (decide (move_id = move_id)); [reflexivity|contradiction].
    + intros j Hj. rewrite Hbits. destruct (decide (j = move_id)); [contradiction|reflexivity].
  - intros j Hj. apply bit_cup, Hj.
  - apply intersect_true.
  - apply intersect_true.
  - apply add_Fault; assumption.
  - apply add_Fault; assumption.
  - intros out_degree edge_id Hd He.
    destruct (add_Done l edge_id Hl ltac:(lia)) as (l' & Hadd & _).
    exists l'. exact Hadd.
Qed.

(** The property at the zeroed label of a freshly constructed [fm_label]. *)
Lemma fm_label_capacity_witness :
  length fm_zero = FM_BYTES /\
  (exists l', add fm_zero 255 = Done l' /\ bit l' 255 = true) /\
  add fm_zero 256 = Fault.
Proof.
  split; [reflexivity|].
  destruct (fm_label_capacity fm_zero fm_full eq_refl) as (Hadd & _ & _ & Hfault & _).
  split.
  - destruct (Hadd 255%nat ltac:(lia)) as (l' & H1 & _ & H2 & _). exists l'. auto.
  - apply (Hfault 256%nat). lia.
Defined.

End FirstMoveFacts.

(** ** The hook of the search from the apex (Stage B) *)

Module StageBFacts.
Import DownDfs Claims.

Lemma add_is_label (l l' : FirstMove.fm_label) (k : nat) :
  is_label l -> FirstMove.add l k = Done l' -> with_move l k l'.
Proof.
  intros [Hl Hb] H.
  assert (k < 256)%nat as Hk.
  { unfold FirstMove.add in H.
    destruct (decide (k / 8 < FirstMove.FM_BYTES)%nat) as [Hlt|]; [|discriminate].
    unfold FirstMove.FM_BYTES in Hlt.
    pose proof (FirstMoveFacts.split_index k) as [Ek Hm]. lia. }
  destruct (FirstMoveFacts.add_Done l k Hl Hk) as (l2 & Hadd & Hlen & Hbits).
  assert (l2 = l') as -> by congruence.
  split; [split; [exact Hlen|]|split].
  - intros i. unfold FirstMove.add in H.
    destruct (decide (k / 8 < FirstMove.FM_BYTES)%nat) as [Hlt|]; [|discriminate].
    assert (l' = <[(k / 8)%nat :=
                     u8 (Z.lor (FirstMove.byte_at l (k / 8))
                               (Z.shiftl 1 (Z.of_nat (k mod 8))))]> l) as ->
      by congruence.
    rewrite FirstMoveFacts.byte_at_insert by (rewrite Hl; exact Hlt).
    destruct (decide (k / 8 = i)%nat); [apply u8_range|apply Hb].
  - rewrite Hbits. destruct (decide (k = k)); [reflexivity|contradiction].
  - intros j Hj. rewrite Hbits. destruct (decide (j = k)); [contradiction|reflexivity].
Qed.

Lemma cup_is_union (dst src : FirstMove.fm_label) :
  union_of dst src (FirstMove.cup dst src).
Proof.
  split; [split|].
  - unfold FirstMove.cup. rewrite length_fmap, length_seq. reflexivity.
  - intros i. destruct (decide (i < FirstMove.FM_BYTES)%nat) as [Hi|Hi].
    + rewrite FirstMoveFacts.byte_at_cup by exact Hi. apply u8_range.
    + unfold FirstMove.byte_at. rewrite nth_overflow; [lia|].
      unfold FirstMove.cup. rewrite length_fmap, length_seq. lia.
  - intros j Hj. apply FirstMoveFacts.bit_cup. exact Hj.
Qed.

Lemma on_generate_fn_mutation (apex : nat) (fm fm' : list FirstMove.fm_label)
    (c : generate_call) :
  Forall is_label fm ->
  on_generate_fn apex fm (gc_succ c) (gc_from c) (gc_edge_cost c) (gc_edge_id c) = Done fm' ->
  fm_mutation apex fm c fm' /\ Forall is_label fm'.
Proof.
  unfold on_generate_fn. intros Hlab H.
  destruct (gc_from c) as [from|] eqn:Efrom; [|discriminate].
  destruct (decide (id from = apex)) as [Ea|Na].
  - unbind. accesses. subst fm'.
    match goal with E : fm !! _ = Some ?l, A : FirstMove.add ?l _ = Done ?l' |- _ =>
      pose proof (add_is_label l l' _ (Forall_lookup_1 _ _ _ _ Hlab E) A) as Hm end.
    split; [eapply fm_set_bit; eassumption|].
    apply Forall_insert; [exact Hlab|exact (proj1 Hm)].
  - fold (alt_g from (gc_edge_cost c)) in H.
    fold (g_val (gc_succ c) from) in H.
    destruct (Z.ltb_spec (alt_g from (gc_edge_cost c))
                         (g_val (gc_succ c) from)) as [Hlt|Hge].
    + destruct (Z.eqb_spec (alt_g from (gc_edge_cost c))
                           (g_val (gc_succ c) from)) as [Heq|Hne]; [lia|].
      unbind. accesses. subst.
      split; [eapply fm_replace; eassumption|].
      apply Forall_insert; [exact Hlab|].
      eapply (Forall_lookup_1 _ _ _ _ Hlab). eassumption.
    + destruct (Z.eqb_spec (alt_g from (gc_edge_cost c))
                           (g_val (gc_succ c) from)) as [Heq|Hne].
      * unbind. accesses. subst.
        split; [eapply fm_union; try eassumption; apply cup_is_union|].
        apply Forall_insert; [exact Hlab|]. exact (proj1 (cup_is_union _ _)).
      * unbind. accesses. subst.
        split; [eapply fm_untouched; [eassumption|exact Na|lia]|exact Hlab].
Qed.

(** The four things a call of the hook that returns has done. *)
Lemma on_generate_fn_cases (apex : nat) (fm fm' : list FirstMove.fm_label)
    (c : generate_call) :
  on_generate_fn apex fm (gc_succ c) (gc_from c) (gc_edge_cost c) (gc_edge_id c) = Done fm' ->
  (exists from l l', gc_from c = Some from /\ id from = apex
     /\ fm !! id (gc_succ c) = Some l /\ FirstMove.add l (gc_edge_id c) = Done l'
     /\ fm' = <[id (gc_succ c) := l']> fm)
  \/ (exists from src, gc_from c = Some from /\ id from <> apex
        /\ fm !! id from = Some src /\ fm' = <[id (gc_succ c) := src]> fm)
  \/ (exists from dst src, gc_from c = Some from /\ id from <> apex
        /\ fm !! id (gc_succ c) = Some dst /\ fm !! id from = Some src
        /\ fm' = <[id (gc_succ c) := FirstMove.cup dst src]> fm)
  \/ fm' = fm.
Proof.
  unfold on_generate_fn. intros H.
  destruct (gc_from c) as [from|] eqn:Efrom; [|discriminate].
  destruct (decide (id from = apex)) as [Ea|Na].
  - unbind. accesses. subst fm'. left. eauto 10.
  - destruct (Z.ltb_spec (g from + gc_edge_cost c)
                (if search_id (gc_succ c) =? search_id from then g (gc_succ c) else INF))
      as [Hlt|Hge];
      destruct (Z.eqb_spec (g from + gc_edge_cost c)
                  (if search_id (gc_succ c) =? search_id from then g (gc_succ c) else INF))
        as [Heq|Hne]; try lia.
    + unbind. accesses. subst. right. left. eauto 10.
    + unbind. accesses. subst. right. right. left. eauto 10.
    + unbind. accesses. subst. right. right. right. reflexivity.
Qed.

Lemma on_generate_fn_returns (apex : nat) (fm : list FirstMove.fm_label)
    (c : generate_call) :
  call_fits (length fm) apex c ->
  exists fm', on_generate_fn apex fm (gc_succ c) (gc_from c) (gc_edge_cost c) (gc_edge_id c)
              = Done fm' /\ length fm' = length fm.
Proof.
  intros (from & Ef & Hs & Hf & Hk). rewrite Ef. unfold on_generate_fn.
  destruct (lookup_lt_is_Some_2 fm _ Hs) as [ls Els].
  destruct (lookup_lt_is_Some_2 fm _ Hf) as [lf Elf].
  destruct (decide (id from = apex)) as [Ea|Na].
  - rewrite (proj2 (at_Done _ _ _) Els). cbn [obind]. unfold FirstMove.add.
    specialize (Hk Ea).
    destruct (decide (gc_edge_id c / 8 < FirstMove.FM_BYTES)%nat) as [_|Hn].
    + cbn [obind]. rewrite (proj2 (set_at_Done _ _ _ _) (conj Hs eq_refl)).
      eexists. split; [reflexivity|apply length_insert].
    + exfalso. apply Hn. unfold FirstMove.FM_BYTES.
      pose proof (FirstMoveFacts.split_index (gc_edge_id c)) as [Ek Hm]. lia.
  - destruct (g from + gc_edge_cost c <? _).
    + rewrite (proj2 (at_Done _ _ _) Elf). cbn [obind].
      rewrite (proj2 (at_Done _ _ _) Els). cbn [obind].
      rewrite (proj2 (set_at_Done _ _ _ _) (conj Hs eq_refl)). cbn [obind].
      destruct (g from + gc_edge_cost c =? _).
      * assert (id from < length (<[id (gc_succ c) := lf]> fm))%nat as Hf'
          by (rewrite length_insert; exact Hf).
        assert (id (gc_succ c) < length (<[id (gc_succ c) := lf]> fm))%nat as Hs'
          by (rewrite length_insert; exact Hs).
        destruct (lookup_lt_is_Some_2 _ _ Hf') as [x Ex].
        destruct (lookup_lt_is_Some_2 _ _ Hs') as [y Ey].
        rewrite (proj2 (at_Done _ _ _) Ex). cbn [obind].
        rewrite (proj2 (at_Done _ _ _) Ey). cbn [obind].
        rewrite (proj2 (set_at_Done _ _ _ _) (conj Hs' eq_refl)).
        eexists. split; [reflexivity|]. rewrite !length_insert. reflexivity.
      * eexists. split; [reflexivity|apply length_insert].
    + cbn [obind]. destruct (g from + gc_edge_cost c =? _).
      * rewrite (proj2 (at_Done _ _ _) Elf). cbn [obind].
        rewrite (proj2 (at_Done _ _ _) Els). cbn [obind].
        rewrite (proj2 (set_at_Done _ _ _ _) (conj Hs eq_refl)).
        eexists. split; [reflexivity|apply length_insert].
      * eexists. split; [reflexivity|reflexivity].
Qed.

(** C2.  While the search from the apex runs, the first-move bitsets change
    only through the hook, and each call of the hook does one of: set the
    bit of the originating edge in the successor's set (the predecessor is
    the apex); replace the successor's set by the predecessor's (another
    predecessor, strictly better cost); unite the predecessor's set into the
    successor's, bit by bit (another predecessor, equal cost); nothing.
    The hook serves every call that names a predecessor, nodes with a
    bitset and, from the apex, an edge id below 256. *)
Theorem stage_b_history (apex : nat) (calls : list generate_call)
    (fm : list FirstMove.fm_label) (Hlab : Forall is_label fm) :
  (forall fm', stage_b apex fm calls = Done fm' ->
     fm_history apex fm calls fm' /\ Forall is_label fm')
  /\ (Forall (call_fits (length fm) apex) calls ->
      exists fm', stage_b apex fm calls = Done fm').
Proof.
  revert fm Hlab. induction calls as [|c calls IH]; intros fm Hlab; split.
  - simpl. intros fm' H. accesses. subst. split; [constructor|exact Hlab].
  - intros _. exists fm. reflexivity.
  - simpl. intros fm' H. unbind.
    match goal with E : on_generate_fn _ _ _ _ _ _ = Done ?fm1 |- _ =>
      destruct (on_generate_fn_mutation apex fm fm1 c Hlab E) as [Hm Hlab1];
      destruct (proj1 (IH fm1 Hlab1) fm' H) as [Hh Hl] end.
    split; [econstructor; eassumption|exact Hl].
  - intros Hfits. apply Forall_cons in Hfits as [Hc Hfits].
    destruct (on_generate_fn_returns apex fm c Hc) as (fm1 & E1 & Hlen).
    destruct (on_generate_fn_mutation apex fm fm1 c Hlab E1) as [_ Hlab1].
    rewrite <- Hlen in Hfits.
    destruct (proj2 (IH fm1 Hlab1) Hfits) as (fm' & E').
    exists fm'. simpl. rewrite E1. exact E'.
Qed.

Lemma fm_zero_is_label : is_label FirstMove.fm_zero.
Proof.
  split; [reflexivity|]. intros i. unfold FirstMove.byte_at, FirstMove.fm_zero.
  rewrite nth_lookup.
  destruct (replicate FirstMove.FM_BYTES 0 !! i) as [z|] eqn:E; cbn; [|lia].
  apply lookup_replicate in E as [-> _]. lia.
Qed.

(** A search with apex 0 over four nodes.  Node 1 is reached over the
    apex's edge 0, node 2 over its edge 1 at cost 5 and node 3 over its edge
    2 at cost 9.  Then node 2 is reached through node 1 at the same cost 5 (a
    tie: its set becomes the union of moves 1 and 0, byte 3), and node 3
    through node 1 at the lower cost 4 (its set is replaced by that of node
    1, byte 1 instead of 4). *)
Lemma stage_b_history_witness :
  let sn i gv := {| id := i; g := gv; f := gv; parent := None;
                    expanded := false; search_id := 1 |} in
  let calls :=
    [ {| gc_succ := sn 1%nat 0; gc_from := Some (sn 0%nat 0);
         gc_edge_cost := 2; gc_edge_id := 0 |};
      {| gc_succ := sn 2%nat 0; gc_from := Some (sn 0%nat 0);
         gc_edge_cost := 5; gc_edge_id := 1 |};
      {| gc_succ := sn 3%nat 0; gc_from := Some (sn 0%nat 0);
         gc_edge_cost := 9; gc_edge_id := 2 |};
      {| gc_succ := sn 2%nat 5; gc_from := Some (sn 1%nat 2);
         gc_edge_cost := 3; gc_edge_id := 0 |};
      {| gc_succ := sn 3%nat 9; gc_from := Some (sn 1%nat 2);
         gc_edge_cost := 2; gc_edge_id := 1 |} ] in
  let fm0 := replicate 4 FirstMove.fm_zero in
  exists fm', stage_b 0 fm0 calls = Done fm' /\ fm_history 0 fm0 calls fm' /\
    ((fun l => FirstMove.byte_at l 0) <$> fm') = [0; 1; 3; 1].
Proof.
  intros sn calls fm0.
  destruct (stage_b_history 0 calls fm0) as [Hhist Hret].
  - apply Forall_replicate. exact fm_zero_is_label.
  - destruct Hret as (fm' & Hrun).
    + repeat constructor; eexists; (split; [reflexivity|]); cbn; repeat split; lia.
    + exists fm'. split; [exact Hrun|]. split; [exact (proj1 (Hhist fm' Hrun))|].
      vm_compute in Hrun. injection Hrun as <-. reflexivity.
Defined.

End StageBFacts.

(** ** The first-edge index of the refinement search (Stage E) *)

Module FirstEdgeFacts.
Import Labelling Claims.

Section Hooks.

Variable g_ : Graph.planar_graph.
Variable part_ : list nat.
Variable rank : list Z.

Lemma hook_update (source_id : nat) (dfs_order : list Z)
    (st st' : list nat * list (list down_dfs_label)) (c : hook_call) :
  hook g_ part_ rank source_id dfs_order st c = Done st' ->
  first_edge_update source_id st.1 c st'.1.
Proof.
  destruct c as [succ from edge_cost edge_id | current]; simpl; intros H.
  - unbind. accesses. subst st'. simpl.
    match goal with E : on_generate_fn _ _ _ _ _ _ = _ |- _ =>
      unfold on_generate_fn in E; rename E into Hgen end.
    destruct from as [from|].
    + destruct (decide (id from = source_id)) as [Es|Ns].
      * accesses. subst. apply fe_direct. reflexivity.
      * fold (alt_g from edge_cost) in Hgen. fold (g_val succ from) in Hgen.
        destruct (Z.ltb_spec (alt_g from edge_cost) (g_val succ from)) as [Hlt|Hge].
        -- unbind. accesses. subst.
           eapply fe_copy; eassumption.
        -- accesses. subst.
           destruct (Z.eq_dec (alt_g from edge_cost) (g_val succ from)) as [Heq|Hne].
           ++ apply fe_tie; assumption.
           ++ apply fe_worse; [assumption|lia].
    + accesses. subst. apply fe_start.
  - unbind. accesses. subst st'. simpl. apply fe_expand.
Qed.

(** C8.  In the refinement search the first-edge index of a generated node
    is set from the originating edge when its predecessor is the source,
    copied from the predecessor on a strictly better cost only, and left as
    it is on an exact tie; an expansion does not touch it.  A generation
    whose two nodes have an entry in [first_move] is always served: the
    index is written in the first two cases and the vector is returned as
    it was in the others. *)
Theorem first_edge_index_update (source_id : nat) (dfs_order : list Z)
    (st : list nat * list (list down_dfs_label)) (c : hook_call) :
  (forall st', hook g_ part_ rank source_id dfs_order st c = Done st' ->
     first_edge_update source_id st.1 c st'.1)
  /\ forall succ from edge_cost edge_id,
       c = Generate succ (Some from) edge_cost edge_id ->
       (id succ < length st.1)%nat -> (id from < length st.1)%nat ->
       exists fm',
         hook g_ part_ rank source_id dfs_order st c = Done (fm', st.2)
         /\ (id from = source_id -> fm' = <[id succ := edge_id]> st.1)
         /\ (id from <> source_id -> alt_g from edge_cost < g_val succ from ->
             exists m, st.1 !! id from = Some m /\ fm' = <[id succ := m]> st.1)
         /\ (id from <> source_id -> g_val succ from <= alt_g from edge_cost ->
             fm' = st.1).
Proof.
  split; [intros st'; apply hook_update|].
  intros succ from edge_cost edge_id -> Hs Hf. cbn [hook]. unfold on_generate_fn.
  destruct (decide (id from = source_id)) as [Es|Ns].
  - rewrite (proj2 (set_at_Done _ _ _ _) (conj Hs eq_refl)). cbn [obind].
    eexists. split; [reflexivity|]. split; [reflexivity|].
    split; intros; contradiction.
  - fold (alt_g from edge_cost). fold (g_val succ from).
    destruct (Z.ltb_spec (alt_g from edge_cost) (g_val succ from)) as [Hlt|Hge].
    + destruct (lookup_lt_is_Some_2 st.1 _ Hf) as [m Em].
      destruct (lookup_lt_is_Some_2 st.1 _ Hs) as [x Ex].
      rewrite (proj2 (at_Done _ _ _) Em). cbn [obind].
      rewrite (proj2 (at_Done _ _ _) Ex). cbn [obind].
      rewrite (proj2 (set_at_Done _ _ _ _) (conj Hs eq_refl)). cbn [obind].
      eexists. split; [reflexivity|]. split; [intros; contradiction|].
      split; [intros _ _; exists m; auto|intros _ ?; lia].
    + cbn [obind]. eexists. split; [reflexivity|]. split; [intros; contradiction|].
      split; [intros _ ?; lia|reflexivity].
Qed.

End Hooks.

(** Three generations of a search from source 0, each from the vector the
    one before left.  Node 2 is generated from the source over its edge 7:
    its index is set to 7.  Node 2 is then reached through node 1 at the
    cost it already has: its index stays 7 although node 1's is 3.  At
    last it is reached through node 1 at a lower cost: its index becomes 3,
    that of node 1. *)
Lemma first_edge_index_update_witness :
  let g0 := {| Graph.nodes := []; Graph.to_graph_id := fun z => z;
               Graph.get_xy := fun z => (z, z) |} in
  let sn i gv := {| id := i; g := gv; f := gv; parent := Some 0%nat;
                    expanded := false; search_id := 1 |} in
  let direct := Generate (sn 2%nat 0) (Some (sn 0%nat 0)) 5 7 in
  let tie := Generate (sn 2%nat 5) (Some (sn 1%nat 2)) 3 0 in
  let better := Generate (sn 2%nat 5) (Some (sn 1%nat 2)) 1 0 in
  (hook g0 [] [] 0 [] ([0; 3; 0]%nat, []) direct = Done ([0; 3; 7]%nat, [])
   /\ first_edge_update 0 [0; 3; 0]%nat direct [0; 3; 7]%nat)
  /\ (hook g0 [] [] 0 [] ([0; 3; 7]%nat, []) tie = Done ([0; 3; 7]%nat, [])
      /\ first_edge_update 0 [0; 3; 7]%nat tie [0; 3; 7]%nat)
  /\ (hook g0 [] [] 0 [] ([0; 3; 7]%nat, []) better = Done ([0; 3; 3]%nat, [])
      /\ first_edge_update 0 [0; 3; 7]%nat better [0; 3; 3]%nat).
Proof.
  intros g0 sn direct tie better.
  assert (forall fm c succ from edge_cost edge_id,
            c = Generate succ (Some from) edge_cost edge_id ->
            (id succ < length fm)%nat -> (id from < length fm)%nat ->
            exists fm', hook g0 [] [] 0 [] (fm, []) c = Done (fm', [])
                        /\ first_edge_update 0 fm c fm') as Hrun.
  { intros fm c succ from edge_cost edge_id Ec Hs Hf.
    destruct (first_edge_index_update g0 [] [] 0 [] (fm, []) c) as [Hupd Hret].
    destruct (Hret succ from edge_cost edge_id Ec Hs Hf) as (fm' & Hhook & _).
    exists fm'. split; [exact Hhook|]. exact (Hupd _ Hhook). }
  split; [|split].
  - destruct (Hrun [0; 3; 0]%nat direct _ _ _ _ eq_refl) as (fm' & Hhook & Hupd);
      [cbn; lia|cbn; lia|].
    assert (fm' = [0; 3; 7]%nat) as -> by (vm_compute in Hhook; congruence).
    split; [exact Hhook|exact Hupd].
  - destruct (Hrun [0; 3; 7]%nat tie _ _ _ _ eq_refl) as (fm' & Hhook & Hupd);
      [cbn; lia|cbn; lia|].
    assert (fm' = [0; 3; 7]%nat) as -> by (vm_compute in Hhook; congruence).
    split; [exact Hhook|exact Hupd].
  - destruct (Hrun [0; 3; 7]%nat better _ _ _ _ eq_refl) as (fm' & Hhook & Hupd);
      [cbn; lia|cbn; lia|].
    assert (fm' = [0; 3; 3]%nat) as -> by (vm_compute in Hhook; congruence).
    split; [exact Hhook|exact Hupd].
Defined.

End FirstEdgeFacts.

(** ** Expansion in the rank-biased policy *)

Module ExpandFacts.
Import Graph DownDfs ExpandClaims.

Section Expand.

Variable filter : policy -> nat -> nat -> bool.

Lemma up_loop_all (es : list edge) : up_loop es = neighbour <$> es.
Proof.
  induction es as [|e es IH]; simpl; [reflexivity|]. rewrite IH. reflexivity.
Qed.

Lemma down_loop_filtered (p : policy) (current_id : nat) (es : list edge) (k : nat) :
  down_loop filter p current_id k es
  = (fun ie => neighbour ie.2)
      <$> base.filter (fun ie => filter p current_id ie.1 = false)
                      (imap (fun i e => ((k + i)%nat, e)) es).
Proof.
  revert k. induction es as [|e es IH]; intros k; simpl; [reflexivity|].
  rewrite (imap_ext _ (fun i e => ((S k + i)%nat, e)) es)
    by (intros i x _; simpl; f_equal; lia).
  rewrite filter_cons. simpl. rewrite Nat.add_0_r.
  destruct (filter p current_id k) eqn:E.
  - rewrite decide_False by discriminate. apply IH.
  - rewrite decide_True by reflexivity. simpl. f_equal. apply IH.
Qed.

Lemma up_travel_spec (p : policy) (current : search_node) (rc : Z) :
  rank_ p !! id current = Some rc ->
  (forall pn, parent current = Some pn -> is_Some (rank_ p !! pn)) ->
  exists up, up_travel p current = Done up /\
             (up = true <-> travels_up (rank_ p) current).
Proof.
  intros Hrc Hpn. unfold up_travel, get_rank, at_, travels_up. rewrite Hrc. simpl.
  destruct (parent current) as [pn|] eqn:Ep.
  - destruct (Hpn pn eq_refl) as [rp Hrp]. rewrite Hrp. simpl.
    exists (rp <? rc). split; [reflexivity|].
    rewrite Z.ltb_lt. split.
    + intros Hlt. right. exists pn, rp, rc. auto.
    + intros [Hnone|(pn' & rp' & rc' & E1 & E2 & E3 & Hlt)]; [discriminate|].
      inversion E1; subst pn'. congruence.
  - exists true. split; [reflexivity|]. split; auto.
Qed.

(** C1.  An expansion travels up exactly when the current node has no
    parent or outranks its parent.  Travelling up, the neighbours are all
    outgoing edges of the node; travelling down, they are the edges from the
    node's split index on, without each one whose pair (node, index counted
    from the split) the label filter rejects. *)
Theorem expand_by_direction (p : policy) (current : search_node) (n : node)
    (rc : Z) (head : nat)
    (Hnode : nodes (g_ p) !! id current = Some n)
    (Hrank : rank_ p !! id current = Some rc)
    (Hparent : forall pn, parent current = Some pn -> is_Some (rank_ p !! pn))
    (Hhead : down_heads_ p !! id current = Some head)
    (Hsplit : (head <= length (outgoing n))%nat) :
  exists up, up_travel p current = Done up /\
    (up = true <-> travels_up (rank_ p) current) /\
    expand filter p current
    = Done (if up then whole_adjacency n
            else down_suffix (filter p (id current)) head n).
Proof.
  destruct (up_travel_spec p current rc Hrank Hparent) as (up & Hup & Hiff).
  exists up. split; [exact Hup|]. split; [exact Hiff|].
  unfold expand. rewrite Hup. simpl.
  unfold get_node, at_. rewrite Hnode. simpl.
  destruct up.
  - unfold whole_adjacency. rewrite up_loop_all. reflexivity.
  - rewrite Hhead. simpl.
    destruct (decide (head <= length (outgoing n))%nat) as [_|Hn]; [|contradiction].
    unfold down_suffix. rewrite down_loop_filtered. reflexivity.
Qed.

End Expand.

(** Node 1 (rank 1) has one up-edge and two down-edges; its label filter
    rejects down-edge 0.  Reached from node 2 (rank 2) the expansion travels
    down and yields down-edge 1 alone; as a start node it yields all three
    edges. *)
Lemma expand_by_direction_witness :
  let e t w := {| node_id_ := t; wt_ := w |} in
  let g0 := {| nodes := [ {| outgoing := [] |};
                          {| outgoing := [e 2%nat 7; e 0%nat 3; e 3%nat 4] |};
                          {| outgoing := [e 1%nat 7] |};
                          {| outgoing := [] |} ];
               to_graph_id := fun z => z; get_xy := fun z => (z, z) |} in
  let p := {| g_ := g0; rank_ := [0; 1; 2; 0]; down_heads_ := [0; 1; 0; 0]%nat;
              node_labels_ := [0; 1; 2; 3]; s_label := 2; t_label := 3 |} in
  let flt (_ : policy) (_ : nat) (idx : nat) := (idx =? 0)%nat in
  let down := {| id := 1; g := 7; f := 7; parent := Some 2%nat;
                 expanded := true; search_id := 1 |} in
  let start := {| id := 1; g := 0; f := 0; parent := None;
                  expanded := true; search_id := 1 |} in
  expand flt p down = Done [(3%nat, 4)] /\
  expand flt p start = Done [(2%nat, 7); (0%nat, 3); (3%nat, 4)] /\
  ~ travels_up (rank_ p) down.
Proof.
  intros e g0 p flt down start.
  split; [vm_compute; reflexivity|]. split; [vm_compute; reflexivity|].
  destruct (expand_by_direction flt p down {| outgoing := [e 2%nat 7; e 0%nat 3; e 3%nat 4] |}
              1 1%nat eq_refl eq_refl) as (up & Hup & Hiff & _).
  - intros pn Hpn. inversion Hpn; subst. eexists. reflexivity.
  - reflexivity.
  - simpl. lia.
  - vm_compute in Hup. inversion Hup; subst up.
    intros Ht. apply Hiff in Ht. discriminate.
Defined.

End ExpandFacts.

(** ** The search engine: the parent references *)

Module TreeFacts.
Import Astar TreeClaims.

Lemma generate_Some (pool : gmap nat search_node) (k : nat) (n : search_node) :
  pool !! k = Some n -> generate pool k = n.
Proof. unfold generate. intros ->. reflexivity. Qed.

Lemma generate_insert_eq (pool : gmap nat search_node) (k : nat) (n : search_node) :
  generate (<[k := n]> pool) k = n.
Proof. unfold generate. rewrite lookup_insert_eq. reflexivity. Qed.

Lemma generate_insert_ne (pool : gmap nat search_node) (k j : nat) (n : search_node) :
  k <> j -> generate (<[k := n]> pool) j = generate pool j.
Proof. intros Hne. unfold generate. rewrite lookup_insert_ne by exact Hne. reflexivity. Qed.

Lemma generate_expanded (pool : gmap nat search_node) (k : nat) :
  expanded (generate pool k) = true ->
  exists n, pool !! k = Some n /\ expanded n = true.
Proof.
  unfold generate. destruct (pool !! k) as [n|]; simpl; [eauto|discriminate].
Qed.

Lemma min_f_elem (pool : gmap nat search_node) (rest : list nat) (best : nat) :
  min_f pool best rest = best \/ min_f pool best rest ∈ rest.
Proof.
  revert best. induction rest as [|n rest IH]; intros best; simpl; [auto|].
  destruct (f (generate pool n) <? f (generate pool best)).
  - destruct (IH n) as [->|Hin]; right; [left|right; exact Hin].
  - destruct (IH best) as [->|Hin]; [left; reflexivity|right; right; exact Hin].
Qed.

Lemma peek_elem (pool : gmap nat search_node) (open : list nat) (top : nat) :
  peek pool open = Some top -> top ∈ open.
Proof.
  destruct open as [|n rest]; simpl; [discriminate|].
  intros H. inversion H; subst top.
  destruct (min_f_elem pool rest n) as [->|Hin]; [left|right; exact Hin].
Qed.

Lemma remove_id_elem (top k : nat) (open : list nat) :
  k ∈ remove_id top open <-> k ∈ open /\ k <> top.
Proof. unfold remove_id. rewrite list_elem_of_filter. tauto. Qed.

Section EngineTree.

Context {P : Type} {EP : ExpansionPolicy P}.
Variable heuristic_ : Z -> Z -> Z -> Z -> Z.
Variable filter_ : option (search_node -> bool).
Context {HS : Type}.
Variable on_relax_fn_ : search_node -> HS -> HS.
Variable on_norelax_fn_ : search_node -> search_node -> Z -> HS -> HS.
Variable c0 : Z.

(** What [prepare] leaves behind when the search goes on to the loop. *)
Lemma prepare_loop (st st0 : @engine P HS) instance instance' gx gy :
  prepare heuristic_ st instance = Done (st0, Some (instance', gx, gy)) ->
  exists start, start_id_ instance' = Z.of_nat start /\ open_ st0 = [start] /\
    parent_tree c0 start (fun _ => 0%nat) 0 (open_ st0) (pool_ st0) /\
    exp_cutoff_ st0 = exp_cutoff_ st /\ cost_cutoff_ st0 = cost_cutoff_ st /\
    nodes_expanded_ st0 = 0 /\
    (target_id_ instance = INF -> target_id_ instance' = INF).
Proof.
  unfold prepare. intros H.
  destruct (start_id_ _ =? INF); [discriminate|]. simpl in H.
  unbind. destruct a as [[start|] p1]; simpl in H; [|discriminate].
  unbind. accesses. subst. simpl.
  match goal with H : _ = Done ?r |- context [start_id_ ?r.1] =>
    assert (start_id_ r.1 = Z.of_nat start /\
            (target_id_ instance = INF -> target_id_ r.1 = INF)) as [Hs Ht]
  end.
  { destruct (target_id_ instance =? INF) eqn:Et; simpl in *.
    - accesses. subst. simpl. auto.
    - unbind.
      match goal with H : match ?t.1 with _ => _ end = _ |- _ =>
        destruct t as [[?|] ?]; simpl in H; [|discriminate] end.
      accesses. subst. simpl. split; [reflexivity|].
      intros E. rewrite E in Et. discriminate. }
  exists start. split; [exact Hs|]. split; [reflexivity|]. split; [|auto].
  split.
  - intros k n Hk. apply lookup_singleton_Some in Hk as [<- <-]. reflexivity.
  - intros k Hk. apply list_elem_of_singleton in Hk as ->.
    eexists. rewrite lookup_singleton_eq. split; reflexivity.
  - eexists. rewrite lookup_singleton_eq. split; [reflexivity|]. simpl. auto.
  - intros k n Hk Hne. apply lookup_singleton_Some in Hk as [<- _]. contradiction.
  - intros k n p Hk Hp. apply lookup_singleton_Some in Hk as [<- <-]. discriminate.
  - intros k n p Hk He. apply lookup_singleton_Some in Hk as [<- <-]. discriminate.
  - intros k He. apply generate_expanded in He as (n & Hk & He).
    apply lookup_singleton_Some in Hk as [<- <-]. discriminate.
Qed.

End EngineTree.

End TreeFacts.

(** ** The search engine: what a search returns *)

Module SearchFacts.
Import Astar TreeClaims TreeFacts.


(** C4 as stated fails when the start is the target: with the expansion
    cutoff at 0 the search from node 0 to node 0 returns node 0, and
    [get_path] the one-node path. *)
Lemma cutoff_zero_start_is_target :
  TwoNodes.value (TwoNodes.search 5 (set_max_expansions_cutoff TwoNodes.engine 0)
                    (TwoNodes.query 0 0)) = Done (Some 0%nat)
  /\ TwoNodes.value (TwoNodes.get_path 5 (set_max_expansions_cutoff TwoNodes.engine 0)
                       (TwoNodes.query 0 0)) = Done [0%nat].
Proof. split; vm_compute; reflexivity. Qed.

(** C5 as stated fails: the search from node 1 to node 0 exhausts the
    frontier, the search from node 0 to node 1 under an expansion cutoff of
    0 is cut off (without the cutoff it finds node 1), and the caller is
    handed the same value by both: the null node, the empty path. *)
Lemma no_path_and_cutoff_return_the_same :
  TwoNodes.value (TwoNodes.search_exit 5 TwoNodes.engine (TwoNodes.query 1 0))
    = Done Exhausted
  /\ TwoNodes.value (TwoNodes.search_exit 5 (set_max_expansions_cutoff TwoNodes.engine 0)
                       (TwoNodes.query 0 1)) = Done ExpansionCutoff
  /\ TwoNodes.value (TwoNodes.search_exit 5 TwoNodes.engine (TwoNodes.query 0 1))
    = Done (Found 1)
  /\ TwoNodes.value (TwoNodes.search 5 TwoNodes.engine (TwoNodes.query 1 0))
     = TwoNodes.value (TwoNodes.search 5 (set_max_expansions_cutoff TwoNodes.engine 0)
                         (TwoNodes.query 0 1))
  /\ TwoNodes.value (TwoNodes.get_path 5 TwoNodes.engine (TwoNodes.query 1 0))
     = TwoNodes.value (TwoNodes.get_path 5 (set_max_expansions_cutoff TwoNodes.engine 0)
                         (TwoNodes.query 0 1)).
Proof. repeat split; vm_compute; reflexivity. Qed.

(** C6: a start or target id the adapter does not know.  The policy fails
    the generation (a null node), and [search] dereferences that null node:
    the search from the unknown id 7 and the search to it both fault instead
    of returning the no-path value. *)
Theorem unmapped_endpoint_null_dereference :
  DownDfs.generate_start_node TwoNodes.policy (TwoNodes.query 7 1)
    = Done (None, TwoNodes.policy)
  /\ DownDfs.generate_target_node TwoNodes.policy (TwoNodes.query 0 7)
    = Done (None, TwoNodes.policy)
  /\ TwoNodes.search 5 TwoNodes.engine (TwoNodes.query 7 1) = Fault
  /\ TwoNodes.search 5 TwoNodes.engine (TwoNodes.query 0 7) = Fault.
Proof. repeat split; vm_compute; reflexivity. Qed.

Lemma follow_nonempty (fuel : nat) (pool : gmap nat search_node) (cur : option nat)
    (acc path : list nat) :
  follow fuel pool cur acc = Done path -> acc <> [] -> path <> [].
Proof.
  revert cur acc. induction fuel as [|fuel IH]; intros cur acc H Hacc.
  - destruct cur; simpl in H; [discriminate|]. accesses. subst. exact Hacc.
  - destruct cur as [c|]; simpl in H.
    + apply IH in H; [exact H|discriminate].
    + accesses. subst. exact Hacc.
Qed.

Section Search.

Context {P : Type} {EP : ExpansionPolicy P}.
Variable heuristic_ : Z -> Z -> Z -> Z -> Z.
Variable filter_ : option (search_node -> bool).
Context {HS : Type}.
Variable on_relax_fn_ : search_node -> HS -> HS.
Variable on_norelax_fn_ : search_node -> search_node -> Z -> HS -> HS.

(** For any policy: a null node from the start generation is dereferenced. *)
Lemma null_start_faults (fuel : nat) (st : @engine P HS) (instance : problem_instance)
    (p : P) :
  start_id_ instance <> INF ->
  ep_generate_start_node (expander_ st)
    {| start_id_ := start_id_ instance; target_id_ := target_id_ instance;
       instance_id_ := u32 (searchid_ st + 1) |} = Done (None, p) ->
  search heuristic_ filter_ on_relax_fn_ on_norelax_fn_ fuel st instance = Fault.
Proof.
  intros Hs Hgen. unfold search, search_exit, prepare. simpl.
  destruct (Z.eqb_spec (start_id_ instance) INF) as [E|_]; [contradiction|].
  rewrite Hgen. reflexivity.
Qed.

(** C4, as the code has it.  With the expansion cutoff at 0 a search that
    reaches the loop returns at its first turn without expanding a node: the
    no-path value when the start node is not the target, and the start node
    itself when it is, because the goal test on the frontier's minimum comes
    before the cutoff tests. *)
Theorem expansion_cutoff_zero (fuel : nat) (st st0 : @engine P HS)
    (instance instance' : problem_instance) (gx gy : Z)
    (Hcut : exp_cutoff_ st = 0)
    (Hprep : prepare heuristic_ st instance = Done (st0, Some (instance', gx, gy))) :
  search heuristic_ filter_ on_relax_fn_ on_norelax_fn_ (S fuel) st instance
  = Done (if start_id_ instance' =? target_id_ instance'
          then Some (Z.to_nat (start_id_ instance')) else None, st0).
Proof.
  destruct (prepare_loop heuristic_ 0 st st0 instance instance' gx gy Hprep)
    as (start & Hs & Hopen & _ & Hexp & _ & Hn & _).
  unfold search, search_exit. rewrite Hprep. simpl.
  unfold iteration. rewrite Hopen. simpl. rewrite Hs, Nat2Z.id.
  destruct (Z.of_nat start =? target_id_ instance'); [reflexivity|].
  destruct (cost_cutoff_ st0 <? _); [reflexivity|].
  rewrite Hexp, Hcut, Hn. reflexivity.
Qed.

End Search.

(** The cutoff at 0 on the two-node graph: the search from node 0 to node 1
    returns the null node. *)
Lemma expansion_cutoff_zero_witness :
  TwoNodes.value (TwoNodes.search 1 (set_max_expansions_cutoff TwoNodes.engine 0)
                    (TwoNodes.query 0 1)) = Done None.
Proof.
  destruct (prepare (EP := down_dfs_expansion_policy TwoNodes.no_filter)
              TwoNodes.zero_heuristic
              (set_max_expansions_cutoff TwoNodes.engine 0) (TwoNodes.query 0 1))
    as [[st0 [[[i gx] gy]|]]| |] eqn:Hprep; try (vm_compute in Hprep; discriminate).
  unfold TwoNodes.search.
  rewrite (expansion_cutoff_zero (EP := down_dfs_expansion_policy TwoNodes.no_filter)
             TwoNodes.zero_heuristic None
             TwoNodes.on_relax TwoNodes.on_norelax 0
             (set_max_expansions_cutoff TwoNodes.engine 0) st0
             (TwoNodes.query 0 1) i gx gy eq_refl Hprep).
  vm_compute in Hprep. injection Hprep as <- <- <- <-. reflexivity.
Defined.

End SearchFacts.

(** ** The label builder *)

Module LabelFacts.
Import Graph Labelling LabelClaims.

Lemma at_insert_eq {A : Type} (v : list A) (i : nat) (x : A) :
  (i < length v)%nat -> at_ (<[i := x]> v) i = Done x.
Proof. intros H. unfold at_. rewrite list_lookup_insert_eq by exact H. reflexivity. Qed.

Lemma at_insert_ne {A : Type} (v : list A) (i j : nat) (x : A) :
  i <> j -> at_ (<[i := x]> v) j = at_ v j.
Proof. intros H. unfold at_. rewrite list_lookup_insert_ne by exact H. reflexivity. Qed.

Lemma lab_set_at (lab lab' : list (list down_dfs_label)) (s i : nat) (l : down_dfs_label) :
  lab_set lab s i l = Done lab' ->
  lab_at lab' s i = Done l
  /\ (forall j, j <> i -> lab_at lab' s j = lab_at lab s j)
  /\ (forall s' j, s' <> s -> lab_at lab' s' j = lab_at lab s' j).
Proof.
  unfold lab_set, lab_at. intros H. unbind. accesses. subst.
  split; [|split].
  - rewrite at_insert_eq by assumption. simpl. apply at_insert_eq. assumption.
  - intros j Hj. rewrite at_insert_eq by assumption. simpl.
    rewrite at_insert_ne by auto.
    match goal with E : lab !! s = Some _ |- _ => apply at_Done in E; rewrite E end.
    reflexivity.
  - intros s' j Hs. rewrite at_insert_ne by auto. reflexivity.
Qed.

Lemma edge_loop_cons {St : Type} (body : St -> nat -> edge -> outcome St)
    (st st' : St) (k : nat) (e : edge) (es : list edge) :
  edge_loop body st k (e :: es) = Done st' ->
  exists st1, body st k e = Done st1 /\ edge_loop body st1 (S k) es = Done st'.
Proof. simpl. intros H. unbind. eauto. Qed.

(** Both example graphs use partition ids 0 and 1: one byte of flags. *)
Example four_nodes_bytes : bytes_per_af_label FourNodes.part = Done 1%nat.
Proof. reflexivity. Qed.

Example hub_bytes : bytes_per_af_label Hub.part = Done 1%nat.
Proof. reflexivity. Qed.

Section Builder.

Variable g_ : planar_graph.
Variable rank : list Z.

(** What one turn of the second loop of [up_label_fn] does. *)
Lemma merge_edge_spec (source_id apex_id : nat) (st st' : store) (k : nat) (e : edge) :
  merge_edge rank source_id apex_id st k e = Done st' ->
  node_labels st' = node_labels st /\ up_apex st' = up_apex st
  /\ (forall j, j <> k -> lab_at (lab_ st') source_id j = lab_at (lab_ st) source_id j)
  /\ exists rt rs, rank !! node_id_ e = Some rt /\ rank !! source_id = Some rs /\
       if rt <? rs
       then lab_at (lab_ st') source_id k = lab_at (lab_ st) source_id k
       else exists e_lab a_lab,
              lab_at (lab_ st) source_id k = Done e_lab /\
              node_labels st !! apex_id = Some a_lab /\
              lab_at (lab_ st') source_id k = Done (merge e_lab a_lab).
Proof.
  unfold merge_edge. intros H. unbind. accesses.
  match goal with E1 : rank !! node_id_ e = Some ?rt, E2 : rank !! source_id = Some ?rs |- _ =>
    destruct (rt <? rs) eqn:Eup
  end.
  - accesses. subst. repeat split; try reflexivity.
    do 2 eexists. split; [eassumption|]. split; [eassumption|].
    rewrite Eup. reflexivity.
  - unbind. accesses. subst. simpl.
    match goal with E : lab_set _ _ _ _ = Done _ |- _ =>
      destruct (lab_set_at _ _ _ _ _ E) as (Hi & Hj & _) end.
    repeat split; try reflexivity; [exact Hj|].
    do 2 eexists. split; [eassumption|]. split; [eassumption|].
    rewrite Eup. do 2 eexists. split; [eassumption|]. split; [eassumption|exact Hi].
Qed.

(** The second loop of [up_label_fn], from edge index [k] on. *)
Lemma merge_loop_spec (source_id apex_id : nat) (es : list edge) :
  forall (k : nat) (st st' : store),
    edge_loop (merge_edge rank source_id apex_id) st k es = Done st' ->
    node_labels st' = node_labels st /\ up_apex st' = up_apex st
    /\ (forall j, (j < k)%nat -> lab_at (lab_ st') source_id j = lab_at (lab_ st) source_id j)
    /\ forall i e rt rs,
         es !! i = Some e -> rank !! node_id_ e = Some rt ->
         rank !! source_id = Some rs -> rs <= rt ->
         exists e_lab a_lab,
           lab_at (lab_ st) source_id (k + i) = Done e_lab /\
           node_labels st !! apex_id = Some a_lab /\
           lab_at (lab_ st') source_id (k + i) = Done (merge e_lab a_lab).
Proof.
  induction es as [|e es IH]; intros k st st' H.
  - simpl in H. accesses. subst. repeat split; try reflexivity.
    intros i e rt rs Hi. discriminate.
  - apply edge_loop_cons in H as (st1 & Hbody & Hrest).
    destruct (merge_edge_spec _ _ _ _ _ _ Hbody) as (Hnl & Hua & Hother & rt0 & rs0 & Hrt0 & Hrs0 & Hk).
    destruct (IH _ _ _ Hrest) as (Hnl' & Hua' & Hlow & Hup).
    split; [congruence|]. split; [congruence|]. split.
    + intros j Hj. rewrite Hlow by lia. apply Hother. lia.
    + intros i e' rt rs Hi Hrt Hrs Hle. destruct i as [|i]; simpl in Hi.
      * inversion Hi; subst e'. rewrite Nat.add_0_r.
        assert (rt0 = rt) by congruence. assert (rs0 = rs) by congruence. subst.
        destruct (Z.ltb_spec rt rs) as [Hlt|_]; [lia|].
        destruct Hk as (e_lab & a_lab & H1 & H2 & H3).
        exists e_lab, a_lab. split; [exact H1|]. split; [exact H2|].
        rewrite Hlow by lia. exact H3.
      * destruct (Hup i e' rt rs Hi Hrt Hrs Hle) as (e_lab & a_lab & H1 & H2 & H3).
        exists e_lab, a_lab. replace (k + S i)%nat with (S k + i)%nat by lia.
        split; [|split; [congruence|exact H3]].
        rewrite <- H1. symmetry. apply Hother. lia.
Qed.

(** C3, as the code has it.  A call of [up_label_fn] for a node [u] first
    settles [up_apex[u]] and then merges, into the label of every edge of
    [u] whose target does not rank below [u], the Stage C label of that
    node [up_apex[u]] -- the up-apex of the edge's source, whatever the
    up-apex of its target is. *)
Theorem up_edges_take_source_apex_label (fuel source_id : nat) (st st' : store)
    (Hrun : up_label_fn g_ rank fuel source_id st = Done st') :
  exists fuel' source r,
    fuel = S fuel' /\ nodes g_ !! source_id = Some source /\
    edge_loop (apex_edge rank (up_label_fn g_ rank fuel') source_id)
              (st, source_id) 0%nat (outgoing source) = Done r /\
    up_apex st' !! source_id = Some (Z.of_nat r.2) /\
    node_labels st' = node_labels r.1 /\
    forall idx e rt rs,
      outgoing source !! idx = Some e -> rank !! node_id_ e = Some rt ->
      rank !! source_id = Some rs -> rs <= rt ->
      exists e_lab a_lab,
        lab_at (lab_ r.1) source_id idx = Done e_lab /\
        node_labels r.1 !! r.2 = Some a_lab /\
        lab_at (lab_ st') source_id idx = Done (merge e_lab a_lab).
Proof.
  destruct fuel as [|fuel']; simpl in Hrun; [discriminate|].
  unbind. unfold get_node in *. accesses.
  match goal with H : edge_loop (merge_edge _ _ _) _ _ _ = Done _ |- _ =>
    destruct (merge_loop_spec _ _ _ _ _ _ H) as (Hnl & Hua & _ & Hedges) end.
  simpl in *.
  do 3 eexists. split; [reflexivity|]. split; [eassumption|]. split; [eassumption|].
  split; [|split].
  - rewrite Hua. subst. apply list_lookup_insert_eq. assumption.
  - exact Hnl.
  - intros idx e rt rs Hidx Hrt Hrs Hle.
    destruct (Hedges idx e rt rs Hidx Hrt Hrs Hle) as (e_lab & a_lab & H1 & H2 & H3).
    exists e_lab, a_lab. auto.
Qed.

End Builder.

(** The four-node graph as [compute_labels] goes through it: the apex is
    node 3, the rows are sized, and the down pass runs from the apex on the
    store set up so.  Edge 0 of node 0 goes up to node
    1; the call of [up_label_fn] for node 0 records node 2 as its up-apex
    and merges into that edge's label, empty until then, the label the down
    pass gave node 2, which holds postorder id 2: so does the edge's label
    afterwards. *)
Lemma up_edges_take_source_apex_label_witness :
  find_apex FourNodes.rank 0 (seq 0 4) = Done 3%nat
  /\ size_rows FourNodes.graph 1 (resize 4 [] []) (seq 0 4)
     = Done [replicate 2 (label_new 1); [label_new 1]; []; replicate 2 (label_new 1)]
  /\ exists st st' a_lab,
    label_fn FourNodes.graph FourNodes.part FourNodes.rank 10 3
      {| dfs_order_ := replicate 4 INT32_MAX;
         lab_ := [replicate 2 (label_new 1); [label_new 1]; [];
                  replicate 2 (label_new 1)];
         node_labels := replicate 4 (label_new 1); dfs_id := 0;
         up_apex := replicate 4 INT32_MAX |} = Done st
    /\ up_label_fn FourNodes.graph FourNodes.rank 3 0 st = Done st'
    /\ up_apex st' !! 0%nat = Some 2 /\ node_labels st' !! 2%nat = Some a_lab
    /\ interval_contains (ids_ a_lab) 2 = true
    /\ lab_at (lab_ st') 0 0 = Done (merge (label_new 1) a_lab)
    /\ interval_contains (ids_ (merge (label_new 1) a_lab)) 2 = true.
Proof.
  split; [reflexivity|]. split; [reflexivity|].
  match goal with |- exists st st' a_lab, ?down = Done st /\ _ =>
    destruct down as [st| |] eqn:Hdown; try (vm_compute in Hdown; discriminate) end.
  pose proof Hdown as Est. vm_compute in Est. injection Est as <-.
  match goal with |- exists st st' a_lab, _ = Done st /\ _ =>
    match type of Hdown with _ = Done ?s =>
      destruct (up_label_fn FourNodes.graph FourNodes.rank 3 0 s) as [st'| |] eqn:Hrun;
        try (vm_compute in Hrun; discriminate);
      destruct (up_edges_take_source_apex_label FourNodes.graph FourNodes.rank 3 0 s st' Hrun)
        as (fuel' & source & r & Hf & Hsrc & Hloop & Hua & Hnl & Hedges)
    end
  end.
  injection Hf as <-. vm_compute in Hsrc. injection Hsrc as <-.
  vm_compute in Hloop. injection Hloop as <-.
  destruct (Hedges 0%nat {| node_id_ := 1; wt_ := 1 |} 1 0 eq_refl eq_refl eq_refl ltac:(lia))
    as (e_lab & a_lab & H1 & H2 & H3).
  vm_compute in H1. injection H1 as <-.
  pose proof H2 as Ea. vm_compute in Ea. injection Ea as Ea.
  eexists _, st', a_lab. split; [reflexivity|]. split; [exact Hrun|].
  split; [exact Hua|]. split; [rewrite Hnl; exact H2|].
  split; [rewrite <- Ea; reflexivity|]. split; [exact H3|].
  rewrite <- Ea. reflexivity.
Defined.

(** C3 as stated fails on the four-node graph.  Edge 0 of node 0 goes up to
    node 1, whose up-apex is node 1 itself.  After [compute_labels] the
    label of that edge does not hold postorder id 1, which the Stage C
    label of node 1 holds: it is no merge of anything with that label. *)
Lemma up_edge_label_misses_target_apex :
  exists st e_lab v_lab,
    FourNodes.labels = Done st
    /\ FourNodes.graph.(nodes) !! 0%nat
       = Some (FourNodes.node_of [(1%nat, 1); (2%nat, 1)])
    /\ up_apex st !! 1%nat = Some 1 /\ up_apex st !! 0%nat = Some 2
    /\ lab_at (lab_ st) 0 0 = Done e_lab /\ node_labels st !! 1%nat = Some v_lab
    /\ interval_contains (ids_ v_lab) 1 = true
    /\ interval_contains (ids_ e_lab) 1 = false
    /\ forall l, e_lab <> merge l v_lab.
Proof.
  destruct FourNodes.labels as [st| |] eqn:H; vm_compute in H; try discriminate.
  injection H as <-.
  do 3 eexists. split; [reflexivity|]. split; [reflexivity|].
  split; [reflexivity|]. split; [reflexivity|].
  split; [vm_compute; reflexivity|]. split; [reflexivity|].
  split; [reflexivity|]. split; [reflexivity|].
  intros l E. apply (f_equal (fun x => left (ids_ x))) in E. simpl in E. lia.
Qed.

(** *** The refinement pass *)

Lemma interval_grow_contains (i : interval) (v : Z) :
  interval_contains (interval_grow i v) v = true
  /\ forall w, interval_contains i w = true -> interval_contains (interval_grow i v) w = true.
Proof.
  unfold interval_contains, interval_grow. simpl. split.
  - apply andb_true_iff. rewrite !Z.leb_le. lia.
  - intros w. rewrite !andb_true_iff, !Z.leb_le. lia.
Qed.

Lemma rect_grow_contains (r : rect) (x y : Z) :
  rect_contains (rect_grow r x y) x y = true
  /\ forall u v, rect_contains r u v = true -> rect_contains (rect_grow r x y) u v = true.
Proof.
  unfold rect_contains, rect_grow. simpl. split.
  - rewrite !andb_true_iff, !Z.leb_le. lia.
  - intros u v. rewrite !andb_true_iff, !Z.leb_le. lia.
Qed.

Lemma grow_by_spec (l l' : down_dfs_label) (r d x y : Z) (s_part : nat) :
  grow_by l r d x y s_part = Done l' ->
  contains l' d r x y s_part = true /\ label_le l l'.
Proof.
  unfold grow_by. destruct (decide (s_part / 8 < length (flags_ l))%nat) as [Hb|]; [|discriminate].
  intros H. accesses. subst l'.
  pose proof (FirstMoveFacts.split_index s_part) as [_ Hbit].
  assert (forall q, flag {| rank_ := interval_grow (rank_ l) r;
                            ids_ := interval_grow (ids_ l) d;
                            bbox_ := rect_grow (bbox_ l) x y;
                            flags_ := <[(s_part / 8)%nat :=
                                         u8 (Z.lor (nth (s_part / 8) (flags_ l) 0)
                                                   (Z.shiftl 1 (Z.of_nat (s_part mod 8))))]>
                                        (flags_ l) |} q
                    = flag l q || bool_decide (q = s_part)) as Hflag.
  { intros q. unfold flag. cbn [flags_]. rewrite !nth_lookup.
    pose proof (FirstMoveFacts.split_index q) as [Eq Hqb].
    pose proof (FirstMoveFacts.split_index s_part) as [Es _].
    destruct (decide (s_part / 8 = q / 8)%nat) as [E|N].
    - rewrite <- E, list_lookup_insert_eq by exact Hb. cbn [from_option Datatypes.id].
      rewrite u8_testbit by lia. rewrite Z.lor_spec, one_shl_testbit.
      rewrite <- !nth_lookup. f_equal.
      apply bool_decide_ext. lia.
    - rewrite list_lookup_insert_ne by exact N.
      rewrite (bool_decide_eq_false_2 (q = s_part)) by (intros ->; contradiction).
      symmetry. apply orb_false_r. }
  destruct (interval_grow_contains (ids_ l) d) as [Hi1 Hi2].
  destruct (interval_grow_contains (rank_ l) r) as [Hr1 Hr2].
  destruct (rect_grow_contains (bbox_ l) x y) as [Hb1 Hb2].
  split.
  - unfold contains. rewrite Hflag. simpl.
    rewrite Hi1, Hr1, Hb1, bool_decide_eq_true_2 by reflexivity.
    rewrite orb_true_r. reflexivity.
  - intros d' r' x' y' p'. unfold contains. rewrite Hflag. simpl.
    rewrite !andb_true_iff. intros [[[H1 H2] H3] H4].
    rewrite (Hi2 _ H1), (Hr2 _ H2), (Hb2 _ _ H3), H4. auto.
Qed.

Lemma label_le_refl (l : down_dfs_label) : label_le l l.
Proof. intros d r x y p H. exact H. Qed.

Lemma label_le_trans (l1 l2 l3 : down_dfs_label) :
  label_le l1 l2 -> label_le l2 l3 -> label_le l1 l3.
Proof. intros H12 H23 d r x y p H. apply H23, H12, H. Qed.

(** A fresh label holds nothing. *)
Lemma label_new_empty (bytes : nat) (d r x y : Z) (p : nat) :
  contains (label_new bytes) d r x y p = false.
Proof.
  unfold contains, label_new, interval_contains, interval_new. simpl.
  destruct (INT32_MAX <=? d) eqn:E1; [|reflexivity].
  destruct (d <=? INT32_MIN) eqn:E2; [|reflexivity].
  apply Z.leb_le in E1, E2. unfold INT32_MAX, INT32_MIN in *. lia.
Qed.

Section Refinement.

Variable g_ : planar_graph.
Variable part_ : list nat.
Variable bytes_per_af_label_ : nat.
Variable rank : list Z.

Lemma row_le_refl (s : nat) (lab : list (list down_dfs_label)) : RowClaims.row_le s lab lab.
Proof. intros idx l H. exists l. split; [exact H|apply label_le_refl]. Qed.

Lemma row_le_trans (s : nat) (lab1 lab2 lab3 : list (list down_dfs_label)) :
  RowClaims.row_le s lab1 lab2 -> RowClaims.row_le s lab2 lab3 -> RowClaims.row_le s lab1 lab3.
Proof.
  intros H12 H23 idx l H. destruct (H12 idx l H) as (l2 & H2 & Hle2).
  destruct (H23 idx l2 H2) as (l3 & H3 & Hle3).
  exists l3. split; [exact H3|]. eapply label_le_trans; eassumption.
Qed.

(** What the expansion hook does to the labels. *)
Lemma on_expand_fn_spec (source_id : nat) (first_move : list nat) (dfs_order : list Z)
    (lab lab' : list (list down_dfs_label)) (current : search_node) :
  on_expand_fn g_ part_ rank source_id first_move dfs_order lab current = Done lab' ->
  RowClaims.row_le source_id lab lab'
  /\ (id current <> source_id ->
      exists idx l, first_move !! id current = Some idx /\
        lab_at lab' source_id idx = Done l /\
        holds_node g_ part_ rank dfs_order l (id current)).
Proof.
  unfold on_expand_fn. intros H.
  destruct (decide (id current = source_id)) as [E|N].
  - accesses. subst lab'. split; [apply row_le_refl|]. intros Hn. contradiction.
  - unbind. accesses.
    match goal with E : grow_by _ _ _ _ _ _ = Done _ |- _ =>
      destruct (grow_by_spec _ _ _ _ _ _ _ E) as [Hin Hle] end.
    match goal with E : lab_set _ _ _ _ = Done _ |- _ =>
      destruct (lab_set_at _ _ _ _ _ E) as (Hi & Hj & _) end.
    split.
    + intros idx l Hl.
      match goal with E : first_move !! id current = Some ?i |- _ =>
        destruct (decide (idx = i)) as [->|Hne] end.
      * eexists. split; [exact Hi|].
        match goal with E : lab_at lab source_id _ = Done ?l0 |- _ =>
          assert (l = l0) as -> by congruence end.
        exact Hle.
      * exists l. split; [rewrite Hj by exact Hne; exact Hl|apply label_le_refl].
    + intros _. do 2 eexists. split; [eassumption|]. split; [exact Hi|].
      do 3 eexists. repeat split; eassumption.
Qed.

Lemma hook_row_le (source_id : nat) (dfs_order : list Z)
    (st st' : list nat * list (list down_dfs_label)) (c : hook_call) :
  hook g_ part_ rank source_id dfs_order st c = Done st' ->
  RowClaims.row_le source_id st.2 st'.2.
Proof.
  destruct c as [succ from edge_cost edge_id|current]; simpl; intros H; unbind; accesses;
    subst st'; simpl.
  - apply row_le_refl.
  - eapply on_expand_fn_spec. eassumption.
Qed.

Lemma dijkstra_from_row_le (source_id : nat) (dfs_order : list Z) (calls : list hook_call) :
  forall st st', dijkstra_from g_ part_ rank source_id dfs_order calls st = Done st' ->
                 RowClaims.row_le source_id st.2 st'.2.
Proof.
  induction calls as [|c calls IH]; intros st st' H; simpl in H.
  - accesses. subst. apply row_le_refl.
  - unbind. eapply row_le_trans; [eapply hook_row_le; eassumption|apply IH; exact H].
Qed.

Lemma dijkstra_from_app (source_id : nat) (dfs_order : list Z) (pre post : list hook_call) :
  forall st, dijkstra_from g_ part_ rank source_id dfs_order (pre ++ post) st
             = do st1 <- dijkstra_from g_ part_ rank source_id dfs_order pre st;
               dijkstra_from g_ part_ rank source_id dfs_order post st1.
Proof.
  induction pre as [|c pre IH]; intros st; simpl; [reflexivity|].
  destruct (hook g_ part_ rank source_id dfs_order st c); simpl; [apply IH|reflexivity..].
Qed.

Lemma reset_row_spec (i : nat) (idxs : list nat) :
  forall lab lab', reset_row bytes_per_af_label_ lab i idxs = Done lab' ->
    (forall idx, idx ∈ idxs -> lab_at lab' i idx = Done (label_new bytes_per_af_label_))
    /\ (forall s j, s <> i -> lab_at lab' s j = lab_at lab s j).
Proof.
  induction idxs as [|idx idxs IH]; intros lab lab' H; simpl in H.
  - accesses. subst. split; [intros idx Hin; inversion Hin|reflexivity].
  - unbind. destruct (IH _ _ H) as [Hset Hother].
    match goal with E : lab_set _ _ _ _ = Done _ |- _ =>
      destruct (lab_set_at _ _ _ _ _ E) as (Hi & Hj & Hs) end.
    split.
    + intros j Hin. destruct (decide (j ∈ idxs)) as [Hj'|Hj']; [apply Hset, Hj'|].
      apply elem_of_cons in Hin as [->|Hin]; [|contradiction].
      clear Hset. revert Hj' H Hi. generalize a. clear.
      induction idxs as [|k idxs IH]; intros lab Hnot H Hi; simpl in H.
      * accesses. subst. exact Hi.
      * unbind. apply (IH a); [intros Hin; apply Hnot; right; exact Hin|exact H|].
        match goal with E : lab_set _ _ _ _ = Done _ |- _ =>
          destruct (lab_set_at _ _ _ _ _ E) as (_ & Hj & _) end.
        rewrite Hj; [exact Hi|]. intros ->. apply Hnot. left.
    + intros s j Hs'. rewrite Hother by exact Hs'. apply Hs. exact Hs'.
Qed.

Lemma select_sources_spec (n_ids : list nat) :
  forall lab sources lab' sources',
    select_sources g_ bytes_per_af_label_ lab sources n_ids = Done (lab', sources') ->
    NoDup n_ids ->
    (forall s j, s ∉ n_ids -> lab_at lab' s j = lab_at lab s j)
    /\ forall i n idx,
         i ∈ n_ids -> nodes g_ !! i = Some n ->
         (THRESHOLD <= out_degree n)%nat -> (idx < out_degree n)%nat ->
         lab_at lab' i idx = Done (label_new bytes_per_af_label_).
Proof.
  induction n_ids as [|i n_ids IH]; intros lab sources lab' sources' H Hnd; simpl in H.
  - accesses. subst. split; [reflexivity|]. intros i n idx Hin. inversion Hin.
  - apply NoDup_cons in Hnd as [Hi Hnd]. unbind. unfold get_node in *. accesses.
    destruct (decide (THRESHOLD <= out_degree a)%nat) as [Hdeg|Hdeg].
    + unbind. destruct (IH _ _ _ _ H Hnd) as [Hout Hin].
      match goal with E : reset_row _ _ _ _ = Done _ |- _ =>
        destruct (reset_row_spec _ _ _ _ E) as [Hset Hother] end.
      split.
      * intros s j Hs. rewrite Hout by (intros Hc; apply Hs; right; exact Hc).
        apply Hother. intros ->. apply Hs. left.
      * intros k n idx Hk Hn Hd Hidx. apply elem_of_cons in Hk as [->|Hk].
        -- rewrite Hout by exact Hi. apply Hset.
           assert (n = a) by congruence. subst. apply elem_of_seq. lia.
        -- eapply Hin; eassumption.
    + destruct (IH _ _ _ _ H Hnd) as [Hout Hin]. split.
      * intros s j Hs. apply Hout. intros Hc. apply Hs. right. exact Hc.
      * intros k n idx Hk Hn Hd Hidx. apply elem_of_cons in Hk as [->|Hk].
        -- assert (n = a) by congruence. subst. contradiction.
        -- eapply Hin; eassumption.
Qed.

(** C7, as the code has it.  The refinement pass does not keep the label it
    replaces.  It first resets every label of every node of out-degree 100
    or more to the fresh label, which holds nothing.  The search from such
    a node then only grows the labels of its edges, and the label of an
    edge ends up holding every node, other than the source, that was
    expanded while that edge's index was recorded as the node's first
    edge. *)
Theorem refinement_rebuilds_labels (dfs_order : list Z) :
  (forall lab lab' sources i n idx,
     select_sources g_ bytes_per_af_label_ lab [] (seq 0 (get_num_nodes g_))
       = Done (lab', sources) ->
     nodes g_ !! i = Some n -> (THRESHOLD <= out_degree n)%nat ->
     (idx < out_degree n)%nat ->
     lab_at lab' i idx = Done (label_new bytes_per_af_label_))
  /\ (forall d r x y p, contains (label_new bytes_per_af_label_) d r x y p = false)
  /\ (forall source_id pre current post st st1 st' idx,
        dijkstra_from g_ part_ rank source_id dfs_order (pre ++ Expand current :: post) st
          = Done st' ->
        dijkstra_from g_ part_ rank source_id dfs_order pre st = Done st1 ->
        id current <> source_id -> st1.1 !! id current = Some idx ->
        RowClaims.row_le source_id st.2 st'.2
        /\ exists l, lab_at st'.2 source_id idx = Done l /\
             holds_node g_ part_ rank dfs_order l (id current)).
Proof.
  split; [|split].
  - intros lab lab' sources i n idx Hsel Hn Hdeg Hidx.
    destruct (select_sources_spec _ _ _ _ _ Hsel (NoDup_seq _ _)) as [_ Hin].
    apply (Hin i n idx); try assumption.
    apply elem_of_seq. apply lookup_lt_Some in Hn. unfold get_num_nodes. lia.
  - apply label_new_empty.
  - intros source_id pre current post st st1 st' idx Hrun Hpre Hne Hidx.
    split; [eapply dijkstra_from_row_le; exact Hrun|].
    rewrite dijkstra_from_app, Hpre in Hrun. simpl in Hrun. unbind.
    match goal with E : on_expand_fn _ _ _ _ _ _ _ _ = Done _ |- _ =>
      destruct (on_expand_fn_spec _ _ _ _ _ _ E) as [_ Hexp] end.
    destruct (Hexp Hne) as (idx' & l & Hfm & Hl & Hholds).
    assert (idx' = idx) by congruence. subst idx'.
    accesses. subst.
    apply dijkstra_from_row_le in Hrun. simpl in Hrun.
    destruct (Hrun idx l Hl) as (l' & Hl' & Hle).
    exists l'. split; [exact Hl'|].
    destruct Hholds as (d & r & p & Hd & Hr & Hp & Hc).
    exists d, r, p. repeat split; try assumption. apply Hle, Hc.
Qed.

End Refinement.

(** The hub's labels after the reset: node 0 is the one source, and the
    label of its edge 1 is the fresh label. *)
Lemma refinement_rebuilds_labels_witness :
  exists st lab' sources,
    Hub.labels = Done st
    /\ select_sources Hub.graph 1 (lab_ st) [] (seq 0 (get_num_nodes Hub.graph))
       = Done (lab', sources)
    /\ sources = [0%nat] /\ lab_at lab' 0 1 = Done (label_new 1).
Proof.
  destruct Hub.labels as [st| |] eqn:Hst; try (vm_compute in Hst; discriminate).
  destruct (select_sources Hub.graph 1 (lab_ st) [] (seq 0 (get_num_nodes Hub.graph)))
    as [[lab' sources]| |] eqn:Hsel.
  - destruct (refinement_rebuilds_labels Hub.graph Hub.part 1 Hub.rank (dfs_order_ st))
      as (Hreset & _ & _).
    exists st, lab', sources. split; [reflexivity|]. split; [exact Hsel|]. split.
    + vm_compute in Hst. injection Hst as <-.
      vm_compute in Hsel. injection Hsel as _ <-. reflexivity.
    + apply (Hreset (lab_ st) lab' sources 0%nat {| outgoing := Hub.spoke <$> seq 1 100 |} 1%nat
               Hsel eq_refl); vm_compute; lia.
  - vm_compute in Hst. injection Hst as <-. vm_compute in Hsel. discriminate.
  - vm_compute in Hst. injection Hst as <-. vm_compute in Hsel. discriminate.
Defined.

(** C7 as stated fails on the hub, whose node 0 has out-degree 100.  The
    structural label of its down-edge 1 (to node 2) holds node 101, which
    lies below node 2; the refined label does not, because the search from
    node 0 reaches node 101 more cheaply through edge 2.  The structural
    label of its up-edge 0 holds node 0 itself; the refined one does not,
    because the expansion of the source grows no label. *)
Lemma refined_label_drops_structural_content :
  exists st r old_down new_down old_up new_up,
    Hub.labels = Done st /\ Hub.refined st = Done r
    /\ out_degree <$> nodes Hub.graph !! 0%nat = Some 100%nat
    /\ lab_at (lab_ st) 0 1 = Done old_down /\ lab_at r.2 0 1 = Done new_down
    /\ dfs_order_ st !! 101%nat = Some 0
    /\ contains old_down 0 0 101 0 0 = true /\ contains new_down 0 0 101 0 0 = false
    /\ lab_at (lab_ st) 0 0 = Done old_up /\ lab_at r.2 0 0 = Done new_up
    /\ dfs_order_ st !! 0%nat = Some 100
    /\ contains old_up 100 2 0 0 1 = true /\ contains new_up 100 2 0 0 1 = false.
Proof.
  destruct Hub.labels as [st| |] eqn:Hst; try (vm_compute in Hst; discriminate).
  destruct (Hub.refined st) as [r| |] eqn:Hr;
    try (vm_compute in Hst; injection Hst as <-; vm_compute in Hr; discriminate).
  exists st, r. vm_compute in Hst. injection Hst as <-.
  vm_compute in Hr. injection Hr as <-.
  do 4 eexists. split; [reflexivity|]. split; [vm_compute; reflexivity|].
  split; [reflexivity|].
  split; [vm_compute; reflexivity|]. split; [vm_compute; reflexivity|].
  split; [reflexivity|]. split; [reflexivity|]. split; [reflexivity|].
  split; [vm_compute; reflexivity|]. split; [vm_compute; reflexivity|].
  split; [reflexivity|]. split; reflexivity.
Qed.

End LabelFacts.

(** ** The search engine: one turn of the loop, taken apart *)

Module EngineFacts.
Import Astar TreeClaims EpisodeClaims LinkClaims TreeFacts.

Lemma set_expanded_true (n : search_node) :
  expanded n = true -> set_expanded n true = n.
Proof. destruct n. simpl. intros E. rewrite E. reflexivity. Qed.

Section Steps.

Context {P : Type} {EP : ExpansionPolicy P}.
Variable heuristic_ : Z -> Z -> Z -> Z -> Z.
Variable filter_ : option (search_node -> bool).
Context {HS : Type}.
Variable on_relax_fn_ : search_node -> HS -> HS.
Variable on_norelax_fn_ : search_node -> search_node -> Z -> HS -> HS.

(** What [visit] can do: nothing to frontier and pool, or give an
    unexpanded node the current node as parent, on the frontier already
    (a relaxation) or new to it (a first sighting, queued unless
    filtered). *)
Lemma visit_cases instance gx gy current (st : @engine P HS) nb :
  let st' := visit heuristic_ filter_ on_relax_fn_ on_norelax_fn_
                   instance gx gy current st nb in
  expander_ st' = expander_ st /\ cost_cutoff_ st' = cost_cutoff_ st
  /\ exp_cutoff_ st' = exp_cutoff_ st /\ nodes_expanded_ st' = nodes_expanded_ st
  /\ ((open_ st' = open_ st /\ pool_ st' = pool_ st)
      \/ (expanded (generate (pool_ st) nb.1) = false /\
          exists n', pool_ st' = <[nb.1 := n']> (pool_ st)
            /\ id n' = id (generate (pool_ st) nb.1) /\ expanded n' = false
            /\ parent n' = Some (id current) /\ g n' = g current + nb.2
            /\ ((nb.1 ∈ open_ st /\ open_ st' = open_ st
                 /\ g n' < g (generate (pool_ st) nb.1))
                \/ ((nb.1 ∉ open_ st)
                    /\ (open_ st' = open_ st \/ open_ st' = open_ st ++ [nb.1]))))).
Proof.
  cbv zeta. unfold visit.
  destruct (expanded (generate (pool_ st) nb.1)) eqn:En; [simpl; auto 10|].
  case_bool_decide as Hin.
  - destruct (Z.ltb_spec (g current + nb.2) (g (generate (pool_ st) nb.1))) as [Hlt|Hge];
      simpl; repeat split; auto.
    right. split; [reflexivity|]. eexists. split; [reflexivity|]. simpl.
    repeat split; auto.
  - destruct (match filter_ with Some flt => _ | None => false end);
      simpl; repeat split; right; (split; [reflexivity|]);
      eexists; (split; [reflexivity|]); simpl; repeat split; auto.
Qed.

(** What a turn of the loop that goes on consists of. *)
Lemma iteration_inl instance gx gy (st st' : @engine P HS) :
  iteration heuristic_ filter_ on_relax_fn_ on_norelax_fn_ instance gx gy st
    = Done (inl st') ->
  exists top nbs st1,
    peek (pool_ st) (open_ st) = Some top
    /\ Z.of_nat top <> target_id_ instance
    /\ f (generate (pool_ st) top) <= cost_cutoff_ st
    /\ nodes_expanded_ st < exp_cutoff_ st
    /\ ep_expand (expander_ st) (set_expanded (generate (pool_ st) top) true) = Done nbs
    /\ expander_ st1 = expander_ st /\ cost_cutoff_ st1 = cost_cutoff_ st
    /\ exp_cutoff_ st1 = exp_cutoff_ st
    /\ nodes_expanded_ st1 = u32 (nodes_expanded_ st + 1)
    /\ open_ st1 = remove_id top (open_ st)
    /\ pool_ st1 = <[top := set_expanded (generate (pool_ st) top) true]> (pool_ st)
    /\ st' = foldl (visit heuristic_ filter_ on_relax_fn_ on_norelax_fn_ instance gx gy
                          (set_expanded (generate (pool_ st) top) true)) st1 nbs.
Proof.
  unfold iteration. intros H.
  destruct (peek (pool_ st) (open_ st)) as [top|]; [|discriminate].
  destruct (Z.eqb_spec (Z.of_nat top) (target_id_ instance)); [discriminate|].
  destruct (Z.ltb_spec (cost_cutoff_ st) (f (generate (pool_ st) top))); [discriminate|].
  destruct (Z.leb_spec (exp_cutoff_ st) (nodes_expanded_ st)); [discriminate|].
  unbind. accesses. simpl in *.
  match goal with H : foldl _ ?s ?nbs = _ |- _ => exists top, nbs, s end.
  subst st'. simpl. repeat (split; [first [assumption|reflexivity|lia]|]).
  reflexivity.
Qed.

(** How a turn of the loop ends the search. *)
Lemma iteration_inr instance gx gy (st : @engine P HS) (e : exit) :
  iteration heuristic_ filter_ on_relax_fn_ on_norelax_fn_ instance gx gy st
    = Done (inr e) ->
  match e with
  | Found n => peek (pool_ st) (open_ st) = Some n /\ Z.of_nat n = target_id_ instance
  | CostCutoff =>
      exists top, peek (pool_ st) (open_ st) = Some top
                  /\ cost_cutoff_ st < f (generate (pool_ st) top)
  | ExpansionCutoff => exp_cutoff_ st <= nodes_expanded_ st /\ open_ st <> []
  | Exhausted => open_ st = []
  | NoStart => False
  end.
Proof.
  unfold iteration. intros H.
  destruct (open_ st) as [|n0 rest] eqn:Eo; simpl in H.
  - accesses. subst. reflexivity.
  - destruct (Z.eqb_spec (Z.of_nat (min_f (pool_ st) n0 rest)) (target_id_ instance)).
    + accesses. subst. auto.
    + destruct (Z.ltb_spec (cost_cutoff_ st) (f (generate (pool_ st) (min_f (pool_ st) n0 rest)))).
      * accesses. subst. eauto.
      * destruct (Z.leb_spec (exp_cutoff_ st) (nodes_expanded_ st)).
        -- accesses. subst. split; [assumption|discriminate].
        -- unbind. discriminate.
Qed.

(** Where [loop] stops, the engine is one the search passed through, after
    at most [fuel - 1] turns. *)
Lemma loop_Done (fuel : nat) instance gx gy :
  forall (st st' : @engine P HS) (e : exit),
    loop heuristic_ filter_ on_relax_fn_ on_norelax_fn_ fuel instance gx gy st
      = Done (e, st') ->
    reachable heuristic_ filter_ on_relax_fn_ on_norelax_fn_ instance gx gy st st'
    /\ iteration heuristic_ filter_ on_relax_fn_ on_norelax_fn_ instance gx gy st'
       = Done (inr e).
Proof.
  induction fuel as [|fuel IH]; intros st st' e H; simpl in H; [discriminate|].
  unbind. destruct a as [st1|e1].
  - destruct (IH _ _ _ H) as [R Hexit]. split; [|exact Hexit].
    clear -R Ha. induction R as [|s s' R IHR Hturn].
    + eapply reach_turn; [apply reach_start|exact Ha].
    + eapply reach_turn; [exact IHR|exact Hturn].
  - accesses. subst. split; [apply reach_start|assumption].
Qed.

(** The successor loop keeps whatever each single update keeps. *)
Lemma visits_invariant (I : list nat -> gmap nat search_node -> Prop)
    instance gx gy current (nbs : list (nat * Z)) :
  expanded current = true ->
  (forall open pool k w n' open',
     (k, w) ∈ nbs -> I open pool -> pool !! id current = Some current ->
     expanded (generate pool k) = false ->
     id n' = id (generate pool k) -> expanded n' = false ->
     parent n' = Some (id current) -> g n' = g current + w ->
     ((k ∈ open /\ open' = open)
      \/ ((k ∉ open) /\ (open' = open \/ open' = open ++ [k]))) ->
     I open' (<[k := n']> pool)) ->
  forall st : @engine P HS,
    pool_ st !! id current = Some current ->
    I (open_ st) (pool_ st) ->
    let st' := foldl (visit heuristic_ filter_ on_relax_fn_ on_norelax_fn_
                            instance gx gy current) st nbs in
    I (open_ st') (pool_ st') /\ pool_ st' !! id current = Some current
    /\ expander_ st' = expander_ st /\ cost_cutoff_ st' = cost_cutoff_ st
    /\ exp_cutoff_ st' = exp_cutoff_ st /\ nodes_expanded_ st' = nodes_expanded_ st.
Proof.
  intros Hexp. induction nbs as [|nb nbs IH]; intros Hstep st Hcur HI; simpl.
  - auto 10.
  - destruct (visit_cases instance gx gy current st nb)
      as (He & Hc & Hx & Hn & Hcase).
    set (st1 := visit heuristic_ filter_ on_relax_fn_ on_norelax_fn_
                      instance gx gy current st nb) in *.
    assert (I (open_ st1) (pool_ st1) /\ pool_ st1 !! id current = Some current)
      as [HI1 Hcur1].
    { destruct Hcase as [[-> ->]|(En & n' & -> & Hid & Hne & Hp & Hg & Hopen)];
        [auto|].
      assert (nb.1 <> id current) as Hneq.
      { intros E. rewrite E, (generate_Some _ _ _ Hcur) in En. congruence. }
      split; [|rewrite lookup_insert_ne by exact Hneq; exact Hcur].
      apply (Hstep (open_ st) (pool_ st) nb.1 nb.2 n' (open_ st1)); auto.
      - destruct nb; left.
      - destruct Hopen as [(Hin & -> & _)|(Hnin & Ho)]; [left; auto|right; auto]. }
    destruct (IH (fun open pool k w n' open' Hin => Hstep open pool k w n' open'
                    (list_elem_of_further _ _ _ Hin)) st1 Hcur1 HI1)
      as (HI' & Hcur' & He' & Hc' & Hx' & Hn').
    repeat split; try assumption; congruence.
Qed.

(** *** The bookkeeping of an episode *)

Lemma episode_keys_id start m K open pool k :
  episode start m K open pool -> id (generate pool k) = k.
Proof.
  intros E. unfold generate. destruct (pool !! k) as [n|] eqn:Ek; [|reflexivity].
  apply (es_keys _ _ _ _ _ E). exact Ek.
Qed.

Lemma episode_update start m K open open' pool k n' cur :
  episode start m K open pool ->
  expanded (generate pool k) = false ->
  (exists s, pool !! start = Some s /\ expanded s = true) ->
  (exists c, pool !! cur = Some c /\ expanded c = true) ->
  id n' = k -> expanded n' = false -> parent n' = Some cur ->
  ((k ∈ open /\ open' = open) \/ ((k ∉ open) /\ (open' = open \/ open' = open ++ [k]))) ->
  episode start m K open' (<[k := n']> pool).
Proof.
  intros E Hk (s & Hs & Hse) (c & Hc & Hce) Hid Hexp Hpar Hopen.
  assert (forall p np, pool !! p = Some np -> expanded np = true -> k <> p) as Hne.
  { intros p np Hp He ->. rewrite (generate_Some _ _ _ Hp) in Hk. congruence. }
  assert (k <> start) as Hks by (eapply Hne; eassumption).
  assert (k <> cur) as Hkc by (eapply Hne; eassumption).
  assert (forall j, j ∈ open' -> j ∈ open \/ j = k) as Hsub.
  { intros j Hj. destruct Hopen as [[_ ->]|[_ [->| ->]]]; auto.
    apply elem_of_app in Hj as [Hj|Hj]; [auto|].
    apply list_elem_of_singleton in Hj. auto. }
  split.
  - intros j n. destruct (decide (k = j)) as [->|Hj].
    + rewrite lookup_insert_eq. intros [= <-]. exact Hid.
    + rewrite lookup_insert_ne by exact Hj. apply (es_keys _ _ _ _ _ E).
  - destruct Hopen as [[_ ->]|[Hnin [->| ->]]]; try apply (es_nodup _ _ _ _ _ E).
    apply NoDup_app. split; [apply (es_nodup _ _ _ _ _ E)|]. split.
    + intros x Hx Hx'. apply list_elem_of_singleton in Hx'. subst. contradiction.
    + apply NoDup_singleton.
  - intros j Hjo. destruct (decide (k = j)) as [->|Hj].
    + exists n'. rewrite lookup_insert_eq. auto.
    + rewrite lookup_insert_ne by exact Hj.
      destruct (Hsub j Hjo) as [Hin| ->]; [|contradiction].
      apply (es_open _ _ _ _ _ E). exact Hin.
  - exists s. rewrite lookup_insert_ne by exact Hks. destruct (es_root _ _ _ _ _ E)
      as (s' & Hs' & Hps & _). assert (s' = s) by congruence. subst. auto.
  - intros j n. destruct (decide (k = j)) as [->|Hj].
    + rewrite lookup_insert_eq. intros [= <-] _. rewrite Hpar. eauto.
    + rewrite lookup_insert_ne by exact Hj. apply (es_inner _ _ _ _ _ E).
  - intros j n p. destruct (decide (k = j)) as [->|Hj].
    + rewrite lookup_insert_eq. intros [= <-] Hp. rewrite Hpar in Hp.
      injection Hp as <-. exists c. rewrite lookup_insert_ne by exact Hkc. auto.
    + rewrite lookup_insert_ne by exact Hj. intros En Hp.
      destruct (es_parent _ _ _ _ _ E j n p En Hp) as (np & Hnp & Hnpe).
      exists np. rewrite lookup_insert_ne by (eapply Hne; eassumption). auto.
  - intros j n p. destruct (decide (k = j)) as [->|Hj].
    + rewrite lookup_insert_eq. intros [= <-] He. congruence.
    + rewrite lookup_insert_ne by exact Hj. apply (es_order _ _ _ _ _ E).
  - intros j n. destruct (decide (k = j)) as [->|Hj].
    + rewrite lookup_insert_eq. intros [= <-] He. congruence.
    + rewrite lookup_insert_ne by exact Hj. apply (es_bound _ _ _ _ _ E).
Qed.

Lemma episode_pop start m K open pool top :
  episode start m K open pool -> top ∈ open ->
  episode start (fun j => if decide (j = top) then K else m j) (S K)
    (remove_id top open) (<[top := set_expanded (generate pool top) true]> pool)
  /\ exists s, <[top := set_expanded (generate pool top) true]> pool !! start = Some s
               /\ expanded s = true.
Proof.
  intros E Htop.
  destruct (es_open _ _ _ _ _ E top Htop) as (n0 & Hn0 & Hu0).
  rewrite (generate_Some _ _ _ Hn0).
  assert (forall p np, pool !! p = Some np -> expanded np = true -> top <> p) as Hne.
  { intros p np Hp He ->. congruence. }
  assert (exists s, <[top := set_expanded n0 true]> pool !! start = Some s /\
                    parent s = None /\ expanded s = true) as Hroot.
  { destruct (es_root _ _ _ _ _ E) as (s & Hs & Hps & Hes).
    destruct (decide (top = start)) as [->|Hts].
    - rewrite lookup_insert_eq. eexists. split; [reflexivity|].
      simpl. split; [congruence|reflexivity].
    - rewrite lookup_insert_ne by exact Hts. exists s. split; [exact Hs|].
      split; [exact Hps|]. destruct Hes as [He|Ho]; [exact He|].
      rewrite Ho in Htop. apply list_elem_of_singleton in Htop. contradiction. }
  split; [split|].
  - intros j n. destruct (decide (top = j)) as [->|Hj].
    + rewrite lookup_insert_eq. intros [= <-]. simpl.
      apply (es_keys _ _ _ _ _ E). exact Hn0.
    + rewrite lookup_insert_ne by exact Hj. apply (es_keys _ _ _ _ _ E).
  - unfold remove_id. apply NoDup_filter, (es_nodup _ _ _ _ _ E).
  - intros j Hjo. apply remove_id_elem in Hjo as [Hin Hj].
    rewrite lookup_insert_ne by auto. apply (es_open _ _ _ _ _ E). exact Hin.
  - destruct Hroot as (s & Hs & Hps & Hes). exists s. auto.
  - intros j n. destruct (decide (top = j)) as [->|Hj].
    + rewrite lookup_insert_eq. intros [= <-] Hjs. simpl.
      apply (es_inner _ _ _ _ _ E j n0 Hn0 Hjs).
    + rewrite lookup_insert_ne by exact Hj. apply (es_inner _ _ _ _ _ E).
  - intros j n p Hj Hp.
    assert (exists n1, pool !! j = Some n1 /\ parent n1 = Some p) as (n1 & Hn1 & Hp1).
    { destruct (decide (top = j)) as [->|Hne'].
      - rewrite lookup_insert_eq in Hj. injection Hj as <-. eauto.
      - rewrite lookup_insert_ne in Hj by exact Hne'. eauto. }
    destruct (es_parent _ _ _ _ _ E j n1 p Hn1 Hp1) as (np & Hnp & Hnpe).
    exists np. rewrite lookup_insert_ne by (eapply Hne; eassumption). auto.
  - intros j n p. destruct (decide (top = j)) as [->|Hj].
    + rewrite lookup_insert_eq. intros [= <-] _ Hp. simpl in Hp.
      destruct (es_parent _ _ _ _ _ E j n0 p Hn0 Hp) as (np & Hnp & Hnpe).
      destruct (decide (p = j)) as [->|_]; [congruence|].
      destruct (decide (j = j)) as [_|Hn]; [|contradiction].
      apply (es_bound _ _ _ _ _ E p np Hnp Hnpe).
    + rewrite lookup_insert_ne by exact Hj. intros En He Hp.
      destruct (es_parent _ _ _ _ _ E j n p En Hp) as (np & Hnp & Hnpe).
      destruct (decide (p = top)) as [->|_]; [congruence|].
      destruct (decide (j = top)) as [->|_]; [contradiction Hj; reflexivity|].
      apply (es_order _ _ _ _ _ E j n p En He Hp).
  - intros j n. destruct (decide (top = j)) as [->|Hj].
    + intros _ _. destruct (decide (j = j)) as [_|Hn]; [lia|contradiction].
    + rewrite lookup_insert_ne by exact Hj. intros En He.
      destruct (decide (j = top)) as [->|_]; [contradiction Hj; reflexivity|].
      pose proof (es_bound _ _ _ _ _ E j n En He). lia.
  - destruct Hroot as (s & Hs & _ & Hes). eauto.
Qed.

(** One turn of the loop expands one more node and keeps the books. *)
Lemma iteration_episode start m K instance gx gy (st st' : @engine P HS) :
  episode start m K (open_ st) (pool_ st) ->
  iteration heuristic_ filter_ on_relax_fn_ on_norelax_fn_ instance gx gy st
    = Done (inl st') ->
  exists m', episode start m' (S K) (open_ st') (pool_ st').
Proof.
  intros E H.
  destruct (iteration_inl instance gx gy st st' H)
    as (top & nbs & st1 & Hpeek & _ & _ & _ & _ & _ & _ & _ & _ & Ho1 & Hp1 & ->).
  apply peek_elem in Hpeek.
  destruct (episode_pop start m K _ _ top E Hpeek) as [E1 Hs1].
  exists (fun j => if decide (j = top) then K else m j).
  rewrite <- Ho1, <- Hp1 in E1. rewrite <- Hp1 in Hs1.
  destruct (visits_invariant
              (fun open pool =>
                 episode start (fun j => if decide (j = top) then K else m j) (S K) open pool
                 /\ exists s, pool !! start = Some s /\ expanded s = true)
              instance gx gy (set_expanded (generate (pool_ st) top) true) nbs eq_refl)
    with (st := st1) as [[E2 _] _].
  - intros open pool k w n' open' _ [Eo Hso] Hcur Hk Hid Hexp Hpar _ Hopen. split.
    + eapply episode_update
        with (cur := id (set_expanded (generate (pool_ st) top) true));
        try eassumption.
      * eexists. split; [exact Hcur|reflexivity].
      * rewrite Hid. eapply episode_keys_id. exact Eo.
    + destruct Hso as (s & Hs & Hse). exists s. split; [|exact Hse].
      rewrite lookup_insert_ne; [exact Hs|].
      intros ->. rewrite (generate_Some _ _ _ Hs) in Hk. congruence.
  - simpl. rewrite Hp1, (episode_keys_id start m K _ _ top E). apply lookup_insert_eq.
  - auto.
  - exact E2.
Qed.

(** The books at the start of the loop. *)
Lemma prepare_episode (st st0 : @engine P HS) instance instance' gx gy :
  prepare heuristic_ st instance = Done (st0, Some (instance', gx, gy)) ->
  exists start, start_id_ instance' = Z.of_nat start /\
    episode start (fun _ => 0%nat) 0 (open_ st0) (pool_ st0) /\
    exp_cutoff_ st0 = exp_cutoff_ st /\ cost_cutoff_ st0 = cost_cutoff_ st /\
    nodes_expanded_ st0 = 0 /\
    (target_id_ instance = INF -> target_id_ instance' = INF).
Proof.
  intros H.
  destruct (prepare_loop heuristic_ 0 st st0 instance instance' gx gy H)
    as (start & Hs & Ho & T & Hx & Hc & Hn & Ht).
  exists start. repeat split; try assumption.
  - apply (pt_keys _ _ _ _ _ _ T).
  - rewrite Ho. apply NoDup_singleton.
  - apply (pt_open _ _ _ _ _ _ T).
  - apply (pt_root _ _ _ _ _ _ T).
  - apply (pt_inner _ _ _ _ _ _ T).
  - intros k n p Hk Hp.
    destruct (pt_parent _ _ _ _ _ _ T k n p Hk Hp) as [He _].
    apply generate_expanded in He. exact He.
  - apply (pt_order _ _ _ _ _ _ T).
  - intros k n Hk He. apply (pt_bound _ _ _ _ _ _ T k).
    rewrite (generate_Some _ _ _ Hk). exact He.
Qed.

Lemma reachable_episode start instance gx gy (st0 st1 : @engine P HS) :
  (exists m K, episode start m K (open_ st0) (pool_ st0)) ->
  reachable heuristic_ filter_ on_relax_fn_ on_norelax_fn_ instance gx gy st0 st1 ->
  exists m K, episode start m K (open_ st1) (pool_ st1).
Proof.
  intros E0 R. induction R as [|st st' R IH Hturn]; [exact E0|].
  destruct IH as (m & K & E).
  destruct (iteration_episode start m K instance gx gy st st' E Hturn) as (m' & E').
  eauto.
Qed.

(** Where [loop] stops after starting with [K] expanded nodes, fewer than
    [K + fuel] nodes are expanded. *)
Lemma loop_episode start instance gx gy (fuel : nat) :
  forall m K (st st' : @engine P HS) (e : exit),
    episode start m K (open_ st) (pool_ st) ->
    loop heuristic_ filter_ on_relax_fn_ on_norelax_fn_ fuel instance gx gy st
      = Done (e, st') ->
    exists m' K', episode start m' K' (open_ st') (pool_ st') /\ (K' + 1 <= K + fuel)%nat.
Proof.
  induction fuel as [|fuel IH]; intros m K st st' e E H; simpl in H; [discriminate|].
  unbind. destruct a as [st1|e1].
  - destruct (iteration_episode start m K instance gx gy st st1 E Ha) as (m1 & E1).
    destruct (IH _ _ _ _ _ E1 H) as (m' & K' & E' & Hle).
    exists m', K'. split; [exact E'|lia].
  - accesses. subst. exists m, K. split; [exact E|lia].
Qed.

(** *** What a caller of the engine can rely on *)

Lemma search_exit_cases (fuel : nat) (st st' : @engine P HS) instance (e : exit) :
  search_exit heuristic_ filter_ on_relax_fn_ on_norelax_fn_ fuel st instance
    = Done (e, st') ->
  (e = NoStart /\ start_id_ instance = INF)
  \/ exists st0 instance' gx gy,
       prepare heuristic_ st instance = Done (st0, Some (instance', gx, gy))
       /\ loop heuristic_ filter_ on_relax_fn_ on_norelax_fn_ fuel instance' gx gy st0
          = Done (e, st').
Proof.
  unfold search_exit. intros H. unbind.
  destruct a as [st0 [[[instance' gx] gy]|]]; simpl in H.
  - right. eauto 10.
  - left. accesses. subst. split; [reflexivity|].
    unfold prepare in Ha. simpl in Ha.
    destruct (Z.eqb_spec (start_id_ instance) INF) as [E|_]; [exact E|].
    unbind. destruct a as [[s|] p]; simpl in Ha; [|discriminate].
    unbind. discriminate.
Qed.

(** How a turn of the loop that ends the search is told by the value it
    makes [search] return: a node when the frontier's minimum is the target,
    no node when the frontier is empty or when the minimum is another node
    and one of the two cutoff tests stops the search. *)
Lemma iteration_stops instance gx gy (st : @engine P HS) (e : exit) :
  iteration heuristic_ filter_ on_relax_fn_ on_norelax_fn_ instance gx gy st
    = Done (inr e) ->
  match returned e with
  | Some n => peek (pool_ st) (open_ st) = Some n /\ Z.of_nat n = target_id_ instance
  | None =>
      open_ st = []
      \/ exists top, peek (pool_ st) (open_ st) = Some top
           /\ Z.of_nat top <> target_id_ instance
           /\ (cost_cutoff_ st < f (generate (pool_ st) top)
               \/ exp_cutoff_ st <= nodes_expanded_ st)
  end.
Proof.
  unfold iteration. intros H.
  destruct (open_ st) as [|n0 rest] eqn:Eo; simpl in H.
  - accesses. subst. left. reflexivity.
  - destruct (Z.eqb_spec (Z.of_nat (min_f (pool_ st) n0 rest)) (target_id_ instance)).
    + accesses. subst. simpl. auto.
    + destruct (Z.ltb_spec (cost_cutoff_ st) (f (generate (pool_ st) (min_f (pool_ st) n0 rest)))).
      * accesses. subst. simpl. right. eauto 10.
      * destruct (Z.leb_spec (exp_cutoff_ st) (nodes_expanded_ st)).
        -- accesses. subst. simpl. right. eauto 10.
        -- unbind. discriminate.
Qed.

(** C5, as the code has it.  What [search] returns tells found from not
    found and nothing else.  It returns a node exactly when the loop stops
    at the goal test: that node is the minimum of the frontier and carries
    the target's id.  It returns the null node when the start id is
    [warthog::INF], when the frontier is empty, and when the minimum of the
    frontier is another node and a cutoff test stops the search; no value
    tells these apart.  [get_path] returns the empty path exactly when
    [search] returns the null node. *)
Theorem returned_value_tells_found_only (fuel : nat) (st st' : @engine P HS)
    (instance : problem_instance) (v : option nat)
    (Hrun : search heuristic_ filter_ on_relax_fn_ on_norelax_fn_ fuel st instance
            = Done (v, st')) :
  ((start_id_ instance = INF /\ v = None)
   \/ exists st0 instance' gx gy,
        prepare heuristic_ st instance = Done (st0, Some (instance', gx, gy))
        /\ reachable heuristic_ filter_ on_relax_fn_ on_norelax_fn_ instance' gx gy st0 st'
        /\ match v with
           | Some n =>
               peek (pool_ st') (open_ st') = Some n /\ Z.of_nat n = target_id_ instance'
           | None =>
               open_ st' = []
               \/ exists top, peek (pool_ st') (open_ st') = Some top
                    /\ Z.of_nat top <> target_id_ instance'
                    /\ (cost_cutoff_ st' < f (generate (pool_ st') top)
                        \/ exp_cutoff_ st' <= nodes_expanded_ st')
           end)
  /\ (forall path st'',
        get_path heuristic_ filter_ on_relax_fn_ on_norelax_fn_ fuel st instance
          = Done (path, st'') ->
        (path = [] <-> v = None)).
Proof.
  split.
  - unfold search in Hrun. unbind. destruct a as [e st1]. simpl in Hrun.
    accesses. subst.
    destruct (search_exit_cases _ _ _ _ _ Ha)
      as [[-> Hinf]|(st0 & i & gx & gy & Hprep & Hloop)]; [left; auto|].
    right. exists st0, i, gx, gy. split; [exact Hprep|].
    destruct (loop_Done _ _ _ _ _ _ _ Hloop) as [R Hexit].
    split; [exact R|]. exact (iteration_stops _ _ _ _ _ Hexit).
  - intros path st'' Hpath. unfold get_path in Hpath. rewrite Hrun in Hpath.
    simpl in Hpath. destruct v as [target|].
    + unbind. accesses. subst. split; [|discriminate].
      intros Hnil. exfalso. rewrite Hnil in *. simpl in *.
      match goal with H : follow _ _ _ _ = Done [] |- _ =>
        destruct fuel; simpl in H; [discriminate|];
        apply SearchFacts.follow_nonempty in H; [contradiction H; reflexivity|discriminate]
      end.
    + accesses. subst. split; reflexivity.
Qed.

(** Where [search] hands back a node, the books are in order and fewer
    nodes than [fuel] are expanded. *)
Lemma search_found_episode (fuel : nat) (st st' : @engine P HS) instance (n : nat) :
  search heuristic_ filter_ on_relax_fn_ on_norelax_fn_ fuel st instance
    = Done (Some n, st') ->
  exists st0 instance' gx gy start m K,
    prepare heuristic_ st instance = Done (st0, Some (instance', gx, gy))
    /\ start_id_ instance' = Z.of_nat start
    /\ reachable heuristic_ filter_ on_relax_fn_ on_norelax_fn_ instance' gx gy st0 st'
    /\ peek (pool_ st') (open_ st') = Some n /\ Z.of_nat n = target_id_ instance'
    /\ episode start m K (open_ st') (pool_ st') /\ (K + 1 <= fuel)%nat.
Proof.
  intros Hrun. unfold search in Hrun. unbind. destruct a as [e st1]. simpl in Hrun.
  accesses. subst st1. destruct e; simpl in *; try discriminate.
  match goal with E : Some _ = Some _ |- _ => injection E as -> end.
  destruct (search_exit_cases _ _ _ _ _ Ha) as [[E _]|(st0 & i & gx & gy & Hprep & Hloop)];
    [discriminate|].
  destruct (loop_Done _ _ _ _ _ _ _ Hloop) as [R Hexit].
  apply iteration_inr in Hexit as [Hpeek Htarget].
  destruct (prepare_episode _ _ _ _ _ _ Hprep) as (start & Hs & E0 & _).
  destruct (loop_episode start i gx gy fuel _ _ _ _ _ E0 Hloop) as (m & K & E & Hle).
  exists st0, i, gx, gy, start, m, K.
  split; [exact Hprep|]. split; [exact Hs|]. split; [exact R|].
  split; [exact Hpeek|]. split; [exact Htarget|]. split; [exact E|lia].
Qed.

(** X1.  [search] hands back a node only when that node is the minimum of
    the frontier and carries the target's id: it is in the pool, on the
    frontier and not expanded.  A query without a target (target id
    [warthog::INF]) can hand back no node but one with that id. *)
Theorem search_returns_target_only (fuel : nat) (st st' : @engine P HS)
    (instance : problem_instance) (n : nat)
    (Hrun : search heuristic_ filter_ on_relax_fn_ on_norelax_fn_ fuel st instance
            = Done (Some n, st')) :
  exists st0 instance' gx gy,
    prepare heuristic_ st instance = Done (st0, Some (instance', gx, gy))
    /\ Z.of_nat n = target_id_ instance'
    /\ (target_id_ instance = INF -> Z.of_nat n = INF)
    /\ peek (pool_ st') (open_ st') = Some n
    /\ exists sn, pool_ st' !! n = Some sn /\ expanded sn = false /\ id sn = n.
Proof.
  destruct (search_found_episode fuel st st' instance n Hrun)
    as (st0 & i & gx & gy & start & m & K & Hprep & _ & _ & Hpeek & Htarget & E & _).
  destruct (prepare_episode _ _ _ _ _ _ Hprep) as (_ & _ & _ & _ & _ & _ & Hinf).
  exists st0, i, gx, gy. split; [exact Hprep|]. split; [exact Htarget|].
  split; [intros Ht; rewrite Htarget; auto|]. split; [exact Hpeek|].
  destruct (es_open _ _ _ _ _ E n (peek_elem _ _ _ Hpeek)) as (sn & Hsn & Hu).
  exists sn. repeat split; try assumption. apply (es_keys _ _ _ _ _ E). exact Hsn.
Qed.

(** X2.  Throughout a search the frontier holds no node twice, and every
    node on it is a node of the pool that carries its own id and is not
    expanded. *)
Theorem frontier_discipline (st st0 st1 : @engine P HS)
    (instance instance' : problem_instance) (gx gy : Z)
    (Hprep : prepare heuristic_ st instance = Done (st0, Some (instance', gx, gy)))
    (Hreach : reachable heuristic_ filter_ on_relax_fn_ on_norelax_fn_
                        instance' gx gy st0 st1) :
  NoDup (open_ st1)
  /\ forall k, k ∈ open_ st1 ->
       exists n, pool_ st1 !! k = Some n /\ expanded n = false /\ id n = k.
Proof.
  destruct (prepare_episode _ _ _ _ _ _ Hprep) as (start & _ & E0 & _).
  destruct (reachable_episode start instance' gx gy st0 st1
              (ex_intro _ _ (ex_intro _ _ E0)) Hreach) as (m & K & E).
  split; [apply (es_nodup _ _ _ _ _ E)|].
  intros k Hk. destruct (es_open _ _ _ _ _ E k Hk) as (n & Hn & Hu).
  exists n. repeat split; try assumption. apply (es_keys _ _ _ _ _ E). exact Hn.
Qed.

(** X3.  An expanded node is settled: no later turn of the loop changes
    its record (g, f, parent, flag), so no node is expanded twice. *)
Theorem closed_nodes_final (st st0 st1 st2 : @engine P HS)
    (instance instance' : problem_instance) (gx gy : Z) (k : nat) (n : search_node)
    (Hprep : prepare heuristic_ st instance = Done (st0, Some (instance', gx, gy)))
    (Hreach : reachable heuristic_ filter_ on_relax_fn_ on_norelax_fn_
                        instance' gx gy st0 st1)
    (Hlater : reachable heuristic_ filter_ on_relax_fn_ on_norelax_fn_
                        instance' gx gy st1 st2)
    (Hk : pool_ st1 !! k = Some n) (Hexp : expanded n = true) :
  pool_ st2 !! k = Some n /\ k ∉ open_ st2.
Proof.
  destruct (prepare_episode _ _ _ _ _ _ Hprep) as (start & _ & E0 & _).
  destruct (reachable_episode start instance' gx gy st0 st1
              (ex_intro _ _ (ex_intro _ _ E0)) Hreach) as (m1 & K1 & E1).
  assert (pool_ st2 !! k = Some n
          /\ exists m K, episode start m K (open_ st2) (pool_ st2)) as [Hk2 (m2 & K2 & E2)].
  { clear Hreach. induction Hlater as [|s s' R IH Hturn]; [eauto|].
    destruct IH as [Hks (m & K & E)]. split.
    - destruct (iteration_inl instance' gx gy s s' Hturn)
        as (top & nbs & s1 & Hpeek & _ & _ & _ & _ & _ & _ & _ & _ & Ho1 & Hp1 & ->).
      destruct (visits_invariant (fun _ pool => pool !! k = Some n)
                  instance' gx gy (set_expanded (generate (pool_ s) top) true) nbs eq_refl)
        with (st := s1) as [Hres _]; [| | |exact Hres].
      + intros open pool k' w n' open' _ Hpk _ Hk' _ _ _ _ _.
        rewrite lookup_insert_ne; [exact Hpk|].
        intros ->. rewrite (generate_Some _ _ _ Hpk) in Hk'. congruence.
      + simpl. rewrite Hp1, (episode_keys_id start m K _ _ top E). apply lookup_insert_eq.
      + rewrite Hp1. destruct (decide (top = k)) as [->|Hne].
        * rewrite (generate_Some _ _ _ Hks), set_expanded_true by exact Hexp.
          apply lookup_insert_eq.
        * rewrite lookup_insert_ne by exact Hne. exact Hks.
    - destruct (iteration_episode start m K instance' gx gy s s' E Hturn) as (m' & E').
      eauto. }
  split; [exact Hk2|]. intros Hin.
  destruct (es_open _ _ _ _ _ E2 k Hin) as (n' & Hn' & Hu). congruence.
Qed.

(** X4.  The cutoffs bound the effort.  With an expansion cutoff that is a
    [uint32_t], the count of expanded nodes never passes it; and no node
    whose f exceeds the cost cutoff is ever expanded. *)
Theorem cutoffs_bound_effort (st st0 st1 : @engine P HS)
    (instance instance' : problem_instance) (gx gy : Z)
    (Hcut : 0 <= exp_cutoff_ st < 4294967296)
    (Hprep : prepare heuristic_ st instance = Done (st0, Some (instance', gx, gy)))
    (Hreach : reachable heuristic_ filter_ on_relax_fn_ on_norelax_fn_
                        instance' gx gy st0 st1) :
  0 <= nodes_expanded_ st1 <= exp_cutoff_ st
  /\ forall k n, pool_ st1 !! k = Some n -> expanded n = true -> f n <= cost_cutoff_ st.
Proof.
  destruct (prepare_episode _ _ _ _ _ _ Hprep) as (start & _ & E0 & Hx & Hc & Hn0 & _).
  assert ((0 <= nodes_expanded_ st1 <= exp_cutoff_ st
           /\ forall k n, pool_ st1 !! k = Some n -> expanded n = true ->
                          f n <= cost_cutoff_ st)
          /\ exp_cutoff_ st1 = exp_cutoff_ st /\ cost_cutoff_ st1 = cost_cutoff_ st
          /\ exists m K, episode start m K (open_ st1) (pool_ st1)) as [H _]; [|exact H].
  induction Hreach as [|s s' R IH Hturn].
  - split; [|eauto]. split; [lia|].
    intros k n Hk He. pose proof (es_bound _ _ _ _ _ E0 _ _ Hk He) as Hb.
    cbv beta in Hb. lia.
  - destruct IH as ([Hcount Hcost] & Hxs & Hcs & m & K & E).
    destruct (iteration_episode start m K instance' gx gy s s' E Hturn) as (m' & E').
    destruct (iteration_inl instance' gx gy s s' Hturn)
      as (top & nbs & s1 & Hpeek & _ & Hf & Hlt & _ & _ & Hc1 & Hx1 & Hn1 & Ho1 & Hp1 & ->).
    destruct (visits_invariant
                (fun _ pool => forall k n, pool !! k = Some n -> expanded n = true ->
                                           f n <= cost_cutoff_ st)
                instance' gx gy (set_expanded (generate (pool_ s) top) true) nbs eq_refl)
      with (st := s1) as (Hres & _ & _ & Hc' & Hx' & Hn').
    + intros open pool k' w n' open' _ Hpk _ _ _ Hne _ _ _ k n.
      destruct (decide (k' = k)) as [->|Hd].
      * rewrite lookup_insert_eq. intros [= <-] He. congruence.
      * rewrite lookup_insert_ne by exact Hd. apply Hpk.
    + simpl. rewrite Hp1, (episode_keys_id start m K _ _ top E). apply lookup_insert_eq.
    + rewrite Hp1. intros k n. destruct (decide (top = k)) as [->|Hd].
      * rewrite lookup_insert_eq. intros [= <-] _. simpl. lia.
      * rewrite lookup_insert_ne by exact Hd. apply Hcost.
    + split; [split; [|exact Hres]|].
      * rewrite Hn', Hn1. unfold u32. rewrite Z.mod_small; lia.
      * split; [congruence|]. split; [congruence|]. eauto.
Qed.

(** The parent references stay edges of the policy, turn after turn. *)
Lemma reachable_edge_linked (st st0 st1 : @engine P HS)
    (instance instance' : problem_instance) (gx gy : Z)
    (Hprep : prepare heuristic_ st instance = Done (st0, Some (instance', gx, gy)))
    (Hreach : reachable heuristic_ filter_ on_relax_fn_ on_norelax_fn_
                        instance' gx gy st0 st1) :
  edge_linked (expander_ st1) (pool_ st1) /\ expander_ st1 = expander_ st0.
Proof.
  destruct (prepare_episode _ _ _ _ _ _ Hprep) as (start & _ & E0 & _).
  assert ((edge_linked (expander_ st1) (pool_ st1) /\ expander_ st1 = expander_ st0)
          /\ exists m K, episode start m K (open_ st1) (pool_ st1)) as [H _]; [|exact H].
  induction Hreach as [|s s' R IH Hturn].
  - split; [|eauto]. split; [|reflexivity]. intros k n p Hk Hp.
    destruct (es_parent _ _ _ _ _ E0 k n p Hk Hp) as (np & Hnp & Hnpe).
    pose proof (es_bound _ _ _ _ _ E0 _ _ Hnp Hnpe) as Hb. cbv beta in Hb. lia.
  - destruct IH as ([Hl He] & m & K & E).
    destruct (iteration_episode start m K instance' gx gy s s' E Hturn) as (m' & E').
    split; [|eauto].
    destruct (iteration_inl instance' gx gy s s' Hturn)
      as (top & nbs & s1 & Hpeek & _ & _ & _ & Hexpand & He1 & _ & _ & _ & Ho1 & Hp1 & ->).
    apply peek_elem in Hpeek.
    destruct (es_open _ _ _ _ _ E top Hpeek) as (n0 & Hn0 & Hu0).
    rewrite (generate_Some _ _ _ Hn0) in *.
    destruct (visits_invariant
                (fun _ pool => edge_linked (expander_ s) pool)
                instance' gx gy (set_expanded n0 true) nbs eq_refl)
      with (st := s1) as (Hres & _ & He' & _).
    + intros open pool k' w n' open' Hin Hpk Hcur Hk' Hid Hne Hpar Hg _ k n p.
      assert (forall q nq, pool !! q = Some nq -> expanded nq = true -> k' <> q) as Hq.
      { intros q nq Hq He0 ->. rewrite (generate_Some _ _ _ Hq) in Hk'. congruence. }
      destruct (decide (k' = k)) as [->|Hd].
      * rewrite lookup_insert_eq. intros [= <-] Hp. rewrite Hpar in Hp. injection Hp as <-.
        exists (set_expanded n0 true), nbs, w.
        rewrite lookup_insert_ne by (eapply Hq; [exact Hcur|reflexivity]).
        repeat split; assumption.
      * rewrite lookup_insert_ne by exact Hd. intros Hk Hp.
        destruct (Hpk k n p Hk Hp) as (np & nbs' & w' & Hnp & Hnpe & Hx & Hin' & Hg').
        exists np, nbs', w'. rewrite lookup_insert_ne by (eapply Hq; eassumption).
        repeat split; assumption.
    + simpl. rewrite Hp1, (es_keys _ _ _ _ _ E _ _ Hn0). apply lookup_insert_eq.
    + rewrite Hp1. intros k n p Hk Hp.
      assert (exists n1, pool_ s !! k = Some n1 /\ parent n1 = Some p /\ g n1 = g n)
        as (n1 & Hn1 & Hp1' & Hg1).
      { destruct (decide (top = k)) as [->|Hd].
        - rewrite lookup_insert_eq in Hk. injection Hk as <-. eauto.
        - rewrite lookup_insert_ne in Hk by exact Hd. eauto. }
      destruct (Hl k n1 p Hn1 Hp1') as (np & nbs' & w' & Hnp & Hnpe & Hx & Hin' & Hg').
      exists np, nbs', w'.
      rewrite lookup_insert_ne by (intros ->; congruence).
      repeat split; try assumption. congruence.
    + split; [rewrite He', He1; exact Hres|]. rewrite He', He1. exact He.
Qed.



(** X5.  Every parent reference of an episode follows an edge that the
    policy enumerated when it expanded the parent, and the node's g is the
    parent's g plus the cost of that edge: g-costs are sums of edge costs
    along the parent references. *)
Theorem parent_links_are_policy_edges (st st0 st1 : @engine P HS)
    (instance instance' : problem_instance) (gx gy : Z)
    (Hprep : prepare heuristic_ st instance = Done (st0, Some (instance', gx, gy)))
    (Hreach : reachable heuristic_ filter_ on_relax_fn_ on_norelax_fn_
                        instance' gx gy st0 st1) :
  edge_linked (expander_ st1) (pool_ st1) /\ expander_ st1 = expander_ st0.
Proof. exact (reachable_edge_linked st st0 st1 instance instance' gx gy Hprep Hreach). Qed.

Lemma follow_chain start m K open pool (fuel : nat) :
  episode start m K open pool ->
  forall c n acc path,
    pool !! c = Some n -> follow fuel pool (Some c) acc = Done path ->
    exists chain, path = chain ++ acc /\ head chain = Some start
                  /\ last chain = Some c /\ linked pool chain.
Proof.
  intros E. induction fuel as [|fuel IH]; intros c n acc path Hc H; simpl in H;
    [discriminate|].
  rewrite (generate_Some _ _ _ Hc) in H. destruct (parent n) as [p|] eqn:Hp.
  - destruct (es_parent _ _ _ _ _ E c n p Hc Hp) as (np & Hnp & _).
    destruct (IH p np (c :: acc) path Hnp H) as (chain & -> & Hhead & Hlast & Hlinked).
    exists (chain ++ [c]). split; [rewrite <- app_assoc; reflexivity|].
    apply last_Some in Hlast as [chain' ->].
    split; [|split; [apply last_snoc|]].
    + destruct chain'; simpl in *; exact Hhead.
    + intros i a b Ha Hb.
      destruct (decide (S i < length (chain' ++ [p]))%nat) as [Hlt|Hge].
      * rewrite lookup_app_l in Ha by lia. rewrite lookup_app_l in Hb by exact Hlt.
        eapply Hlinked; eassumption.
      * assert (S i = length (chain' ++ [p])) as Hi.
        { apply lookup_lt_Some in Hb. rewrite length_app in Hb. simpl in Hb. lia. }
        rewrite lookup_app_r in Hb by lia.
        replace (S i - length (chain' ++ [p]))%nat with 0%nat in Hb by lia.
        injection Hb as <-.
        rewrite lookup_app_l in Ha by lia.
        rewrite length_app in Hi. simpl in Hi.
        rewrite lookup_app_r in Ha by lia.
        replace (i - length chain')%nat with 0%nat in Ha by lia.
        injection Ha as <-. eauto.
  - destruct fuel; simpl in H; accesses; subst path.
    + exists [c]. split; [reflexivity|].
      destruct (decide (c = start)) as [->|Hne].
      * repeat split. intros i a b _ Hb. destruct i; discriminate.
      * destruct (es_inner _ _ _ _ _ E c n Hc Hne) as [q Hq]. congruence.
    + exists [c]. split; [reflexivity|].
      destruct (decide (c = start)) as [->|Hne].
      * repeat split. intros i a b _ Hb. destruct i; discriminate.
      * destruct (es_inner _ _ _ _ _ E c n Hc Hne) as [q Hq]. congruence.
Qed.

Lemma follow_expanded start m K open pool :
  episode start m K open pool ->
  forall (fuel : nat) c n acc,
    pool !! c = Some n -> expanded n = true -> (m c < fuel)%nat ->
    exists path, follow fuel pool (Some c) acc = Done path.
Proof.
  intros E. induction fuel as [|fuel IH]; intros c n acc Hc He Hm; [lia|].
  simpl. rewrite (generate_Some _ _ _ Hc). destruct (parent n) as [p|] eqn:Hp.
  - destruct (es_parent _ _ _ _ _ E c n p Hc Hp) as (np & Hnp & Hnpe).
    pose proof (es_order _ _ _ _ _ E c n p Hc He Hp).
    apply (IH p np); [assumption..|lia].
  - destruct fuel; simpl; eauto.
Qed.

(** X6.  Whenever [search] returns, [get_path] run on the same budget
    returns too: the walk along the back-pointers ends, after no more steps
    than the search took turns. *)
Theorem get_path_returns_when_search_does (fuel : nat) (st st' : @engine P HS)
    (instance : problem_instance) (r : option nat)
    (Hrun : search heuristic_ filter_ on_relax_fn_ on_norelax_fn_ fuel st instance
            = Done (r, st')) :
  exists path,
    get_path heuristic_ filter_ on_relax_fn_ on_norelax_fn_ fuel st instance
      = Done (path, st').
Proof.
  unfold get_path. rewrite Hrun. simpl. destruct r as [n|]; [|eauto].
  destruct (search_found_episode fuel st st' instance n Hrun)
    as (st0 & i & gx & gy & start & m & K & _ & _ & _ & Hpeek & _ & E & Hle).
  destruct (es_open _ _ _ _ _ E n (peek_elem _ _ _ Hpeek)) as (sn & Hsn & _).
  assert (exists path, follow fuel (pool_ st') (Some n) [] = Done path) as [path Hp].
  { destruct fuel as [|fuel]; [lia|]. simpl. rewrite (generate_Some _ _ _ Hsn).
    destruct (parent sn) as [p|] eqn:Hpar.
    - destruct (es_parent _ _ _ _ _ E n sn p Hsn Hpar) as (np & Hnp & Hnpe).
      pose proof (es_bound _ _ _ _ _ E p np Hnp Hnpe).
      apply (follow_expanded start m K _ _ E fuel p np); [assumption..|lia].
    - destruct fuel; simpl; eauto. }
  rewrite Hp. simpl. eauto.
Qed.

(** X7.  A path that [get_path] returns is empty or runs from the start
    node (on top of the stack) to the target node, each node after the first
    having the one before it as its parent: the two assertions of
    [get_path] hold. *)
Theorem get_path_runs_start_to_target (fuel : nat) (st st' : @engine P HS)
    (instance : problem_instance) (path : list nat)
    (Hrun : get_path heuristic_ filter_ on_relax_fn_ on_norelax_fn_ fuel st instance
            = Done (path, st'))
    (Hpath : path <> []) :
  exists st0 instance' gx gy target,
    prepare heuristic_ st instance = Done (st0, Some (instance', gx, gy))
    /\ search heuristic_ filter_ on_relax_fn_ on_norelax_fn_ fuel st instance
       = Done (Some target, st')
    /\ Z.of_nat target = target_id_ instance'
    /\ head (Z.of_nat <$> path) = Some (start_id_ instance')
    /\ last path = Some target
    /\ linked (pool_ st') path.
Proof.
  unfold get_path in Hrun. unbind. destruct a as [[n|] st1]; simpl in Hrun.
  - unbind. accesses. subst.
    destruct (search_found_episode fuel st st' instance n Ha)
      as (st0 & i & gx & gy & start & m & K & Hprep & Hs & _ & Hpeek & Htarget & E & _).
    destruct (es_open _ _ _ _ _ E n (peek_elem _ _ _ Hpeek)) as (sn & Hsn & _).
    match goal with H : follow _ _ _ _ = Done _ |- _ =>
      destruct (follow_chain start m K _ _ fuel E n sn [] _ Hsn H)
        as (chain & -> & Hhead & Hlast & Hlinked) end.
    rewrite app_nil_r in *.
    exists st0, i, gx, gy, n. split; [exact Hprep|]. split; [exact Ha|].
    split; [exact Htarget|]. split; [|split; [exact Hlast|exact Hlinked]].
    destruct chain; simpl in *; [discriminate|]. injection Hhead as ->.
    rewrite Hs. reflexivity.
  - accesses. subst. contradiction.
Qed.

(** *** The length a caller is told *)

Lemma prepare_start (st st0 : @engine P HS) instance instance' gx gy :
  prepare heuristic_ st instance = Done (st0, Some (instance', gx, gy)) ->
  exists start ns, start_id_ instance' = Z.of_nat start /\ open_ st0 = [start]
                   /\ pool_ st0 !! start = Some ns /\ g ns = 0.
Proof.
  unfold prepare. intros H.
  destruct (start_id_ _ =? INF); [discriminate|]. simpl in H.
  unbind. destruct a as [[start|] p1]; simpl in H; [|discriminate].
  unbind. accesses. subst. simpl.
  match goal with H : _ = Done ?r |- context [start_id_ ?r.1] =>
    assert (start_id_ r.1 = Z.of_nat start) as Hs
  end.
  { destruct (target_id_ instance =? INF) eqn:Et; simpl in *.
    - accesses. subst. reflexivity.
    - unbind.
      match goal with H : match ?t.1 with _ => _ end = _ |- _ =>
        destruct t as [[?|] ?]; simpl in H; [|discriminate] end.
      accesses. subst. reflexivity. }
  exists start. eexists. split; [exact Hs|]. split; [reflexivity|].
  split; [apply lookup_singleton_eq|reflexivity].
Qed.

(** The start node keeps the cost 0 that [search] gives it. *)
Lemma reachable_start_cost (st st0 st1 : @engine P HS) instance instance' gx gy :
  prepare heuristic_ st instance = Done (st0, Some (instance', gx, gy)) ->
  reachable heuristic_ filter_ on_relax_fn_ on_norelax_fn_ instance' gx gy st0 st1 ->
  exists start ns, start_id_ instance' = Z.of_nat start
                   /\ pool_ st1 !! start = Some ns /\ g ns = 0.
Proof.
  intros Hprep R.
  destruct (prepare_start _ _ _ _ _ _ Hprep) as (start & ns0 & Hs & Ho & Hn0 & Hg0).
  destruct (prepare_episode _ _ _ _ _ _ Hprep) as (start' & Hs' & E0 & _).
  assert (start' = start) as -> by lia.
  exists start.
  assert ((exists m K, episode start m K (open_ st1) (pool_ st1))
          /\ exists ns, pool_ st1 !! start = Some ns /\ g ns = 0
                        /\ (expanded ns = true \/ open_ st1 = [start]))
    as [_ (ns & Hns & Hg & _)]; [|eauto].
  induction R as [|s s' R IH Hturn].
  - split; [eauto|]. exists ns0. auto.
  - destruct IH as ((m & K & E) & ns & Hns & Hg & Hcase).
    split.
    { destruct (iteration_episode start m K instance' gx gy s s' E Hturn) as (m' & E').
      eauto. }
    destruct (iteration_inl instance' gx gy s s' Hturn)
      as (top & nbs & s1 & Hpeek & _ & _ & _ & Hexpand & He1 & _ & _ & _ & Ho1 & Hp1 & ->).
    pose proof (peek_elem _ _ _ Hpeek) as Hin.
    destruct (es_open _ _ _ _ _ E top Hin) as (n0 & Hn0' & Hu0).
    rewrite (generate_Some _ _ _ Hn0') in *.
    assert (exists ns1, pool_ s1 !! start = Some ns1 /\ g ns1 = 0 /\ expanded ns1 = true)
      as J1.
    { rewrite Hp1. destruct (decide (top = start)) as [->|Hne].
      - rewrite lookup_insert_eq. eexists. split; [reflexivity|].
        split; [|reflexivity]. simpl. congruence.
      - rewrite lookup_insert_ne by exact Hne. exists ns.
        split; [exact Hns|]. split; [exact Hg|].
        destruct Hcase as [He|Hop]; [exact He|].
        rewrite Hop in Hin. apply list_elem_of_singleton in Hin. contradiction. }
    destruct (visits_invariant
                (fun _ pool => exists ns1, pool !! start = Some ns1 /\ g ns1 = 0
                                           /\ expanded ns1 = true)
                instance' gx gy (set_expanded n0 true) nbs eq_refl)
      with (st := s1) as (Hres & _).
    + intros open pool k w n' open' _ (ns1 & Hk1 & Hg1 & He1') _ Hk' _ _ _ _ _.
      exists ns1. rewrite lookup_insert_ne; [auto|].
      intros ->. rewrite (generate_Some _ _ _ Hk1) in Hk'. congruence.
    + simpl. rewrite Hp1, (es_keys _ _ _ _ _ E _ _ Hn0'). apply lookup_insert_eq.
    + exact J1.
    + destruct Hres as (ns1 & H1 & H2 & H3). exists ns1. auto.
Qed.

(** The walk along the back-pointers collects edges of the policy, and
    their costs add up to the g of the node it starts from. *)
Lemma follow_steps start m K open pool (e : P) (fuel : nat) :
  episode start m K open pool -> edge_linked e pool ->
  (exists ns, pool !! start = Some ns /\ g ns = 0) ->
  forall c n acc path,
    pool !! c = Some n -> follow fuel pool (Some c) acc = Done path ->
    exists chain, path = (chain ++ [c]) ++ acc /\ steps e pool (chain ++ [c]) (g n).
Proof.
  intros E L (ns & Hns & Hg0).
  induction fuel as [|fuel IH]; intros c n acc path Hc H; simpl in H; [discriminate|].
  rewrite (generate_Some _ _ _ Hc) in H. destruct (parent n) as [p|] eqn:Hp.
  - destruct (L c n p Hc Hp) as (np & nbs & w & Hnp & _ & Hx & Hin & Hg).
    destruct (IH p np (c :: acc) path Hnp H) as (chain & -> & Hsteps).
    exists (chain ++ [p]). split; [rewrite <- !app_assoc; reflexivity|].
    rewrite Hg, <- app_assoc. simpl. eapply steps_more; eassumption.
  - assert (c = start) as ->.
    { destruct (decide (c = start)) as [|Hne]; [assumption|].
      destruct (es_inner _ _ _ _ _ E c n Hc Hne) as [q Hq]. congruence. }
    assert (n = ns) as -> by congruence.
    exists []. split.
    + destruct fuel; simpl in H; accesses; subst; reflexivity.
    + rewrite Hg0. apply steps_one.
Qed.

Lemma found_follow (fuel : nat) (st st' : @engine P HS) instance (n : nat) :
  search heuristic_ filter_ on_relax_fn_ on_norelax_fn_ fuel st instance
    = Done (Some n, st') ->
  exists path, follow fuel (pool_ st') (Some n) [] = Done path.
Proof.
  intros Hrun.
  destruct (search_found_episode fuel st st' instance n Hrun)
    as (st0 & i & gx & gy & start & m & K & _ & _ & _ & Hpeek & _ & E & Hle).
  destruct (es_open _ _ _ _ _ E n (peek_elem _ _ _ Hpeek)) as (sn & Hsn & _).
  destruct fuel as [|fuel]; [lia|]. simpl. rewrite (generate_Some _ _ _ Hsn).
  destruct (parent sn) as [p|] eqn:Hpar.
  - destruct (es_parent _ _ _ _ _ E n sn p Hsn Hpar) as (np & Hnp & Hnpe).
    pose proof (es_bound _ _ _ _ _ E p np Hnp Hnpe).
    apply (follow_expanded start m K _ _ E fuel p np); [assumption..|lia].
  - destruct fuel; simpl; eauto.
Qed.

(** X14.  The length [get_length] reports is the cost of the path
    [get_path] returns for the same query: [warthog::INF] when that path is
    empty, and otherwise the sum of the costs of one edge per step of the
    path, each an edge that the policy enumerates for the node it leaves. *)
Theorem get_length_is_cost_of_path (fuel : nat) (st st' : @engine P HS)
    (instance : problem_instance) (len : Z)
    (Hrun : get_length heuristic_ filter_ on_relax_fn_ on_norelax_fn_ fuel st instance
            = Done (len, st')) :
  exists path,
    get_path heuristic_ filter_ on_relax_fn_ on_norelax_fn_ fuel st instance
      = Done (path, st')
    /\ (path = [] -> len = INF)
    /\ (path <> [] -> steps (expander_ st') (pool_ st') path len).
Proof.
  unfold get_length in Hrun. unbind. destruct a as [r st1]. simpl in Hrun.
  injection Hrun as <- ->.
  unfold get_path. rewrite Ha. simpl. destruct r as [n|].
  - destruct (found_follow _ _ _ _ _ Ha) as [path Hp]. rewrite Hp. simpl.
    exists path. split; [reflexivity|].
    destruct (search_found_episode fuel st st' instance n Ha)
      as (st0 & i & gx & gy & start & m & K & Hprep & Hs & R & Hpeek & _ & E & _).
    destruct (reachable_edge_linked st st0 st' instance i gx gy Hprep R) as [L _].
    destruct (reachable_start_cost st st0 st' instance i gx gy Hprep R)
      as (start' & ns & Hs' & Hns & Hg).
    assert (start' = start) as -> by lia.
    destruct (es_open _ _ _ _ _ E n (peek_elem _ _ _ Hpeek)) as (sn & Hsn & _).
    destruct (follow_steps start m K _ _ (expander_ st') fuel E L
                (ex_intro _ ns (conj Hns Hg)) n sn [] path Hsn Hp)
      as (chain & -> & Hsteps).
    rewrite app_nil_r. rewrite (generate_Some _ _ _ Hsn).
    split; [|intros _; exact Hsteps].
    intros Hnil. destruct chain; discriminate.
  - eexists. split; [reflexivity|]. split; [reflexivity|]. intros Hc. contradiction.
Qed.

End Steps.

(** *** The two-node graph, once more *)

(** The search from node 0 to node 1: the engine [prepare] leaves and the
    engine after the first turn of the loop. *)
Lemma two_nodes_first_turn :
  exists (st0 st1 : @engine DownDfs.policy unit) i gx gy,
    prepare (EP := down_dfs_expansion_policy TwoNodes.no_filter)
      TwoNodes.zero_heuristic TwoNodes.engine (TwoNodes.query 0 1)
      = Done (st0, Some (i, gx, gy))
    /\ iteration (EP := down_dfs_expansion_policy TwoNodes.no_filter)
         TwoNodes.zero_heuristic None TwoNodes.on_relax TwoNodes.on_norelax
         i gx gy st0 = Done (inl st1)
    /\ open_ st1 = [1%nat] /\ nodes_expanded_ st1 = 1
    /\ pool_ st1 !! 0%nat = Some {| id := 0; g := 0; f := 0; parent := None;
                                    expanded := true; search_id := 1 |}
    /\ pool_ st1 !! 1%nat = Some {| id := 1; g := 0; f := 0; parent := Some 0%nat;
                                    expanded := false; search_id := 1 |}.
Proof.
  destruct (prepare (EP := down_dfs_expansion_policy TwoNodes.no_filter)
              TwoNodes.zero_heuristic TwoNodes.engine (TwoNodes.query 0 1))
    as [[st0 [[[i gx] gy]|]]| |] eqn:Hprep; try (vm_compute in Hprep; discriminate).
  destruct (iteration (EP := down_dfs_expansion_policy TwoNodes.no_filter)
              TwoNodes.zero_heuristic None TwoNodes.on_relax TwoNodes.on_norelax
              i gx gy st0) as [[st1|e]| |] eqn:Hturn;
    try (vm_compute in Hprep; injection Hprep as <- <- <- <-;
         vm_compute in Hturn; discriminate).
  exists st0, st1, i, gx, gy. split; [reflexivity|]. split; [exact Hturn|].
  vm_compute in Hprep. injection Hprep as <- <- <- <-.
  vm_compute in Hturn. injection Hturn as <-.
  repeat split; vm_compute; reflexivity.
Defined.

Lemma search_returns_target_only_witness :
  exists st', TwoNodes.search 5 TwoNodes.engine (TwoNodes.query 0 1) = Done (Some 1%nat, st')
              /\ peek (pool_ st') (open_ st') = Some 1%nat.
Proof.
  destruct (TwoNodes.search 5 TwoNodes.engine (TwoNodes.query 0 1))
    as [[r st']| |] eqn:Hrun; try (vm_compute in Hrun; discriminate).
  assert (r = Some 1%nat) as -> by (vm_compute in Hrun; congruence).
  exists st'. split; [reflexivity|].
  destruct (search_returns_target_only
              (EP := down_dfs_expansion_policy TwoNodes.no_filter)
              TwoNodes.zero_heuristic None TwoNodes.on_relax TwoNodes.on_norelax
              5 TwoNodes.engine st' (TwoNodes.query 0 1) 1 Hrun)
    as (_ & _ & _ & _ & _ & _ & _ & Hpeek & _).
  exact Hpeek.
Defined.

Lemma frontier_discipline_witness :
  exists st1 : @engine DownDfs.policy unit, open_ st1 = [1%nat] /\ NoDup (open_ st1).
Proof.
  destruct two_nodes_first_turn as (st0 & st1 & i & gx & gy & Hprep & Hturn & Ho & _).
  exists st1. split; [exact Ho|].
  apply (frontier_discipline (EP := down_dfs_expansion_policy TwoNodes.no_filter)
           TwoNodes.zero_heuristic None TwoNodes.on_relax TwoNodes.on_norelax
           TwoNodes.engine st0 st1 (TwoNodes.query 0 1) i gx gy Hprep).
  eapply reach_turn; [apply reach_start|exact Hturn].
Defined.

(** The search from node 0 to node 2 of the chain, two turns of the loop:
    the first expands node 0 and generates node 1, the second expands node 1
    and generates node 2. *)
Lemma chain_two_turns :
  exists (st0 st1 st2 : @engine DownDfs.policy unit) i gx gy,
    prepare (EP := down_dfs_expansion_policy TwoNodes.no_filter)
      TwoNodes.zero_heuristic Chain.engine (TwoNodes.query 0 2)
      = Done (st0, Some (i, gx, gy))
    /\ iteration (EP := down_dfs_expansion_policy TwoNodes.no_filter)
         TwoNodes.zero_heuristic None TwoNodes.on_relax TwoNodes.on_norelax
         i gx gy st0 = Done (inl st1)
    /\ iteration (EP := down_dfs_expansion_policy TwoNodes.no_filter)
         TwoNodes.zero_heuristic None TwoNodes.on_relax TwoNodes.on_norelax
         i gx gy st1 = Done (inl st2)
    /\ pool_ st1 !! 0%nat = Some {| id := 0; g := 0; f := 0; parent := None;
                                    expanded := true; search_id := 1 |}
    /\ pool_ st1 !! 2%nat = None
    /\ pool_ st2 !! 1%nat = Some {| id := 1; g := 2; f := 2; parent := Some 0%nat;
                                    expanded := true; search_id := 1 |}
    /\ pool_ st2 !! 2%nat = Some {| id := 2; g := 5; f := 5; parent := Some 1%nat;
                                    expanded := false; search_id := 1 |}.
Proof.
  destruct (prepare (EP := down_dfs_expansion_policy TwoNodes.no_filter)
              TwoNodes.zero_heuristic Chain.engine (TwoNodes.query 0 2))
    as [[st0 [[[i gx] gy]|]]| |] eqn:Hprep; try (vm_compute in Hprep; discriminate).
  destruct (iteration (EP := down_dfs_expansion_policy TwoNodes.no_filter)
              TwoNodes.zero_heuristic None TwoNodes.on_relax TwoNodes.on_norelax
              i gx gy st0) as [[st1|e]| |] eqn:Hturn;
    try (vm_compute in Hprep; injection Hprep as <- <- <- <-;
         vm_compute in Hturn; discriminate).
  destruct (iteration (EP := down_dfs_expansion_policy TwoNodes.no_filter)
              TwoNodes.zero_heuristic None TwoNodes.on_relax TwoNodes.on_norelax
              i gx gy st1) as [[st2|e]| |] eqn:Hnext;
    try (vm_compute in Hprep; injection Hprep as <- <- <- <-;
         vm_compute in Hturn; injection Hturn as <-;
         vm_compute in Hnext; discriminate).
  exists st0, st1, st2, i, gx, gy.
  split; [reflexivity|]. split; [exact Hturn|]. split; [exact Hnext|].
  vm_compute in Hprep. injection Hprep as <- <- <- <-.
  vm_compute in Hturn. injection Hturn as <-.
  vm_compute in Hnext. injection Hnext as <-.
  repeat split; vm_compute; reflexivity.
Defined.

(** The chain: node 0 is expanded in the first turn.  The second turn
    expands node 1 and brings node 2 into the pool; the record of node 0 is
    after it what it was before, and node 0 is not on the frontier. *)
Lemma closed_nodes_final_witness :
  exists st1 st2 : @engine DownDfs.policy unit,
    pool_ st1 !! 2%nat = None /\ is_Some (pool_ st2 !! 2%nat)
    /\ pool_ st1 !! 0%nat = Some {| id := 0; g := 0; f := 0; parent := None;
                                    expanded := true; search_id := 1 |}
    /\ pool_ st2 !! 0%nat = Some {| id := 0; g := 0; f := 0; parent := None;
                                    expanded := true; search_id := 1 |}
    /\ 0%nat ∉ open_ st2.
Proof.
  destruct chain_two_turns
    as (st0 & st1 & st2 & i & gx & gy & Hprep & Hturn & Hnext & H0 & Hnew & _ & H2).
  exists st1, st2. split; [exact Hnew|]. split; [rewrite H2; eauto|].
  split; [exact H0|].
  apply (closed_nodes_final (EP := down_dfs_expansion_policy TwoNodes.no_filter)
           TwoNodes.zero_heuristic None TwoNodes.on_relax TwoNodes.on_norelax
           Chain.engine st0 st1 st2 (TwoNodes.query 0 2) i gx gy 0 _ Hprep).
  - eapply reach_turn; [apply reach_start|exact Hturn].
  - eapply reach_turn; [apply reach_start|exact Hnext].
  - exact H0.
  - reflexivity.
Defined.



(** The two-node graph.  The search from node 0 to node 1 returns node 1,
    the minimum of the frontier it stops at, and [get_path] a path that is
    not empty.  Under an expansion cutoff of 0 the same search returns the
    null node: it stops with node 0 on the frontier, which is not the
    target, at the test of the expansion count; [get_path] returns the
    empty path.  The search from node 1 to node 0 returns the null node
    too, with the frontier empty. *)
Lemma returned_value_tells_found_only_witness :
  (exists st',
     TwoNodes.search 5 TwoNodes.engine (TwoNodes.query 0 1) = Done (Some 1%nat, st')
     /\ peek (pool_ st') (open_ st') = Some 1%nat
     /\ forall path st'',
          TwoNodes.get_path 5 TwoNodes.engine (TwoNodes.query 0 1) = Done (path, st'') ->
          path <> [])
  /\ (exists st',
        TwoNodes.search 5 (set_max_expansions_cutoff TwoNodes.engine 0) (TwoNodes.query 0 1)
          = Done (None, st')
        /\ (exists top, peek (pool_ st') (open_ st') = Some top /\ top <> 1%nat
                        /\ exp_cutoff_ st' <= nodes_expanded_ st')
        /\ forall path st'',
             TwoNodes.get_path 5 (set_max_expansions_cutoff TwoNodes.engine 0)
               (TwoNodes.query 0 1) = Done (path, st'') ->
             path = [])
  /\ exists st',
       TwoNodes.search 5 TwoNodes.engine (TwoNodes.query 1 0) = Done (None, st')
       /\ open_ st' = [].
Proof.
  split; [|split].
  - destruct (TwoNodes.search 5 TwoNodes.engine (TwoNodes.query 0 1))
      as [[r st']| |] eqn:Hrun; try (vm_compute in Hrun; discriminate).
    assert (r = Some 1%nat) as -> by (vm_compute in Hrun; congruence).
    exists st'. split; [reflexivity|].
    destruct (returned_value_tells_found_only
                (EP := down_dfs_expansion_policy TwoNodes.no_filter)
                TwoNodes.zero_heuristic None TwoNodes.on_relax TwoNodes.on_norelax
                5 TwoNodes.engine st' (TwoNodes.query 0 1) (Some 1%nat) Hrun)
      as [[[_ Hv]|(st0 & i & gx & gy & _ & _ & Hpeek & _)] Hpath]; [discriminate|].
    split; [exact Hpeek|].
    intros path st'' Hp Hnil. apply (Hpath path st'' Hp) in Hnil. discriminate.
  - destruct (TwoNodes.search 5 (set_max_expansions_cutoff TwoNodes.engine 0)
                (TwoNodes.query 0 1))
      as [[r st']| |] eqn:Hrun; try (vm_compute in Hrun; discriminate).
    assert (r = None) as -> by (vm_compute in Hrun; congruence).
    exists st'. split; [reflexivity|].
    destruct (returned_value_tells_found_only
                (EP := down_dfs_expansion_policy TwoNodes.no_filter)
                TwoNodes.zero_heuristic None TwoNodes.on_relax TwoNodes.on_norelax
                5 (set_max_expansions_cutoff TwoNodes.engine 0) st'
                (TwoNodes.query 0 1) None Hrun)
      as [[[Hinf _]|(st0 & i & gx & gy & Hprep & _ & Hstop)] Hpath];
      [discriminate|].
    split; [|intros path st'' Hp; apply (Hpath path st'' Hp); reflexivity].
    vm_compute in Hprep. injection Hprep as <- <- <- <-.
    vm_compute in Hrun. injection Hrun as <-.
    destruct Hstop as [Hempty|(top & Hpeek & Hne & [Hcost|Hexp])].
    + discriminate.
    + vm_compute in Hpeek. injection Hpeek as <-. vm_compute in Hcost. discriminate.
    + exists top. split; [exact Hpeek|]. split; [|exact Hexp].
      intros ->. apply Hne. reflexivity.
  - destruct (TwoNodes.search 5 TwoNodes.engine (TwoNodes.query 1 0))
      as [[r st']| |] eqn:Hrun; try (vm_compute in Hrun; discriminate).
    assert (r = None) as -> by (vm_compute in Hrun; congruence).
    exists st'. split; [reflexivity|].
    destruct (returned_value_tells_found_only
                (EP := down_dfs_expansion_policy TwoNodes.no_filter)
                TwoNodes.zero_heuristic None TwoNodes.on_relax TwoNodes.on_norelax
                5 TwoNodes.engine st' (TwoNodes.query 1 0) None Hrun)
      as [[[Hinf _]|(st0 & i & gx & gy & Hprep & _ & Hstop)] _];
      [discriminate|].
    destruct Hstop as [Hempty|(top & Hpeek & _)]; [exact Hempty|].
    vm_compute in Hrun. injection Hrun as <-. vm_compute in Hpeek. discriminate.
Defined.

Lemma cutoffs_bound_effort_witness :
  exists st1 : @engine DownDfs.policy unit,
    nodes_expanded_ st1 = 1 /\ 0 <= nodes_expanded_ st1 <= exp_cutoff_ TwoNodes.engine.
Proof.
  destruct two_nodes_first_turn
    as (st0 & st1 & i & gx & gy & Hprep & Hturn & _ & Hn & _).
  exists st1. split; [exact Hn|].
  apply (cutoffs_bound_effort (EP := down_dfs_expansion_policy TwoNodes.no_filter)
           TwoNodes.zero_heuristic None TwoNodes.on_relax TwoNodes.on_norelax
           TwoNodes.engine st0 st1 (TwoNodes.query 0 1) i gx gy).
  - simpl. unfold INF. lia.
  - exact Hprep.
  - eapply reach_turn; [apply reach_start|exact Hturn].
Defined.

Lemma parent_links_are_policy_edges_witness :
  exists (st1 : @engine DownDfs.policy unit) np nbs w,
    pool_ st1 !! 0%nat = Some np
    /\ ep_expand (ExpansionPolicy := down_dfs_expansion_policy TwoNodes.no_filter)
         (expander_ st1) np = Done nbs
    /\ (1%nat, w) ∈ nbs /\ 0 = g np + w.
Proof.
  destruct two_nodes_first_turn
    as (st0 & st1 & i & gx & gy & Hprep & Hturn & _ & _ & _ & H1).
  destruct (parent_links_are_policy_edges
              (EP := down_dfs_expansion_policy TwoNodes.no_filter)
              TwoNodes.zero_heuristic None TwoNodes.on_relax TwoNodes.on_norelax
              TwoNodes.engine st0 st1 (TwoNodes.query 0 1) i gx gy Hprep) as [Hl _].
  - eapply reach_turn; [apply reach_start|exact Hturn].
  - destruct (Hl 1%nat _ 0%nat H1 eq_refl) as (np & nbs & w & Hnp & _ & Hx & Hin & Hg).
    exists st1, np, nbs, w. auto.
Defined.

Lemma get_path_returns_when_search_does_witness :
  exists path st',
    TwoNodes.get_path 5 TwoNodes.engine (TwoNodes.query 0 1) = Done (path, st').
Proof.
  destruct (TwoNodes.search 5 TwoNodes.engine (TwoNodes.query 0 1))
    as [[r st']| |] eqn:Hrun; try (vm_compute in Hrun; discriminate).
  destruct (get_path_returns_when_search_does
              (EP := down_dfs_expansion_policy TwoNodes.no_filter)
              TwoNodes.zero_heuristic None TwoNodes.on_relax TwoNodes.on_norelax
              5 TwoNodes.engine st' (TwoNodes.query 0 1) r Hrun) as [path Hpath].
  exists path, st'. exact Hpath.
Defined.

Lemma get_path_runs_start_to_target_witness :
  exists path st',
    TwoNodes.get_path 5 TwoNodes.engine (TwoNodes.query 0 1) = Done (path, st')
    /\ path = [0%nat; 1%nat] /\ linked (pool_ st') path.
Proof.
  destruct (TwoNodes.get_path 5 TwoNodes.engine (TwoNodes.query 0 1))
    as [[path st']| |] eqn:Hrun; try (vm_compute in Hrun; discriminate).
  assert (path = [0%nat; 1%nat]) as Hp by (vm_compute in Hrun; congruence).
  exists path, st'. split; [reflexivity|]. split; [exact Hp|].
  destruct (get_path_runs_start_to_target
              (EP := down_dfs_expansion_policy TwoNodes.no_filter)
              TwoNodes.zero_heuristic None TwoNodes.on_relax TwoNodes.on_norelax
              5 TwoNodes.engine st' (TwoNodes.query 0 1) path Hrun)
    as (_ & _ & _ & _ & _ & _ & _ & _ & _ & _ & Hlinked).
  - rewrite Hp. discriminate.
  - exact Hlinked.
Defined.

(** The chain from node 0 to node 2: the length is 5, the cost of the
    two edges of the path. *)
Lemma get_length_is_cost_of_path_witness :
  exists st', Chain.get_length 5 Chain.engine (TwoNodes.query 0 2) = Done (5, st')
              /\ steps (EP := down_dfs_expansion_policy TwoNodes.no_filter)
                       (expander_ st') (pool_ st') [0%nat; 1%nat; 2%nat] 5.
Proof.
  destruct (Chain.get_length 5 Chain.engine (TwoNodes.query 0 2))
    as [[len st']| |] eqn:Hrun; try (vm_compute in Hrun; discriminate).
  assert (len = 5) as -> by (vm_compute in Hrun; congruence).
  exists st'. split; [reflexivity|].
  destruct (get_length_is_cost_of_path
              (EP := down_dfs_expansion_policy TwoNodes.no_filter)
              TwoNodes.zero_heuristic None TwoNodes.on_relax TwoNodes.on_norelax
              5 Chain.engine st' (TwoNodes.query 0 2) 5 Hrun)
    as (path & Hpath & _ & Hsteps).
  assert (path = [0%nat; 1%nat; 2%nat]) as ->.
  { vm_compute in Hrun. injection Hrun as <-. vm_compute in Hpath. congruence. }
  apply Hsteps. discriminate.
Defined.

End EngineFacts.

(** ** More on the rank-biased policy and its first-move sets *)

Module PolicyFacts.
Import Graph DownDfs.

Section Expand.

Variable filter : policy -> nat -> nat -> bool.

Lemma down_loop_sublist (p : policy) (current_id : nat) (es : list edge) (k : nat) :
  down_loop filter p current_id k es `sublist_of` (neighbour <$> es).
Proof.
  revert k. induction es as [|e es IH]; intros k; simpl; [constructor|].
  destruct (filter p current_id k).
  - apply sublist_cons, IH.
  - apply sublist_skip, IH.
Qed.

(** X8.  Whatever the direction and the label filter, the neighbours an
    expansion yields are outgoing edges of the expanded node, in their
    stored order and with their stored weights: pruning removes edges and
    never invents or reorders one. *)
Theorem expand_never_invents (p : policy) (current : search_node)
    (nbs : list (nat * Z))
    (Hrun : expand filter p current = Done nbs) :
  exists n, nodes (g_ p) !! id current = Some n
            /\ nbs `sublist_of` (neighbour <$> outgoing n)
            /\ (length nbs <= out_degree n)%nat.
Proof.
  unfold expand in Hrun. unbind. unfold get_node in *. accesses.
  match goal with E : nodes _ !! _ = Some ?n |- _ =>
    assert (nbs `sublist_of` (neighbour <$> outgoing n)) as Hsub; [|exists n] end.
  - destruct a.
    + accesses. subst. rewrite ExpandFacts.up_loop_all. reflexivity.
    + unbind. destruct (decide (_ <= _)%nat); [|discriminate]. accesses. subst.
      etransitivity; [apply down_loop_sublist|].
      match goal with |- context [drop ?h ?l] =>
        rewrite <- (take_drop h l) at 2; rewrite fmap_app end.
      apply sublist_inserts_l. reflexivity.
  - split; [assumption|]. split; [exact Hsub|].
    apply sublist_length in Hsub. rewrite length_fmap in Hsub. exact Hsub.
Qed.

End Expand.

(** Node 1 of the witness graph of the expansion theorem, reached from its
    higher-ranked parent, while the filter rejects down-edge 0. *)
Lemma expand_never_invents_witness :
  let e t w := {| node_id_ := t; wt_ := w |} in
  let g0 := {| nodes := [ {| outgoing := [] |};
                          {| outgoing := [e 2%nat 7; e 0%nat 3; e 3%nat 4] |};
                          {| outgoing := [e 1%nat 7] |};
                          {| outgoing := [] |} ];
               to_graph_id := fun z => z; get_xy := fun z => (z, z) |} in
  let p := {| g_ := g0; rank_ := [0; 1; 2; 0]; down_heads_ := [0; 1; 0; 0]%nat;
              node_labels_ := [0; 1; 2; 3]; s_label := 2; t_label := 3 |} in
  let flt (_ : policy) (_ : nat) (idx : nat) := (idx =? 0)%nat in
  let down := {| id := 1; g := 7; f := 7; parent := Some 2%nat;
                 expanded := true; search_id := 1 |} in
  [(3%nat, 4)] `sublist_of` [(2%nat, 7); (0%nat, 3); (3%nat, 4)].
Proof.
  intros e g0 p flt down.
  destruct (expand_never_invents flt p down [(3%nat, 4)] eq_refl) as (n & Hn & Hsub & _).
  vm_compute in Hn. injection Hn as <-. exact Hsub.
Defined.

Import FirstMove FirstMoveFacts Claims.

Lemma bit_high (l : fm_label) (j : nat) :
  length l = FM_BYTES -> (256 <= j)%nat -> bit l j = false.
Proof.
  intros Hl Hj. unfold bit, byte_at. rewrite nth_overflow; [apply Z.bits_0|].
  rewrite Hl. destruct (add_Fault l j Hj) as [Hb _]. exact Hb.
Qed.

Lemma cup_length (l other : fm_label) : length (cup l other) = FM_BYTES.
Proof. unfold cup. rewrite length_fmap, length_seq. reflexivity. Qed.

(** The bits of the first-move sets after some calls of the hook: those
    there before, and the edge ids of calls whose predecessor is the apex. *)
Lemma stage_b_bits (apex : nat) (calls : list generate_call) :
  forall (Q : nat -> Prop) fm fm',
    stage_b apex fm calls = Done fm' ->
    (forall v l, fm !! v = Some l ->
       length l = FM_BYTES /\ forall j, bit l j = true -> Q j) ->
    forall v l, fm' !! v = Some l ->
      length l = FM_BYTES /\
      forall j, bit l j = true ->
        Q j \/ exists c from, c ∈ calls /\ gc_from c = Some from /\ id from = apex
                              /\ gc_edge_id c = j /\ (j < 256)%nat.
Proof.
  induction calls as [|c calls IH]; intros Q fm fm' H Hfm; simpl in H.
  - accesses. subst. intros v l Hv. destruct (Hfm v l Hv) as [Hl Hb]. auto.
  - unbind.
    match goal with E : on_generate_fn _ _ _ _ _ _ = Done ?a |- _ =>
      pose proof (StageBFacts.on_generate_fn_cases _ _ _ _ E) as Hmut;
      assert (forall v l, a !! v = Some l ->
                length l = FM_BYTES /\
                forall j, bit l j = true ->
                  (Q j \/ exists from, gc_from c = Some from /\ id from = apex
                                      /\ gc_edge_id c = j /\ (j < 256)%nat)) as Hmid
    end.
    { clear IH H. intros v l Hv.
      destruct Hmut as [(from & l0 & l' & Hfrom & Hap & Hl0 & Hadd & ->)
                       |[(from & src & Hfrom & Hnap & Hsrc & ->)
                        |[(from & dst & src & Hfrom & Hnap & Hdst & Hsrc & ->)
                         | ->]]].
      - destruct (decide (id (gc_succ c) = v)) as [<-|Hne].
        + apply list_lookup_insert_Some in Hv as [(_ & <- & _)|[Hc _]];
            [|contradiction].
          destruct (Hfm _ _ Hl0) as [Hlen Hbits].
          assert (gc_edge_id c < 256)%nat as Hid.
          { unfold add in Hadd. destruct (decide (gc_edge_id c / 8 < FM_BYTES)%nat) as [Hb|];
              [|discriminate].
            unfold FM_BYTES in Hb. pose proof (split_index (gc_edge_id c)). lia. }
          destruct (add_Done l0 _ Hlen Hid) as (l2 & Hadd2 & Hlen2 & Hbits2).
          assert (l2 = l') by congruence. subst l2.
          split; [exact Hlen2|]. intros j Hj. rewrite Hbits2 in Hj.
          destruct (decide (j = gc_edge_id c)) as [->|_]; [right; eauto 10|auto].
        + rewrite list_lookup_insert_ne in Hv by exact Hne.
          destruct (Hfm _ _ Hv) as [Hlen Hbits]. auto.
      - destruct (decide (id (gc_succ c) = v)) as [<-|Hne].
        + apply list_lookup_insert_Some in Hv as [(_ & <- & _)|[Hc _]];
            [|contradiction].
          destruct (Hfm _ _ Hsrc) as [Hlen Hbits]. auto.
        + rewrite list_lookup_insert_ne in Hv by exact Hne.
          destruct (Hfm _ _ Hv) as [Hlen Hbits]. auto.
      - destruct (decide (id (gc_succ c) = v)) as [<-|Hne].
        + apply list_lookup_insert_Some in Hv as [(_ & <- & _)|[Hc _]];
            [|contradiction].
          destruct (Hfm _ _ Hsrc) as [Hlen1 Hbits1].
          destruct (Hfm _ _ Hdst) as [Hlen2 Hbits2].
          split; [apply cup_length|]. intros j Hj.
          destruct (le_lt_dec 256 j) as [Hhigh|Hlow].
          * rewrite bit_high in Hj by (auto using cup_length). discriminate.
          * rewrite bit_cup in Hj by exact Hlow.
            apply orb_true_iff in Hj as [Hj|Hj]; auto.
        + rewrite list_lookup_insert_ne in Hv by exact Hne.
          destruct (Hfm _ _ Hv) as [Hlen Hbits]. auto.
      - destruct (Hfm _ _ Hv) as [Hlen Hbits]. auto. }
    intros v l Hv.
    destruct (IH _ _ _ H Hmid v l Hv) as [Hlen Hbits]. split; [exact Hlen|].
    intros j Hj. destruct (Hbits j Hj) as [[HQ|(from & Hf & Ha' & He & Hlt)]
                                          |(c' & from & Hin & Hrest)].
    + auto.
    + right. exists c, from. split; [left|auto].
    + right. exists c', from. split; [right; exact Hin|exact Hrest].
Qed.

(** X9.  Starting from zeroed labels, the search from the apex puts into a
    first-move set only indices below 256 of apex edges it generated: each
    bit of each set is the edge id of some hook call whose predecessor is
    the apex; and every label keeps its 32 bytes. *)
Theorem first_move_bits_are_apex_edges (apex n : nat) (calls : list generate_call)
    (fm' : list fm_label)
    (Hrun : stage_b apex (replicate n fm_zero) calls = Done fm') :
  forall v l, fm' !! v = Some l ->
    length l = FM_BYTES /\
    forall j, bit l j = true ->
      (j < 256)%nat /\
      exists c from, c ∈ calls /\ gc_from c = Some from /\ id from = apex
                     /\ gc_edge_id c = j.
Proof.
  intros v l Hv.
  destruct (stage_b_bits apex calls (fun _ => False) _ _ Hrun) with (v := v) (l := l)
    as [Hlen Hbits]; [|exact Hv|].
  - intros v' l' Hv'. apply lookup_replicate in Hv' as [-> _].
    split; [reflexivity|]. intros j Hj. exfalso.
    unfold bit, byte_at, fm_zero in Hj. rewrite nth_lookup in Hj.
    destruct (replicate FM_BYTES 0 !! (j / 8)%nat) as [z|] eqn:Ez; simpl in Hj.
    + apply lookup_replicate in Ez as [-> _]. rewrite Z.bits_0 in Hj. discriminate.
    + rewrite Z.bits_0 in Hj. discriminate.
  - split; [exact Hlen|]. intros j Hj.
    destruct (Hbits j Hj) as [[]|(c & from & Hin & Hf & Ha & He & Hlt)].
    split; [exact Hlt|]. eauto 10.
Qed.

(** The three-node search of the Stage B witness: node 2 ends with bit 0
    only, the id of the apex edge that call 1 generated. *)
Lemma first_move_bits_are_apex_edges_witness :
  let sn i gv := {| id := i; g := gv; f := gv; parent := None;
                    expanded := false; search_id := 1 |} in
  let calls :=
    [ {| gc_succ := sn 1%nat 0; gc_from := Some (sn 0%nat 0);
         gc_edge_cost := 2; gc_edge_id := 0 |};
      {| gc_succ := sn 2%nat 0; gc_from := Some (sn 0%nat 0);
         gc_edge_cost := 5; gc_edge_id := 1 |};
      {| gc_succ := sn 2%nat 5; gc_from := Some (sn 1%nat 2);
         gc_edge_cost := 1; gc_edge_id := 0 |} ] in
  exists fm' l, stage_b 0 (replicate 3 fm_zero) calls = Done fm'
                /\ fm' !! 2%nat = Some l /\ length l = FM_BYTES /\ bit l 0 = true.
Proof.
  intros sn calls.
  destruct (stage_b 0 (replicate 3 fm_zero) calls) as [fm'| |] eqn:Hrun;
    try (vm_compute in Hrun; discriminate).
  destruct (fm' !! 2%nat) as [l|] eqn:Hl;
    [|vm_compute in Hrun; injection Hrun as <-; vm_compute in Hl; discriminate].
  destruct (first_move_bits_are_apex_edges 0 3 calls fm' Hrun 2%nat l Hl) as [Hlen _].
  exists fm', l. split; [reflexivity|]. split; [exact Hl|]. split; [exact Hlen|].
  vm_compute in Hrun. injection Hrun as <-. vm_compute in Hl. injection Hl as <-.
  reflexivity.
Defined.

End PolicyFacts.

(** ** More on the labelling: its set-up, Stage D and the refinement pass *)

Module LabellingFacts.
Import Graph Labelling LabelClaims RowClaims StageClaims LabelFacts.

(** The scan for the apex, from index [k] on, with the best index so far. *)
Lemma find_apex_scan (rank : list Z) (n : nat) :
  forall (k a : nat) (ra : Z),
    (k + n = length rank)%nat ->
    rank !! a = Some ra ->
    (forall i r, (i < k)%nat -> rank !! i = Some r -> r <= ra) ->
    (forall i r, (i < a)%nat -> rank !! i = Some r -> r < ra) ->
    (a < k \/ a = k)%nat ->
    exists a' ra',
      find_apex rank a (seq k n) = Done a' /\ rank !! a' = Some ra'
      /\ (forall i r, rank !! i = Some r -> r <= ra')
      /\ (forall i r, (i < a')%nat -> rank !! i = Some r -> r < ra').
Proof.
  induction n as [|n IH]; intros k a ra Hlen Ha Hmax Hfirst Hak; simpl.
  - exists a, ra. split; [reflexivity|]. split; [exact Ha|]. split; [|exact Hfirst].
    intros i r Hi. apply (Hmax i r); [|exact Hi].
    apply lookup_lt_Some in Hi. lia.
  - destruct (rank !! k) as [rk|] eqn:Hk;
      [|apply lookup_ge_None in Hk; lia].
    rewrite (proj2 (at_Done _ _ _) Hk), (proj2 (at_Done _ _ _) Ha). simpl.
    destruct (Z.ltb_spec ra rk) as [Hlt|Hge].
    + apply (IH (S k) k rk); [lia|exact Hk| | |lia].
      * intros i r Hi Hr. destruct (decide (i = k)) as [->|Hne].
        -- assert (r = rk) by congruence. lia.
        -- assert (r <= ra) by (apply (Hmax i r); [lia|exact Hr]). lia.
      * intros i r Hi Hr.
        assert (r <= ra) by (apply (Hmax i r); [lia|exact Hr]). lia.
    + apply (IH (S k) a ra); [lia|exact Ha| |exact Hfirst|lia].
      intros i r Hi Hr. destruct (decide (i = k)) as [->|Hne].
      * assert (r = rk) by congruence. lia.
      * apply (Hmax i r); [lia|exact Hr].
Qed.

(** X10.  On a rank vector that is not empty the scan for the apex returns,
    and what it returns is the first node of greatest rank: no node ranks
    above it and every node before it ranks strictly below. *)
Theorem apex_is_first_of_greatest_rank (rank : list Z) (Hne : rank <> []) :
  exists a ra,
    find_apex rank 0 (seq 0 (length rank)) = Done a /\ rank !! a = Some ra
    /\ (forall i r, rank !! i = Some r -> r <= ra)
    /\ (forall i r, (i < a)%nat -> rank !! i = Some r -> r < ra).
Proof.
  destruct rank as [|r0 rank']; [contradiction|].
  apply (find_apex_scan (r0 :: rank') (length (r0 :: rank')) 0 0 r0);
    [reflexivity|reflexivity| | |right; reflexivity]; intros i r Hi; lia.
Qed.

(** Ranks 1, 3, 3, 2: the apex is node 1, the first of the two of rank 3. *)
Lemma apex_is_first_of_greatest_rank_witness :
  find_apex [1; 3; 3; 2] 0 (seq 0 4) = Done 1%nat.
Proof.
  destruct (apex_is_first_of_greatest_rank [1; 3; 3; 2]) as (a & ra & Hrun & _);
    [discriminate|].
  vm_compute in Hrun. vm_compute. reflexivity.
Defined.

Lemma foldl_max_spec (ps : list nat) :
  forall p, (forall q, q ∈ p :: ps -> (q <= foldl Nat.max p ps)%nat)
            /\ foldl Nat.max p ps ∈ p :: ps.
Proof.
  induction ps as [|p' ps IH]; intros p; simpl.
  - split; [|left]. intros q Hq. apply list_elem_of_singleton in Hq. lia.
  - destruct (IH (Nat.max p p')) as [Hub Hin]. split.
    + intros q Hq. apply elem_of_cons in Hq as [->|Hq].
      * pose proof (Hub (Nat.max p p') ltac:(left)). lia.
      * apply elem_of_cons in Hq as [->|Hq].
        -- pose proof (Hub (Nat.max p p') ltac:(left)). lia.
        -- apply Hub. right. exact Hq.
    + apply elem_of_cons in Hin as [Hin|Hin].
      * rewrite Hin. destruct (Nat.max_spec p p') as [[_ ->]|[_ ->]];
          [right; left|left].
      * right. right. exact Hin.
Qed.

(** X11.  The byte count of the constructor is one short when the greatest
    partition id is a multiple of 8: growing a label of that many bytes by
    a node of partition [p] writes past its flags exactly when [p] is the
    greatest id and a multiple of 8, and stays inside them for every other
    id of the partitioning. *)
Theorem flag_bytes_miss_aligned_maximum (part : list nat) (b : nat)
    (Hb : bytes_per_af_label part = Done b) :
  forall p, p ∈ part ->
    forall (l : down_dfs_label) (r d x y : Z),
      length (flags_ l) = b ->
      (grow_by l r d x y p = Fault
       <-> (p mod 8 = 0)%nat /\ forall q, q ∈ part -> (q <= p)%nat).
Proof.
  intros p Hp l r d x y Hl. unfold bytes_per_af_label in Hb.
  destruct part as [|p0 ps]; [discriminate|].
  change (Done (foldl Nat.max p0 ps / 8
                + (if (foldl Nat.max p0 ps mod 8 =? 0)%nat then 0 else 1))%nat
          = Done b) in Hb.
  assert (b = (foldl Nat.max p0 ps / 8
               + (if (foldl Nat.max p0 ps mod 8 =? 0)%nat then 0 else 1))%nat)
    as Hb' by congruence.
  clear Hb.
  destruct (foldl_max_spec ps p0) as [Hub Hin].
  set (M := foldl Nat.max p0 ps) in *.
  pose proof (FirstMoveFacts.split_index M) as [EM HM].
  pose proof (FirstMoveFacts.split_index p) as [Ep Hpm].
  pose proof (Hub p Hp) as HpM.
  unfold grow_by.
  destruct (M mod 8 =? 0)%nat eqn:Emod; subst b.
  - apply Nat.eqb_eq in Emod.
    destruct (decide (p / 8 < length (flags_ l))%nat) as [Hlt|Hge]; cbv iota.
    + split; [discriminate|]. intros [Hp0 Hmax]. pose proof (Hmax M Hin). lia.
    + split; [|reflexivity]. intros _.
      assert (p = M) by lia. subst p. split; [exact Emod|exact Hub].
  - apply Nat.eqb_neq in Emod.
    destruct (decide (p / 8 < length (flags_ l))%nat) as [Hlt|Hge]; cbv iota; [|lia].
    split; [discriminate|]. intros [Hp0 Hmax]. pose proof (Hmax M Hin).
    assert (p = M) by lia. subst p. contradiction.
Qed.

(** Partition ids 3 and 8: one byte is counted, and the node of partition 8
    has no byte for its flag. *)
Lemma flag_bytes_miss_aligned_maximum_witness :
  bytes_per_af_label [3; 8]%nat = Done 1%nat
  /\ grow_by (label_new 1) 0 0 0 0 8 = Fault.
Proof.
  split; [reflexivity|].
  apply (flag_bytes_miss_aligned_maximum [3; 8]%nat 1 eq_refl 8%nat);
    [right; left|reflexivity|].
  split; [reflexivity|]. intros q Hq.
  apply elem_of_cons in Hq as [->|Hq]; [lia|].
  apply list_elem_of_singleton in Hq. lia.
Defined.

Lemma merge_le (a b : down_dfs_label) : label_le a (merge a b).
Proof.
  intros d r x y p. unfold contains. rewrite !andb_true_iff.
  intros [[[Hi Hr] Hb] Hf]. split; [split; [split|]|].
  - unfold interval_contains in *. cbn [merge ids_ interval_merge left right].
    apply andb_true_iff in Hi as [H1 H2]. apply andb_true_iff.
    rewrite Z.leb_le in *. lia.
  - unfold interval_contains in *. cbn [merge rank_ interval_merge left right].
    apply andb_true_iff in Hr as [H1 H2]. apply andb_true_iff.
    rewrite Z.leb_le in *. lia.
  - unfold rect_contains in *. cbn [merge bbox_ rect_merge x1 x2 y1 y2].
    rewrite !andb_true_iff in *. rewrite !Z.leb_le in *. lia.
  - unfold flag in *. cbn [merge flags_]. unfold flags_merge.
    pose proof (FirstMoveFacts.split_index p) as [_ Hbit].
    destruct (decide (p / 8 < length (flags_ a))%nat) as [Hlt|Hge].
    + rewrite (nth_lookup _ (p / 8)), list_lookup_fmap, lookup_seq_lt by exact Hlt.
      cbn [fmap option_fmap option_map from_option Datatypes.id Nat.add].
      rewrite u8_testbit by lia. rewrite Z.lor_spec, Hf. reflexivity.
    + rewrite nth_overflow in Hf by lia. rewrite Z.bits_0 in Hf. discriminate.
Qed.

Section StageD.

Variable g_ : planar_graph.
Variable rank : list Z.

Lemma keeps_refl (st : store) : keeps_down_labels g_ rank st st.
Proof. split; try reflexivity. intros s. apply row_le_refl. Qed.

Lemma keeps_trans (st1 st2 st3 : store) :
  keeps_down_labels g_ rank st1 st2 -> keeps_down_labels g_ rank st2 st3 ->
  keeps_down_labels g_ rank st1 st3.
Proof.
  intros [N1 O1 I1 R1 D1] [N2 O2 I2 R2 D2]. split; try congruence.
  - intros s. eapply row_le_trans; [apply R1|apply R2].
  - intros s idx Hd. rewrite D2 by exact Hd. apply D1. exact Hd.
Qed.

(** One turn of the second loop: an edge that does not go down has the
    label of the apex merged into its own; nothing else changes. *)
Lemma merge_edge_keeps (source_id apex_id : nat) (source : node)
    (st st' : store) (k : nat) (e : edge) :
  nodes g_ !! source_id = Some source -> outgoing source !! k = Some e ->
  merge_edge rank source_id apex_id st k e = Done st' ->
  keeps_down_labels g_ rank st st'.
Proof.
  intros Hs He H. unfold merge_edge in H. unbind. accesses.
  match goal with
    E1 : rank !! node_id_ e = Some ?rt, E2 : rank !! source_id = Some ?rs |- _ =>
      rename E1 into Hrt0; rename E2 into Hrs0;
      destruct (Z.ltb_spec rt rs) as [Hlt'|Hge]
  end.
  - accesses. subst. apply keeps_refl.
  - unbind. accesses. subst.
    match goal with E : lab_set _ _ _ _ = Done _ |- _ =>
      destruct (lab_set_at _ _ _ _ _ E) as (Hi & Hj & Ho) end.
    split; cbn [node_labels dfs_order_ dfs_id lab_]; try reflexivity.
    + intros s idx l Hl. destruct (decide (s = source_id)) as [->|Hs'].
      * destruct (decide (idx = k)) as [->|Hk].
        -- eexists. split; [exact Hi|].
           match goal with E : lab_at (lab_ st) source_id k = Done ?l0 |- _ =>
             assert (l = l0) as -> by congruence end.
           apply merge_le.
        -- exists l. split; [rewrite Hj by exact Hk; exact Hl|apply label_le_refl].
      * exists l. split; [rewrite Ho by exact Hs'; exact Hl|apply label_le_refl].
    + intros s idx (n & e' & rt' & rs' & Hn & He' & Hrt & Hrs & Hlt).
      destruct (decide (s = source_id)) as [->|Hs']; [|apply Ho; exact Hs'].
      destruct (decide (idx = k)) as [->|Hk]; [|apply Hj; exact Hk].
      exfalso. rewrite Hs in Hn. injection Hn as <-.
      rewrite He in He'. injection He' as <-.
      rewrite Hrt0 in Hrt. rewrite Hrs0 in Hrs.
      injection Hrt as <-. injection Hrs as <-. lia.
Qed.

Lemma merge_loop_keeps (source_id apex_id : nat) (source : node) :
  nodes g_ !! source_id = Some source ->
  forall (es : list edge) (k : nat) (st st' : store),
    (forall i e, es !! i = Some e -> outgoing source !! (k + i)%nat = Some e) ->
    edge_loop (merge_edge rank source_id apex_id) st k es = Done st' ->
    keeps_down_labels g_ rank st st'.
Proof.
  intros Hs. induction es as [|e es IH]; intros k st st' Hes H.
  - simpl in H. accesses. subst. apply keeps_refl.
  - apply edge_loop_cons in H as (st1 & Hbody & Hrest).
    eapply keeps_trans.
    + eapply merge_edge_keeps; [exact Hs| |exact Hbody].
      specialize (Hes 0%nat e eq_refl). rewrite Nat.add_0_r in Hes. exact Hes.
    + apply (IH (S k)); [|exact Hrest].
      intros i e' Hi. replace (S k + i)%nat with (k + S i)%nat by lia.
      apply Hes. exact Hi.
Qed.

(** The first loop changes the labels only through the calls it makes. *)
Lemma apex_loop_keeps (rec : nat -> store -> outcome store) (source_id : nat) :
  (forall s st st', rec s st = Done st' -> keeps_down_labels g_ rank st st') ->
  forall (es : list edge) (k : nat) (acc r : store * nat),
    edge_loop (apex_edge rank rec source_id) acc k es = Done r ->
    keeps_down_labels g_ rank acc.1 r.1.
Proof.
  intros Hrec. induction es as [|e es IH]; intros k acc r H.
  - simpl in H. accesses. subst. apply keeps_refl.
  - apply edge_loop_cons in H as (acc1 & Hbody & Hrest).
    eapply keeps_trans; [|eapply IH; exact Hrest].
    unfold apex_edge in Hbody. unbind. accesses.
    match goal with
      E1 : rank !! node_id_ e = Some ?rt, E2 : rank !! source_id = Some ?rs |- _ =>
        destruct (Z.ltb_spec rt rs) as [Hlt'|Hge]
    end.
    + accesses. subst. apply keeps_refl.
    + unbind. accesses. subst. cbn [fst].
      match goal with E : (if ?c then _ else _) = Done _ |- _ => destruct c end.
      * eapply Hrec. eassumption.
      * accesses. subst. apply keeps_refl.
Qed.

Lemma up_label_fn_keeps (fuel : nat) :
  forall (s : nat) (st st' : store),
    up_label_fn g_ rank fuel s st = Done st' -> keeps_down_labels g_ rank st st'.
Proof.
  induction fuel as [|fuel IH]; intros s st st' H; simpl in H; [discriminate|].
  unbind. unfold get_node in *. accesses.
  match goal with E : edge_loop (apex_edge _ _ _) _ _ _ = Done _ |- _ =>
    pose proof (apex_loop_keeps _ _ IH _ _ _ _ E) as K1; cbn [fst] in K1 end.
  eapply keeps_trans; [exact K1|].
  eapply keeps_trans; [|eapply merge_loop_keeps; [eassumption| |exact H]].
  - split; cbn [node_labels dfs_order_ dfs_id lab_]; try reflexivity.
    intros s0. apply row_le_refl.
  - intros i e Hi. exact Hi.
Qed.

Lemma up_label_all_keeps (fuel : nat) (n_ids : list nat) :
  forall st st' : store,
    up_label_all g_ rank fuel n_ids st = Done st' -> keeps_down_labels g_ rank st st'.
Proof.
  induction n_ids as [|n_id n_ids IH]; intros st st' Hrun; simpl in Hrun.
  - accesses. subst. apply keeps_refl.
  - unbind. eapply keeps_trans; [eapply up_label_fn_keeps; eassumption|].
    apply IH. exact Hrun.
Qed.

(** X12.  The up pass (Stage D) leaves the work of the down pass in place:
    whatever nodes it is run for, the node labels, the postorder numbering
    and its counter are unchanged, every edge label still holds whatever it
    held before, and the label of every edge that goes strictly down is
    exactly what Stage C made it. *)
Theorem up_pass_keeps_down_labels (fuel : nat) (n_ids : list nat) (st st' : store)
    (Hrun : up_label_all g_ rank fuel n_ids st = Done st') :
  node_labels st' = node_labels st
  /\ dfs_order_ st' = dfs_order_ st
  /\ dfs_id st' = dfs_id st
  /\ (forall s, row_le s (lab_ st) (lab_ st'))
  /\ (forall s idx, down_edge g_ rank s idx ->
        lab_at (lab_ st') s idx = lab_at (lab_ st) s idx).
Proof.
  destruct (up_label_all_keeps fuel n_ids st st' Hrun) as [N O I R D]. auto.
Qed.

End StageD.

(** The four-node graph after Stage C: the up pass over all four nodes
    keeps the node labels, and the label of the down edge from node 1 to
    node 0. *)
Lemma up_pass_keeps_down_labels_witness :
  exists st st',
    label_fn FourNodes.graph FourNodes.part FourNodes.rank 10 3
      {| dfs_order_ := replicate 4 INT32_MAX;
         lab_ := [replicate 2 (label_new 1); [label_new 1]; []; replicate 2 (label_new 1)];
         node_labels := replicate 4 (label_new 1);
         dfs_id := 0; up_apex := replicate 4 INT32_MAX |} = Done st
    /\ up_label_all FourNodes.graph FourNodes.rank 10 (seq 0 4) st = Done st'
    /\ node_labels st' = node_labels st
    /\ lab_at (lab_ st') 1 0 = lab_at (lab_ st) 1 0.
Proof.
  match goal with |- exists st st', ?run = Done st /\ _ =>
    destruct run as [st| |] eqn:Hst; try (vm_compute in Hst; discriminate) end.
  destruct (up_label_all FourNodes.graph FourNodes.rank 10 (seq 0 4) st) as [st'| |] eqn:Hup;
    try (vm_compute in Hst; injection Hst as <-; vm_compute in Hup; discriminate).
  destruct (up_pass_keeps_down_labels FourNodes.graph FourNodes.rank 10 (seq 0 4) st st' Hup)
    as (HN & _ & _ & _ & HD).
  exists st, st'. split; [reflexivity|]. split; [exact Hup|]. split; [exact HN|].
  apply HD. exists (FourNodes.node_of [(0%nat, 1)]), {| node_id_ := 0; wt_ := 1 |}, 0, 1.
  repeat split; lia.
Defined.

Section Refinement.

Variable g_ : planar_graph.
Variable part_ : list nat.
Variable bytes_per_af_label_ : nat.
Variable rank : list Z.

(** A search from one source writes to the labels of that source only. *)
Lemma dijkstra_from_rows (source_id : nat) (dfs_order : list Z) (calls : list hook_call) :
  forall st st',
    dijkstra_from g_ part_ rank source_id dfs_order calls st = Done st' ->
    forall s j, s <> source_id -> lab_at st'.2 s j = lab_at st.2 s j.
Proof.
  induction calls as [|c calls IH]; intros st st' H s j Hs; simpl in H.
  - accesses. subst. reflexivity.
  - unbind. rewrite (IH _ _ H s j Hs).
    destruct c as [succ from edge_cost edge_id|current]; simpl in *; unbind; accesses; subst;
      cbn [snd]; [reflexivity|].
    match goal with E : on_expand_fn _ _ _ _ _ _ _ _ = Done _ |- _ =>
      unfold on_expand_fn in E;
      destruct (decide (id current = source_id)); [accesses; subst; reflexivity|];
      unbind end.
    match goal with E : lab_set _ _ _ _ = Done _ |- _ =>
      destruct (lab_set_at _ _ _ _ _ E) as (_ & _ & Ho) end.
    apply Ho. exact Hs.
Qed.

Lemma refine_rows (dijk : nat -> list hook_call) (dfs_order : list Z) (sources : list nat) :
  forall st st',
    refine g_ part_ rank dijk dfs_order sources st = Done st' ->
    forall s j, s ∉ sources -> lab_at st'.2 s j = lab_at st.2 s j.
Proof.
  induction sources as [|i sources IH]; intros st st' H s j Hs; simpl in H.
  - accesses. subst. reflexivity.
  - unbind. rewrite (IH _ _ H s j) by (intros Hc; apply Hs; right; exact Hc).
    eapply dijkstra_from_rows; [eassumption|]. intros ->. apply Hs. left.
Qed.

(** The selection resets, and lists as sources, nodes of out-degree 100 or
    more only. *)
Lemma select_sources_low (n_ids : list nat) :
  forall lab sources lab' sources',
    select_sources g_ bytes_per_af_label_ lab sources n_ids = Done (lab', sources') ->
    (forall s j, (forall n, nodes g_ !! s = Some n -> (out_degree n < THRESHOLD)%nat) ->
       lab_at lab' s j = lab_at lab s j)
    /\ forall i, i ∈ sources' ->
         i ∈ sources \/ exists n, nodes g_ !! i = Some n /\ (THRESHOLD <= out_degree n)%nat.
Proof.
  induction n_ids as [|i n_ids IH]; intros lab sources lab' sources' H; simpl in H.
  - accesses. subst. split; [reflexivity|]. intros i Hi. left. exact Hi.
  - unbind. unfold get_node in *. accesses.
    destruct (decide (THRESHOLD <= out_degree a)%nat) as [Hdeg|Hdeg].
    + unbind. destruct (IH _ _ _ _ H) as [Hrows Hsrc].
      match goal with E : reset_row _ _ _ _ = Done _ |- _ =>
        destruct (reset_row_spec _ _ _ _ _ E) as [_ Hother] end.
      split.
      * intros s j Hlow. rewrite Hrows by exact Hlow. apply Hother.
        intros ->. match goal with E : nodes g_ !! i = Some _ |- _ =>
          pose proof (Hlow _ E) end. lia.
      * intros k Hk. destruct (Hsrc k Hk) as [Hin|Hhigh]; [|right; exact Hhigh].
        apply elem_of_app in Hin as [Hin|Hin]; [left; exact Hin|].
        apply list_elem_of_singleton in Hin as ->. right. eauto.
    + apply IH. exact H.
Qed.

(** X13.  The refinement pass touches high-degree nodes only: whatever the
    searches do, the label of every edge of a node whose out-degree is
    below 100 (and every row beyond the graph) is after the pass what it
    was before. *)
Theorem refinement_spares_low_degree (dijk : nat -> list hook_call) (dfs_order : list Z)
    (lab : list (list down_dfs_label)) (r : list nat * list (list down_dfs_label))
    (Hrun : improve_labels g_ part_ bytes_per_af_label_ rank dijk dfs_order lab = Done r) :
  forall s, (forall n, nodes g_ !! s = Some n -> (out_degree n < THRESHOLD)%nat) ->
    forall j, lab_at r.2 s j = lab_at lab s j.
Proof.
  intros s Hlow j. unfold improve_labels in Hrun. unbind.
  match goal with E : select_sources _ _ _ _ _ = Done ?p |- _ =>
    destruct p as [lab1 sources];
    destruct (select_sources_low _ _ _ _ _ E) as [Hrows Hsrc] end.
  cbn [fst snd] in Hrun.
  rewrite (refine_rows _ _ _ _ _ Hrun s j).
  - cbn [snd]. apply Hrows. exact Hlow.
  - intros Hin. destruct (Hsrc s Hin) as [Hnil|(n & Hn & Hhigh)].
    + inversion Hnil.
    + pose proof (Hlow n Hn). lia.
Qed.

End Refinement.

(** The hub: node 1 has one edge, and the refinement leaves its label as
    the structural pass made it. *)
Lemma refinement_spares_low_degree_witness :
  exists st r, Hub.labels = Done st /\ Hub.refined st = Done r
               /\ lab_at r.2 1 0 = lab_at (lab_ st) 1 0.
Proof.
  destruct Hub.labels as [st| |] eqn:Hst; try (vm_compute in Hst; discriminate).
  destruct (Hub.refined st) as [r| |] eqn:Hr;
    try (vm_compute in Hst; injection Hst as <-; vm_compute in Hr; discriminate).
  exists st, r. split; [reflexivity|]. split; [exact Hr|].
  apply (refinement_spares_low_degree Hub.graph Hub.part 1 Hub.rank Hub.dijkstra
           (dfs_order_ st) (lab_ st) r Hr 1%nat).
  intros n [= <-]. vm_compute. lia.
Defined.

End LabellingFacts.

(** ** The down pass: what the labels hold when it returns *)

Module ClosureFacts.
Import Graph Labelling LabelClaims ClosureClaims LabelFacts.

Lemma merge_le_r (a b : down_dfs_label) :
  length (flags_ b) = length (flags_ a) -> label_le b (merge a b).
Proof.
  intros Hlen d r x y p. unfold contains. rewrite !andb_true_iff.
  intros [[[Hi Hr] Hb] Hf]. split; [split; [split|]|].
  - unfold interval_contains in *. cbn [merge ids_ interval_merge left right].
    apply andb_true_iff in Hi as [H1 H2]. apply andb_true_iff.
    rewrite Z.leb_le in *. lia.
  - unfold interval_contains in *. cbn [merge rank_ interval_merge left right].
    apply andb_true_iff in Hr as [H1 H2]. apply andb_true_iff.
    rewrite Z.leb_le in *. lia.
  - unfold rect_contains in *. cbn [merge bbox_ rect_merge x1 x2 y1 y2].
    rewrite !andb_true_iff in *. rewrite !Z.leb_le in *. lia.
  - unfold flag in *. cbn [merge flags_]. unfold flags_merge.
    pose proof (FirstMoveFacts.split_index p) as [_ Hbit].
    destruct (decide (p / 8 < length (flags_ a))%nat) as [Hlt|Hge].
    + rewrite (nth_lookup _ (p / 8)), list_lookup_fmap, lookup_seq_lt by exact Hlt.
      cbn [fmap option_fmap option_map from_option Datatypes.id Nat.add].
      rewrite u8_testbit by lia. rewrite Z.lor_spec, Hf. apply orb_true_r.
    + rewrite nth_overflow in Hf by lia. rewrite Z.bits_0 in Hf. discriminate.
Qed.

Lemma merge_flags_length (a b : down_dfs_label) :
  length (flags_ (merge a b)) = length (flags_ a).
Proof. cbn [merge flags_]. unfold flags_merge. rewrite length_fmap, length_seq. reflexivity. Qed.

Lemma grow_by_flags_length (l l' : down_dfs_label) (r d x y : Z) (p : nat) :
  grow_by l r d x y p = Done l' -> length (flags_ l') = length (flags_ l).
Proof.
  unfold grow_by. destruct (decide _); [|discriminate].
  intros [= <-]. cbn [flags_]. apply length_insert.
Qed.

Lemma holds_node_le (g : planar_graph) (part : list nat) (rank order : list Z)
    (l l' : down_dfs_label) (v : nat) :
  holds_node g part rank order l v -> label_le l l' -> holds_node g part rank order l' v.
Proof.
  intros (d & r & p & Hd & Hr & Hp & Hc) Hle. exists d, r, p. auto.
Qed.

Lemma holds_node_order (g : planar_graph) (part : list nat) (rank order order' : list Z)
    (l : down_dfs_label) (v : nat) :
  order' !! v = order !! v ->
  holds_node g part rank order l v -> holds_node g part rank order' l v.
Proof.
  intros Ho (d & r & p & Hd & Hr & Hp & Hc). exists d, r, p. rewrite Ho. auto.
Qed.

Lemma unnumbered_insert (order : list Z) :
  forall (s : nat) (d : Z),
    order !! s = Some INT32_MAX -> d <> INT32_MAX ->
    S (unnumbered (<[s := d]> order)) = unnumbered order.
Proof.
  unfold unnumbered. induction order as [|x order IH]; intros [|s] d Hs Hd; simpl in Hs;
    try discriminate.
  - injection Hs as ->. change (<[0%nat := d]> (INT32_MAX :: order)) with (d :: order).
    rewrite filter_cons_False by exact Hd. rewrite filter_cons_True by reflexivity.
    reflexivity.
  - change (<[S s := d]> (x :: order)) with (x :: <[s := d]> order).
    destruct (decide (x = INT32_MAX)) as [Hx|Hx].
    + rewrite !filter_cons_True by exact Hx. cbn [length]. f_equal. apply IH; assumption.
    + rewrite !filter_cons_False by exact Hx. apply IH; assumption.
Qed.

Lemma unnumbered_fresh (order : list Z) :
  (forall v d, order !! v = Some d -> d = INT32_MAX) -> unnumbered order = length order.
Proof.
  unfold unnumbered. induction order as [|x order IH]; intros H; [reflexivity|].
  rewrite filter_cons_True by (apply (H 0%nat); reflexivity).
  cbn [length]. f_equal. apply IH. intros v d Hv. apply (H (S v)). exact Hv.
Qed.

Section Closure.

Variable g_ : planar_graph.
Variable part_ : list nat.
Variable bytes : nat.
Variable rank : list Z.
Hypothesis Hstrict : strict_ranks g_ rank.

Lemma same_at_refl (v : nat) (st : store) : same_at v st st.
Proof. repeat split. Qed.

Lemma same_at_trans (v : nat) (st1 st2 st3 : store) :
  same_at v st1 st2 -> same_at v st2 st3 -> same_at v st1 st3.
Proof.
  intros (O1 & N1 & L1) (O2 & N2 & L2). split; [congruence|]. split; [congruence|].
  intros idx. rewrite L2. apply L1.
Qed.

Lemma numbered_same (v : nat) (st st' : store) :
  numbered st v -> same_at v st st' -> numbered st' v.
Proof. intros (d & Hd & Hne) (O & _). exists d. rewrite O. auto. Qed.

(** A write to what belongs to [s] leaves every other node as it was. *)
Lemma touch_same (s : nat) (st st' : store) :
  dfs_order_ st' = dfs_order_ st ->
  (forall v, v <> s -> node_labels st' !! v = node_labels st !! v) ->
  (forall v idx, v <> s -> lab_at (lab_ st') v idx = lab_at (lab_ st) v idx) ->
  forall v, v <> s -> same_at v st st'.
Proof.
  intros Ho Hn Hl v Hv. split; [rewrite Ho; reflexivity|]. split; [apply Hn; exact Hv|].
  intros idx. apply Hl. exact Hv.
Qed.

(** While [s] has no number, no numbered node depends on it. *)
Lemma touch_closed_at (s : nat) (st st' : store) :
  closed g_ part_ rank st -> dfs_order_ st !! s = Some INT32_MAX ->
  (forall v, v <> s -> same_at v st st') ->
  forall v, v <> s -> numbered st' v -> closed_at g_ part_ rank st' v.
Proof.
  intros C Hs Hsame v Hvs Hv.
  assert (forall w, numbered st w -> w <> s) as Hw.
  { intros w (d & Hd & Hne) ->. congruence. }
  destruct (Hsame v Hvs) as (Ho & Hn & Hl).
  assert (numbered st v) as Hv0 by (unfold numbered in *; rewrite Ho in Hv; exact Hv).
  destruct (C v Hv0) as (l & Hl1 & Hh & He). exists l.
  split; [rewrite Hn; exact Hl1|].
  split; [eapply holds_node_order; [exact Ho|exact Hh]|].
  intros n idx e rv rt Hn' Hidx Hrv Hrt Hle.
  destruct (He n idx e rv rt Hn' Hidx Hrv Hrt Hle)
    as (Hnum & (d & dt & Hd & Hdt & Hlow) & lt & Hlt & Hle' & Hlab).
  destruct (Hsame _ (Hw _ Hnum)) as (Ho' & Hn'' & _).
  split; [unfold numbered; rewrite Ho'; exact Hnum|].
  split; [exists d, dt; rewrite Ho, Ho'; auto|].
  exists lt. rewrite Hn'', Hl. auto.
Qed.

Lemma label_edge_done (rec : nat -> store -> outcome store) (s : nat) (source : node)
    (k : nat) (e : edge) (st0 st st' : store) :
  (forall t st1 st2,
     rec t st1 = Done st2 -> closed g_ part_ rank st1 -> numbering_fits st1 ->
     uniform bytes st1 -> well_numbered st1 -> dfs_order_ st1 !! t = Some INT32_MAX ->
     progress g_ part_ rank bytes t st1 st2 /\ numbered st2 t) ->
  nodes g_ !! s = Some source -> outgoing source !! k = Some e ->
  edges_done g_ part_ rank bytes s source k st0 st ->
  label_edge rank rec s st k e = Done st' ->
  edges_done g_ part_ rank bytes s source (S k) st0 st'.
Proof.
  intros Hrec Hsrc Hk [[C F U B St Fr] Hpend Hed] H.
  unfold label_edge in H. unbind. accesses.
  match goal with
    E1 : rank !! node_id_ e = Some ?rt, E2 : rank !! s = Some ?rs |- _ =>
      rename E1 into Hrt0; rename E2 into Hrs0;
      destruct (Z.ltb_spec rs rt) as [Hup|Hdown]
  end.
  - accesses. subst st'. split; [split; assumption|assumption|].
    intros j e' rs' rt' Hj He' Hrs' Hrt' Hle. destruct (decide (j = k)) as [->|Hjk].
    + rewrite Hk in He'. injection He' as <-.
      rewrite Hrt0 in Hrt'. rewrite Hrs0 in Hrs'.
      injection Hrt' as <-. injection Hrs' as <-. lia.
    + apply (Hed j e' rs' rt'); try assumption. lia.
  - unbind.
    match goal with
    | Hd : at_ (dfs_order_ st) (node_id_ e) = Done ?x1,
      Hrun : (if _ then rec _ _ else _) = Done ?x2,
      Ht : at_ (node_labels ?x2) (node_id_ e) = Done ?x3,
      Hset : lab_set _ _ _ _ = Done ?x4,
      Hsl : at_ (node_labels ?x2) s = Done ?x5,
      Hnl : set_at _ _ _ = Done ?x6 |- _ =>
        rename Hd into Hd0; rename Hrun into Hrun0; rename Ht into Ht0;
        rename Hset into Hset0; rename Hsl into Hsl0; rename Hnl into Hnl0;
        rename x1 into dt; rename x2 into st1; rename x3 into t_lab;
        rename x5 into s_lab; rename x4 into lab'; rename x6 into nl'
    end.
    match goal with
      E1 : rank !! node_id_ e = Some ?x1, E2 : rank !! s = Some ?x2 |- _ =>
        rename x1 into rt; rename x2 into rs end.
    apply at_Done in Hd0, Ht0, Hsl0. apply set_at_Done in Hnl0 as [Hlt Hnl0].
    injection H as <-.
    assert (rt < rs) as Hlow.
    { pose proof (Hstrict s source e rs rt Hsrc (list_elem_of_lookup_2 _ _ _ Hk) Hrs0 Hrt0).
      lia. }
    assert (node_id_ e <> s) as Hts.
    { intros Heq. rewrite Heq in Hrt0. rewrite Hrs0 in Hrt0. injection Hrt0 as ->. lia. }
    assert (~ below rank (node_id_ e) s) as Hnb.
    { intros (rv & rs' & H1 & H2 & H3). rewrite Hrs0 in H1. rewrite Hrt0 in H2.
      injection H1 as <-. injection H2 as <-. lia. }
    assert (edges_done g_ part_ rank bytes s source k st0 st1
            /\ numbered st1 (node_id_ e)) as [[[C1 F1 U1 B1 St1 Fr1] Hpend1 Hed1] Hnum1].
    { destruct (dt =? INT32_MAX) eqn:Ed.
      - apply Z.eqb_eq in Ed. subst dt.
        destruct (Hrec _ _ _ Hrun0 C F U B Hd0) as [[C1 F1 U1 B1 St1 Fr1] Hnum].
        pose proof (Fr1 s (not_eq_sym Hts) Hnb) as (Ho & Hns & Hls).
        split; [|exact Hnum]. split.
        + split; [exact C1|exact F1|exact U1|exact B1| |].
          * intros v Hv. eapply same_at_trans; [apply St; exact Hv|].
            apply St1. eapply numbered_same; [exact Hv|apply St; exact Hv].
          * intros v Hvs Hvb. eapply same_at_trans; [apply Fr; assumption|].
            apply Fr1.
            -- intros ->. apply Hvb. exists rt, rs. auto.
            -- intros (rv & rt' & H1 & H2 & H3). apply Hvb. exists rv, rs.
               rewrite Hrt0 in H2. injection H2 as <-.
               split; [exact H1|]. split; [exact Hrs0|lia].
        + rewrite Ho. exact Hpend.
        + intros j e' rs' rt' Hj He' Hrs' Hrt' Hle.
          destruct (Hed j e' rs' rt' Hj He' Hrs' Hrt' Hle)
            as (Hnum' & lt & ls & Hlt' & Hlab & Hls' & Hlle).
          pose proof (St1 _ Hnum') as (_ & Hn' & _).
          split; [eapply numbered_same; [exact Hnum'|apply St1; exact Hnum']|].
          exists lt, ls. rewrite Hn', Hls, Hns. auto.
      - injection Hrun0 as <-.
        split; [split; [split; assumption|assumption|assumption]|].
        exists dt. split; [assumption|]. apply Z.eqb_neq. exact Ed. }
    destruct (lab_set_at _ _ _ _ _ Hset0) as (Hi & Hj & Ho).
    assert (forall w, numbered st1 w -> w <> s) as Hw.
    { intros w (d & Hd & Hne) ->. congruence. }
    assert (forall v, v <> s -> nl' !! v = node_labels st1 !! v) as Hnlv.
    { intros v Hv. subst nl'. apply list_lookup_insert_ne. auto. }
    assert (nl' !! s = Some (merge s_lab t_lab)) as Hnls.
    { subst nl'. apply list_lookup_insert_eq. exact Hlt. }
    split.
    + split.
      * intros v Hv.
        apply (touch_closed_at s st1);
          [exact C1|exact Hpend1|apply touch_same; auto| |exact Hv].
        intros ->. destruct Hv as (d & Hd & Hne). cbn [dfs_order_] in Hd. congruence.
      * exact F1.
      * intros v l Hv. cbn [node_labels] in Hv.
        destruct (decide (v = s)) as [->|Hvs].
        -- rewrite Hnls in Hv. injection Hv as <-. rewrite merge_flags_length.
           apply (U1 s). exact Hsl0.
        -- rewrite Hnlv in Hv by exact Hvs. apply (U1 v). exact Hv.
      * exact B1.
      * intros v Hv. eapply same_at_trans; [apply St1; exact Hv|].
        apply touch_same with (s := s); auto.
        apply Hw. eapply numbered_same; [exact Hv|apply St1; exact Hv].
      * intros v Hvs Hvb. eapply same_at_trans; [apply Fr1; assumption|].
        apply touch_same with (s := s); auto.
    + exact Hpend1.
    + intros j e' rs' rt' Hj' He' Hrs' Hrt' Hle. cbn [node_labels lab_].
      destruct (decide (j = k)) as [->|Hjk].
      * rewrite Hk in He'. injection He' as <-. split; [exact Hnum1|].
        exists t_lab, (merge s_lab t_lab).
        split; [rewrite Hnlv by exact Hts; exact Ht0|]. split; [exact Hi|].
        split; [exact Hnls|]. apply merge_le_r.
        rewrite (U1 _ _ Ht0), (U1 _ _ Hsl0). reflexivity.
      * destruct (Hed1 j e' rs' rt' ltac:(lia) He' Hrs' Hrt' Hle)
          as (Hnum' & lt & ls & Hlt' & Hlab & Hls' & Hlle).
        split; [exact Hnum'|]. exists lt, (merge s_lab t_lab).
        split; [rewrite Hnlv by (apply Hw; exact Hnum'); exact Hlt'|].
        split; [rewrite Hj by exact Hjk; exact Hlab|]. split; [exact Hnls|].
        assert (ls = s_lab) as -> by congruence.
        eapply label_le_trans; [exact Hlle|apply LabellingFacts.merge_le].
Qed.

Lemma label_loop_done (rec : nat -> store -> outcome store) (s : nat) (source : node)
    (st0 : store) :
  (forall t st1 st2,
     rec t st1 = Done st2 -> closed g_ part_ rank st1 -> numbering_fits st1 ->
     uniform bytes st1 -> well_numbered st1 -> dfs_order_ st1 !! t = Some INT32_MAX ->
     progress g_ part_ rank bytes t st1 st2 /\ numbered st2 t) ->
  nodes g_ !! s = Some source ->
  forall (es : list edge) (k : nat) (st st' : store),
    (forall i e, es !! i = Some e -> outgoing source !! (k + i)%nat = Some e) ->
    edges_done g_ part_ rank bytes s source k st0 st ->
    edge_loop (label_edge rank rec s) st k es = Done st' ->
    edges_done g_ part_ rank bytes s source (k + length es) st0 st'.
Proof.
  intros Hrec Hsrc. induction es as [|e es IH]; intros k st st' Hes D H.
  - simpl in H. injection H as <-. rewrite Nat.add_0_r. exact D.
  - apply edge_loop_cons in H as (st1 & Hbody & Hrest).
    replace (k + length (e :: es))%nat with (S k + length es)%nat by (simpl; lia).
    apply (IH (S k) st1); [| |exact Hrest].
    + intros i e' Hi. replace (S k + i)%nat with (k + S i)%nat by lia.
      apply Hes. exact Hi.
    + eapply label_edge_done; [exact Hrec|exact Hsrc| |exact D|exact Hbody].
      specialize (Hes 0%nat e eq_refl). rewrite Nat.add_0_r in Hes. exact Hes.
Qed.

Lemma label_fn_progress (fuel : nat) :
  forall (s : nat) (st st' : store),
    label_fn g_ part_ rank fuel s st = Done st' ->
    closed g_ part_ rank st -> numbering_fits st -> uniform bytes st ->
    well_numbered st -> dfs_order_ st !! s = Some INT32_MAX ->
    progress g_ part_ rank bytes s st st' /\ numbered st' s.
Proof.
  induction fuel as [|fuel IH]; intros s st st' H C F U B Hs; simpl in H; [discriminate|].
  unbind. unfold get_node in *.
  match goal with
  | Hn : at_ (nodes g_) s = Done ?x0,
    Hloop : edge_loop _ _ _ _ = Done ?x1,
    Hd : at_ (dfs_order_ ?x1) s = Done ?x2,
    Ho : (if _ then set_at _ _ _ else _) = Done ?x3,
    Hr : at_ rank s = Done ?x4,
    Hd' : at_ ?x3 s = Done ?x5,
    Hp : at_ part_ s = Done ?x6,
    Hsl : at_ (node_labels ?x1) s = Done ?x7,
    Hg : grow_by _ _ _ _ _ _ = Done ?x8,
    Hnl : set_at (node_labels ?x1) s _ = Done ?x9 |- _ =>
      rename Hn into Hsrc; rename Hloop into Hloop0; rename Hd into Hd0;
      rename Ho into Ho0; rename Hr into Hr0; rename Hd' into Hd1; rename Hp into Hp0;
      rename Hsl into Hsl0; rename Hg into Hg0; rename Hnl into Hnl0;
      rename x0 into source; rename x1 into st1; rename x2 into d; rename x3 into order';
      rename x4 into r; rename x5 into d'; rename x6 into s_part; rename x7 into s_lab;
      rename x8 into s_lab'; rename x9 into nl'
  end.
  apply at_Done in Hsrc, Hd0, Hr0, Hd1, Hp0, Hsl0.
  apply set_at_Done in Hnl0 as [Hlt Hnl0].
  assert (edges_done g_ part_ rank bytes s source (0 + length (outgoing source)) st st1)
    as [[C1 F1 U1 [Bb Bd] St1 Fr1] Hpend1 Hed1].
  { eapply (label_loop_done _ s source st IH Hsrc); [| |exact Hloop0].
    - intros i e Hi. exact Hi.
    - split; [split; [assumption..| |]|exact Hs|]; intros; try apply same_at_refl. lia. }
  rewrite Hpend1 in Hd0. injection Hd0 as <-.
  rewrite Z.eqb_refl in *.
  apply set_at_Done in Ho0 as [Hlt0 Ho0].
  injection H as <-.
  assert (order' !! s = Some (dfs_id st1)) as Hos.
  { subst order'. apply list_lookup_insert_eq. exact Hlt0. }
  rewrite Hos in Hd1. injection Hd1 as <-.
  pose proof (unnumbered_insert (dfs_order_ st1) s 0 Hpend1 ltac:(discriminate)) as Hcount0.
  destruct F1 as [Fid Ffit].
  assert (dfs_id st1 <> INT32_MAX) as Hidne by lia.
  pose proof (unnumbered_insert (dfs_order_ st1) s (dfs_id st1) Hpend1 Hidne) as Hcount.
  rewrite <- Ho0 in Hcount.
  assert (forall w, numbered st1 w -> w <> s) as Hw.
  { intros w (d & Hd & Hne) ->. congruence. }
  assert (nl' !! s = Some s_lab') as Hnls.
  { subst nl'. apply list_lookup_insert_eq. exact Hlt. }
  set (st' := {| dfs_order_ := order'; lab_ := lab_ st1; node_labels := nl';
                 dfs_id := dfs_id st1 + 1; up_apex := up_apex st1 |}).
  assert (forall v, v <> s -> same_at v st1 st') as Hsame.
  { intros v Hv. split; [|split; [|reflexivity]]; cbn [st' dfs_order_ node_labels].
    - subst order'. apply list_lookup_insert_ne. auto.
    - subst nl'. apply list_lookup_insert_ne. auto. }
  destruct (grow_by_spec _ _ _ _ _ _ _ Hg0) as [Hin Hgle].
  assert (numbered st' s) as Hnum by (exists (dfs_id st1); auto).
  split; [|exact Hnum]. split.
  - intros v Hv. destruct (decide (v = s)) as [->|Hvs].
    + exists s_lab'. split; [exact Hnls|]. split.
      * exists (dfs_id st1), r, s_part. auto.
      * intros n idx e rv rt Hn Hidx Hrv Hrt Hle.
        rewrite Hsrc in Hn. injection Hn as <-.
        destruct (Hed1 idx e rv rt (lookup_lt_Some _ _ _ Hidx) Hidx Hrv Hrt Hle)
          as (Hnum' & lt & ls & Hlt' & Hlab & Hls & Hlle).
        destruct (Hsame _ (Hw _ Hnum')) as (Ho' & Hn' & _).
        split; [eapply numbered_same; [exact Hnum'|apply Hsame, Hw, Hnum']|].
        split.
        { destruct Hnum' as (dt & Hdt & Hdne). exists (dfs_id st1), dt.
          cbn [st' dfs_order_] in *. rewrite Ho'.
          split; [exact Hos|]. split; [exact Hdt|]. apply (Bb _ _ Hdt Hdne). }
        exists lt. rewrite Hn'. split; [exact Hlt'|]. split; [|exact Hlab].
        assert (ls = s_lab) as -> by congruence.
        eapply label_le_trans; [exact Hlle|exact Hgle].
    + apply (touch_closed_at s st1); auto.
  - split; cbn [st' dfs_id dfs_order_]; lia.
  - intros v l Hv. cbn [st' node_labels] in Hv.
    destruct (decide (v = s)) as [->|Hvs].
    + rewrite Hnls in Hv. injection Hv as <-.
      rewrite (grow_by_flags_length _ _ _ _ _ _ _ Hg0). apply (U1 s). exact Hsl0.
    + subst nl'. rewrite list_lookup_insert_ne in Hv by auto. apply (U1 v). exact Hv.
  - assert (forall v d, order' !! v = Some d -> d <> INT32_MAX ->
              (v = s /\ d = dfs_id st1)
              \/ (v <> s /\ dfs_order_ st1 !! v = Some d /\ 0 <= d < dfs_id st1)) as Hcases.
    { intros v d Hv Hd. destruct (decide (v = s)) as [->|Hvs].
      - left. split; [reflexivity|]. congruence.
      - right. split; [exact Hvs|]. subst order'.
        rewrite list_lookup_insert_ne in Hv by auto. split; [exact Hv|].
        apply (Bb v d Hv Hd). }
    split; cbn [st' dfs_order_ dfs_id].
    + intros v d Hv Hd. destruct (Hcases v d Hv Hd) as [[_ ->]|(_ & _ & Hb)]; lia.
    + intros v w d Hv Hw' Hd.
      destruct (Hcases v d Hv Hd) as [[-> Hd1]|(Hv1 & Hv2 & Hb1)];
        destruct (Hcases w d Hw' Hd) as [[-> Hd2]|(Hw1 & Hw2 & Hb2)];
        try reflexivity; try lia.
      apply (Bd v w d Hv2 Hw2 Hd).
  - intros v Hv. eapply same_at_trans; [apply St1; exact Hv|].
    apply Hsame, Hw. eapply numbered_same; [exact Hv|apply St1; exact Hv].
  - intros v Hvs Hvb. eapply same_at_trans; [apply Fr1; assumption|].
    apply Hsame. exact Hvs.
Qed.

(** In a closed store the label of a numbered node holds the label of
    every node below it. *)
Lemma closed_reach (st : store) :
  closed g_ part_ rank st ->
  forall v t, down_reach g_ rank v t -> numbered st v ->
    numbered st t
    /\ exists l lt, node_labels st !! v = Some l /\ node_labels st !! t = Some lt
                    /\ label_le lt l /\ holds_node g_ part_ rank (dfs_order_ st) lt t.
Proof.
  intros C v t R. induction R as [v|v t n e rv rt Hn He Hrv Hrt Hle R IH]; intros Hv.
  - split; [exact Hv|]. destruct (C v Hv) as (l & Hl & Hh & _).
    exists l, l. auto using label_le_refl.
  - destruct (C v Hv) as (l & Hl & Hh & Hedges).
    apply list_elem_of_lookup_1 in He as [idx Hidx].
    destruct (Hedges n idx e rv rt Hn Hidx Hrv Hrt Hle)
      as (Hnum & _ & le & Hle1 & Hlle & _).
    destruct (IH Hnum) as (Hnt & l1 & lt & Hl1 & Hlt & Hlle' & Hh').
    split; [exact Hnt|]. exists l, lt. split; [exact Hl|]. split; [exact Hlt|].
    split; [|exact Hh'].
    assert (l1 = le) as -> by congruence. eapply label_le_trans; eassumption.
Qed.

(** The down pass from a store in which no node is numbered yet. *)
Lemma label_fn_fresh (fuel s : nat) (st st' : store) :
  (forall v d, dfs_order_ st !! v = Some d -> d = INT32_MAX) ->
  (s < length (dfs_order_ st))%nat ->
  0 <= dfs_id st ->
  dfs_id st + Z.of_nat (length (dfs_order_ st)) <= INT32_MAX ->
  uniform bytes st ->
  label_fn g_ part_ rank fuel s st = Done st' ->
  progress g_ part_ rank bytes s st st' /\ numbered st' s.
Proof.
  intros Hfresh Hs Hid Hfit Hbytes Hrun.
  assert (closed g_ part_ rank st) as C.
  { intros v (d & Hd & Hne). apply Hfresh in Hd. contradiction. }
  assert (numbering_fits st) as F.
  { split; [exact Hid|]. rewrite unnumbered_fresh by exact Hfresh. exact Hfit. }
  assert (dfs_order_ st !! s = Some INT32_MAX) as Hpend.
  { destruct (dfs_order_ st !! s) as [d|] eqn:Hd.
    - rewrite (Hfresh s d Hd). reflexivity.
    - apply lookup_ge_None in Hd. lia. }
  assert (well_numbered st) as B.
  { split; [intros v d Hd Hne|intros v w d Hd _ Hne]; apply Hfresh in Hd; contradiction. }
  exact (label_fn_progress fuel s st st' Hrun C F Hbytes B Hpend).
Qed.

(** X15.  The down pass (Stage C) on a hierarchy without edges between
    nodes of equal rank, started on a store in which no node is numbered,
    the node labels have their bytes of flags and the counter has room for
    every node: when [label_fn] returns, its node is numbered; the label of
    every numbered node holds every node that can be reached from it along
    edges that do not go up, and all those nodes are numbered; and the label
    of every such edge of a numbered node holds every node that can be
    reached from the edge's target in the same way. *)
Theorem down_pass_labels_hold_down_closure (fuel s : nat) (st st' : store)
    (Hfresh : forall v d, dfs_order_ st !! v = Some d -> d = INT32_MAX)
    (Hs : (s < length (dfs_order_ st))%nat)
    (Hid : 0 <= dfs_id st)
    (Hfit : dfs_id st + Z.of_nat (length (dfs_order_ st)) <= INT32_MAX)
    (Hbytes : forall v l, node_labels st !! v = Some l -> length (flags_ l) = bytes)
    (Hrun : label_fn g_ part_ rank fuel s st = Done st') :
  numbered st' s
  /\ (forall v t, numbered st' v -> down_reach g_ rank v t ->
        numbered st' t
        /\ exists l, node_labels st' !! v = Some l
                     /\ holds_node g_ part_ rank (dfs_order_ st') l t)
  /\ (forall v n idx e rv rt t,
        numbered st' v -> nodes g_ !! v = Some n -> outgoing n !! idx = Some e ->
        rank !! v = Some rv -> rank !! node_id_ e = Some rt -> rt <= rv ->
        down_reach g_ rank (node_id_ e) t ->
        exists l, lab_at (lab_ st') v idx = Done l
                  /\ holds_node g_ part_ rank (dfs_order_ st') l t).
Proof.
  destruct (label_fn_fresh fuel s st st' Hfresh Hs Hid Hfit Hbytes Hrun)
    as [[C' _ _ _ _ _] Hnum].
  split; [exact Hnum|]. split.
  - intros v t Hv R.
    destruct (closed_reach st' C' v t R Hv) as (Hnt & l & lt & Hl & Hlt & Hle & Hh).
    split; [exact Hnt|]. exists l. split; [exact Hl|].
    eapply holds_node_le; eassumption.
  - intros v n idx e rv rt t Hv Hn Hidx Hrv Hrt Hle R.
    destruct (C' v Hv) as (l & Hl & _ & Hedges).
    destruct (Hedges n idx e rv rt Hn Hidx Hrv Hrt Hle)
      as (Hnum' & _ & le & Hle1 & _ & Hlab).
    destruct (closed_reach st' C' _ t R Hnum') as (_ & l1 & lt & Hl1 & Hlt & Hlle & Hh).
    exists le. split; [exact Hlab|].
    assert (l1 = le) as -> by congruence. eapply holds_node_le; eassumption.
Qed.

(** X16.  Under the same conditions the down pass numbers in postorder:
    when [label_fn] returns, every number given out lies below the counter,
    no two nodes share a number, and every edge of a numbered node that does
    not go up leads to a node with a smaller number. *)
Theorem down_pass_numbers_in_postorder (fuel s : nat) (st st' : store)
    (Hfresh : forall v d, dfs_order_ st !! v = Some d -> d = INT32_MAX)
    (Hs : (s < length (dfs_order_ st))%nat)
    (Hid : 0 <= dfs_id st)
    (Hfit : dfs_id st + Z.of_nat (length (dfs_order_ st)) <= INT32_MAX)
    (Hbytes : forall v l, node_labels st !! v = Some l -> length (flags_ l) = bytes)
    (Hrun : label_fn g_ part_ rank fuel s st = Done st') :
  (forall v d, dfs_order_ st' !! v = Some d -> d <> INT32_MAX -> 0 <= d < dfs_id st')
  /\ (forall v w d, dfs_order_ st' !! v = Some d -> dfs_order_ st' !! w = Some d ->
                    d <> INT32_MAX -> v = w)
  /\ (forall v n e rv rt d,
        dfs_order_ st' !! v = Some d -> d <> INT32_MAX ->
        nodes g_ !! v = Some n -> e ∈ outgoing n ->
        rank !! v = Some rv -> rank !! node_id_ e = Some rt -> rt <= rv ->
        exists dt, dfs_order_ st' !! node_id_ e = Some dt /\ 0 <= dt < d).
Proof.
  destruct (label_fn_fresh fuel s st st' Hfresh Hs Hid Hfit Hbytes Hrun)
    as [[C' _ _ [Bb Bd] _ _] _].
  split; [exact Bb|]. split; [exact Bd|].
  intros v n e rv rt d Hd Hne Hn He Hrv Hrt Hle.
  destruct (C' v (ex_intro _ d (conj Hd Hne))) as (l & _ & _ & Hedges).
  apply list_elem_of_lookup_1 in He as [idx Hidx].
  destruct (Hedges n idx e rv rt Hn Hidx Hrv Hrt Hle)
    as ((dt0 & Hdt0 & Hne0) & (d' & dt & Hd' & Hdt & Hlow) & _).
  assert (d' = d) as -> by congruence.
  exists dt. split; [exact Hdt|].
  assert (dt0 = dt) as -> by congruence.
  pose proof (Bb _ _ Hdt Hne0). lia.
Qed.

Lemma label_fn_in_range (fuel s : nat) (st st' : store) :
  label_fn g_ part_ rank fuel s st = Done st' -> (s < length (node_labels st))%nat.
Proof.
  destruct fuel as [|fuel]; simpl; intros H; [discriminate|].
  unbind. accesses. eapply lookup_lt_Some. eassumption.
Qed.

(** X17.  [compute_labels] as a whole, on a labelling that has not been
    computed before, for a hierarchy without edges between nodes of equal
    rank and with no more than [INT32_MAX] nodes: when it returns, the apex
    is numbered, and for every numbered node the label of each of its edges
    that does not go up holds every node that can be reached from the
    edge's target along such edges, with the postorder id, rank,
    coordinates and partition that node has in the end.  The up pass that
    runs last does not disturb this. *)
Theorem labels_hold_what_lies_below (fuel : nat) (lab0 : list (list down_dfs_label))
    (st' : store)
    (Hnodes : Z.of_nat (get_num_nodes g_) <= INT32_MAX)
    (Hrun : compute_labels g_ part_ bytes rank fuel [] lab0 = Done st') :
  (exists apex, find_apex rank 0 (seq 0 (length rank)) = Done apex /\ numbered st' apex)
  /\ forall v n idx e rv rt t,
       numbered st' v -> nodes g_ !! v = Some n -> outgoing n !! idx = Some e ->
       rank !! v = Some rv -> rank !! node_id_ e = Some rt -> rt <= rv ->
       down_reach g_ rank (node_id_ e) t ->
       numbered st' t
       /\ exists l, lab_at (lab_ st') v idx = Done l
                    /\ holds_node g_ part_ rank (dfs_order_ st') l t.
Proof.
  unfold compute_labels in Hrun. rewrite resize_nil in Hrun. unbind.
  match goal with
  | Ha : find_apex _ _ _ = Done ?x0, Hl : label_fn _ _ _ _ _ _ = Done ?x1 |- _ =>
      rename Ha into Hapex; rename Hl into Hdown; rename x0 into apex; rename x1 into st1
  end.
  pose proof (label_fn_in_range _ _ _ _ Hdown) as Hin.
  cbn [node_labels] in Hin. rewrite length_replicate in Hin.
  match type of Hdown with label_fn _ _ _ _ _ ?st0 = _ =>
    assert (progress g_ part_ rank bytes apex st0 st1 /\ numbered st1 apex)
      as [[C' _ _ _ _ _] Hnum] end.
  { eapply label_fn_fresh; [| | | | |exact Hdown].
    - intros v d Hv. cbn [dfs_order_] in Hv. apply lookup_replicate in Hv as [-> _].
      reflexivity.
    - cbn [dfs_order_]. rewrite length_replicate. exact Hin.
    - cbn [dfs_id]. lia.
    - cbn [dfs_id dfs_order_]. rewrite length_replicate. lia.
    - intros v l Hv. cbn [node_labels] in Hv. apply lookup_replicate in Hv as [-> _].
      cbn [label_new flags_]. apply length_replicate. }
  destruct (LabellingFacts.up_label_all_keeps g_ rank _ _ _ _ Hrun) as [N O I R D].
  assert (forall w, numbered st1 w <-> numbered st' w) as Hsame.
  { intros w. unfold numbered. rewrite O. reflexivity. }
  split.
  - exists apex. split; [exact Hapex|]. apply Hsame. exact Hnum.
  - intros v n idx e rv rt t Hv Hn Hidx Hrv Hrt Hle Hreach.
    apply Hsame in Hv.
    destruct (C' v Hv) as (l & Hl & _ & Hedges).
    destruct (Hedges n idx e rv rt Hn Hidx Hrv Hrt Hle)
      as (Hnum' & _ & le & Hle1 & _ & Hlab).
    destruct (closed_reach st1 C' _ t Hreach Hnum') as (Hnt & l1 & lt & Hl1 & Hlt & Hlle & Hh).
    split; [apply Hsame; exact Hnt|].
    exists le. split.
    + rewrite D; [exact Hlab|]. exists n, e, rt, rv.
      pose proof (Hstrict v n e rv rt Hn (list_elem_of_lookup_2 _ _ _ Hidx) Hrv Hrt).
      repeat split; try assumption. lia.
    + rewrite O. assert (l1 = le) as -> by congruence.
      eapply holds_node_le; eassumption.
Qed.

End Closure.

(** No edge of the four-node graph joins nodes of equal rank. *)
Lemma four_nodes_strict : strict_ranks FourNodes.graph FourNodes.rank.
Proof.
  intros v n e rv rt Hn He Hrv Hrt.
  do 4 (destruct v as [|v];
        [injection Hn as <-; injection Hrv as <-;
         repeat (apply elem_of_cons in He as [->|He]);
         try (injection Hrt as <-; lia); inversion He|]).
  discriminate Hn.
Defined.

(** The four-node graph, from the store that [compute_labels] sets up: the
    down pass from the apex, node 3, numbers it, and its label holds node 0,
    which lies two edges below. *)
Lemma down_pass_labels_hold_down_closure_witness :
  exists st' l,
    label_fn FourNodes.graph FourNodes.part FourNodes.rank 10 3
      {| dfs_order_ := replicate 4 INT32_MAX;
         lab_ := [replicate 2 (label_new 1); [label_new 1]; []; replicate 2 (label_new 1)];
         node_labels := replicate 4 (label_new 1);
         dfs_id := 0; up_apex := replicate 4 INT32_MAX |} = Done st'
    /\ numbered st' 3 /\ node_labels st' !! 3%nat = Some l
    /\ holds_node FourNodes.graph FourNodes.part FourNodes.rank (dfs_order_ st') l 0.
Proof.
  match goal with |- exists st' l, ?run = Done st' /\ _ =>
    destruct run as [st'| |] eqn:Hrun; try (vm_compute in Hrun; discriminate) end.
  pose proof four_nodes_strict as Hstrict.
  match type of Hrun with label_fn _ _ _ _ _ ?st0 = _ =>
    destruct (down_pass_labels_hold_down_closure
                FourNodes.graph FourNodes.part 1 FourNodes.rank Hstrict 10 3 st0 st')
      as (Hnum & Hreach & _); [| | | | |exact Hrun|] end.
  - intros v d Hv. apply lookup_replicate in Hv as [-> _]. reflexivity.
  - vm_compute. lia.
  - vm_compute. discriminate.
  - vm_compute. discriminate.
  - intros v l Hv. apply lookup_replicate in Hv as [-> _]. reflexivity.
  - destruct (Hreach 3%nat 0%nat Hnum) as (_ & l & Hl & Hh).
    + eapply (down_step _ _ 3 0 _ {| node_id_ := 1; wt_ := 1 |} 3 1);
        [reflexivity|left|reflexivity|reflexivity|lia|].
      eapply (down_step _ _ 1 0 _ {| node_id_ := 0; wt_ := 1 |} 1 0);
        [reflexivity|left|reflexivity|reflexivity|lia|].
      apply down_here.
    + exists st', l. split; [reflexivity|]. split; [exact Hnum|]. split; [exact Hl|exact Hh].
Defined.

(** The same run: node 1 gets number 1, and its edge down to node 0 leads
    to a smaller number. *)
Lemma down_pass_numbers_in_postorder_witness :
  exists st' dt,
    label_fn FourNodes.graph FourNodes.part FourNodes.rank 10 3
      {| dfs_order_ := replicate 4 INT32_MAX;
         lab_ := [replicate 2 (label_new 1); [label_new 1]; []; replicate 2 (label_new 1)];
         node_labels := replicate 4 (label_new 1);
         dfs_id := 0; up_apex := replicate 4 INT32_MAX |} = Done st'
    /\ dfs_order_ st' !! 1%nat = Some 1
    /\ dfs_order_ st' !! 0%nat = Some dt /\ 0 <= dt < 1.
Proof.
  match goal with |- exists st' dt, ?run = Done st' /\ _ =>
    destruct run as [st'| |] eqn:Hrun; try (vm_compute in Hrun; discriminate) end.
  assert (dfs_order_ st' !! 1%nat = Some 1) as H1
    by (vm_compute in Hrun; injection Hrun as <-; reflexivity).
  match type of Hrun with label_fn _ _ _ _ _ ?st0 = _ =>
    destruct (down_pass_numbers_in_postorder
                FourNodes.graph FourNodes.part 1 FourNodes.rank four_nodes_strict
                10 3 st0 st')
      as (_ & _ & Hpost); [| | | | |exact Hrun|] end.
  - intros v d Hv. apply lookup_replicate in Hv as [-> _]. reflexivity.
  - vm_compute. lia.
  - vm_compute. discriminate.
  - vm_compute. discriminate.
  - intros v l Hv. apply lookup_replicate in Hv as [-> _]. reflexivity.
  - destruct (Hpost 1%nat (FourNodes.node_of [(0%nat, 1)]) {| node_id_ := 0; wt_ := 1 |}
                1 0 1 H1) as (dt & Hdt & Hlow);
      [discriminate|reflexivity|left|reflexivity|reflexivity|lia|].
    exists st', dt. split; [reflexivity|]. split; [exact H1|]. split; [exact Hdt|exact Hlow].
Defined.

(** The four-node graph, labelled from scratch: the label of the apex's
    edge to node 1 holds node 0, which lies below node 1. *)
Lemma labels_hold_what_lies_below_witness :
  exists st' l,
    compute_labels FourNodes.graph FourNodes.part 1 FourNodes.rank 10 [] [] = Done st'
    /\ numbered st' 3
    /\ lab_at (lab_ st') 3 0 = Done l
    /\ holds_node FourNodes.graph FourNodes.part FourNodes.rank (dfs_order_ st') l 0.
Proof.
  match goal with |- exists st' l, ?run = Done st' /\ _ =>
    destruct run as [st'| |] eqn:Hrun; try (vm_compute in Hrun; discriminate) end.
  assert (Z.of_nat (get_num_nodes FourNodes.graph) <= INT32_MAX) as Hnodes
    by (vm_compute; discriminate).
  destruct (labels_hold_what_lies_below
              FourNodes.graph FourNodes.part 1 FourNodes.rank four_nodes_strict
              10 [] st' Hnodes Hrun) as [(apex & Hapex & Hnum) Hedges].
  vm_compute in Hapex. injection Hapex as <-.
  destruct (Hedges 3%nat (FourNodes.node_of [(1%nat, 1); (2%nat, 1)]) 0%nat
              {| node_id_ := 1; wt_ := 1 |} 3 1 0%nat Hnum)
    as (_ & l & Hl & Hh); [reflexivity|reflexivity|reflexivity|reflexivity|lia| |].
  - eapply (down_step _ _ 1 0 _ {| node_id_ := 0; wt_ := 1 |} 1 0);
      [reflexivity|left|reflexivity|reflexivity|lia|].
    apply down_here.
  - exists st', l. split; [reflexivity|]. split; [exact Hnum|]. split; [exact Hl|exact Hh].
Defined.

End ClosureFacts.

(** ** The temporal safe-interval map: what an obstacle takes away *)

Module SippFacts.
Import Sipp.

Section Map.

Context {move : Type}.
Variable header_width : Z.
Variable gm_label : nat -> bool.
Variable to_padded_id : nat -> nat.
Variable COST_MAX : Z.
Variable no_action : move.

Lemma insert_by_start_elem (si x : safe_interval move) (l : list (safe_interval move)) :
  x ∈ insert_by_start si l <-> x = si \/ x ∈ l.
Proof.
  induction l as [|y l IH]; simpl.
  - rewrite list_elem_of_singleton. split; [auto|]. intros [H|H]; [exact H|inversion H].
  - destruct (s_time_ si <? s_time_ y).
    + rewrite elem_of_cons. reflexivity.
    + rewrite !elem_of_cons, IH. tauto.
Qed.

Lemma sort_by_start_elem (x : safe_interval move) (l : list (safe_interval move)) :
  x ∈ sort_by_start l <-> x ∈ l.
Proof.
  induction l as [|y l IH]; simpl; [reflexivity|].
  rewrite insert_by_start_elem, elem_of_cons, IH. reflexivity.
Qed.

(** What the loop body leaves of one interval lies within it and outside
    the obstacle. *)
Lemma carve_within (start_time end_time : Z) (action : move) (si si' : safe_interval move) :
  si' ∈ carve start_time end_time action si ->
  (e_time_ si' <= start_time \/ end_time <= s_time_ si')
  /\ s_time_ si <= s_time_ si' /\ e_time_ si' <= e_time_ si.
Proof.
  unfold carve.
  destruct (Z.ltb_spec end_time (s_time_ si)) as [C1|C1];
    [intros Hin; apply list_elem_of_singleton in Hin as ->; lia|].
  destruct (Z.ltb_spec (e_time_ si) start_time) as [C2|C2];
    [intros Hin; apply list_elem_of_singleton in Hin as ->; lia|].
  destruct (Z.leb_spec start_time (s_time_ si)) as [C3|C3],
    (Z.leb_spec (e_time_ si) end_time) as [C4|C4],
    (Z.ltb_spec end_time (e_time_ si)) as [C5|C5],
    (Z.ltb_spec (s_time_ si) start_time) as [C6|C6];
    simpl; intros Hin;
    repeat (apply elem_of_cons in Hin as [->|Hin]); try (inversion Hin; fail); simpl; lia.
Qed.

(** Whatever of an interval lies strictly before or strictly after the
    obstacle is kept. *)
Lemma carve_keeps (start_time end_time : Z) (action : move) (si : safe_interval move)
    (t : Z) :
  t < start_time \/ end_time < t -> s_time_ si <= t <= e_time_ si ->
  covers (carve start_time end_time action si) t.
Proof.
  intros Ht Hin. unfold carve, covers.
  destruct (Z.ltb_spec end_time (s_time_ si)) as [C1|C1];
    [exists si; split; [left|lia]|].
  destruct (Z.ltb_spec (e_time_ si) start_time) as [C2|C2];
    [exists si; split; [left|lia]|].
  destruct (Z.leb_spec start_time (s_time_ si)) as [C3|C3],
    (Z.leb_spec (e_time_ si) end_time) as [C4|C4],
    (Z.ltb_spec end_time (e_time_ si)) as [C5|C5],
    (Z.ltb_spec (s_time_ si) start_time) as [C6|C6];
    simpl; try lia;
    try (eexists; split; [left|simpl; lia]; fail);
    destruct Ht;
    try (eexists; split; [left|simpl; lia]; fail);
    try (eexists; split; [right; left|simpl; lia]; fail).
Qed.

(** X18.  An obstacle of non-zero duration carves its time window out of
    the safe intervals of its cell: afterwards no interval of the cell
    reaches into the open window, no time is safe that was not safe before,
    and every time strictly before the obstacle's start or strictly after
    its end is safe exactly as it was before. *)
Theorem add_obstacle_carves_window (st st' : sipp_gridmap move) (x y : Z)
    (start_time end_time : Z) (action : move)
    (Hdur : start_time <> end_time)
    (Hrun : add_obstacle header_width to_padded_id st x y start_time end_time action
            = Done st') :
  exists old new,
    intervals_ st !! node_id_of header_width x y = Some old
    /\ intervals_ st' !! node_id_of header_width x y = Some new
    /\ (forall si, si ∈ new -> e_time_ si <= start_time \/ end_time <= s_time_ si)
    /\ (forall t, covers new t -> covers old t)
    /\ (forall t, t < start_time \/ end_time < t -> covers old t -> covers new t).
Proof.
  unfold add_obstacle in Hrun.
  destruct (Z.eqb_spec (end_time - start_time) 0) as [E|_]; [lia|].
  unbind. accesses. subst. cbn [intervals_].
  match goal with E : intervals_ st !! _ = Some ?c |- _ => rename c into old; rename E into Hold end.
  exists old. eexists. split; [exact Hold|].
  split; [apply list_lookup_insert_eq; assumption|].
  split; [|split].
  - intros si Hsi. apply sort_by_start_elem, list_elem_of_bind in Hsi as (si0 & Hsi & _).
    apply carve_within in Hsi. tauto.
  - intros t (si & Hsi & Ht).
    apply sort_by_start_elem, list_elem_of_bind in Hsi as (si0 & Hsi & Hin).
    apply carve_within in Hsi. exists si0. split; [exact Hin|lia].
  - intros t Ht (si & Hsi & Hin).
    destruct (carve_keeps start_time end_time action si t Ht Hin) as (si' & Hsi' & Hin').
    exists si'. split; [|exact Hin'].
    apply sort_by_start_elem, list_elem_of_bind. eauto.
Qed.

Lemma carve_split (start_time end_time : Z) (action : move) (si : safe_interval move) :
  s_time_ si < start_time -> start_time <= end_time -> end_time < e_time_ si ->
  carve start_time end_time action si
  = [ {| s_time_ := end_time; e_time_ := e_time_ si; action_ := action |};
      {| s_time_ := s_time_ si; e_time_ := start_time; action_ := action_ si |} ].
Proof.
  intros H1 H2 H3. unfold carve.
  destruct (Z.ltb_spec end_time (s_time_ si)) as [C1|C1]; [lia|].
  destruct (Z.ltb_spec (e_time_ si) start_time) as [C2|C2]; [lia|].
  destruct (Z.leb_spec start_time (s_time_ si)) as [C3|C3]; [lia|].
  destruct (Z.leb_spec (e_time_ si) end_time) as [C4|C4]; [lia|].
  destruct (Z.ltb_spec (s_time_ si) start_time) as [C6|C6]; [|lia].
  destruct (Z.ltb_spec end_time (e_time_ si)) as [C5|C5]; [|lia].
  reflexivity.
Qed.

(** X19.  Clearing a free cell and then adding one obstacle that lies
    strictly within the time line leaves the cell with exactly two safe
    intervals, in the order of their start times: from 0 to the obstacle's
    start, with the action of a fresh interval, and from the obstacle's end
    to [COST_MAX], with the obstacle's action.  The cell is marked in the
    temporal grid, and the intervals of every other cell are what they were
    before the two calls. *)
Theorem obstacle_on_cleared_cell (st st1 st2 : sipp_gridmap move) (x y : Z)
    (start_time end_time : Z) (action : move)
    (Hfree : gm_label (node_id_of header_width x y) = true)
    (Hstart : 0 < start_time) (Hdur : start_time < end_time) (Hend : end_time < COST_MAX)
    (Hclear : clear_obstacles header_width gm_label to_padded_id COST_MAX no_action st x y
              = Done st1)
    (Hadd : add_obstacle header_width to_padded_id st1 x y start_time end_time action
            = Done st2) :
  intervals_ st2 !! node_id_of header_width x y
    = Some [ {| s_time_ := 0; e_time_ := start_time; action_ := no_action |};
             {| s_time_ := end_time; e_time_ := COST_MAX; action_ := action |} ]
  /\ t_gm_ st2 !! to_padded_id (node_id_of header_width x y) = Some true
  /\ forall other, other <> node_id_of header_width x y ->
       intervals_ st2 !! other = intervals_ st !! other.
Proof.
  unfold clear_obstacles in Hclear. rewrite Hfree in Hclear. unbind. accesses. subst.
  unfold add_obstacle in Hadd.
  destruct (Z.eqb_spec (end_time - start_time) 0) as [E|_]; [lia|].
  unbind. accesses. subst. cbn [intervals_ t_gm_] in *.
  match goal with E : <[_ := _]> _ !! _ = Some ?c |- _ =>
    rewrite list_lookup_insert_eq in E by assumption; injection E as <- end.
  split; [|split].
  - rewrite list_lookup_insert_eq by assumption. f_equal.
    change ([?si] ≫= ?f) with (f si ++ []).
    rewrite carve_split by (simpl; lia). simpl.
    destruct (Z.ltb_spec end_time 0) as [C|C]; [lia|]. reflexivity.
  - apply lookup_insert_eq.
  - intros other Hother. rewrite !list_lookup_insert_ne by auto. reflexivity.
Qed.

End Map.

(** On the two-by-two map an obstacle from time 5 to time 10 at cell
    (1, 0): time 3 is still safe there, and no interval reaches into the
    window. *)
Lemma add_obstacle_carves_window_witness :
  exists st' new,
    SippRun.add_obstacle SippRun.grid 1 0 5 10 7 = Done st'
    /\ intervals_ st' !! 1%nat = Some new /\ covers new 3
    /\ forall si, si ∈ new -> e_time_ si <= 5 \/ 10 <= s_time_ si.
Proof.
  destruct (SippRun.add_obstacle SippRun.grid 1 0 5 10 7) as [st'| |] eqn:Hrun;
    try (vm_compute in Hrun; discriminate).
  destruct (add_obstacle_carves_window 2 (fun i => i) SippRun.grid st' 1 0 5 10 7%nat
              ltac:(discriminate) Hrun) as (old & new & Hold & Hnew & Hout & _ & Hkeep).
  exists st', new. split; [reflexivity|]. split; [exact Hnew|]. split; [|exact Hout].
  apply Hkeep; [lia|].
  vm_compute in Hold. injection Hold as <-.
  exists SippRun.free. split; [left|vm_compute; split; discriminate].
Defined.

(** The same cell, cleared and then blocked from time 5 to time 10. *)
Lemma obstacle_on_cleared_cell_witness :
  exists st1 st2,
    SippRun.clear_obstacles SippRun.grid 1 0 = Done st1
    /\ SippRun.add_obstacle st1 1 0 5 10 7 = Done st2
    /\ intervals_ st2 !! 1%nat
       = Some [ {| s_time_ := 0; e_time_ := 5; action_ := 0%nat |};
                {| s_time_ := 10; e_time_ := 1000; action_ := 7%nat |} ].
Proof.
  destruct (SippRun.clear_obstacles SippRun.grid 1 0) as [st1| |] eqn:Hclear;
    try (vm_compute in Hclear; discriminate).
  destruct (SippRun.add_obstacle st1 1 0 5 10 7) as [st2| |] eqn:Hadd;
    try (vm_compute in Hclear; injection Hclear as <-; vm_compute in Hadd; discriminate).
  exists st1, st2. split; [reflexivity|]. split; [exact Hadd|].
  destruct (obstacle_on_cleared_cell 2 (fun _ => true) (fun i => i) 1000 0%nat
              SippRun.grid st1 st2 1 0 5 10 7%nat eq_refl ltac:(lia) ltac:(lia) ltac:(lia)
              Hclear Hadd) as (Hcell & _).
  exact Hcell.
Defined.

(** *** The intervals of a cell stay a time line *)

Section Timeline.

Import TimelineClaims.

Context {move : Type}.
Variable header_width : Z.
Variable to_padded_id : nat -> nat.

Lemma pairs_app {A : Type} (R : A -> A -> Prop) (l1 l2 : list A) :
  ForallOrdPairs R l1 -> ForallOrdPairs R l2 ->
  (forall x y, x ∈ l1 -> y ∈ l2 -> R x y) ->
  ForallOrdPairs R (l1 ++ l2).
Proof.
  intros H1 H2 Hx. induction H1 as [|a l1 Ha H1 IH]; simpl; [exact H2|].
  constructor.
  - apply Forall_app. split; [exact Ha|].
    apply Forall_forall. intros y Hy. apply Hx; [left|exact Hy].
  - apply IH. intros x y Hin Hy. apply Hx; [right; exact Hin|exact Hy].
Qed.

(** What is left of a proper interval is proper, and its parts are apart. *)
Lemma carve_proper (start_time end_time : Z) (action : move) (si : safe_interval move) :
  start_time < end_time -> proper si ->
  Forall proper (carve start_time end_time action si)
  /\ ForallOrdPairs apart (carve start_time end_time action si).
Proof.
  unfold proper, carve. intros Hdur Hsi.
  destruct (Z.ltb_spec end_time (s_time_ si)) as [C1|C1];
    [split; repeat constructor; assumption|].
  destruct (Z.ltb_spec (e_time_ si) start_time) as [C2|C2];
    [split; repeat constructor; assumption|].
  destruct (Z.leb_spec start_time (s_time_ si)) as [C3|C3],
    (Z.leb_spec (e_time_ si) end_time) as [C4|C4],
    (Z.ltb_spec end_time (e_time_ si)) as [C5|C5],
    (Z.ltb_spec (s_time_ si) start_time) as [C6|C6];
    simpl; split; repeat constructor; unfold apart, before; simpl; lia.
Qed.

Lemma carved_apart (start_time end_time : Z) (action : move) :
  start_time < end_time ->
  forall l : list (safe_interval move),
    timeline l ->
    ForallOrdPairs apart (l ≫= carve start_time end_time action)
    /\ Forall proper (l ≫= carve start_time end_time action).
Proof.
  intros Hdur l [Hs Hp]. induction Hs as [|a l Hs IH Ha]; [split; constructor|].
  apply Forall_cons in Hp as [Hpa Hp]. destruct (IH Hp) as [IH1 IH2].
  destruct (carve_proper start_time end_time action a Hdur Hpa) as [Hc1 Hc2].
  change ((a :: l) ≫= carve start_time end_time action)
    with (carve start_time end_time action a ++ (l ≫= carve start_time end_time action)).
  split; [|apply Forall_app; auto].
  apply pairs_app; [exact Hc2|exact IH1|].
  intros x y Hx Hy. apply list_elem_of_bind in Hy as (b & Hy & Hb).
  apply carve_within in Hx, Hy.
  rewrite Forall_forall in Ha. pose proof (Ha b Hb) as Hab. unfold before in Hab.
  left. unfold before. lia.
Qed.

Lemma insert_timeline (x : safe_interval move) (l : list (safe_interval move)) :
  StronglySorted before l -> Forall proper l -> proper x -> Forall (apart x) l ->
  StronglySorted before (insert_by_start x l).
Proof.
  intros Hs. induction Hs as [|y l Hs IH Hy]; intros Hp Hx Ha; simpl.
  - repeat constructor.
  - apply Forall_cons in Hp as [Hpy Hp]. apply Forall_cons in Ha as [Hay Ha].
    unfold proper, apart, before in *.
    destruct (Z.ltb_spec (s_time_ x) (s_time_ y)) as [C|C].
    + constructor; [constructor; assumption|].
      constructor; [lia|].
      rewrite Forall_forall in *. intros z Hz. pose proof (Hy z Hz). lia.
    + constructor; [apply IH; assumption|].
      apply Forall_forall. intros z Hz. apply insert_by_start_elem in Hz as [->|Hz].
      * lia.
      * rewrite Forall_forall in Hy. apply Hy. exact Hz.
Qed.

Lemma sort_timeline (l : list (safe_interval move)) :
  ForallOrdPairs apart l -> Forall proper l -> timeline (sort_by_start l).
Proof.
  intros Hpairs. induction Hpairs as [|x l Hx Ha IH]; intros Hp; simpl.
  - split; constructor.
  - apply Forall_cons in Hp as [Hpx Hp]. destruct (IH Hp) as [Hs Hps].
    split.
    + apply insert_timeline; try assumption.
      rewrite Forall_forall in *. intros y Hy. apply Hx, sort_by_start_elem, Hy.
    + apply Forall_forall. intros y Hy. apply insert_by_start_elem in Hy as [->|Hy];
        [exact Hpx|]. rewrite Forall_forall in Hps. apply Hps. exact Hy.
Qed.

(** X20.  The safe intervals of a cell stay a time line: if before an
    obstacle that ends after it starts they have positive lengths and each
    ends before all later ones start, the same holds after it.  The two
    halves of a divided interval are pushed in the wrong order; the sort
    puts them right. *)
Theorem add_obstacle_keeps_timeline (st st' : sipp_gridmap move) (x y : Z)
    (start_time end_time : Z) (action : move) (old : list (safe_interval move))
    (Hdur : start_time < end_time)
    (Hold : intervals_ st !! node_id_of header_width x y = Some old)
    (Hline : timeline old)
    (Hrun : add_obstacle header_width to_padded_id st x y start_time end_time action
            = Done st') :
  exists new, intervals_ st' !! node_id_of header_width x y = Some new /\ timeline new.
Proof.
  unfold add_obstacle in Hrun.
  destruct (Z.eqb_spec (end_time - start_time) 0) as [E|_]; [lia|].
  unbind. accesses. subst. cbn [intervals_].
  match goal with E : intervals_ st !! _ = Some ?c |- _ =>
    assert (c = old) as -> by congruence end.
  eexists. split; [apply list_lookup_insert_eq; assumption|].
  destruct (carved_apart start_time end_time action Hdur old Hline) as [Hpairs Hproper].
  apply sort_timeline; assumption.
Qed.

End Timeline.

(** The free cell (1, 0) of the two-by-two map is a time line, and still
    one after the obstacle from time 5 to time 10. *)
Lemma add_obstacle_keeps_timeline_witness :
  exists st' new,
    SippRun.add_obstacle SippRun.grid 1 0 5 10 7 = Done st'
    /\ intervals_ st' !! 1%nat = Some new /\ TimelineClaims.timeline new.
Proof.
  destruct (SippRun.add_obstacle SippRun.grid 1 0 5 10 7) as [st'| |] eqn:Hrun;
    try (vm_compute in Hrun; discriminate).
  destruct (add_obstacle_keeps_timeline 2 (fun i => i) SippRun.grid st' 1 0 5 10 7%nat
              [SippRun.free] ltac:(lia) eq_refl) as (new & Hnew & Hline);
    [|exact Hrun|].
  - split; repeat constructor.
  - exists st', new. split; [reflexivity|]. split; [exact Hnew|exact Hline].
Defined.

End SippFacts.

(** ** The up pass: the up-apex of a node *)

Module ApexFacts.
Import Graph Labelling ApexClaims LabelFacts.

Section Apex.

Variable g_ : planar_graph.
Variable rank : list Z.

Lemma up_reach_trans (v t u : nat) :
  up_reach g_ rank v t -> up_reach g_ rank t u -> up_reach g_ rank v u.
Proof.
  intros R1 R2. induction R1 as [v|v t n e rv rt Hn He Hrv Hrt Hle R IH]; [exact R2|].
  eapply up_step; eauto.
Qed.

Lemma apex_progress_refl (st : store) :
  settled g_ rank st -> apex_progress g_ rank st st.
Proof. intros S. split; auto. Qed.

Lemma apex_progress_trans (st1 st2 st3 : store) :
  apex_progress g_ rank st1 st2 -> apex_progress g_ rank st2 st3 ->
  apex_progress g_ rank st1 st3.
Proof. intros [S1 D1] [S2 D2]. split; auto. Qed.

(** One turn of the first loop. *)
Lemma apex_edge_step (rec : nat -> store -> outcome store) (s : nat) (source : node)
    (k : nat) (e : edge) (st0 : store) (acc acc' : store * nat) :
  (forall t st st',
     rec t st = Done st' -> settled g_ rank st ->
     apex_progress g_ rank st st' /\ apex_done g_ rank st' t) ->
  nodes g_ !! s = Some source -> outgoing source !! k = Some e ->
  apex_progress g_ rank st0 acc.1 -> apex_so_far g_ rank s source k acc.2 ->
  apex_edge rank rec s acc k e = Done acc' ->
  apex_progress g_ rank st0 acc'.1 /\ apex_so_far g_ rank s source (S k) acc'.2.
Proof.
  intros Hrec Hsrc Hk P (Hreach & Htop & Hdone) H.
  unfold apex_edge in H. unbind. accesses.
  match goal with
    E1 : rank !! node_id_ e = Some ?x1, E2 : rank !! s = Some ?x2 |- _ =>
      rename E1 into Hrt0; rename E2 into Hrs0; rename x1 into rt; rename x2 into rs;
      destruct (Z.ltb_spec rt rs) as [Hlow|Hup]
  end.
  - accesses. subst acc'. split; [exact P|]. split; [exact Hreach|]. split; [exact Htop|].
    intros j e' rs' rt' u Hj He' Hrs' Hrt' Hle R. destruct (decide (j = k)) as [->|Hjk].
    + rewrite Hk in He'. injection He' as <-.
      rewrite Hrt0 in Hrt'. rewrite Hrs0 in Hrs'.
      injection Hrt' as <-. injection Hrs' as <-. lia.
    + apply (Hdone j e' rs' rt' u); try assumption. lia.
  - unbind.
    match goal with
    | E1 : at_ (up_apex acc.1) (node_id_ e) = Done ?x1,
      E2 : (if _ then rec _ _ else _) = Done ?x2,
      E3 : at_ (up_apex ?x2) (node_id_ e) = Done ?x3,
      E4 : at_ rank (Z.to_nat ?x3) = Done ?x4,
      E5 : at_ rank acc.2 = Done ?x5 |- _ =>
        rename E1 into Eapex; rename E2 into Erun; rename E3 into Esucc;
        rename E4 into Era; rename E5 into Erc;
        rename x1 into a_t; rename x2 into st1; rename x3 into succ_apex_id;
        rename x4 into ra; rename x5 into rc
    end.
    apply at_Done in Eapex, Esucc, Era, Erc. injection H as <-. cbn [fst snd].
    assert (apex_progress g_ rank acc.1 st1
            /\ exists apex', succ_apex_id = Z.of_nat apex'
                             /\ highest g_ rank (node_id_ e) apex')
      as ([S1 D1] & apex' & -> & Hhigh).
    { destruct P as [S0 _]. destruct (Z.eqb_spec a_t INT32_MAX) as [->|Hset].
      - destruct (Hrec _ _ _ Erun S0) as [P1 (apex' & Hap & Hhigh)].
        split; [exact P1|]. exists apex'. split; [congruence|exact Hhigh].
      - injection Erun as <-. split; [apply apex_progress_refl; exact S0|].
        destruct (S0 _ _ Esucc) as [Hmax|(apex' & Heq & Hhigh)].
        + rewrite Esucc in Eapex. injection Eapex as <-. contradiction.
        + exists apex'. auto. }
    rewrite Nat2Z.id in *. destruct Hhigh as [Hreach' Htop'].
    assert (up_reach g_ rank s apex') as Hsa.
    { eapply up_step; [exact Hsrc|eapply list_elem_of_lookup_2; exact Hk
                      |exact Hrs0|exact Hrt0|lia|exact Hreach']. }
    split; [eapply apex_progress_trans; [exact P|split; assumption]|].
    assert (forall u, tops rank acc.2 u ->
              tops rank (if rc <? ra then apex' else acc.2) u) as Hold.
    { intros u Hu ru Hru. destruct (Hu ru Hru) as (rc' & Hrc' & Hle).
      assert (rc' = rc) as -> by congruence.
      destruct (Z.ltb_spec rc ra); [exists ra; split; [assumption|lia]|eauto]. }
    assert (forall u, tops rank apex' u ->
              tops rank (if rc <? ra then apex' else acc.2) u) as Hnew.
    { intros u Hu ru Hru. destruct (Hu ru Hru) as (ra' & Hra' & Hle).
      assert (ra' = ra) as -> by congruence.
      destruct (Z.ltb_spec rc ra); [eauto|exists rc; split; [assumption|lia]]. }
    split; [destruct (rc <? ra); assumption|]. split; [apply Hold, Htop|].
    intros j e' rs' rt' u Hj He' Hrs' Hrt' Hle R. destruct (decide (j = k)) as [->|Hjk].
    + rewrite Hk in He'. injection He' as <-. apply Hnew, Htop', R.
    + apply Hold. apply (Hdone j e' rs' rt' u); try assumption. lia.
Qed.

Lemma apex_loop (rec : nat -> store -> outcome store) (s : nat) (source : node)
    (st0 : store) :
  (forall t st st',
     rec t st = Done st' -> settled g_ rank st ->
     apex_progress g_ rank st st' /\ apex_done g_ rank st' t) ->
  nodes g_ !! s = Some source ->
  forall (es : list edge) (k : nat) (acc r : store * nat),
    (forall i e, es !! i = Some e -> outgoing source !! (k + i)%nat = Some e) ->
    apex_progress g_ rank st0 acc.1 -> apex_so_far g_ rank s source k acc.2 ->
    edge_loop (apex_edge rank rec s) acc k es = Done r ->
    apex_progress g_ rank st0 r.1 /\ apex_so_far g_ rank s source (k + length es) r.2.
Proof.
  intros Hrec Hsrc. induction es as [|e es IH]; intros k acc r Hes P A H.
  - simpl in H. injection H as <-. rewrite Nat.add_0_r. auto.
  - apply edge_loop_cons in H as (acc1 & Hbody & Hrest).
    replace (k + length (e :: es))%nat with (S k + length es)%nat by (simpl; lia).
    destruct (apex_edge_step rec s source k e st0 acc acc1 Hrec Hsrc) as [P1 A1];
      try assumption.
    { specialize (Hes 0%nat e eq_refl). rewrite Nat.add_0_r in Hes. exact Hes. }
    apply (IH (S k) acc1); try assumption.
    intros i e' Hi. replace (S k + i)%nat with (k + S i)%nat by lia. apply Hes. exact Hi.
Qed.

Lemma up_label_fn_apex (fuel : nat) :
  forall (s : nat) (st st' : store),
    up_label_fn g_ rank fuel s st = Done st' -> settled g_ rank st ->
    apex_progress g_ rank st st' /\ apex_done g_ rank st' s.
Proof.
  induction fuel as [|fuel IH]; intros s st st' H S; simpl in H; [discriminate|].
  unbind. unfold get_node in *.
  match goal with
  | Hn : at_ (nodes g_) s = Done ?x0,
    Hloop : edge_loop (apex_edge _ _ _) _ _ _ = Done ?x1,
    Hset : set_at _ _ _ = Done ?x2 |- _ =>
      rename Hn into Hsrc; rename Hloop into Hloop0; rename Hset into Hset0;
      rename x0 into source; rename x1 into r; rename x2 into ua'
  end.
  apply at_Done in Hsrc. apply set_at_Done in Hset0 as [Hlt Hset0].
  assert (apex_progress g_ rank st r.1
          /\ apex_so_far g_ rank s source (0 + length (outgoing source)) r.2)
    as [[S1 D1] (Hreach & Htop & Hdone)].
  { apply (apex_loop _ s source st IH Hsrc (outgoing source) 0%nat (st, s) r);
      [| | |exact Hloop0].
    - intros i e Hi. exact Hi.
    - apply apex_progress_refl. exact S.
    - split; [apply up_here|].
      split; [intros ru Hru; exists ru; split; [exact Hru|lia]|]. intros; lia. }
  destruct (merge_loop_spec rank _ _ _ _ _ _ H) as (_ & Hua & _).
  cbn [up_apex] in Hua.
  assert (highest g_ rank s r.2) as Hhigh.
  { split; [exact Hreach|]. intros u R.
    inversion R as [v|v t n e rv rt Hn He Hrv Hrt Hle R' Ev Et]; subst.
    - exact Htop.
    - rewrite Hsrc in Hn. injection Hn as <-.
      apply list_elem_of_lookup_1 in He as [j Hj].
      apply (Hdone j e rv rt u); try assumption.
      simpl. eapply lookup_lt_Some. exact Hj. }
  assert (forall v, v <> s -> up_apex st' !! v = up_apex r.1 !! v) as Hother.
  { intros v Hv. rewrite Hua, Hset0. apply list_lookup_insert_ne. auto. }
  assert (up_apex st' !! s = Some (Z.of_nat r.2)) as Hself.
  { rewrite Hua, Hset0. apply list_lookup_insert_eq. exact Hlt. }
  split; [split|].
  - intros v a Hv. destruct (decide (v = s)) as [->|Hvs].
    + right. exists r.2. split; [congruence|exact Hhigh].
    + rewrite Hother in Hv by exact Hvs. apply (S1 v a Hv).
  - intros v Hv. destruct (decide (v = s)) as [->|Hvs]; [exists r.2; auto|].
    destruct (D1 v Hv) as (a & Ha & Hh). exists a. rewrite Hother by exact Hvs. auto.
  - exists r.2. auto.
Qed.

(** The first loop of a call, from its start to its end. *)
Lemma apex_loop_highest (fuel s : nat) (source : node) (st : store) (r : store * nat) :
  nodes g_ !! s = Some source -> settled g_ rank st ->
  edge_loop (apex_edge rank (up_label_fn g_ rank fuel) s) (st, s) 0%nat (outgoing source)
    = Done r ->
  apex_progress g_ rank st r.1 /\ highest g_ rank s r.2.
Proof.
  intros Hsrc S Hloop.
  assert (apex_progress g_ rank st r.1
          /\ apex_so_far g_ rank s source (0 + length (outgoing source)) r.2)
    as [P (Hreach & Htop & Hdone)].
  { apply (apex_loop _ s source st (up_label_fn_apex fuel) Hsrc
             (outgoing source) 0%nat (st, s) r); [| | |exact Hloop].
    - intros i e Hi. exact Hi.
    - apply apex_progress_refl. exact S.
    - split; [apply up_here|].
      split; [intros ru Hru; exists ru; split; [exact Hru|lia]|]. intros; lia. }
  split; [exact P|]. split; [exact Hreach|]. intros u R.
  inversion R as [v|v t n e rv rt Hn He Hrv Hrt Hle R' Ev Et]; subst.
  - exact Htop.
  - rewrite Hsrc in Hn. injection Hn as <-.
    apply list_elem_of_lookup_1 in He as [j Hj].
    apply (Hdone j e rv rt u); try assumption.
    simpl. eapply lookup_lt_Some. exact Hj.
Qed.

Lemma up_label_all_apex (fuel : nat) (n_ids : list nat) :
  forall st st' : store,
    up_label_all g_ rank fuel n_ids st = Done st' -> settled g_ rank st ->
    apex_progress g_ rank st st' /\ forall v, v ∈ n_ids -> apex_done g_ rank st' v.
Proof.
  induction n_ids as [|n_id n_ids IH]; intros st st' H S; simpl in H.
  - injection H as <-. split; [apply apex_progress_refl; exact S|].
    intros v Hv. inversion Hv.
  - unbind. destruct (up_label_fn_apex _ _ _ _ Ha S) as [[S1 D1] Hd].
    destruct (IH _ _ H S1) as [[S2 D2] Hall].
    split; [split; auto|].
    intros v Hv. apply elem_of_cons in Hv as [->|Hv]; auto.
Qed.

(** X21.  The up pass (Stage D), started with no up-apex recorded, records
    for every node it is run for a node that is reached from it along edges
    that do not go down and that ranks at least as high as every node
    reached in that way: the highest node above it. *)
Theorem up_apex_is_highest_above (fuel : nat) (n_ids : list nat) (st st' : store)
    (Hfresh : forall v a, up_apex st !! v = Some a -> a = INT32_MAX)
    (Hrun : up_label_all g_ rank fuel n_ids st = Done st') :
  forall v, v ∈ n_ids ->
    exists a, up_apex st' !! v = Some (Z.of_nat a)
      /\ up_reach g_ rank v a
      /\ forall u ru, up_reach g_ rank v u -> rank !! u = Some ru ->
           exists ra, rank !! a = Some ra /\ ru <= ra.
Proof.
  intros v Hv.
  destruct (up_label_all_apex fuel n_ids st st' Hrun) as [_ Hall].
  { intros w a Hw. left. eapply Hfresh. exact Hw. }
  destruct (Hall v Hv) as (a & Ha & Hreach & Htop).
  exists a. split; [exact Ha|]. split; [exact Hreach|].
  intros u ru R Hru. apply (Htop u R ru Hru).
Qed.

End Apex.

(** The four-node graph: going up from node 0 one reaches nodes 1 and 2,
    and node 2, of rank 2, is recorded as its up-apex. *)
Lemma up_apex_is_highest_above_witness :
  exists st',
    up_label_all FourNodes.graph FourNodes.rank 10 (seq 0 4)
      {| dfs_order_ := replicate 4 INT32_MAX;
         lab_ := [replicate 2 (label_new 1); [label_new 1]; []; replicate 2 (label_new 1)];
         node_labels := replicate 4 (label_new 1);
         dfs_id := 0; up_apex := replicate 4 INT32_MAX |} = Done st'
    /\ up_apex st' !! 0%nat = Some 2.
Proof.
  match goal with |- exists st', ?run = Done st' /\ _ =>
    destruct run as [st'| |] eqn:Hrun; try (vm_compute in Hrun; discriminate) end.
  exists st'. split; [reflexivity|].
  match type of Hrun with up_label_all _ _ _ _ ?st0 = _ =>
    destruct (up_apex_is_highest_above FourNodes.graph FourNodes.rank 10 (seq 0 4) st0 st')
      with (v := 0%nat) as (a & Ha & _); [|exact Hrun|left|] end.
  - intros v a Hv. apply lookup_replicate in Hv as [-> _]. reflexivity.
  - vm_compute in Hrun. injection Hrun as <-. reflexivity.
Defined.

End ApexFacts.

(** ** The two passes together: what the label of an up edge holds *)

Module ComposeFacts.
Import Graph Labelling LabelClaims RowClaims StageClaims ClosureClaims ApexClaims
  ComposeClaims LabelFacts.

Lemma edge_loop_inv {St : Type} (I : St -> Prop)
    (body : St -> nat -> edge -> outcome St) :
  (forall st k e st', I st -> body st k e = Done st' -> I st') ->
  forall (es : list edge) (k : nat) (st st' : St),
    I st -> edge_loop body st k es = Done st' -> I st'.
Proof.
  intros Hbody. induction es as [|e es IH]; intros k st st' HI H.
  - simpl in H. injection H as <-. exact HI.
  - apply edge_loop_cons in H as (st1 & Hb & Hrest).
    eapply IH; [|exact Hrest]. eapply Hbody; eassumption.
Qed.

Lemma lab_at_sized (bytes : nat) (lab : list (list down_dfs_label)) (s i : nat)
    (l : down_dfs_label) :
  uniform_rows bytes lab -> lab_at lab s i = Done l -> length (flags_ l) = bytes.
Proof.
  unfold lab_at. intros U H. unbind. accesses.
  match goal with E : lab !! s = Some ?row |- _ =>
    pose proof (Forall_lookup_1 _ _ _ _ U E) as Hrow end.
  eapply (Forall_lookup_1 _ _ _ _ Hrow). eassumption.
Qed.

Lemma lab_set_sized (bytes : nat) (lab lab' : list (list down_dfs_label)) (s i : nat)
    (l : down_dfs_label) :
  uniform_rows bytes lab -> length (flags_ l) = bytes ->
  lab_set lab s i l = Done lab' -> uniform_rows bytes lab'.
Proof.
  unfold lab_set. intros U Hl H. unbind. accesses. subst.
  match goal with E : lab !! s = Some ?row |- _ =>
    pose proof (Forall_lookup_1 _ _ _ _ U E) as Hrow end.
  apply Forall_insert; [exact U|]. apply Forall_insert; [exact Hrow|reflexivity].
Qed.

Section Passes.

Variable g_ : planar_graph.
Variable part_ : list nat.
Variable bytes : nat.
Variable rank : list Z.

Lemma size_rows_sized (n_ids : list nat) :
  forall lab lab',
    size_rows g_ bytes lab n_ids = Done lab' ->
    uniform_rows bytes lab -> uniform_rows bytes lab'.
Proof.
  induction n_ids as [|n_id n_ids IH]; intros lab lab' H U; simpl in H.
  - injection H as <-. exact U.
  - unbind. unfold get_node in *. accesses. subst.
    apply (IH _ _ H). apply Forall_insert; [exact U|].
    apply Forall_resize; [cbn [label_new flags_]; apply length_replicate|].
    eapply (Forall_lookup_1 _ _ _ _ U). eassumption.
Qed.

(** The down pass keeps the sizes of all labels and leaves [up_apex]
    alone. *)
Lemma label_fn_sized (ua : list Z) (fuel : nat) :
  forall (s : nat) (st st' : store),
    label_fn g_ part_ rank fuel s st = Done st' ->
    sized bytes ua st -> sized bytes ua st'.
Proof.
  induction fuel as [|fuel IH]; intros s st st' H S; simpl in H; [discriminate|].
  unbind. unfold get_node in *.
  match goal with
  | Hloop : edge_loop _ _ _ _ = Done ?x1,
    Hsl : at_ (node_labels ?x1) s = Done ?x7,
    Hg : grow_by _ _ _ _ _ _ = Done ?x8,
    Hnl : set_at (node_labels ?x1) s _ = Done ?x9 |- _ =>
      rename Hloop into Eloop; rename Hsl into Esl; rename Hg into Egrow;
      rename Hnl into Enl; rename x1 into st1
  end.
  assert (sized bytes ua st1) as (N1 & R1 & A1).
  { eapply (edge_loop_inv (sized bytes ua)); [|exact S|exact Eloop].
    clear -IH. intros st k e st' (N & R & A) H. unfold label_edge in H. unbind.
    match goal with E : at_ rank s = Done ?rs, E' : at_ rank (node_id_ e) = Done ?rt |- _ =>
      destruct (rs <? rt) end; [injection H as <-; split; [|split]; assumption|].
    unbind.
    match goal with
    | Hrun : (if _ then label_fn _ _ _ _ _ _ else _) = Done ?x2,
      Ht : at_ (node_labels ?x2) (node_id_ e) = Done ?x3,
      Hset : lab_set _ _ _ _ = Done ?x4,
      Hsl : at_ (node_labels ?x2) s = Done ?x5,
      Hnl : set_at _ _ _ = Done ?x6 |- _ =>
        rename Hrun into Erun; rename Ht into Et; rename Hset into Eset;
        rename Hsl into Esl; rename Hnl into Enl; rename x2 into st1
    end.
    assert (sized bytes ua st1) as (N1 & R1 & A1).
    { match type of Erun with (if ?x =? INT32_MAX then _ else _) = _ =>
        destruct (Z.eqb_spec x INT32_MAX) as [Ex|Ex] end.
      - eapply IH; [exact Erun|]. split; [|split]; assumption.
      - injection Erun as <-. split; [|split]; assumption. }
    apply at_Done in Et, Esl. apply set_at_Done in Enl as [_ ->]. injection H as <-.
    pose proof (Forall_lookup_1 _ _ _ _ N1 Et) as Hbt.
    pose proof (Forall_lookup_1 _ _ _ _ N1 Esl) as Hbs. cbv beta in Hbt, Hbs.
    split; [|split]; cbn [node_labels lab_ up_apex].
    - apply Forall_insert; [exact N1|]. rewrite ClosureFacts.merge_flags_length. exact Hbs.
    - eapply lab_set_sized; [exact R1|exact Hbt|exact Eset].
    - exact A1. }
  apply at_Done in Esl. apply set_at_Done in Enl as [_ ->]. injection H as <-.
  split; [|split]; cbn [node_labels lab_ up_apex]; [|exact R1|exact A1].
  apply Forall_insert; [exact N1|].
  rewrite (ClosureFacts.grow_by_flags_length _ _ _ _ _ _ _ Egrow).
  apply (Forall_lookup_1 _ _ _ _ N1 Esl).
Qed.

Lemma apex_loop_sized (rec : nat -> store -> outcome store) (s : nat) :
  (forall t st st', rec t st = Done st' -> all_sized bytes st -> all_sized bytes st') ->
  forall (es : list edge) (k : nat) (acc r : store * nat),
    all_sized bytes acc.1 ->
    edge_loop (apex_edge rank rec s) acc k es = Done r -> all_sized bytes r.1.
Proof.
  intros Hrec es k acc r.
  apply (edge_loop_inv (fun a : store * nat => all_sized bytes a.1)).
  clear -Hrec. intros acc k e acc' Hz H. unfold apex_edge in H. unbind.
  match goal with E : at_ rank s = Done ?rs, E' : at_ rank (node_id_ e) = Done ?rt |- _ =>
    destruct (rt <? rs) end; [injection H as <-; exact Hz|].
  unbind. injection H as <-. cbn [fst].
  match goal with E : (if ?x =? INT32_MAX then _ else _) = _ |- _ =>
    destruct (Z.eqb_spec x INT32_MAX) as [Ex|Ex];
    [eapply Hrec; [exact E|exact Hz]|injection E as <-; exact Hz] end.
Qed.

Lemma merge_loop_sized (s apex : nat) :
  forall (es : list edge) (k : nat) (st st' : store),
    all_sized bytes st ->
    edge_loop (merge_edge rank s apex) st k es = Done st' -> all_sized bytes st'.
Proof.
  apply (edge_loop_inv (all_sized bytes)).
  intros st k e st' [N R] H. unfold merge_edge in H. unbind.
  match goal with E : at_ rank s = Done ?rs, E' : at_ rank (node_id_ e) = Done ?rt |- _ =>
    destruct (rt <? rs) end; [injection H as <-; split; assumption|].
  unbind. injection H as <-. split; cbn [node_labels lab_]; [exact N|].
  match goal with E : lab_set _ _ _ _ = Done _ |- _ =>
    eapply lab_set_sized; [exact R| |exact E] end.
  rewrite ClosureFacts.merge_flags_length. eapply lab_at_sized; eassumption.
Qed.

(** The up pass keeps the sizes of all labels. *)
Lemma up_label_fn_sized (fuel : nat) :
  forall (s : nat) (st st' : store),
    up_label_fn g_ rank fuel s st = Done st' -> all_sized bytes st -> all_sized bytes st'.
Proof.
  induction fuel as [|fuel IH]; intros s st st' H Hz; simpl in H; [discriminate|].
  unbind.
  match goal with E : edge_loop (apex_edge _ _ _) _ _ _ = Done ?r |- _ =>
    pose proof (apex_loop_sized _ s IH _ _ (st, s) _ Hz E) as [N1 R1] end.
  eapply merge_loop_sized; [|exact H]. split; assumption.
Qed.

Lemma up_label_all_sized (fuel : nat) (n_ids : list nat) :
  forall st st' : store,
    up_label_all g_ rank fuel n_ids st = Done st' -> all_sized bytes st ->
    all_sized bytes st'.
Proof.
  induction n_ids as [|n_id n_ids IH]; intros st st' H Hz; simpl in H.
  - injection H as <-. exact Hz.
  - unbind. eapply IH; [exact H|]. eapply up_label_fn_sized; eassumption.
Qed.

(** The call for a node that the up pass is run for. *)
Lemma up_label_all_split (fuel : nat) (n_ids : list nat) :
  forall (st st' : store) (v : nat),
    up_label_all g_ rank fuel n_ids st = Done st' -> v ∈ n_ids ->
    exists l1 l2 st_a st_b,
      n_ids = l1 ++ v :: l2
      /\ up_label_all g_ rank fuel l1 st = Done st_a
      /\ up_label_fn g_ rank fuel v st_a = Done st_b
      /\ up_label_all g_ rank fuel l2 st_b = Done st'.
Proof.
  induction n_ids as [|n_id n_ids IH]; intros st st' v H Hv; [inversion Hv|].
  simpl in H. unbind. apply elem_of_cons in Hv as [->|Hv].
  - exists [], n_ids, st. eexists. repeat split; eassumption.
  - destruct (IH _ _ _ H Hv) as (l1 & l2 & st_a & st_b & -> & H1 & H2 & H3).
    exists (n_id :: l1), l2, st_a, st_b. simpl. rewrite Ha. simpl. auto.
Qed.

(** What one call of [up_label_fn] leaves on the edges of its node that do
    not go down: their labels, merged with the node label of a highest node
    above. *)
Lemma up_label_fn_merges (fuel s : nat) (st st' : store) :
  up_label_fn g_ rank fuel s st = Done st' ->
  settled g_ rank st -> all_sized bytes st ->
  exists apex, highest g_ rank s apex
    /\ forall source idx e rs rt,
         nodes g_ !! s = Some source -> outgoing source !! idx = Some e ->
         rank !! s = Some rs -> rank !! node_id_ e = Some rt -> rs <= rt ->
         exists e_lab a_lab,
           node_labels st !! apex = Some a_lab
           /\ lab_at (lab_ st') s idx = Done (merge e_lab a_lab)
           /\ length (flags_ e_lab) = bytes.
Proof.
  destruct fuel as [|fuel]; simpl; intros H S Hz; [discriminate|].
  unbind. unfold get_node in *.
  match goal with
  | Hn : at_ (nodes g_) s = Done ?x0,
    Hloop : edge_loop (apex_edge _ _ _) _ _ _ = Done ?x1,
    Hset : set_at _ _ _ = Done ?x2 |- _ =>
      rename Hn into Esrc; rename Hloop into Eloop; rename Hset into Eset;
      rename x0 into source; rename x1 into r; rename x2 into ua'
  end.
  apply at_Done in Esrc.
  destruct (ApexFacts.apex_loop_highest g_ rank fuel s source st r Esrc S Eloop)
    as [_ Hhigh].
  pose proof (LabellingFacts.apex_loop_keeps g_ rank _ s
                (LabellingFacts.up_label_fn_keeps g_ rank fuel) _ _ _ _ Eloop) as K.
  cbn [fst] in K. destruct K as [KN _ _ _ _].
  pose proof (apex_loop_sized _ s (up_label_fn_sized fuel) _ _ (st, s) _ Hz Eloop) as [_ R1].
  destruct (merge_loop_spec rank _ _ _ _ _ _ H) as (_ & _ & _ & Hedges).
  exists r.2. split; [exact Hhigh|].
  intros source' idx e rs rt Hsrc Hidx Hrs Hrt Hle.
  rewrite Esrc in Hsrc. injection Hsrc as <-.
  destruct (Hedges idx e rt rs Hidx Hrt Hrs Hle) as (e_lab & a_lab & H1 & H2 & H3).
  cbn [node_labels lab_ Nat.add] in H1, H2, H3.
  exists e_lab, a_lab. split; [rewrite <- KN; exact H2|]. split; [exact H3|].
  eapply lab_at_sized; eassumption.
Qed.

Hypothesis Hstrict : strict_ranks g_ rank.

(** X22.  [compute_labels] as a whole, on a labelling without labels so
    far, for a hierarchy without edges between nodes of equal rank and with
    no more than [INT32_MAX] nodes: when it returns, the label of every edge
    that does not go down holds, for some highest node above the edge's
    source, every node that can be reached from that node along edges that
    do not go up, provided the down pass numbered that node. *)
Theorem up_edge_labels_hold_below_the_apex (fuel : nat) (st' : store)
    (Hnodes : Z.of_nat (get_num_nodes g_) <= INT32_MAX)
    (Hrun : compute_labels g_ part_ bytes rank fuel [] [] = Done st') :
  forall s n idx e rs rt,
    nodes g_ !! s = Some n -> outgoing n !! idx = Some e ->
    rank !! s = Some rs -> rank !! node_id_ e = Some rt -> rs <= rt ->
    exists apex l,
      up_reach g_ rank s apex
      /\ (forall u ru, up_reach g_ rank s u -> rank !! u = Some ru ->
            exists ra, rank !! apex = Some ra /\ ru <= ra)
      /\ lab_at (lab_ st') s idx = Done l
      /\ (numbered st' apex ->
          forall t, down_reach g_ rank apex t ->
            holds_node g_ part_ rank (dfs_order_ st') l t).
Proof.
  intros s n idx e rs rt Hn Hidx Hrs Hrt Hle.
  unfold compute_labels in Hrun. rewrite !resize_nil in Hrun. unbind.
  match goal with
  | Hs : size_rows _ _ _ _ = Done ?x0, Hl : label_fn _ _ _ _ _ _ = Done ?x1 |- _ =>
      rename Hs into Erows; rename Hl into Edown; rename x0 into lab'; rename x1 into st1
  end.
  pose proof (ClosureFacts.label_fn_in_range _ _ _ _ _ _ _ Edown) as Hin.
  cbn [node_labels] in Hin. rewrite length_replicate in Hin.
  match type of Edown with label_fn _ _ _ _ ?a ?st0 = _ =>
    assert (progress g_ part_ rank bytes a st0 st1 /\ numbered st1 a)
      as [[C' _ U1 _ _ _] _];
    [|assert (sized bytes (replicate (get_num_nodes g_) INT32_MAX) st1)
        as (N1 & R1 & A1)] end.
  { eapply (ClosureFacts.label_fn_fresh g_ part_ bytes rank Hstrict);
      [| | | | |exact Edown].
    - intros v d Hv. cbn [dfs_order_] in Hv. apply lookup_replicate in Hv as [-> _].
      reflexivity.
    - cbn [dfs_order_]. rewrite length_replicate. exact Hin.
    - cbn [dfs_id]. lia.
    - cbn [dfs_id dfs_order_]. rewrite length_replicate. lia.
    - intros v l Hv. cbn [node_labels] in Hv. apply lookup_replicate in Hv as [-> _].
      cbn [label_new flags_]. apply length_replicate. }
  { eapply label_fn_sized; [exact Edown|]. split; [|split]; cbn [node_labels lab_ up_apex].
    - apply Forall_replicate. cbn [label_new flags_]. apply length_replicate.
    - eapply size_rows_sized; [exact Erows|]. apply Forall_replicate. constructor.
    - reflexivity. }
  assert (s ∈ seq 0 (get_num_nodes g_)) as Hs.
  { apply elem_of_seq. apply lookup_lt_Some in Hn. unfold get_num_nodes. lia. }
  destruct (up_label_all_split _ _ _ _ _ Hrun Hs)
    as (l1 & l2 & st_a & st_b & _ & Hpre & Hcall & Hpost).
  assert (settled g_ rank st1) as S1.
  { intros v x Hv. left. rewrite A1 in Hv. apply lookup_replicate in Hv as [-> _].
    reflexivity. }
  destruct (ApexFacts.up_label_all_apex g_ rank _ _ _ _ Hpre S1) as [[Sa _] _].
  pose proof (up_label_all_sized _ _ _ _ Hpre (conj N1 R1)) as Za.
  destruct (LabellingFacts.up_label_all_keeps g_ rank _ _ _ _ Hpre) as [KNa KOa _ _ _].
  destruct (LabellingFacts.up_label_fn_keeps g_ rank _ _ _ _ Hcall) as [KNb KOb _ _ _].
  destruct (LabellingFacts.up_label_all_keeps g_ rank _ _ _ _ Hpost) as [KNc KOc _ KRc _].
  destruct (up_label_fn_merges _ _ _ _ Hcall Sa Za) as (apex & [Hreach Htop] & Hedges).
  destruct (Hedges n idx e rs rt Hn Hidx Hrs Hrt Hle) as (e_lab & a_lab & Hal & Hlab & Hel).
  destruct (KRc s idx _ Hlab) as (l & Hl & Hlle).
  exists apex, l. split; [exact Hreach|].
  split; [intros u ru R Hru; apply (Htop u R ru Hru)|]. split; [exact Hl|].
  intros Hnum t Hdown.
  assert (dfs_order_ st' = dfs_order_ st1) as HO by congruence.
  assert (numbered st1 apex) as Hnum1 by (unfold numbered in *; rewrite <- HO; exact Hnum).
  destruct (ClosureFacts.closed_reach g_ part_ rank st1 C' apex t Hdown Hnum1)
    as (_ & la & lt & Hla & Hlt & Hlle' & Hh).
  rewrite KNa in Hal. assert (la = a_lab) as -> by congruence.
  rewrite HO. eapply ClosureFacts.holds_node_le; [exact Hh|].
  eapply label_le_trans; [exact Hlle'|].
  eapply label_le_trans; [|exact Hlle].
  apply ClosureFacts.merge_le_r. rewrite Hel. apply (U1 apex). exact Hla.
Qed.

End Passes.

(** The four-node graph, labelled from scratch: the label of the up edge
    from node 0 to node 1 is there, with a highest node above node 0. *)
Lemma up_edge_labels_hold_below_the_apex_witness :
  exists st' apex l,
    compute_labels FourNodes.graph FourNodes.part 1 FourNodes.rank 10 [] [] = Done st'
    /\ up_reach FourNodes.graph FourNodes.rank 0 apex
    /\ lab_at (lab_ st') 0 0 = Done l.
Proof.
  match goal with |- exists st' apex l, ?run = Done st' /\ _ =>
    destruct run as [st'| |] eqn:Hrun; try (vm_compute in Hrun; discriminate) end.
  assert (Z.of_nat (get_num_nodes FourNodes.graph) <= INT32_MAX) as Hnodes
    by (vm_compute; discriminate).
  destruct (up_edge_labels_hold_below_the_apex
              FourNodes.graph FourNodes.part 1 FourNodes.rank ClosureFacts.four_nodes_strict
              10 st' Hnodes Hrun 0%nat (FourNodes.node_of [(1%nat, 1); (2%nat, 1)]) 0%nat
              {| node_id_ := 1; wt_ := 1 |} 0 1)
    as (apex & l & Hreach & _ & Hl & _);
    [reflexivity|reflexivity|reflexivity|reflexivity|lia|].
  exists st', apex, l. split; [reflexivity|]. split; [exact Hreach|exact Hl].
Defined.

End ComposeFacts.

(** ** The labelling returns on a well-formed hierarchy *)

Module TotalFacts.
Import Graph Labelling ClosureClaims TotalClaims LabelFacts ClosureFacts ComposeFacts.

Lemma returns_done {A : Type} (I : A -> Prop) (a : A) : I a -> returns I (Done a).
Proof. intros H. exists a. auto. Qed.

Lemma returns_mono {A : Type} (I J : A -> Prop) (m : outcome A) :
  (forall a, I a -> J a) -> returns I m -> returns J m.
Proof. intros H (a & E & Ha). exists a. auto. Qed.

Lemma returns_bind {A B : Type} (J : A -> Prop) (I : B -> Prop)
    (m : outcome A) (k : A -> outcome B) :
  returns J m -> (forall a, J a -> returns I (k a)) -> returns I (obind m k).
Proof. intros (a & -> & Ha) Hk. simpl. auto. Qed.

Lemma returns_at {A B : Type} (I : B -> Prop) (v : list A) (i : nat)
    (k : A -> outcome B) :
  (i < length v)%nat -> (forall a, v !! i = Some a -> returns I (k a)) ->
  returns I (obind (at_ v i) k).
Proof.
  intros Hi Hk. destruct (lookup_lt_is_Some_2 v i Hi) as [a Ea].
  rewrite (proj2 (at_Done v i a) Ea). simpl. auto.
Qed.

Lemma returns_set_at {A B : Type} (I : B -> Prop) (v : list A) (i : nat) (x : A)
    (k : list A -> outcome B) :
  (i < length v)%nat -> returns I (k (<[i := x]> v)) ->
  returns I (obind (set_at v i x) k).
Proof.
  intros Hi Hk. rewrite (proj2 (set_at_Done v i x _) (conj Hi eq_refl)). exact Hk.
Qed.

Lemma returns_lab_set {B : Type} (I : B -> Prop) (lab : list (list down_dfs_label))
    (s i : nat) (l : down_dfs_label) (row : list down_dfs_label)
    (k : list (list down_dfs_label) -> outcome B) :
  lab !! s = Some row -> (i < length row)%nat ->
  returns I (k (<[s := <[i := l]> row]> lab)) ->
  returns I (obind (lab_set lab s i l) k).
Proof.
  intros Es Hi Hk. unfold lab_set.
  rewrite (proj2 (at_Done lab s row) Es). cbn [obind].
  rewrite (proj2 (set_at_Done row i l _) (conj Hi eq_refl)). cbn [obind].
  rewrite (proj2 (set_at_Done lab s _ _) (conj (lookup_lt_Some _ _ _ Es) eq_refl)).
  exact Hk.
Qed.

Lemma returns_lab_at {B : Type} (I : B -> Prop) (lab : list (list down_dfs_label))
    (s i : nat) (row : list down_dfs_label) (k : down_dfs_label -> outcome B) :
  lab !! s = Some row -> (i < length row)%nat ->
  (forall l, row !! i = Some l -> returns I (k l)) ->
  returns I (obind (lab_at lab s i) k).
Proof.
  intros Es Hi Hk. unfold lab_at.
  rewrite (proj2 (at_Done lab s row) Es). cbn [obind].
  apply returns_at; assumption.
Qed.

Lemma returns_loop {St : Type} (I : St -> Prop)
    (body : St -> nat -> edge -> outcome St) (es : list edge) :
  forall (k : nat) (st : St),
    (forall st i e, I st -> es !! i = Some e -> returns I (body st (k + i)%nat e)) ->
    I st -> returns I (edge_loop body st k es).
Proof.
  induction es as [|e es IH]; intros k st Hbody HI.
  - apply returns_done. exact HI.
  - cbn [edge_loop]. apply returns_bind with (J := I).
    + specialize (Hbody st 0%nat e HI eq_refl). rewrite Nat.add_0_r in Hbody. exact Hbody.
    + intros st1 H1. apply IH; [|exact H1].
      intros st2 i e2 H2 Ei. replace (S k + i)%nat with (k + S i)%nat by lia.
      apply Hbody; assumption.
Qed.

Section Total.

Variable g : planar_graph.
Variable part : list nat.
Variable bytes : nat.
Variable rank : list Z.
Hypothesis Hwf : well_formed g part bytes rank.

Lemma rank_le_top (i : nat) (r : Z) : rank !! i = Some r -> 0 <= r <= top rank.
Proof.
  intros E. split; [exact (Forall_lookup_1 _ _ _ _ (wf_ranks _ _ _ _ Hwf) E)|].
  unfold top. clear Hwf. revert i E.
  induction rank as [|x l IH]; intros i E; [discriminate|].
  destruct i as [|i]; simpl in *.
  - injection E as ->. lia.
  - specialize (IH i E). lia.
Qed.

Lemma find_apex_total (ids : list nat) :
  forall a,
    (a < length rank)%nat -> Forall (fun i => (i < length rank)%nat) ids ->
    returns (fun a' => (a' < length rank)%nat) (find_apex rank a ids).
Proof.
  induction ids as [|i ids IH]; intros a Ha Hids.
  - apply returns_done. exact Ha.
  - apply Forall_cons in Hids as [Hi Hids]. cbn [find_apex].
    apply returns_at; [exact Hi|]. intros ri _.
    apply returns_at; [exact Ha|]. intros ra _.
    apply IH; [|exact Hids]. destruct (ra <? ri); assumption.
Qed.

Lemma size_rows_total (ids : list nat) :
  forall (P : nat -> Prop) (lab : list (list down_dfs_label)),
    Forall (fun i => (i < get_num_nodes g)%nat) ids ->
    length lab = get_num_nodes g ->
    (forall s source row, P s -> nodes g !! s = Some source -> lab !! s = Some row ->
       length row = out_degree source) ->
    returns (fun lab' =>
               length lab' = get_num_nodes g
               /\ forall s source row, P s \/ s ∈ ids ->
                    nodes g !! s = Some source -> lab' !! s = Some row ->
                    length row = out_degree source)
            (size_rows g bytes lab ids).
Proof.
  induction ids as [|i ids IH]; intros P lab Hids Hlen HP.
  - apply returns_done. split; [exact Hlen|].
    intros s source row [Hs|Hs]; [eauto|]. inversion Hs.
  - apply Forall_cons in Hids as [Hi Hids]. cbn [size_rows]. unfold get_node.
    apply returns_at; [exact Hi|]. intros n En.
    apply returns_at; [lia|]. intros row Erow.
    apply returns_set_at; [lia|].
    eapply returns_mono; [|apply (IH (fun s => P s \/ s = i))].
    + cbv beta. intros lab' [Hl Hr]. split; [exact Hl|].
      intros s source row' Hs. apply Hr.
      rewrite elem_of_cons in Hs. tauto.
    + exact Hids.
    + rewrite length_insert. exact Hlen.
    + intros s source row' Hs Es Er.
      destruct (decide (s = i)) as [->|Hne].
      * rewrite list_lookup_insert_eq in Er by lia. injection Er as <-.
        rewrite length_resize. congruence.
      * rewrite list_lookup_insert_ne in Er by congruence.
        destruct Hs as [Hs|Hs]; [eauto|contradiction].
Qed.

Lemma label_fn_total (fuel : nat) :
  forall (s : nat) (st : store) (rs : Z),
    rank !! s = Some rs -> rs < Z.of_nat fuel -> shape g bytes st ->
    returns (shape g bytes) (label_fn g part rank fuel s st).
Proof.
  pose proof (wf_rank _ _ _ _ Hwf) as Hrank.
  pose proof (wf_part _ _ _ _ Hwf) as Hpart.
  induction fuel as [|fuel IH]; intros s st rs Ers Hfuel Hst.
  - pose proof (rank_le_top _ _ Ers). lia.
  - pose proof (lookup_lt_Some _ _ _ Ers) as Hs.
    cbn [label_fn]. unfold get_node.
    apply returns_at; [rewrite (sh_labels _ _ _ Hst); lia|]. intros _ _.
    apply returns_at; [unfold get_num_nodes in *; lia|]. intros source Esrc.
    apply returns_bind with (J := shape g bytes).
    + apply returns_loop; [|exact Hst].
      intros st0 i e H0 Ee. cbn [Nat.add]. unfold label_edge.
      pose proof (wf_edges _ _ _ _ Hwf s source e Esrc (list_elem_of_lookup_2 _ _ _ Ee)) as Ht.
      apply returns_at; [lia|]. intros rt Ert.
      apply returns_at; [lia|]. intros rs' Ers'.
      assert (rs' = rs) as -> by congruence.
      destruct (Z.ltb_spec rs rt) as [Hup|Hdown]; [apply returns_done; exact H0|].
      apply returns_at; [rewrite (sh_order _ _ _ H0); lia|]. intros d _.
      apply returns_bind with (J := shape g bytes).
      { destruct (d =? INT32_MAX); [|apply returns_done; exact H0].
        apply (IH _ _ rt); [exact Ert| |exact H0].
        pose proof (wf_strict _ _ _ _ Hwf s source e rs rt Esrc
                      (list_elem_of_lookup_2 _ _ _ Ee) Ers Ert). lia. }
      intros st1 H1.
      apply returns_at; [rewrite (sh_labels _ _ _ H1); lia|]. intros t_lab Et.
      destruct (lookup_lt_is_Some_2 (lab_ st1) s) as [row Erow];
        [rewrite (sh_lab _ _ _ H1); lia|].
      pose proof (sh_rows _ _ _ H1 s source row Esrc Erow) as Hrow.
      eapply returns_lab_set;
        [exact Erow|apply lookup_lt_Some in Ee; unfold out_degree in Hrow; lia|].
      apply returns_at; [rewrite (sh_labels _ _ _ H1); lia|]. intros s_lab Esl.
      apply returns_set_at; [rewrite (sh_labels _ _ _ H1); lia|].
      apply returns_done. destruct H1 as [A1 A2 A3 A4 A5 A6 A7].
      split; cbn [dfs_order_ lab_ node_labels up_apex];
        rewrite ?length_insert; try assumption.
      * intros s' source' row' Es' Er'.
        destruct (decide (s' = s)) as [->|Hne].
        -- rewrite list_lookup_insert_eq in Er' by lia. injection Er' as <-.
           rewrite length_insert. congruence.
        -- rewrite list_lookup_insert_ne in Er' by congruence. eauto.
      * apply Forall_insert; [exact A6|]. rewrite merge_flags_length.
        exact (Forall_lookup_1 _ _ _ _ A6 Esl).
    + intros st1 H1.
      apply returns_at; [rewrite (sh_order _ _ _ H1); lia|]. intros d _.
      apply returns_bind
        with (J := fun o : list Z => length o = get_num_nodes g).
      { pose proof (sh_order _ _ _ H1) as Ho.
        assert (s < length (dfs_order_ st1))%nat as Hlt by lia.
        destruct (d =? INT32_MAX).
        - rewrite (proj2 (set_at_Done _ _ (dfs_id st1) _) (conj Hlt eq_refl)).
          apply returns_done. rewrite length_insert. exact Ho.
        - apply returns_done. exact Ho. }
      intros order' Ho.
      apply returns_at; [lia|]. intros r _.
      apply returns_at; [lia|]. intros d' _.
      apply returns_at; [lia|]. intros s_part Ep.
      apply returns_at; [rewrite (sh_labels _ _ _ H1); lia|]. intros s_lab Esl.
      pose proof (Forall_lookup_1 _ _ _ _ (sh_flags _ _ _ H1) Esl) as Hfl.
      pose proof (wf_bytes _ _ _ _ Hwf s_part (list_elem_of_lookup_2 _ _ _ Ep)) as Hb.
      cbv beta in Hfl.
      apply returns_bind with (J := fun l : down_dfs_label => length (flags_ l) = bytes).
      { unfold grow_by. destruct (decide _) as [_|Hn]; [|lia].
        apply returns_done. cbn [flags_]. rewrite length_insert. exact Hfl. }
      intros s_lab' Hfl'.
      apply returns_set_at; [rewrite (sh_labels _ _ _ H1); lia|].
      apply returns_done. destruct H1 as [A1 A2 A3 A4 A5 A6 A7].
      split; cbn [dfs_order_ lab_ node_labels up_apex];
        rewrite ?length_insert; try assumption.
      apply Forall_insert; assumption.
Qed.

Lemma up_label_fn_total (fuel : nat) :
  forall (s : nat) (st : store) (rs : Z),
    rank !! s = Some rs -> top rank - rs < Z.of_nat fuel -> shape g bytes st ->
    returns (fun st' => shape g bytes st' /\ apex_known g s st')
            (up_label_fn g rank fuel s st).
Proof.
  pose proof (wf_rank _ _ _ _ Hwf) as Hrank.
  induction fuel as [|fuel IH]; intros s st rs Ers Hfuel Hst.
  - pose proof (rank_le_top _ _ Ers). lia.
  - pose proof (lookup_lt_Some _ _ _ Ers) as Hs.
    cbn [up_label_fn]. unfold get_node.
    apply returns_at; [unfold get_num_nodes in *; lia|]. intros source Esrc.
    apply returns_bind
      with (J := fun r : store * nat => shape g bytes r.1 /\ (r.2 < get_num_nodes g)%nat).
    + apply returns_loop; [|split; [exact Hst|cbn [snd]; lia]].
      intros [st0 c] i e [H0 Hc] Ee. cbn [fst snd] in H0, Hc. unfold apex_edge.
      pose proof (wf_edges _ _ _ _ Hwf s source e Esrc (list_elem_of_lookup_2 _ _ _ Ee)) as Ht.
      apply returns_at; [lia|]. intros rt Ert.
      apply returns_at; [lia|]. intros rs' Ers'.
      assert (rs' = rs) as -> by congruence.
      destruct (Z.ltb_spec rt rs) as [Hdown|Hup];
        [apply returns_done; split; assumption|].
      cbn [fst snd].
      apply returns_at; [rewrite (sh_apex _ _ _ H0); lia|]. intros a Ea.
      apply returns_bind
        with (J := fun st1 => shape g bytes st1 /\ apex_known g (node_id_ e) st1).
      { destruct (Z.eqb_spec a INT32_MAX) as [Hmax|Hset].
        - apply (IH _ _ rt); [exact Ert| |exact H0].
          pose proof (wf_strict _ _ _ _ Hwf s source e rs rt Esrc
                        (list_elem_of_lookup_2 _ _ _ Ee) Ers Ert). lia.
        - apply returns_done. split; [exact H0|].
          destruct (sh_known _ _ _ H0 _ _ Ea) as [?|(x & Hx & ->)]; [contradiction|].
          exists x. auto. }
      intros st1 [H1 (x & Hx & Ex)].
      rewrite (proj2 (at_Done _ _ _) Ex). cbn [obind]. rewrite Nat2Z.id.
      apply returns_at; [lia|]. intros ra _.
      apply returns_at; [lia|]. intros rc _.
      apply returns_done. cbn [fst snd]. split; [exact H1|].
      destruct (rc <? ra); assumption.
    + intros [st1 apex] [H1 Hap]. cbn [fst snd] in *.
      apply returns_set_at; [rewrite (sh_apex _ _ _ H1); lia|].
      apply returns_loop.
      * intros st2 i e [H2 K2] Ee. unfold merge_edge.
        pose proof (wf_edges _ _ _ _ Hwf s source e Esrc (list_elem_of_lookup_2 _ _ _ Ee)) as Ht.
        apply returns_at; [lia|]. intros rt Ert.
        apply returns_at; [lia|]. intros rs' Ers'.
        destruct (rt <? rs'); [apply returns_done; split; assumption|].
        destruct (lookup_lt_is_Some_2 (lab_ st2) s) as [row Erow];
          [rewrite (sh_lab _ _ _ H2); lia|].
        pose proof (sh_rows _ _ _ H2 s source row Esrc Erow) as Hrow.
        assert (0 + i < length row)%nat as Hi
          by (apply lookup_lt_Some in Ee; unfold out_degree in Hrow; lia).
        eapply returns_lab_at; [exact Erow|exact Hi|]. intros e_lab _.
        apply returns_at; [rewrite (sh_labels _ _ _ H2); lia|]. intros a_lab _.
        eapply returns_lab_set; [exact Erow|exact Hi|].
        apply returns_done. split; [|exact K2].
        destruct H2 as [A1 A2 A3 A4 A5 A6 A7].
        split; cbn [dfs_order_ lab_ node_labels up_apex];
          rewrite ?length_insert; try assumption.
        intros s' source' row' Es' Er'.
        destruct (decide (s' = s)) as [->|Hne].
        -- rewrite list_lookup_insert_eq in Er' by lia. injection Er' as <-.
           rewrite length_insert. congruence.
        -- rewrite list_lookup_insert_ne in Er' by congruence. eauto.
      * destruct H1 as [A1 A2 A3 A4 A5 A6 A7]. split.
        -- split; cbn [dfs_order_ lab_ node_labels up_apex];
             rewrite ?length_insert; try assumption.
           intros v a Ev. destruct (decide (v = s)) as [->|Hne].
           ++ rewrite list_lookup_insert_eq in Ev by lia. injection Ev as <-.
              right. exists apex. auto.
           ++ rewrite list_lookup_insert_ne in Ev by congruence. eauto.
        -- exists apex. cbn [up_apex]. split; [exact Hap|].
           apply list_lookup_insert_eq. lia.
Qed.

Lemma up_label_all_total (fuel : nat) (ids : list nat) :
  forall st : store,
    top rank < Z.of_nat fuel ->
    Forall (fun i => (i < get_num_nodes g)%nat) ids -> shape g bytes st ->
    returns (shape g bytes) (up_label_all g rank fuel ids st).
Proof.
  pose proof (wf_rank _ _ _ _ Hwf) as Hrank.
  induction ids as [|i ids IH]; intros st Hfuel Hids Hst.
  - apply returns_done. exact Hst.
  - apply Forall_cons in Hids as [Hi Hids]. cbn [up_label_all].
    destruct (lookup_lt_is_Some_2 rank i) as [ri Eri]; [lia|].
    apply returns_bind with (J := shape g bytes).
    + eapply returns_mono; [|apply (up_label_fn_total fuel i st ri Eri); [|exact Hst]].
      * intros st' [H' _]. exact H'.
      * pose proof (rank_le_top _ _ Eri). lia.
    + intros st' H'. apply IH; assumption.
Qed.

(** X23.  On well-formed inputs (one rank and one partition id per node,
    at least one node, edges that stay inside the graph, enough flag bytes
    for every partition id, no edge between nodes of equal rank)
    [compute_labels] returns: no access is out of range and the recursion
    ends, whatever [dfs_order_] and [lab_] held before.  The result has one
    postorder id and one row of labels per node, and each row has one label
    per edge of its node. *)
Theorem compute_labels_returns (fuel : nat) (dfs_order0 : list Z)
    (lab0 : list (list down_dfs_label)) :
  top rank < Z.of_nat fuel ->
  returns (shape g bytes) (compute_labels g part bytes rank fuel dfs_order0 lab0).
Proof.
  intros Hfuel.
  pose proof (wf_rank _ _ _ _ Hwf) as Hrank.
  pose proof (wf_nodes _ _ _ _ Hwf) as Hpos.
  assert (Forall (fun i => (i < get_num_nodes g)%nat) (seq 0 (get_num_nodes g))) as Hseq
    by (apply Forall_forall; intros i Hi; apply elem_of_seq in Hi; lia).
  unfold compute_labels.
  apply returns_bind with (J := fun a => (a < length rank)%nat).
  { apply find_apex_total; [lia|]. rewrite Hrank. exact Hseq. }
  intros apex Hapex.
  eapply returns_bind.
  { apply (size_rows_total (seq 0 (get_num_nodes g)) (fun _ => False));
      [exact Hseq|apply length_resize|contradiction]. }
  cbv beta. intros lab' [Hlen Hrows].
  destruct (lookup_lt_is_Some_2 rank apex Hapex) as [ra Era].
  apply returns_bind with (J := shape g bytes).
  - apply (label_fn_total fuel apex _ ra Era).
    + pose proof (rank_le_top _ _ Era). lia.
    + split; cbn [dfs_order_ lab_ node_labels up_apex];
        rewrite ?length_resize, ?length_replicate; try reflexivity.
      * exact Hlen.
      * intros s source row Es Er. apply (Hrows s source row); [|exact Es|exact Er].
        right. apply elem_of_seq. apply lookup_lt_Some in Es.
        unfold get_num_nodes. lia.
      * apply Forall_replicate. cbn [label_new flags_]. apply length_replicate.
      * intros v a Ev. apply lookup_replicate in Ev as [-> _]. left. reflexivity.
  - intros st Hst. apply up_label_all_total; assumption.
Qed.

End Total.

Lemma edge_loop_reaches {St : Type} (I : St -> Prop)
    (body : St -> nat -> edge -> outcome St) :
  (forall st k e st', I st -> body st k e = Done st' -> I st') ->
  forall (es : list edge) (k : nat) (st st' : St) (e : edge),
    I st -> e ∈ es -> edge_loop body st k es = Done st' ->
    exists st1 k1 st2, I st1 /\ body st1 k1 e = Done st2.
Proof.
  intros Hbody. induction es as [|x es IH]; intros k st st' e HI He H.
  - inversion He.
  - apply edge_loop_cons in H as (st1 & Hb & Hrest).
    apply elem_of_cons in He as [->|He]; [eauto|].
    eapply IH; [eapply Hbody; eassumption|exact He|exact Hrest].
Qed.

Section Trap.

Variable g : planar_graph.
Variable part : list nat.
Variable bytes : nat.
Variable rank : list Z.
Variable C : nat -> Prop.
Hypothesis Htrap : up_trap g rank C.

Lemma label_fn_up_apex (fuel : nat) :
  forall (s : nat) (st st' : store),
    label_fn g part rank fuel s st = Done st' -> up_apex st' = up_apex st.
Proof.
  induction fuel as [|fuel IH]; intros s st st' H; [discriminate|].
  cbn [label_fn] in H.
  apply obind_Done in H as (x0 & _ & H).
  apply obind_Done in H as (source & _ & H).
  apply obind_Done in H as (st1 & Hloop & H).
  assert (up_apex st1 = up_apex st) as <-.
  { eapply (edge_loop_inv (fun st1 => up_apex st1 = up_apex st)); [|reflexivity|exact Hloop].
    intros sa k e sb Ha Hb. unfold label_edge in Hb.
    apply obind_Done in Hb as (rt & _ & Hb).
    apply obind_Done in Hb as (rs & _ & Hb).
    destruct (rs <? rt); [injection Hb as <-; exact Ha|].
    apply obind_Done in Hb as (d & _ & Hb).
    apply obind_Done in Hb as (sc & Hrec & Hb).
    unbind. injection Hb as <-. cbn [up_apex].
    destruct (d =? INT32_MAX).
    - rewrite (IH _ _ _ Hrec). exact Ha.
    - injection Hrec as <-. exact Ha. }
  unbind. injection H as <-. reflexivity.
Qed.

Lemma merge_loop_up_apex (s apex : nat) (es : list edge) (k : nat) (st st' : store) :
  edge_loop (merge_edge rank s apex) st k es = Done st' -> up_apex st' = up_apex st.
Proof.
  intros H.
  eapply (edge_loop_inv (fun st1 => up_apex st1 = up_apex st)); [|reflexivity|exact H].
  intros sa j e sb Ha Hb. unfold merge_edge in Hb.
  apply obind_Done in Hb as (rt & _ & Hb).
  apply obind_Done in Hb as (rs & _ & Hb).
  destruct (rt <? rs); [injection Hb as <-; exact Ha|].
  unbind. injection Hb as <-. exact Ha.
Qed.

Lemma up_label_fn_trapped (fuel : nat) :
  forall (t : nat) (st st' : store),
    (forall v, C v -> up_apex st !! v = Some INT32_MAX) ->
    up_label_fn g rank fuel t st = Done st' ->
    ~ C t /\ forall v, C v -> up_apex st' !! v = Some INT32_MAX.
Proof.
  induction fuel as [|fuel IH]; intros t st st' Hun H; [discriminate|].
  cbn [up_label_fn] in H. unfold get_node in H.
  apply obind_Done in H as (source & Esrc & H). apply at_Done in Esrc.
  apply obind_Done in H as (r & Hloop & H).
  apply obind_Done in H as (ua' & Hset & H).
  apply set_at_Done in Hset as [Hlt ->].
  apply merge_loop_up_apex in H. cbn [up_apex] in H.
  set (J := fun acc : store * nat =>
              forall v, C v -> up_apex acc.1 !! v = Some INT32_MAX).
  assert (forall acc k e acc', J acc ->
            apex_edge rank (up_label_fn g rank fuel) t acc k e = Done acc' -> J acc')
    as Hbody.
  { intros acc k e acc' Ha Hb. unfold apex_edge in Hb.
    apply obind_Done in Hb as (rt & _ & Hb).
    apply obind_Done in Hb as (rs & _ & Hb).
    destruct (rt <? rs); [injection Hb as <-; exact Ha|].
    apply obind_Done in Hb as (a & _ & Hb).
    apply obind_Done in Hb as (sc & Hrec & Hb).
    unbind. injection Hb as <-. unfold J. cbn [fst].
    destruct (a =? INT32_MAX).
    - exact (proj2 (IH _ _ _ Ha Hrec)).
    - injection Hrec as <-. exact Ha. }
  assert (~ C t) as Hnot.
  { intros Ct.
    destruct (Htrap t Ct) as (source' & e & rv & rt & Es' & He & Ce & Erv & Ert & Hle).
    assert (source' = source) as -> by congruence.
    destruct (edge_loop_reaches J _ Hbody _ _ _ _ e (Hun : J (st, t)) He Hloop)
      as (acc & k & acc' & Ha & Hb).
    unfold apex_edge in Hb.
    apply obind_Done in Hb as (rt' & Ert' & Hb). apply at_Done in Ert'.
    apply obind_Done in Hb as (rs' & Ers' & Hb). apply at_Done in Ers'.
    assert (rt' = rt) as -> by congruence.
    assert (rs' = rv) as -> by congruence.
    destruct (Z.ltb_spec rt rv) as [?|_]; [lia|].
    apply obind_Done in Hb as (a & Ea & Hb). apply at_Done in Ea.
    rewrite (Ha _ Ce) in Ea. injection Ea as <-.
    apply obind_Done in Hb as (sc & Hrec & _).
    change (INT32_MAX =? INT32_MAX) with true in Hrec. cbv iota in Hrec.
    exact (proj1 (IH _ _ _ Ha Hrec) Ce). }
  split; [exact Hnot|].
  intros v Cv. rewrite H.
  rewrite list_lookup_insert_ne by (intros ->; contradiction).
  exact (edge_loop_inv J _ Hbody _ _ _ _ (Hun : J (st, t)) Hloop v Cv).
Qed.

Lemma up_label_all_trapped (fuel : nat) (ids : list nat) :
  forall st st' : store,
    (forall v, C v -> up_apex st !! v = Some INT32_MAX) ->
    up_label_all g rank fuel ids st = Done st' ->
    forall i, i ∈ ids -> ~ C i.
Proof.
  induction ids as [|x ids IH]; intros st st' Hun H i Hi; [inversion Hi|].
  cbn [up_label_all] in H. apply obind_Done in H as (st1 & H1 & H).
  destruct (up_label_fn_trapped _ _ _ _ Hun H1) as [Hx Hun1].
  apply elem_of_cons in Hi as [->|Hi]; [exact Hx|].
  exact (IH _ _ Hun1 H i Hi).
Qed.

(** X24.  When the graph has a set of nodes each with an edge to a node of
    the set that does not rank below it (a loop of edges between nodes of
    equal rank, a self-loop for one), the up pass does not return, however
    deep the recursion may go, once it is run for a node of the set from a
    store where no node of the set has its up-apex.  [compute_labels] runs
    the up pass for every node, from a store without any up-apex: it does
    not return either, whether its down pass returns or not. *)
Theorem compute_labels_hangs_on_equal_rank_loop (v : nat) :
  C v ->
  (forall (fuel : nat) (ids : list nat) (st : store),
     v ∈ ids -> (forall x, C x -> up_apex st !! x = Some INT32_MAX) ->
     ~ returns (fun _ => True) (up_label_all g rank fuel ids st))
  /\ forall (fuel : nat) (dfs_order0 : list Z) (lab0 : list (list down_dfs_label)),
       ~ returns (fun _ => True) (compute_labels g part bytes rank fuel dfs_order0 lab0).
Proof.
  intros Cv. split.
  - intros fuel ids st Hin Hun (st' & H & _).
    exact (up_label_all_trapped _ _ _ _ Hun H v Hin Cv).
  - intros fuel dfs_order0 lab0 (st' & H & _). unfold compute_labels in H.
    apply obind_Done in H as (apex & _ & H).
    apply obind_Done in H as (lab' & _ & H).
    apply obind_Done in H as (st & Hdown & H).
    apply label_fn_up_apex in Hdown. cbn [up_apex] in Hdown.
    assert (forall x, C x -> (x < get_num_nodes g)%nat) as Hin.
    { intros x Cx. destruct (Htrap x Cx) as (source & _ & _ & _ & Es & _).
      exact (lookup_lt_Some _ _ _ Es). }
    refine (up_label_all_trapped _ _ _ _ _ H v _ Cv).
    + intros x Cx. rewrite Hdown. apply lookup_replicate. split; [reflexivity|auto].
    + apply elem_of_seq. specialize (Hin v Cv). lia.
Qed.

End Trap.

(** The four-node graph with one byte of flags is well formed. *)
Lemma four_nodes_well_formed :
  well_formed FourNodes.graph FourNodes.part 1 FourNodes.rank.
Proof.
  split; try reflexivity.
  - cbn. lia.
  - intros v n e Hn He.
    do 4 (destruct v as [|v];
          [injection Hn as <-;
           repeat (apply elem_of_cons in He as [->|He]); try (cbn; lia); inversion He|]).
    discriminate Hn.
  - intros p Hp. repeat (apply elem_of_cons in Hp as [->|Hp]); try (cbn; lia).
    inversion Hp.
  - repeat constructor; lia.
  - exact four_nodes_strict.
Defined.

(** The four-node graph: [compute_labels] returns with ten levels of
    recursion, more than its greatest rank, 3. *)
Lemma compute_labels_returns_witness :
  returns (shape FourNodes.graph 1)
          (compute_labels FourNodes.graph FourNodes.part 1 FourNodes.rank 10 [] []).
Proof.
  apply compute_labels_returns; [exact four_nodes_well_formed|]. vm_compute. reflexivity.
Defined.

(** Two nodes of rank 5 with an edge each way, below an apex without edges.
    The scan finds the apex, node 2, and the rows are sized as in
    [Knot.store0]; the down pass from the apex returns: it reaches neither
    of the two.  The up pass over the three nodes does not return from the store
    the down pass leaves, and so [compute_labels] does not return. *)
Lemma compute_labels_hangs_on_equal_rank_loop_witness :
  find_apex Knot.rank 0 (seq 0 3) = Done 2%nat
  /\ size_rows Knot.graph 1 (resize 3 [] []) (seq 0 3) = Done (lab_ Knot.store0)
  /\ (exists st,
        label_fn Knot.graph Knot.part Knot.rank 9 2 Knot.store0 = Done st
        /\ ~ returns (fun _ => True) (up_label_all Knot.graph Knot.rank 9 (seq 0 3) st))
  /\ ~ returns (fun _ => True)
         (compute_labels Knot.graph Knot.part 1 Knot.rank 9 [] []).
Proof.
  destruct (compute_labels_hangs_on_equal_rank_loop
              Knot.graph Knot.part 1 Knot.rank (fun v => (v < 2)%nat)) with (v := 0%nat)
    as [Hup Hall].
  - intros v Hv. destruct v as [|[|v]]; [| |lia].
    + exists {| outgoing := [ {| node_id_ := 1; wt_ := 1 |} ] |},
             {| node_id_ := 1; wt_ := 1 |}, 5, 5.
      repeat split; [left|cbn; lia|lia].
    + exists {| outgoing := [ {| node_id_ := 0; wt_ := 1 |} ] |},
             {| node_id_ := 0; wt_ := 1 |}, 5, 5.
      repeat split; [left|cbn; lia|lia].
  - lia.
  - split; [reflexivity|]. split; [reflexivity|]. split; [|apply Hall].
    destruct (label_fn Knot.graph Knot.part Knot.rank 9 2 Knot.store0)
      as [st| |] eqn:Hdown; try (vm_compute in Hdown; discriminate).
    exists st. split; [reflexivity|]. apply Hup; [left|].
    vm_compute in Hdown. injection Hdown as <-.
    intros x Hx. destruct x as [|[|x]]; [reflexivity|reflexivity|lia].
Defined.

End TotalFacts.

(** ** The policy's postorder pass *)

Module PostorderFacts.
Import Graph FirstMove Postorder ClosureClaims TotalClaims PostorderClaims LabelFacts
  ClosureFacts TotalFacts.

Lemma edge_loop_indexed {St : Type} (I : nat -> St -> Prop)
    (body : St -> nat -> edge -> outcome St) (es : list edge) :
  (forall st i e st', es !! i = Some e -> I i st -> body st i e = Done st' -> I (S i) st') ->
  forall st st', I 0%nat st -> Labelling.edge_loop body st 0 es = Done st' ->
                 I (length es) st'.
Proof.
  intros Hbody.
  assert (forall rest pre st st', es = pre ++ rest -> I (length pre) st ->
            Labelling.edge_loop body st (length pre) rest = Done st' ->
            I (length es) st') as Hgen.
  { induction rest as [|e rest IH]; intros pre st st' Hes HI H.
    - simpl in H. injection H as <-. subst es. rewrite app_nil_r. exact HI.
    - apply edge_loop_cons in H as (st1 & Hb & Hrest).
      apply (IH (pre ++ [e]) st1 st').
      + rewrite <- app_assoc. exact Hes.
      + rewrite length_app, Nat.add_1_r. eapply Hbody; [|exact HI|exact Hb].
        subst es. rewrite lookup_app_r by lia. rewrite Nat.sub_diag. reflexivity.
      + rewrite length_app, Nat.add_1_r. exact Hrest. }
  intros st st' HI H. exact (Hgen es [] st st' eq_refl HI H).
Qed.

Lemma within_refl (a : Labelling.interval) : within a a.
Proof. unfold within. lia. Qed.

Lemma within_trans (a b c : Labelling.interval) : within a b -> within b c -> within a c.
Proof. unfold within. lia. Qed.

Lemma within_merge_l (a b c : Labelling.interval) :
  within a b -> within a (Labelling.interval_merge b c).
Proof. unfold within, Labelling.interval_merge. simpl. lia. Qed.

Lemma within_merge_r (b c : Labelling.interval) : within c (Labelling.interval_merge b c).
Proof. unfold within, Labelling.interval_merge. simpl. lia. Qed.

Lemma within_grow (a b : Labelling.interval) (l : Z) :
  within a b -> within a (Labelling.interval_grow b l).
Proof. unfold within, Labelling.interval_grow. simpl. lia. Qed.

Lemma contains_grow (b : Labelling.interval) (l : Z) :
  Labelling.interval_contains (Labelling.interval_grow b l) l = true.
Proof.
  unfold Labelling.interval_contains, Labelling.interval_grow. simpl.
  apply andb_true_iff. split; apply Z.leb_le; lia.
Qed.

Lemma contains_within (a b : Labelling.interval) (l : Z) :
  within a b -> Labelling.interval_contains a l = true ->
  Labelling.interval_contains b l = true.
Proof.
  unfold within, Labelling.interval_contains. intros [H1 H2] H.
  apply andb_true_iff in H as [Ha Hb]. apply Z.leb_le in Ha, Hb.
  apply andb_true_iff. split; apply Z.leb_le; lia.
Qed.

Lemma contains_left (a : Labelling.interval) (l : Z) :
  Labelling.interval_contains a l = true -> l <> INT32_MAX ->
  (forall x, x = l -> x <= INT32_MAX) -> Labelling.left a <> INT32_MAX.
Proof.
  unfold Labelling.interval_contains. intros H Hl Hb.
  apply andb_true_iff in H as [Ha _]. apply Z.leb_le in Ha.
  specialize (Hb l eq_refl). lia.
Qed.

Lemma unnumbered_pos (order : list Z) (s : nat) :
  order !! s = Some INT32_MAX -> (1 <= unnumbered order)%nat.
Proof.
  intros Hs. pose proof (unnumbered_insert order s 0 Hs ltac:(discriminate)). lia.
Qed.

Lemma ext_refl (N W : nat -> Prop) (st : store) : ext N W st st.
Proof. split; auto. lia. Qed.

Lemma ext_trans (N W : nat -> Prop) (a b c : store) :
  ext N W a b -> ext N W b c -> ext N W a c.
Proof.
  intros [A1 A2 A3 AL A4 A5] [B1 B2 B3 BL B4 B5]. split.
  - eauto.
  - eauto.
  - lia.
  - congruence.
  - intros v Hv. destruct (B4 v Hv) as [Hb|Hb]; [exact (A4 v Hb)|right; exact Hb].
  - intros v idx Hv. rewrite B5; [apply A5; exact Hv|].
    destruct Hv as [(l & El & Hl)|Hv]; [left; exists l; eauto|right; exact Hv].
Qed.

Lemma ext_weaken (N W N' W' : nat -> Prop) (a b : store) :
  (forall v, N v -> N' v) -> (forall v, W v -> W' v) -> ext N W a b -> ext N' W' a b.
Proof.
  intros HN HW [A1 A2 A3 AL A4 A5]. split; auto.
  - intros v Hv. destruct (A4 v Hv); auto.
  - intros v idx [Hv|Hv]; apply A5; auto.
Qed.

Lemma edge_label_with_edge (st : store) (s k : nat) (row : list Labelling.interval)
    (r : Labelling.interval) (v idx : nat) :
  edge_labels_ st !! s = Some row -> (k < length row)%nat ->
  edge_label (with_edge st s k row r) v idx
  = if decide (v = s /\ idx = k) then Some r else edge_label st v idx.
Proof.
  intros Es Hk. unfold edge_label, with_edge. cbn [edge_labels_].
  pose proof (lookup_lt_Some _ _ _ Es) as Hs.
  destruct (decide (v = s)) as [->|Hv].
  - rewrite list_lookup_insert_eq by exact Hs. rewrite Es. cbn.
    destruct (decide (idx = k)) as [->|Hi].
    + rewrite list_lookup_insert_eq by exact Hk.
      destruct (decide _) as [_|Hn]; [reflexivity|tauto].
    + rewrite list_lookup_insert_ne by congruence.
      destruct (decide _) as [[_ ?]|_]; [contradiction|reflexivity].
  - rewrite list_lookup_insert_ne by congruence.
    destruct (decide _) as [[? _]|_]; [contradiction|reflexivity].
Qed.

Section Pass.

Variable g : planar_graph.
Variable down_heads : list nat.
Variable first_move : list fm_label.
Variable rk : nat -> Z.
Hypothesis Hdesc :
  forall v idx e, follows g down_heads first_move v idx e -> rk (node_id_ e) < rk v.

Lemma follows_edge (v idx : nat) (e e' : edge) (source : node) (head : nat) :
  nodes g !! v = Some source -> down_heads !! v = Some head ->
  drop head (outgoing source) !! idx = Some e ->
  follows g down_heads first_move v idx e' -> e' = e.
Proof.
  intros Es Eh Ee (source' & head' & mv & mt & Es' & Eh' & Ee' & _). congruence.
Qed.

Lemma ranged_numbered (st : store) (v : nat) (rv : Labelling.interval) :
  good g down_heads first_move st ->
  node_range st !! v = Some rv -> Labelling.left rv <> INT32_MAX -> numbered st v.
Proof.
  intros G E H. destruct (gd_closed _ _ _ _ G v rv E H) as (lv & El & Hl & _).
  exists lv. auto.
Qed.

Lemma label_room (st : store) (v : nat) (l : Z) :
  good g down_heads first_move st ->
  node_labels_ st !! v = Some l -> l <> INT32_MAX -> l < INT32_MAX.
Proof.
  intros G E H. pose proof (gd_below _ _ _ _ G v l E H).
  pose proof (gd_count _ _ _ _ G). pose proof (gd_room _ _ _ _ G). lia.
Qed.

(** A done node stays done when nothing it refers to changes. *)
Lemma closed_at_transfer (st st' : store) (v : nat) (rv : Labelling.interval) :
  closed_at g down_heads first_move st v rv ->
  node_labels_ st' !! v = node_labels_ st !! v ->
  (forall idx e, follows g down_heads first_move v idx e ->
     node_range st' !! node_id_ e = node_range st !! node_id_ e
     /\ node_labels_ st' !! node_id_ e = node_labels_ st !! node_id_ e
     /\ edge_label st' v idx = edge_label st v idx) ->
  closed_at g down_heads first_move st' v rv.
Proof.
  intros (lv & El & Hl & Hc & He) Hv Hsame.
  exists lv. split; [congruence|]. split; [exact Hl|]. split; [exact Hc|].
  intros idx e Hf. destruct (He idx e Hf) as (rt & lt & A1 & A2 & A3 & A4 & A5 & A6).
  destruct (Hsame idx e Hf) as (B1 & B2 & B3).
  exists rt, lt. repeat split; try congruence; try apply A3; try exact A6.
Qed.

Lemma good_with_edge (st : store) (s k : nat) (row : list Labelling.interval)
    (r : Labelling.interval) :
  good g down_heads first_move st -> ~ numbered st s ->
  edge_labels_ st !! s = Some row -> (k < length row)%nat ->
  good g down_heads first_move (with_edge st s k row r).
Proof.
  intros G P Es Hk. destruct G as [G1 G2 G3 G4 G5 G6 G7 G8].
  split; try assumption.
  intros v rv Ev Hv. cbn [with_edge node_range] in Ev.
  apply (closed_at_transfer st); [exact (G1 v rv Ev Hv)|reflexivity|].
  intros idx e Hf. split; [reflexivity|]. split; [reflexivity|].
  rewrite edge_label_with_edge by assumption.
  destruct (decide _) as [[-> _]|_]; [|reflexivity].
  exfalso. apply P. destruct (G1 s rv Ev Hv) as (lv & El & Hl & _). exists lv. auto.
Qed.

Lemma ext_with_edge (N W : nat -> Prop) (st : store) (s k : nat)
    (row : list Labelling.interval) (r : Labelling.interval) :
  ~ numbered st s -> W s ->
  edge_labels_ st !! s = Some row -> (k < length row)%nat ->
  ext N W st (with_edge st s k row r).
Proof.
  intros P Ws Es Hk. split; auto.
  - cbn. lia.
  - intros v idx Hv. rewrite edge_label_with_edge by assumption.
    destruct (decide _) as [[-> _]|_]; [|reflexivity].
    destruct Hv; contradiction.
Qed.

(** The write of line 250 and the merge of line 252. *)
Lemma write_done (s k : nat) (st0 st : store) (dr : Labelling.interval)
    (source : node) (head : nat) (e : edge) (row : list Labelling.interval)
    (rt : Labelling.interval) (lt : Z) :
  edges_done g down_heads first_move rk s k st0 (st, dr) ->
  nodes g !! s = Some source -> down_heads !! s = Some head ->
  drop head (outgoing source) !! k = Some e ->
  node_range st !! node_id_ e = Some rt -> Labelling.left rt <> INT32_MAX ->
  node_labels_ st !! node_id_ e = Some lt -> lt <> INT32_MAX ->
  edge_labels_ st !! s = Some row -> (k < length row)%nat ->
  edges_done g down_heads first_move rk s (S k) st0
    (with_edge st s k row rt, Labelling.interval_merge dr rt).
Proof.
  intros [G P X E] Es Eh Ee Ert Hrt Elt Hlt Erow Hk. cbn [fst snd] in *.
  split; cbn [fst snd].
  - apply good_with_edge; assumption.
  - exact P.
  - apply (ext_trans _ _ _ _ _ X). apply ext_with_edge; try assumption. lia.
  - intros idx e' Hidx Hf. rewrite edge_label_with_edge by assumption.
    destruct (decide (idx = k)) as [->|Hne].
    + rewrite (follows_edge _ _ _ _ _ _ Es Eh Ee Hf).
      exists rt, lt. destruct (decide _) as [_|Hn]; [|tauto].
      repeat split; try assumption; try apply within_merge_r.
    + destruct (E idx e' ltac:(lia) Hf) as (rt' & lt' & A1 & A2 & A3 & A4 & A5 & A6).
      exists rt', lt'. destruct (decide _) as [[_ ?]|_]; [contradiction|].
      repeat split; try assumption; apply within_merge_l; exact A3.
Qed.

(** Lines 243-248: the range of the edge's target, from a call of
    [label_fn] or from [node_range]. *)
Lemma descend_done (rec : nat -> store -> outcome (Labelling.interval * store))
    (s k idx : nat) (st0 st st1 : store) (dr sub r1 : Labelling.interval) (e : edge) :
  (forall t st r st',
     good g down_heads first_move st -> ~ numbered st t ->
     rec t st = Done (r, st') -> returned g down_heads first_move rk t st r st') ->
  edges_done g down_heads first_move rk s k st0 (st, dr) ->
  follows g down_heads first_move s idx e ->
  node_range st !! node_id_ e = Some sub ->
  (if Labelling.left sub =? INT32_MAX
   then do r <- rec (node_id_ e) st;
        do nr <- set_at (node_range r.2) (node_id_ e) r.1;
        Done (r.1, {| node_labels_ := node_labels_ r.2;
                      edge_labels_ := edge_labels_ r.2;
                      node_range := nr; next_label := next_label r.2 |})
   else Done (sub, st)) = Done (r1, st1) ->
  edges_done g down_heads first_move rk s k st0 (st1, dr)
  /\ node_range st1 !! node_id_ e = Some r1 /\ Labelling.left r1 <> INT32_MAX
  /\ exists lt, node_labels_ st1 !! node_id_ e = Some lt /\ lt <> INT32_MAX.
Proof.
  intros IH [G P X E] Hf Esub H. cbn [fst snd] in *.
  pose proof (Hdesc _ _ _ Hf) as Hrk.
  destruct (Z.eqb_spec (Labelling.left sub) INT32_MAX) as [Hmax|Hset].
  - apply obind_Done in H as ([ra sta] & Hrec & H).
    apply obind_Done in H as (nr & Hnr & H). cbn [fst snd] in *.
    apply set_at_Done in Hnr as [Hlt ->]. injection H as <- <-.
    change {| node_labels_ := node_labels_ sta; edge_labels_ := edge_labels_ sta;
              node_range := <[node_id_ e := ra]> (node_range sta);
              next_label := next_label sta |}
      with (with_range sta (node_id_ e) ra).
    assert (~ numbered st (node_id_ e)) as Pt.
    { intros Hn. destruct (gd_ranged _ _ _ _ G _ Hn) as (r' & Er' & Hr'). congruence. }
    destruct (IH _ _ _ _ G Pt Hrec) as (G1 & (r' & Er' & Hr') & X1).
    cbn [with_range node_range] in Er'.
    rewrite list_lookup_insert_eq in Er' by exact Hlt. injection Er' as <-.
    split; [|split; [|split]].
    + split; cbn [fst snd].
      * exact G1.
      * intros Hn. destruct (ex_new _ _ _ _ X1 s Hn) as [?|?]; [contradiction|lia].
      * apply (ext_trans _ _ _ _ _ X).
        eapply ext_weaken; [| |exact X1]; cbv beta; intros; lia.
      * intros idx' e' Hidx Hf'.
        destruct (E idx' e' Hidx Hf') as (rt & lt & A1 & A2 & A3 & A4 & A5 & A6).
        exists rt, lt. repeat split; try assumption; try apply A3.
        -- exact (ex_ranges _ _ _ _ X1 _ _ A1 A2).
        -- rewrite (ex_rows _ _ _ _ X1 s idx'); [exact A4|right; lia].
        -- exact (ex_labels _ _ _ _ X1 _ _ A5 A6).
    + cbn [with_range node_range]. apply list_lookup_insert_eq. exact Hlt.
    + exact Hr'.
    + assert (node_range (with_range sta (node_id_ e) ra) !! node_id_ e = Some ra) as Era
        by (cbn [with_range node_range]; apply list_lookup_insert_eq; exact Hlt).
      destruct (gd_closed _ _ _ _ G1 _ _ Era Hr') as (lv & El & Hl & _). eauto.
  - injection H as <- <-.
    split; [split; assumption|]. split; [exact Esub|]. split; [exact Hset|].
    destruct (gd_closed _ _ _ _ G _ _ Esub Hset) as (lv & El & Hl & _). eauto.
Qed.

Lemma follow_edge_done (rec : nat -> store -> outcome (Labelling.interval * store))
    (s k : nat) (st0 : store) (acc acc' : store * Labelling.interval)
    (source : node) (head : nat) (move : list Z) (e : edge) :
  (forall t st r st',
     good g down_heads first_move st -> ~ numbered st t ->
     rec t st = Done (r, st') -> returned g down_heads first_move rk t st r st') ->
  nodes g !! s = Some source -> down_heads !! s = Some head ->
  first_move !! s = Some move ->
  drop head (outgoing source) !! k = Some e ->
  edges_done g down_heads first_move rk s k st0 acc ->
  follow_edge first_move rec s move acc k e = Done acc' ->
  edges_done g down_heads first_move rk s (S k) st0 acc'.
Proof.
  intros IH Es Eh Em Ee D H. destruct acc as [st dr]. unfold follow_edge in H.
  apply obind_Done in H as (fm_t & Et & H). apply at_Done in Et.
  destruct (intersect fm_t move) eqn:Hi.
  - assert (follows g down_heads first_move s k e) as Hf
      by (exists source, head, move, fm_t; auto 10).
    cbn [fst snd] in H.
    apply obind_Done in H as (sub & Esub & H). apply at_Done in Esub.
    apply obind_Done in H as ([r1 st1] & Hsub & H). cbn [fst snd] in H.
    apply obind_Done in H as (row & Erow & H). apply at_Done in Erow.
    apply obind_Done in H as (row' & Hrow' & H). apply set_at_Done in Hrow' as [Hk ->].
    apply obind_Done in H as (el & Hel & H). apply set_at_Done in Hel as [_ ->].
    injection H as <-.
    destruct (descend_done rec s k k st0 st st1 dr sub r1 e IH D Hf Esub Hsub)
      as (D1 & Er1 & Hr1 & lt & Elt & Hlt).
    exact (write_done s k st0 st1 dr source head e row r1 lt D1 Es Eh Ee Er1 Hr1 Elt Hlt
             Erow Hk).
  - injection H as <-. destruct D as [G P X E]. split; try assumption.
    intros idx e' Hidx Hf.
    destruct (decide (idx = k)) as [->|Hne]; [|apply E; [lia|exact Hf]].
    exfalso. pose proof (follows_edge _ _ _ _ _ _ Es Eh Ee Hf) as ->.
    destruct Hf as (? & ? & mv & mt & _ & _ & _ & Emv & Emt & Hint).
    assert (mv = move) as -> by congruence.
    assert (mt = fm_t) as -> by congruence. congruence.
Qed.

Lemma label_fn_returned (fuel : nat) :
  forall (s : nat) (st : store) (r : Labelling.interval) (st' : store),
    good g down_heads first_move st -> ~ numbered st s ->
    label_fn g down_heads first_move fuel s st = Done (r, st') ->
    returned g down_heads first_move rk s st r st'.
Proof.
  induction fuel as [|fuel IH]; intros s st r st' G P H; [discriminate|].
  cbn [label_fn] in H. unfold get_node in H.
  apply obind_Done in H as (source & Es & H). apply at_Done in Es.
  apply obind_Done in H as (move & Em & H). apply at_Done in Em.
  apply obind_Done in H as (head & Eh & H). apply at_Done in Eh.
  destruct (decide (head <= length (outgoing source))%nat) as [Hhead|]; [|discriminate].
  apply obind_Done in H as ([ste dr] & Hloop & H). cbn [fst snd] in H.
  assert (edges_done g down_heads first_move rk s
            (length (drop head (outgoing source))) st (ste, dr)) as D.
  { refine (edge_loop_indexed
              (fun k acc => edges_done g down_heads first_move rk s k st acc)
              _ _ _ _ _ _ Hloop).
    - intros acc i e acc' Ee D H'.
      exact (follow_edge_done _ s i st acc acc' source head move e IH Es Eh Em Ee D H').
    - split; cbn [fst snd]; [exact G|exact P|apply ext_refl|].
      intros idx e Hidx. lia. }
  destruct D as [Ge Pe Xe Ee]. cbn [fst snd] in *.
  apply obind_Done in H as (l & El & H). apply at_Done in El.
  assert (l = INT32_MAX) as ->.
  { destruct (decide (l = INT32_MAX)) as [?|Hl]; [assumption|].
    exfalso. apply Pe. exists l. auto. }
  change (INT32_MAX =? INT32_MAX) with true in H. cbv iota in H.
  apply obind_Done in H as (nl & Hnl & H). apply set_at_Done in Hnl as [Hlt ->].
  apply obind_Done in H as (l' & El' & H). apply at_Done in El'.
  rewrite list_lookup_insert_eq in El' by exact Hlt. injection El' as <-.
  injection H as <- <-.
  set (ls := next_label ste).
  set (r := Labelling.interval_grow dr ls).
  pose proof (unnumbered_pos _ _ El) as Hpos.
  pose proof (unnumbered_insert _ s ls El) as Hins.
  pose proof (gd_count _ _ _ _ Ge) as Hcount.
  pose proof (gd_room _ _ _ _ Ge) as Hroom.
  pose proof (gd_next _ _ _ _ Ge) as Hnext.
  pose proof (gd_length _ _ _ _ Ge) as Hlen.
  assert (0 <= ls < INT32_MAX) as Hls by (subst ls; lia).
  assert (Labelling.left r <> INT32_MAX) as Hleft
    by (subst r; unfold Labelling.interval_grow; cbn [Labelling.left]; lia).
  assert (forall v, numbered ste v -> v <> s) as Hnot by (intros v Hv ->; contradiction).
  assert (forall v l, node_labels_ ste !! v = Some l -> l <> INT32_MAX -> v <> s) as Hnot'
    by (intros v l0 Ev Hv; apply Hnot; exists l0; auto).
  split; [|split].
  - split; cbn [with_range node_labels_ edge_labels_ node_range next_label].
    + intros v rv Ev Hv. cbn [with_range node_range] in Ev.
      destruct (decide (v = s)) as [->|Hne].
      * rewrite list_lookup_insert_eq in Ev by lia. injection Ev as <-.
        exists ls. split; [apply list_lookup_insert_eq; exact Hlt|].
        split; [lia|]. split; [apply contains_grow|].
        intros idx e Hf.
        assert (idx < length (drop head (outgoing source)))%nat as Hidx.
        { destruct Hf as (source' & head' & _ & _ & Es' & Eh' & Ee' & _).
          assert (source' = source) as -> by congruence.
          assert (head' = head) as -> by congruence.
          exact (lookup_lt_Some _ _ _ Ee'). }
        destruct (Ee idx e Hidx Hf) as (rt & lt & A1 & A2 & A3 & A4 & A5 & A6).
        pose proof (Hnot' _ _ A5 A6) as Hne.
        exists rt, lt. cbn [with_range node_labels_ edge_labels_ node_range].
        rewrite !list_lookup_insert_ne by congruence.
        repeat split; try assumption; try (apply within_grow; exact A3).
        pose proof (gd_below _ _ _ _ Ge _ _ A5 A6). lia.
      * rewrite list_lookup_insert_ne in Ev by congruence.
        pose proof (gd_closed _ _ _ _ Ge v rv Ev Hv) as Hc.
        apply (closed_at_transfer ste); [exact Hc| |].
        -- cbn [with_range node_labels_]. apply list_lookup_insert_ne. congruence.
        -- intros idx e Hf. destruct Hc as (lv & Elv & Hlv & _ & He).
           destruct (He idx e Hf) as (rt & lt & A1 & A2 & A3 & A4 & A5 & A6).
           pose proof (label_room _ _ _ Ge Elv Hlv).
           assert (node_id_ e <> s) as Hne' by (apply (Hnot' _ lt A5); lia).
           cbn [with_range node_labels_ node_range].
           rewrite !list_lookup_insert_ne by congruence. auto.
    + intros v (l0 & El0 & Hl0). cbn [with_range node_labels_] in El0.
      destruct (decide (v = s)) as [->|Hne].
      * exists r. cbn [with_range node_range]. split; [|exact Hleft].
        apply list_lookup_insert_eq. lia.
      * rewrite list_lookup_insert_ne in El0 by congruence.
        destruct (gd_ranged _ _ _ _ Ge v) as (r' & Er' & Hr'); [exists l0; auto|].
        exists r'. cbn [with_range node_range].
        rewrite list_lookup_insert_ne by congruence. auto.
    + rewrite !length_insert. exact Hlen.
    + rewrite length_insert. exact Hroom.
    + rewrite length_insert. specialize (Hins ltac:(lia)). lia.
    + lia.
    + intros v l0 Ev Hv. destruct (decide (v = s)) as [->|Hne].
      * rewrite list_lookup_insert_eq in Ev by exact Hlt. injection Ev as <-. lia.
      * rewrite list_lookup_insert_ne in Ev by congruence.
        pose proof (gd_below _ _ _ _ Ge _ _ Ev Hv). lia.
    + intros v w l0 Ev Ew Hl0.
      destruct (decide (v = s)) as [->|Hv]; destruct (decide (w = s)) as [->|Hw];
        try reflexivity.
      * rewrite list_lookup_insert_eq in Ev by exact Hlt. injection Ev as <-.
        rewrite list_lookup_insert_ne in Ew by congruence.
        pose proof (gd_below _ _ _ _ Ge _ _ Ew Hl0). lia.
      * rewrite list_lookup_insert_eq in Ew by exact Hlt. injection Ew as <-.
        rewrite list_lookup_insert_ne in Ev by congruence.
        pose proof (gd_below _ _ _ _ Ge _ _ Ev Hl0). lia.
      * rewrite list_lookup_insert_ne in Ev by congruence.
        rewrite list_lookup_insert_ne in Ew by congruence.
        exact (gd_distinct _ _ _ _ Ge _ _ _ Ev Ew Hl0).
  - exists r. cbn [with_range node_range]. split; [|exact Hleft].
    apply list_lookup_insert_eq. lia.
  - eapply ext_trans.
    + eapply ext_weaken; [| |exact Xe]; cbv beta; intros; lia.
    + split; cbn [with_range node_labels_ edge_labels_ node_range next_label].
      * intros v rv Ev Hv.
        rewrite list_lookup_insert_ne; [exact Ev|].
        intros <-. exact (Pe (ranged_numbered _ _ _ Ge Ev Hv)).
      * intros v l0 Ev Hv. rewrite list_lookup_insert_ne; [exact Ev|].
        intros <-. exact (Hnot' _ _ Ev Hv eq_refl).
      * lia.
      * apply length_insert.
      * intros v (l0 & El0 & Hl0). cbn [with_range node_labels_] in El0.
        destruct (decide (v = s)) as [->|Hne]; [right; lia|].
        rewrite list_lookup_insert_ne in El0 by congruence. left. exists l0. auto.
      * reflexivity.
Qed.

Lemma ranges_hold_reach (st : store) :
  good g down_heads first_move st ->
  forall v t, follow_reach g down_heads first_move v t ->
  forall rv, node_range st !! v = Some rv -> Labelling.left rv <> INT32_MAX ->
    exists rt lt,
      node_range st !! t = Some rt /\ Labelling.left rt <> INT32_MAX /\ within rt rv
      /\ node_labels_ st !! t = Some lt /\ lt <> INT32_MAX
      /\ Labelling.interval_contains rt lt = true.
Proof.
  intros G v t Hreach.
  induction Hreach as [v|v idx e t Hf Hreach IH]; intros rv Ev Hv.
  - destruct (gd_closed _ _ _ _ G v rv Ev Hv) as (lv & El & Hl & Hc & _).
    exists rv, lv. repeat split; try assumption; apply within_refl.
  - destruct (gd_closed _ _ _ _ G v rv Ev Hv) as (lv & El & Hl & Hc & He).
    destruct (He idx e Hf) as (rt & lt & A1 & A2 & A3 & _).
    destruct (IH rt A1 A2) as (rt' & lt' & B1 & B2 & B3 & B4 & B5 & B6).
    exists rt', lt'. eauto 10 using within_trans.
Qed.

Lemma initial_good (n : nat) (rows : list (list Labelling.interval)) :
  Z.of_nat n <= INT32_MAX -> good g down_heads first_move (initial n rows).
Proof.
  intros Hn. split; cbn [initial node_labels_ node_range next_label].
  - intros v rv Ev Hv. apply lookup_replicate in Ev as [-> _]. contradiction.
  - intros v (l & El & Hl). cbn [initial node_labels_] in El.
    apply lookup_replicate in El as [-> _]. contradiction.
  - rewrite !length_replicate. reflexivity.
  - rewrite length_replicate. exact Hn.
  - rewrite unnumbered_fresh; [lia|].
    intros v d Hv. apply lookup_replicate in Hv as [-> _]. reflexivity.
  - lia.
  - intros v l El Hl. apply lookup_replicate in El as [-> _]. contradiction.
  - intros v w l El _ Hl. apply lookup_replicate in El as [-> _]. contradiction.
Qed.

Lemma initial_pending (n : nat) (rows : list (list Labelling.interval)) (s : nat) :
  ~ numbered (initial n rows) s.
Proof.
  intros (l & El & Hl). cbn [initial node_labels_] in El.
  apply lookup_replicate in El as [-> _]. contradiction.
Qed.

(** X25.  The policy's own postorder pass, on a hierarchy where every edge
    the pass follows leads to a node of lower rank and with at most
    INT32_MAX nodes: when [label_fn] returns for a node, the range it
    returns holds the postorder id of every node reached from that node
    along followed edges, and so does the label of every followed edge for
    what is reached from the edge's target (the assertion of line 254 is
    the case of the target itself). *)
Theorem edge_labels_hold_followed_closure (fuel : nat) (s : nat)
    (rows : list (list Labelling.interval)) (r : Labelling.interval) (st' : store) :
  Z.of_nat (get_num_nodes g) <= INT32_MAX ->
  label_fn g down_heads first_move fuel s (initial (get_num_nodes g) rows)
    = Done (r, st') ->
  (forall t, follow_reach g down_heads first_move s t ->
     exists lt, node_labels_ st' !! t = Some lt /\ lt <> INT32_MAX
                /\ Labelling.interval_contains r lt = true)
  /\ forall v idx e,
       follow_reach g down_heads first_move s v ->
       follows g down_heads first_move v idx e ->
       exists l, edge_label st' v idx = Some l
         /\ forall t, follow_reach g down_heads first_move (node_id_ e) t ->
              exists lt, node_labels_ st' !! t = Some lt /\ lt <> INT32_MAX
                         /\ Labelling.interval_contains l lt = true.
Proof.
  intros Hn H.
  destruct (label_fn_returned fuel s _ r st' (initial_good _ rows Hn)
              (initial_pending _ rows s) H) as (G & (r' & Er' & Hr') & _).
  assert (forall v t rv,
            node_range (with_range st' s r) !! v = Some rv ->
            Labelling.left rv <> INT32_MAX ->
            follow_reach g down_heads first_move v t ->
            exists lt, node_labels_ st' !! t = Some lt /\ lt <> INT32_MAX
                       /\ Labelling.interval_contains rv lt = true) as Hall.
  { intros v t rv Ev Hv Hreach.
    destruct (ranges_hold_reach _ G v t Hreach rv Ev Hv) as (rt & lt & _ & _ & Hw & El & Hl & Hc).
    exists lt. split; [exact El|]. split; [exact Hl|].
    exact (contains_within _ _ _ Hw Hc). }
  assert (r' = r) as ->.
  { cbn [with_range node_range] in Er'.
    destruct (decide (s < length (node_range st'))%nat) as [Hlt|Hge].
    - rewrite list_lookup_insert_eq in Er' by exact Hlt. congruence.
    - rewrite lookup_ge_None_2 in Er'; [discriminate|]. rewrite length_insert. lia. }
  split; [intros t Ht; exact (Hall s t r Er' Hr' Ht)|].
  intros v idx e Hv Hf.
  destruct (ranges_hold_reach _ G s v Hv r Er' Hr') as (rv & lv & Ev & Hrv & _).
  destruct (gd_closed _ _ _ _ G v rv Ev Hrv) as (lv' & _ & _ & _ & He).
  destruct (He idx e Hf) as (rt & lt & A1 & A2 & _ & A4 & _).
  exists rt. split; [exact A4|]. intros t Ht. exact (Hall _ t rt A1 A2 Ht).
Qed.

(** X26.  Under the same conditions the pass numbers in postorder: the ids
    given out are the numbers below the counter, each given to one node
    (the counter is the number of numbered nodes), and every followed edge
    of a node reached from the start leads to a node with a smaller id. *)
Theorem followed_edges_lead_to_smaller_ids (fuel : nat) (s : nat)
    (rows : list (list Labelling.interval)) (r : Labelling.interval) (st' : store) :
  Z.of_nat (get_num_nodes g) <= INT32_MAX ->
  label_fn g down_heads first_move fuel s (initial (get_num_nodes g) rows)
    = Done (r, st') ->
  (forall v l, node_labels_ st' !! v = Some l -> l <> INT32_MAX ->
               0 <= l < next_label st')
  /\ (forall v w l, node_labels_ st' !! v = Some l -> node_labels_ st' !! w = Some l ->
                    l <> INT32_MAX -> v = w)
  /\ next_label st' + Z.of_nat (unnumbered (node_labels_ st'))
     = Z.of_nat (get_num_nodes g)
  /\ forall v idx e,
       follow_reach g down_heads first_move s v ->
       follows g down_heads first_move v idx e ->
       exists lv lt, node_labels_ st' !! v = Some lv
                     /\ node_labels_ st' !! node_id_ e = Some lt /\ lt < lv.
Proof.
  intros Hn H.
  destruct (label_fn_returned fuel s _ r st' (initial_good _ rows Hn)
              (initial_pending _ rows s) H) as (G & (r' & Er' & Hr') & X).
  split; [exact (gd_below _ _ _ _ G)|]. split; [exact (gd_distinct _ _ _ _ G)|].
  split.
  - pose proof (gd_count _ _ _ _ G) as Hc. pose proof (gd_length _ _ _ _ G) as Hl.
    cbn [with_range node_labels_ node_range next_label] in Hc, Hl.
    rewrite length_insert in Hl.
    pose proof (ex_length _ _ _ _ X) as Hx.
    cbn [with_range initial node_labels_] in Hx. rewrite length_replicate in Hx. lia.
  - intros v idx e Hv Hf.
    destruct (ranges_hold_reach _ G s v Hv r' Er' Hr') as (rv & lv & Ev & Hrv & _).
    destruct (gd_closed _ _ _ _ G v rv Ev Hrv) as (lv' & Elv & _ & _ & He).
    destruct (He idx e Hf) as (rt & lt & _ & _ & _ & _ & A5 & A6).
    exists lv', lt. auto.
Qed.

End Pass.

Section Frame.

Variable g : planar_graph.
Variable down_heads : list nat.
Variable first_move : list fm_label.

(** X27.  The pass writes the labels of followed edges only: a down edge
    whose target shares no first move with its source, and any index that
    is no down edge at all, has after a call of [label_fn] the label it had
    before. *)
Theorem unfollowed_edges_keep_their_label (fuel : nat) :
  forall (s : nat) (st : store) (r : Labelling.interval) (st' : store) (v idx : nat),
    (forall e, ~ follows g down_heads first_move v idx e) ->
    label_fn g down_heads first_move fuel s st = Done (r, st') ->
    edge_label st' v idx = edge_label st v idx.
Proof.
  induction fuel as [|fuel IH]; intros s st r st' v idx Hn H; [discriminate|].
  cbn [label_fn] in H. unfold get_node in H.
  apply obind_Done in H as (source & Es & H). apply at_Done in Es.
  apply obind_Done in H as (move & Em & H). apply at_Done in Em.
  apply obind_Done in H as (head & Eh & H). apply at_Done in Eh.
  destruct (decide (head <= length (outgoing source))%nat) as [Hhead|]; [|discriminate].
  apply obind_Done in H as ([ste dr] & Hloop & H). cbn [fst snd] in H.
  apply obind_Done in H as (l & _ & H).
  apply obind_Done in H as (nl & _ & H).
  apply obind_Done in H as (l' & _ & H). injection H as <- <-.
  change (edge_label ste v idx = edge_label st v idx).
  refine (edge_loop_indexed
            (fun (k : nat) (acc : store * Labelling.interval) =>
               edge_label acc.1 v idx = edge_label st v idx)
            _ _ _ _ _ _ Hloop); [|reflexivity].
  intros [sa da] i e acc' Ee Ha Hb. cbn [fst snd] in *. unfold follow_edge in Hb.
  apply obind_Done in Hb as (fm_t & Et & Hb). apply at_Done in Et.
  destruct (intersect fm_t move) eqn:Hi; [|injection Hb as <-; exact Ha].
  cbn [fst snd] in Hb.
  apply obind_Done in Hb as (sub & _ & Hb).
  apply obind_Done in Hb as ([r1 st1] & Hsub & Hb). cbn [fst snd] in Hb.
  apply obind_Done in Hb as (row & Erow & Hb). apply at_Done in Erow.
  apply obind_Done in Hb as (row' & Hrow' & Hb). apply set_at_Done in Hrow' as [Hk ->].
  apply obind_Done in Hb as (el & Hel & Hb). apply set_at_Done in Hel as [_ ->].
  injection Hb as <-. cbn [fst].
  change (edge_label (with_edge st1 s i row r1) v idx = edge_label st v idx).
  rewrite edge_label_with_edge by assumption.
  destruct (decide _) as [[-> ->]|_].
  - exfalso. apply (Hn e). exists source, head, move, fm_t. auto 10.
  - rewrite <- Ha. destruct (Labelling.left sub =? INT32_MAX).
    + apply obind_Done in Hsub as ([ra sta] & Hrec & Hsub).
      apply obind_Done in Hsub as (nr & _ & Hsub). cbn [fst snd] in Hsub.
      injection Hsub as <- <-. exact (IH _ _ _ _ v idx Hn Hrec).
    + injection Hsub as <- <-. reflexivity.
Qed.

End Frame.

Section Returns.

Variable g : planar_graph.
Variable down_heads : list nat.
Variable first_move : list fm_label.
Variable rk : nat -> Z.
Hypothesis Hfit : fits_graph g down_heads first_move.
Hypothesis Hdesc :
  forall v idx e, follows g down_heads first_move v idx e -> rk (node_id_ e) < rk v.
Hypothesis Hrk : forall v, 0 <= rk v.

Lemma postorder_fn_total (fuel : nat) :
  forall (s : nat) (st : store),
    (s < get_num_nodes g)%nat -> rk s < Z.of_nat fuel ->
    shaped g down_heads st ->
    returns (fun r => shaped g down_heads r.2)
            (label_fn g down_heads first_move fuel s st).
Proof.
  pose proof (fg_heads _ _ _ Hfit) as Hheads.
  pose proof (fg_moves _ _ _ Hfit) as Hmoves.
  induction fuel as [|fuel IH]; intros s st Hs Hfuel Hst.
  - specialize (Hrk s). lia.
  - cbn [label_fn]. unfold get_node.
    apply returns_at; [exact Hs|]. intros source Es.
    apply returns_at; [lia|]. intros move Em.
    apply returns_at; [lia|]. intros head Eh.
    pose proof (fg_split _ _ _ Hfit _ _ _ Es Eh) as Hhead.
    destruct (decide (head <= length (outgoing source))%nat) as [_|?]; [|contradiction].
    apply returns_bind
      with (J := fun acc : store * Labelling.interval => shaped g down_heads acc.1).
    + apply returns_loop; [|exact Hst].
      intros [st0 dr] i e H0 Ee. cbn [fst snd Nat.add] in *. unfold follow_edge.
      pose proof (fg_edges _ _ _ Hfit _ _ _ _ Es Eh (list_elem_of_lookup_2 _ _ _ Ee)) as Ht.
      apply returns_at; [lia|]. intros fm_t Et.
      destruct (intersect fm_t move) eqn:Hi; [|apply returns_done; exact H0].
      assert (follows g down_heads first_move s i e) as Hf
        by (exists source, head, move, fm_t; auto 10).
      cbn [fst snd].
      apply returns_at; [destruct H0 as (_ & -> & _); exact Ht|]. intros sub _.
      apply returns_bind
        with (J := fun r : Labelling.interval * store => shaped g down_heads r.2).
      { destruct (Labelling.left sub =? INT32_MAX); [|apply returns_done; exact H0].
        apply returns_bind
          with (J := fun r : Labelling.interval * store => shaped g down_heads r.2).
        - apply IH; [exact Ht| |exact H0]. specialize (Hdesc _ _ _ Hf). lia.
        - intros [ra sta] (A1 & A2 & A3). cbn [fst snd] in *.
          apply returns_set_at; [lia|]. apply returns_done.
          split; [exact A1|]. split; [|exact A3].
          cbn [snd node_range]. rewrite length_insert. exact A2. }
      intros [r1 st1] (A1 & A2 & A3 & A4). cbn [fst snd] in *.
      apply returns_at; [lia|]. intros row Erow.
      pose proof (A4 _ _ _ _ Es Eh Erow) as Hrow.
      apply lookup_lt_Some in Ee. rewrite length_drop in Ee.
      apply returns_set_at; [lia|]. apply returns_set_at; [lia|].
      apply returns_done. unfold shaped, rows_fit.
      cbn [fst node_labels_ node_range edge_labels_]. rewrite length_insert.
      split; [exact A1|]. split; [exact A2|]. split; [exact A3|].
      intros v source' head' row' Es' Eh' Er'.
      destruct (decide (v = s)) as [->|Hne].
      * rewrite list_lookup_insert_eq in Er' by lia. injection Er' as <-.
        rewrite length_insert. congruence.
      * rewrite list_lookup_insert_ne in Er' by congruence. eauto.
    + intros [ste dr] (A1 & A2 & A3). cbn [fst snd] in *.
      apply returns_at; [lia|]. intros l _.
      apply returns_bind with (J := fun nl : list Z => length nl = get_num_nodes g).
      { destruct (l =? INT32_MAX); [|apply returns_done; exact A1].
        assert (s < length (node_labels_ ste))%nat as Hlt by lia.
        rewrite (proj2 (set_at_Done _ _ (next_label ste) _) (conj Hlt eq_refl)).
        apply returns_done. rewrite length_insert. exact A1. }
      intros nl Hnl. apply returns_at; [lia|]. intros l' _.
      apply returns_done. cbn [snd]. split; [exact Hnl|]. split; [exact A2|exact A3].
Qed.

(** X28.  The pass returns on inputs that fit the graph: with a split index
    and a first-move label per node, followed edges that lead to nodes of
    lower rank, and a row of one label per down edge for every node, no
    access of [label_fn] is out of range and the recursion ends; a depth
    above the rank of the start node is enough. *)
Theorem postorder_pass_returns (fuel : nat) (s : nat)
    (rows : list (list Labelling.interval)) :
  (s < get_num_nodes g)%nat -> rk s < Z.of_nat fuel -> rows_fit g down_heads rows ->
  returns (fun r => shaped g down_heads r.2)
    (label_fn g down_heads first_move fuel s (initial (get_num_nodes g) rows)).
Proof.
  intros Hs Hfuel Hrows. apply postorder_fn_total; [exact Hs|exact Hfuel|].
  split; [apply length_replicate|]. split; [apply length_replicate|exact Hrows].
Qed.

Variable rank : list Z.

Lemma postorder_size_rows_total (ids : list nat) :
  forall (P : nat -> Prop) (apex : nat) (el : list (list Labelling.interval)),
    length rank = get_num_nodes g ->
    (apex < get_num_nodes g)%nat ->
    Forall (fun i => (i < get_num_nodes g)%nat) ids ->
    length el = get_num_nodes g ->
    (forall v row, el !! v = Some row ->
       exists m, row = replicate m Labelling.interval_new) ->
    (forall v source head, P v ->
       nodes g !! v = Some source -> down_heads !! v = Some head ->
       el !! v = Some (replicate (length (outgoing source) - head)
                                 Labelling.interval_new)) ->
    (forall v rv ra, P v -> rank !! v = Some rv -> rank !! apex = Some ra -> rv <= ra) ->
    returns (fun r : nat * list (list Labelling.interval) =>
               (r.1 < get_num_nodes g)%nat /\ length r.2 = get_num_nodes g
               /\ (forall v source head, P v \/ v ∈ ids ->
                     nodes g !! v = Some source -> down_heads !! v = Some head ->
                     r.2 !! v = Some (replicate (length (outgoing source) - head)
                                                Labelling.interval_new))
               /\ (forall v rv ra, P v \/ v ∈ ids ->
                     rank !! v = Some rv -> rank !! r.1 = Some ra -> rv <= ra))
            (size_rows g rank down_heads apex el ids).
Proof.
  pose proof (fg_heads _ _ _ Hfit) as Hheads.
  induction ids as [|i ids IH]; intros P apex el Hrank Ha Hids Hlen Hnew HP Hmax.
  - apply returns_done. cbn [fst snd]. split; [exact Ha|]. split; [exact Hlen|].
    split; intros v ? ? [Hv|Hv]; try (inversion Hv; fail); eauto.
  - apply Forall_cons in Hids as [Hi Hids]. cbn [size_rows]. unfold get_node.
    apply returns_at; [lia|]. intros rc Erc.
    apply returns_at; [lia|]. intros rs Ers.
    apply returns_at; [exact Hi|]. intros cur Ecur.
    apply returns_at; [lia|]. intros head Eh.
    apply returns_at; [lia|]. intros row Erow.
    apply returns_set_at; [lia|].
    pose proof (fg_split _ _ _ Hfit _ _ _ Ecur Eh) as Hhead.
    pose proof (fg_degree _ _ _ Hfit _ _ Ecur) as Hdeg. unfold out_degree in *.
    assert (Z.to_nat (Astar.u32 (Z.of_nat (length (outgoing cur)) - Z.of_nat head))
            = (length (outgoing cur) - head)%nat) as ->.
    { unfold Astar.u32. rewrite Z.mod_small by lia. lia. }
    destruct (Hnew _ _ Erow) as [m ->]. rewrite resize_replicate.
    eapply returns_mono; [|apply (IH (fun v => P v \/ v = i))].
    + cbv beta. intros r (B1 & B2 & B3 & B4). split; [exact B1|]. split; [exact B2|].
      split; intros v ? ? Hv; [apply B3|apply B4]; rewrite elem_of_cons in Hv; tauto.
    + exact Hrank.
    + destruct (rs <? rc); assumption.
    + exact Hids.
    + rewrite length_insert. exact Hlen.
    + intros v row' Ev. destruct (decide (v = i)) as [->|Hne].
      * rewrite list_lookup_insert_eq in Ev by lia. injection Ev as <-. eauto.
      * rewrite list_lookup_insert_ne in Ev by congruence. eauto.
    + intros v source head' Hv Es Eh'. destruct (decide (v = i)) as [->|Hne].
      * rewrite list_lookup_insert_eq by lia. repeat f_equal; congruence.
      * rewrite list_lookup_insert_ne by congruence.
        destruct Hv as [Hv|Hv]; [eauto|contradiction].
    + intros v rv ra Hv Erv Era. destruct (Z.ltb_spec rs rc) as [Hlt|Hge].
      * assert (ra = rc) as -> by congruence.
        destruct Hv as [Hv| ->]; [|assert (rv = rc) by congruence; lia].
        pose proof (Hmax v rv rs Hv Erv Ers). lia.
      * assert (ra = rs) as -> by congruence.
        destruct Hv as [Hv| ->]; [exact (Hmax v rv rs Hv Erv Ers)|].
        assert (rv = rc) by congruence. lia.
Qed.

(** X29.  The set-up loop of [compute_down_dijkstra_postorder], with one
    rank per node and at least one node: it returns a node that no node
    outranks, and it leaves every node with a row of one empty label per
    down edge. *)
Theorem set_up_gives_empty_rows :
  length rank = get_num_nodes g -> (0 < get_num_nodes g)%nat ->
  returns (fun r : nat * list (list Labelling.interval) =>
             (r.1 < get_num_nodes g)%nat /\ rows_fit g down_heads r.2
             /\ Forall (Forall (fun l => l = Labelling.interval_new)) r.2
             /\ forall v rv ra, rank !! v = Some rv -> rank !! r.1 = Some ra -> rv <= ra)
          (size_rows g rank down_heads 0%nat (replicate (get_num_nodes g) [])
                     (seq 0 (length rank))).
Proof.
  intros Hrank Hpos.
  eapply returns_mono;
    [|apply (postorder_size_rows_total (seq 0 (length rank)) (fun _ => False))].
  - cbv beta. intros r (B1 & B2 & B3 & B4).
    assert (forall v, (v < get_num_nodes g)%nat -> v ∈ seq 0 (length rank)) as Hin
      by (intros v Hv; apply elem_of_seq; lia).
    split; [exact B1|]. split; [split; [exact B2|]|split].
    + intros v source head row Es Eh Er.
      rewrite (B3 v source head) in Er; auto.
      * injection Er as <-. apply length_replicate.
      * right. apply Hin. exact (lookup_lt_Some _ _ _ Es).
    + apply Forall_forall. intros row Hrow.
      apply list_elem_of_lookup_1 in Hrow as [v Ev].
      pose proof (lookup_lt_Some _ _ _ Ev) as Hv. rewrite B2 in Hv.
      destruct (lookup_lt_is_Some_2 (nodes g) v Hv) as [source Es].
      destruct (lookup_lt_is_Some_2 down_heads v) as [head Eh];
        [rewrite (fg_heads _ _ _ Hfit); exact Hv|].
      rewrite (B3 v source head) in Ev; auto.
      injection Ev as <-. apply Forall_replicate. reflexivity.
    + intros v rv ra Erv. apply (B4 v); [|exact Erv]. right. apply Hin.
      apply lookup_lt_Some in Erv. lia.
  - exact Hrank.
  - exact Hpos.
  - apply Forall_forall. intros i Hi. apply elem_of_seq in Hi. lia.
  - apply length_replicate.
  - intros v row Ev. apply lookup_replicate in Ev as [-> _]. exists 0%nat. reflexivity.
  - contradiction.
  - contradiction.
Qed.

End Returns.

(** In the four-node graph every down edge leads to a node of smaller
    index. *)
Lemma four_down_descends :
  forall v idx e,
    follows FourNodes.graph FourDown.down_heads FourDown.first_move v idx e ->
    Z.of_nat (node_id_ e) < Z.of_nat v.
Proof.
  intros v idx e (source & head & mv & mt & Es & Eh & Ee & _).
  do 4 (destruct v as [|v];
        [injection Es as <-; injection Eh as <-; cbn in Ee;
         repeat (destruct idx as [|idx]; [injection Ee as <-; cbn; lia|]);
         discriminate Ee|]).
  discriminate Es.
Defined.

Lemma four_down_fits :
  fits_graph FourNodes.graph FourDown.down_heads FourDown.first_move.
Proof.
  split; try reflexivity.
  - intros v source head Es Eh.
    do 4 (destruct v as [|v]; [injection Es as <-; injection Eh as <-; cbn; lia|]).
    discriminate Es.
  - intros v source head e Es Eh He.
    do 4 (destruct v as [|v];
          [injection Es as <-; injection Eh as <-; cbn in He;
           repeat (apply elem_of_cons in He as [->|He]; [cbn; lia|]); inversion He|]).
    discriminate Es.
  - intros v source Es.
    do 4 (destruct v as [|v]; [injection Es as <-; cbn; lia|]).
    discriminate Es.
Defined.

Lemma four_down_rows : rows_fit FourNodes.graph FourDown.down_heads FourDown.rows.
Proof.
  split; [reflexivity|]. intros v source head row Es Eh Er.
  do 4 (destruct v as [|v];
        [injection Es as <-; injection Eh as <-; injection Er as <-; reflexivity|]).
  discriminate Es.
Defined.

(** The four-node graph: the label of edge 0 of the apex, which leads to
    node 1, holds the postorder id of node 0, one followed edge further
    down. *)
Lemma edge_labels_hold_followed_closure_witness :
  exists r st',
    label_fn FourNodes.graph FourDown.down_heads FourDown.first_move 10 3
      (initial (get_num_nodes FourNodes.graph) FourDown.rows) = Done (r, st')
    /\ exists l lt, edge_label st' 3 0 = Some l
         /\ node_labels_ st' !! 0%nat = Some lt /\ lt <> INT32_MAX
         /\ Labelling.interval_contains l lt = true.
Proof.
  match goal with |- exists r st', ?run = Done (r, st') /\ _ =>
    destruct run as [[r st']| |] eqn:Hrun; try (vm_compute in Hrun; discriminate) end.
  exists r, st'. split; [reflexivity|].
  destruct (edge_labels_hold_followed_closure
              FourNodes.graph FourDown.down_heads FourDown.first_move Z.of_nat
              four_down_descends 10 3 FourDown.rows r st') as [_ Hedges];
    [vm_compute; discriminate|exact Hrun|].
  destruct (Hedges 3%nat 0%nat {| node_id_ := 1; wt_ := 1 |}) as (l & El & Hl).
  - apply follow_here.
  - eexists _, _, _, _. repeat split; reflexivity.
  - destruct (Hl 0%nat) as (lt & Elt & Hlt & Hc); [|eauto 10].
    apply (follow_step _ _ _ 1 0 {| node_id_ := 0; wt_ := 1 |}); [|apply follow_here].
    eexists _, _, _, _. repeat split; reflexivity.
Defined.

(** The four-node graph: node 1, at the end of edge 0 of the apex, has a
    smaller postorder id than the apex. *)
Lemma followed_edges_lead_to_smaller_ids_witness :
  exists r st',
    label_fn FourNodes.graph FourDown.down_heads FourDown.first_move 10 3
      (initial (get_num_nodes FourNodes.graph) FourDown.rows) = Done (r, st')
    /\ exists lv lt, node_labels_ st' !! 3%nat = Some lv
         /\ node_labels_ st' !! 1%nat = Some lt /\ lt < lv.
Proof.
  match goal with |- exists r st', ?run = Done (r, st') /\ _ =>
    destruct run as [[r st']| |] eqn:Hrun; try (vm_compute in Hrun; discriminate) end.
  exists r, st'. split; [reflexivity|].
  destruct (followed_edges_lead_to_smaller_ids
              FourNodes.graph FourDown.down_heads FourDown.first_move Z.of_nat
              four_down_descends 10 3 FourDown.rows r st') as (_ & _ & _ & Hedges);
    [vm_compute; discriminate|exact Hrun|].
  apply (Hedges 3%nat 0%nat {| node_id_ := 1; wt_ := 1 |}).
  - apply follow_here.
  - eexists _, _, _, _. repeat split; reflexivity.
Defined.

(** The four-node graph with node 0 reached by another first move than
    node 1: the edge from node 1 to node 0 is not followed and keeps its
    empty label. *)
Lemma unfollowed_edges_keep_their_label_witness :
  exists r st',
    label_fn FourNodes.graph FourDown.down_heads FourDown.first_move_apart 10 3
      (initial (get_num_nodes FourNodes.graph) FourDown.rows) = Done (r, st')
    /\ edge_label st' 1 0 = Some Labelling.interval_new.
Proof.
  match goal with |- exists r st', ?run = Done (r, st') /\ _ =>
    destruct run as [[r st']| |] eqn:Hrun; try (vm_compute in Hrun; discriminate) end.
  exists r, st'. split; [reflexivity|].
  rewrite (unfollowed_edges_keep_their_label
             FourNodes.graph FourDown.down_heads FourDown.first_move_apart
             10 3 (initial (get_num_nodes FourNodes.graph) FourDown.rows) r st' 1 0);
    [reflexivity| |exact Hrun].
  intros e (source & head & mv & mt & Es & Eh & Ee & Emv & Emt & Hint).
  injection Es as <-. injection Eh as <-. injection Ee as <-.
  injection Emv as <-. injection Emt as <-. vm_compute in Hint. discriminate Hint.
Defined.

(** The four-node graph: the pass from the apex returns with ten levels of
    recursion. *)
Lemma postorder_pass_returns_witness :
  returns (fun r => shaped FourNodes.graph FourDown.down_heads r.2)
    (label_fn FourNodes.graph FourDown.down_heads FourDown.first_move 10 3
       (initial (get_num_nodes FourNodes.graph) FourDown.rows)).
Proof.
  apply (postorder_pass_returns
           FourNodes.graph FourDown.down_heads FourDown.first_move Z.of_nat
           four_down_fits four_down_descends).
  - intros v. lia.
  - cbn. lia.
  - cbn. lia.
  - exact four_down_rows.
Defined.

(** The four-node graph: the set-up loop returns with the rows of the
    right lengths. *)
Lemma set_up_gives_empty_rows_witness :
  returns (fun r : nat * list (list Labelling.interval) =>
             (r.1 < get_num_nodes FourNodes.graph)%nat
             /\ rows_fit FourNodes.graph FourDown.down_heads r.2
             /\ Forall (Forall (fun l => l = Labelling.interval_new)) r.2
             /\ forall v rv ra, FourNodes.rank !! v = Some rv ->
                  FourNodes.rank !! r.1 = Some ra -> rv <= ra)
          (size_rows FourNodes.graph FourNodes.rank FourDown.down_heads 0%nat
             (replicate (get_num_nodes FourNodes.graph) [])
             (seq 0 (length FourNodes.rank))).
Proof.
  apply (set_up_gives_empty_rows
           FourNodes.graph FourDown.down_heads FourDown.first_move four_down_fits).
  - reflexivity.
  - cbn. lia.
Defined.

End PostorderFacts.
